(** * MiniJson: a shallow embedding of [minijson.hpp]

    The header defines one class, [Json], holding a
    [std::variant<Null, bool, double, std::string, Array, Object>], a
    serializer ([dump] / [dump_impl] / [escape]) and a recursive-descent
    parser ([Json::Parser]).  This file embeds the three parts and proves
    properties of them.

    Conventions of the embedding:
    - a [std::string] / [std::string_view] is a [string] (a list of 8-bit
      characters); a [char] is an [ascii], compared through its code;
    - a [double] is a [spec_float] at precision 53 and [emax] 1024 (binary64);
    - a [std::map<std::string, Json>] is an association list kept in
      strictly ascending key order, the order in which the map iterates;
    - a C++ exception is an [Err] result. *)

From Stdlib Require Import ZArith NArith List String Ascii Bool Lia Sorted.
From Stdlib Require Import Floats.SpecFloat.
Import ListNotations.

Set Warnings "-register-all".

Local Open Scope string_scope.
Local Open Scope Z_scope.

(** ** Characters *)

Definition code (c : ascii) : Z := Z.of_N (N_of_ascii c).
Definition char_of (n : Z) : ascii := ascii_of_N (Z.to_N n).

Definition NUL : ascii := "000"%char.
Definition BS : ascii := "008"%char.          (* '\b' *)
Definition TAB : ascii := "009"%char.         (* '\t' *)
Definition LF : ascii := "010"%char.          (* '\n' *)
Definition VT : ascii := "011"%char.          (* '\v' *)
Definition FF : ascii := "012"%char.          (* '\f' *)
Definition CR : ascii := "013"%char.          (* '\r' *)
Definition SP : ascii := " "%char.
Definition DQ : ascii := "034"%char.          (* the double quote *)
Definition BSL : ascii := "\"%char.           (* the backslash *)

Definition chr (c : ascii) : string := String c EmptyString.

(** [std::isspace] and [std::isdigit] in the "C" locale. *)
Definition isspace (c : ascii) : bool :=
  (code c =? 32) || ((9 <=? code c) && (code c <=? 13)).

Definition isdigit (c : ascii) : bool :=
  (48 <=? code c) && (code c <=? 57).

(** JSON texts are written with ['] standing for the double quote:
    [json "{'a':1}"] is the seven-byte text whose second byte is a double
    quote. *)
Fixpoint json (s : string) : string :=
  match s with
  | EmptyString => EmptyString
  | String c r => String (if Ascii.eqb c "'" then DQ else c) (json r)
  end.

(** ** Results and exceptions *)

Inductive exn : Type :=
| SyntaxError (what : string)   (* std::runtime_error thrown by the parser *)
| OutOfRange                    (* std::out_of_range thrown by std::stod *)
| InvalidArgument               (* std::invalid_argument thrown by std::stod *)
| TypeMismatch                  (* std::bad_variant_access thrown by std::get *)
| KeyNotFound                   (* std::out_of_range thrown by std::map::at *)
| OutOfFuel.                    (* the model ran out of fuel; never the code *)

Inductive result (A : Type) : Type :=
| Ok (a : A)
| Err (e : exn).
Arguments Ok {A} a.
Arguments Err {A} e.

(** ** The value model *)

Definition double := spec_float.

Inductive Json : Type :=
| Null
| Bool (b : bool)
| Num (d : double)
| Str (s : string)
| Arr (a : list Json)
| Obj (o : list (string * Json)).

Definition Array := list Json.
Definition Object := list (string * Json).

(** [Json(int i)]: [static_cast<double>(i)]. *)
Definition of_int (i : Z) : Json := Num (binary_normalize 53 1024 i 0 false).

Definition array : Json := Arr [].
Definition object : Json := Obj [].

Definition is_null (j : Json) := match j with Null => true | _ => false end.
Definition is_bool (j : Json) := match j with Bool _ => true | _ => false end.
Definition is_num (j : Json) := match j with Num _ => true | _ => false end.
Definition is_str (j : Json) := match j with Str _ => true | _ => false end.
Definition is_array (j : Json) := match j with Arr _ => true | _ => false end.
Definition is_object (j : Json) := match j with Obj _ => true | _ => false end.

(** [std::get<T>(v_)]: throws when [T] is not the active alternative. *)
Definition as_bool (j : Json) : result bool :=
  match j with Bool b => Ok b | _ => Err TypeMismatch end.
Definition as_num (j : Json) : result double :=
  match j with Num d => Ok d | _ => Err TypeMismatch end.
Definition as_str (j : Json) : result string :=
  match j with Str s => Ok s | _ => Err TypeMismatch end.
Definition as_array (j : Json) : result Array :=
  match j with Arr a => Ok a | _ => Err TypeMismatch end.
Definition as_object (j : Json) : result Object :=
  match j with Obj o => Ok o | _ => Err TypeMismatch end.

(** ** [std::map<std::string, Json>]

    [std::less<std::string>] is the lexicographic order on bytes, which is
    [String.compare]. *)
Module StdMap.

Definition key_lt (a b : string) : Prop := String.compare a b = Lt.

Fixpoint find (k : string) (m : Object) : option Json :=
  match m with
  | [] => None
  | (k', v) :: m' =>
      match String.compare k k' with
      | Eq => Some v
      | Lt => None
      | Gt => find k m'
      end
  end.

(** [m.emplace(k, v)]: inserts only when [k] is absent. *)
Fixpoint emplace (k : string) (v : Json) (m : Object) : Object :=
  match m with
  | [] => [(k, v)]
  | (k', v') :: m' =>
      match String.compare k k' with
      | Eq => (k', v') :: m'
      | Lt => (k, v) :: (k', v') :: m'
      | Gt => (k', v') :: emplace k v m'
      end
  end.

(** [m[k]]: value-initialises the entry when [k] is absent; the second
    component is the referenced element. *)
Definition subscript (k : string) (m : Object) : Object * Json :=
  match find k m with
  | Some v => (m, v)
  | None => (emplace k Null m, Null)
  end.

Definition count (k : string) (m : Object) : nat :=
  match find k m with Some _ => 1%nat | None => 0%nat end.

Definition at_ (k : string) (m : Object) : result Json :=
  match find k m with Some v => Ok v | None => Err KeyNotFound end.

Definition keys (m : Object) : list string := map fst m.

Definition sorted (m : Object) : Prop := Sorted key_lt (keys m).

End StdMap.

(** ** Builder operations *)

(** [Json& operator[](const std::string& key)]: the pair is the receiver
    after the call and the element the returned reference designates. *)
Definition subscript (key : string) (j : Json) : result (Json * Json) :=
  let j1 := if negb (is_object j) then Obj [] else j in
  match as_object j1 with
  | Ok o => let (o', r) := StdMap.subscript key o in Ok (Obj o', r)
  | Err e => Err e
  end.

Definition at_ (key : string) (j : Json) : result Json :=
  match as_object j with
  | Ok o => StdMap.at_ key o
  | Err e => Err e
  end.

Definition contains (key : string) (j : Json) : bool :=
  if negb (is_object j) then false
  else match j with
       | Obj o => negb (Nat.eqb (StdMap.count key o) 0)
       | _ => false
       end.

(** [void push_back(const Json& j)]: the result is the receiver after the
    call. *)
Definition push_back (x : Json) (j : Json) : result Json :=
  let j1 := if negb (is_array j) then Arr [] else j in
  match as_array j1 with
  | Ok a => Ok (Arr (a ++ [x])%list)
  | Err e => Err e
  end.

(** ** Serialization *)

(** [hex[n]] for the table ["0123456789ABCDEF"]. *)
Definition hex (n : Z) : ascii :=
  if n <? 10 then char_of (48 + n) else char_of (55 + n).

(** One iteration of the loop of [escape]. *)
Definition escape_char (c : ascii) : string :=
  if Ascii.eqb c DQ then String BSL (chr DQ)
  else if Ascii.eqb c BSL then String BSL (chr BSL)
  else if Ascii.eqb c BS then String BSL "b"
  else if Ascii.eqb c FF then String BSL "f"
  else if Ascii.eqb c LF then String BSL "n"
  else if Ascii.eqb c CR then String BSL "r"
  else if Ascii.eqb c TAB then String BSL "t"
  else if code c <? 32 then
    String BSL "u00" ++ chr (hex (Z.land (Z.shiftr (code c) 4) 15))
                     ++ chr (hex (Z.land (code c) 15))
  else chr c.

Fixpoint escape (s : string) : string :=
  match s with
  | EmptyString => EmptyString
  | String c r => escape_char c ++ escape r
  end.

(** *** [oss.precision(15); oss << d]

    With the default float field the stream formats as [printf("%.15g")]:
    the value is rounded (to nearest, ties to even) to 15 significant
    decimal digits; with [X] the decimal exponent of the rounded value, the
    fixed style is used when [-4 <= X < 15] and the scientific style
    otherwise, and trailing zeros of the fraction are removed. *)
Module Fmt.

Definition digit (d : Z) : ascii := char_of (48 + d).

(** The [k] low decimal digits of [n], most significant first. *)
Fixpoint digits (k : nat) (n : Z) (acc : string) : string :=
  match k with
  | O => acc
  | S k' => digits k' (n / 10) (String (digit (n mod 10)) acc)
  end.

(** The decimal numeral of [n >= 0] (at least one digit). *)
Fixpoint numeral (fuel : nat) (n : Z) (acc : string) : string :=
  match fuel with
  | O => acc
  | S f =>
      let acc' := String (digit (n mod 10)) acc in
      if n <? 10 then acc' else numeral f (n / 10) acc'
  end.

(** Removes the trailing ['0'] characters. *)
Fixpoint strip_zeros (s : string) : string :=
  match s with
  | EmptyString => EmptyString
  | String c r =>
      match strip_zeros r with
      | EmptyString => if Ascii.eqb c "0" then EmptyString else chr c
      | r' => String c r'
      end
  end.

Definition with_fraction (ip fp : string) : string :=
  match strip_zeros fp with
  | EmptyString => ip
  | f => ip ++ "." ++ f
  end.

Fixpoint zeros (n : nat) : string :=
  match n with O => EmptyString | S n' => String "0" (zeros n') end.

(** Brings [num / den] into [[1, 10)], counting the decimal exponent. *)
Fixpoint scale10 (fuel : nat) (num den X : Z) : Z * Z * Z :=
  match fuel with
  | O => (num, den, X)
  | S f =>
      if num <? den then scale10 f (10 * num) den (X - 1)
      else if 10 * den <=? num then scale10 f num (10 * den) (X + 1)
      else (num, den, X)
  end.

(** [a / b] rounded to the nearest integer, ties to even. *)
Definition round_div (a b : Z) : Z :=
  let q := a / b in
  match Z.compare (2 * (a mod b)) b with
  | Lt => q
  | Gt => q + 1
  | Eq => if Z.even q then q else q + 1
  end.

(** The 15 significant digits [D] and the decimal exponent [X] of the
    positive rational [num / den]: [D * 10^(X - 14)] is its rounding. *)
(** More steps than [scale10] needs: it multiplies by 10 at each one. *)
Definition scale_fuel (num den : Z) : nat :=
  Z.to_nat (Z.log2 num + Z.log2 den + 2).

Definition sig15 (num den : Z) : Z * Z :=
  let '(n, d, X) := scale10 (scale_fuel num den) num den 0 in
  let D := round_div (n * 10 ^ 14) d in
  if D =? 10 ^ 15 then (10 ^ 14, X + 1) else (D, X).

Definition exponent (X : Z) : string :=
  (if X <? 0 then "-" else "+") ++
  (if Z.abs X <? 10 then "0" else "") ++ numeral 20 (Z.abs X) "".

Definition g15 (num den : Z) : string :=
  let '(D, X) := sig15 num den in
  let ds := digits 15 D "" in
  if (X <? -4) || (15 <=? X) then
    with_fraction (substring 0 1 ds) (substring 1 14 ds) ++ "e" ++ exponent X
  else if 0 <=? X then
    let n := Z.to_nat (X + 1) in
    with_fraction (substring 0 n ds) (substring n (15 - n) ds)
  else
    with_fraction "0" (zeros (Z.to_nat (- X - 1)) ++ ds).

(** The text of a double.  A NaN has no sign in [spec_float]: the stream
    writes [nan] or, when the sign bit is set, [-nan]; the model writes
    [nan] for both. *)
Definition double (d : double) : string :=
  match d with
  | S754_zero s => if s then "-0" else "0"
  | S754_infinity s => if s then "-inf" else "inf"
  | S754_nan => "nan"
  | S754_finite s m e =>
      (if s then "-" else "") ++
      (if 0 <=? e then g15 (Zpos m * 2 ^ e) 1 else g15 (Zpos m) (2 ^ (- e)))
  end.

End Fmt.

(** *** [dump_impl] and [dump] *)

Fixpoint spaces (n : nat) : string :=
  match n with O => EmptyString | S n' => String SP (spaces n') end.

(** The lambda [ind]: [d * indent] spaces in pretty mode. *)
Definition ind (indent d : Z) : string :=
  if 0 <=? indent then spaces (Z.to_nat (d * indent)) else "".

(** [if (indent >= 0) out += c]. *)
Definition pretty (indent : Z) (c : string) : string :=
  if 0 <=? indent then c else "".

Section DumpLoops.

(** The recursive call [dump_impl(out, indent, depth + 1)]. *)
Variable dump_nested : Json -> string.
Variables indent depth : Z.

(** The loop over [a[i]]; the comma is written when [i + 1 < a.size()]. *)
Fixpoint dump_elements (l : list Json) : string :=
  match l with
  | [] => ""
  | x :: l' =>
      ind indent (depth + 1) ++
      dump_nested x ++
      match l' with [] => "" | _ => "," end ++
      pretty indent (chr LF) ++ dump_elements l'
  end.

(** The loop over [kv : o]; the comma is written when [++i < o.size()]. *)
Fixpoint dump_members (l : list (string * Json)) : string :=
  match l with
  | [] => ""
  | (k, v) :: l' =>
      ind indent (depth + 1) ++
      chr DQ ++ escape k ++ chr DQ ++ ":" ++
      pretty indent " " ++
      dump_nested v ++
      match l' with [] => "" | _ => "," end ++
      pretty indent (chr LF) ++ dump_members l'
  end.

End DumpLoops.

Fixpoint dump_impl (indent depth : Z) (j : Json) : string :=
  match j with
  | Null => "null"
  | Bool b => if b then "true" else "false"
  | Num d => Fmt.double d
  | Str s => chr DQ ++ escape s ++ chr DQ
  | Arr a =>
      "[" ++
      match a with
      | [] => ""
      | _ =>
          pretty indent (chr LF) ++
          dump_elements (dump_impl indent (depth + 1)) indent depth a ++
          ind indent depth
      end ++ "]"
  | Obj o =>
      "{" ++
      match o with
      | [] => ""
      | _ =>
          pretty indent (chr LF) ++
          dump_members (dump_impl indent (depth + 1)) indent depth o ++
          ind indent depth
      end ++ "}"
  end.

(** [dump(indent)]; the default argument is [-1], the compact mode. *)
Definition dump (indent : Z) (j : Json) : string := dump_impl indent 0 j.
Definition compact : Z := -1.

(** ** [std::stod]

    [std::stod] calls [strtod] and throws [std::out_of_range] when [strtod]
    reports [ERANGE], [std::invalid_argument] when nothing was converted.
    Only the decimal form is modelled (sign, digits, fraction, exponent): it
    is the only one the parser passes.  The conversion is the correct
    rounding (to nearest, ties to even) of the exact decimal value.  [ERANGE]
    is reported on overflow, as ISO C requires, and on underflow as glibc
    reports it on x86-64: when the result differs from the exact value and
    the exact value is tiny, which is decided after rounding. *)
Module Stod.

Definition prec : Z := 53.
Definition emax : Z := 1024.

Fixpoint span_digits (s : string) : string * string :=
  match s with
  | String c r =>
      if isdigit c then let (d, r') := span_digits r in (String c d, r')
      else (EmptyString, s)
  | EmptyString => (EmptyString, EmptyString)
  end.

Fixpoint value (acc : Z) (ds : string) : Z :=
  match ds with
  | EmptyString => acc
  | String c r => value (10 * acc + (code c - 48)) r
  end.

Definition sign (s : string) : bool * string :=
  match s with
  | String c r =>
      if Ascii.eqb c "-" then (true, r)
      else if Ascii.eqb c "+" then (false, r)
      else (false, s)
  | EmptyString => (false, s)
  end.

Definition exponent (s : string) : Z :=
  match s with
  | String c r =>
      if Ascii.eqb c "e" || Ascii.eqb c "E" then
        let (neg, r1) := sign r in
        let (ds, _) := span_digits r1 in
        if neg then - value 0 ds else value 0 ds
      else 0
  | EmptyString => 0
  end.

(** [num / den] as a fraction of integers for [m * 10 ^ e10]. *)
Definition fraction (m e10 : Z) : Z * Z :=
  if 0 <=? e10 then (m * 10 ^ e10, 1) else (m, 10 ^ (- e10)).

(** The binary64 nearest to [num / den], with the given sign. *)
Definition nearest (neg : bool) (num den : Z) : double :=
  if num =? 0 then S754_zero neg
  else
    let '(q, e, l) := SFdiv_core_binary prec emax num 0 den 0 in
    binary_round_aux prec emax neg q e l.

Definition exact (d : double) (num den : Z) : bool :=
  match d with
  | S754_finite _ m e =>
      if 0 <=? e then Zpos m * 2 ^ e * den =? num
      else Zpos m * den =? num * 2 ^ (- e)
  | S754_zero _ => num =? 0
  | _ => false
  end.

(** [num / den] is tiny: rounded to 53 bits with no bound on the exponent
    it is below [2^-1022], the smallest normal number.  The largest such
    value below [2^-1022] is [2^-1022 - 2^-1075], and the midpoint
    [2^-1022 - 2^-1076], which is [(2^54 - 1) * 2^-1076], rounds up to
    [2^-1022] (ties to even): the tiny values are those below it. *)
Definition tiny (num den : Z) : bool :=
  num * 2 ^ 1076 <? (2 ^ 54 - 1) * den.

Definition erange (d : double) (num den : Z) : bool :=
  match d with
  | S754_infinity _ | S754_nan => true
  | _ => tiny num den && negb (exact d num den)
  end.

Definition stod (s : string) : result double :=
  let (neg, s1) := sign s in
  let (ip, s2) := span_digits s1 in
  let (fp, s3) :=
    match s2 with
    | String c r => if Ascii.eqb c "." then span_digits r else (EmptyString, s2)
    | EmptyString => (EmptyString, s2)
    end in
  match ip ++ fp with
  | EmptyString => Err InvalidArgument
  | ds =>
      let (num, den) :=
        fraction (value 0 ds) (exponent s3 - Z.of_nat (String.length fp)) in
      let d := nearest neg num den in
      if erange d num den then Err OutOfRange else Ok d
  end.

End Stod.

(** ** The parser

    The parser state is the view [s] and the cursor [i]; the model keeps the
    unread suffix [s[i..]], which is all the code ever looks at: [eof] is the
    empty suffix, [peek] its first byte, [get] removes it. *)

Definition Parser (A : Type) : Type := string -> result (A * string).

Definition ret {A} (a : A) : Parser A := fun st => Ok (a, st).

Definition bind {A B} (p : Parser A) (k : A -> Parser B) : Parser B :=
  fun st =>
    match p st with
    | Ok (a, st') => k a st'
    | Err e => Err e
    end.

Definition throw {A} (what : string) : Parser A :=
  fun _ => Err (SyntaxError what).

Notation "x <- p ;; k" := (bind p (fun x => k))
  (at level 61, p at next level, right associativity).
Notation "p ;; k" := (bind p (fun _ => k))
  (at level 61, right associativity).

Definition eof : Parser bool :=
  fun st => match st with EmptyString => Ok (true, st) | _ => Ok (false, st) end.

Definition peek : Parser ascii :=
  fun st => match st with EmptyString => Ok (NUL, st) | String c _ => Ok (c, st) end.

Definition get : Parser ascii :=
  fun st => match st with EmptyString => Ok (NUL, st) | String c r => Ok (c, r) end.

(** [++i], only ever executed when a byte was just seen by [peek]. *)
Definition advance : Parser unit :=
  fun st => match st with EmptyString => Ok (tt, st) | String _ r => Ok (tt, r) end.

Fixpoint drop_ws (st : string) : string :=
  match st with
  | String c r => if isspace c then drop_ws r else st
  | EmptyString => st
  end.

Definition skip_ws : Parser unit := fun st => Ok (tt, drop_ws st).

Definition expect (c : ascii) : Parser unit :=
  g <- get ;;
  if negb (Ascii.eqb g c) then throw ("JSON: expected '" ++ chr c ++ "'")
  else ret tt.

Definition parse_null : Parser Json :=
  expect "n" ;; expect "u" ;; expect "l" ;; expect "l" ;; ret Null.

Definition parse_bool : Parser Json :=
  c <- peek ;;
  if Ascii.eqb c "t" then
    expect "t" ;; expect "r" ;; expect "u" ;; expect "e" ;; ret (Bool true)
  else
    expect "f" ;; expect "a" ;; expect "l" ;; expect "s" ;; expect "e" ;;
    ret (Bool false).

(** [while (std::isdigit(peek())) ++i]. *)
Fixpoint drop_digits (st : string) : string :=
  match st with
  | String c r => if isdigit c then drop_digits r else st
  | EmptyString => st
  end.

Definition skip_digits : Parser unit := fun st => Ok (tt, drop_digits st).

(** [if (!isdigit(peek())) throw ...; while (isdigit(peek())) ++i]. *)
Definition digits1 : Parser unit :=
  c <- peek ;;
  if negb (isdigit c) then throw "JSON: bad number" else skip_digits.

(** The cursor movements of [parse_number], statement by statement, up to
    the call of [stod]. *)
Definition scan_sign : Parser unit :=
  c <- peek ;; if Ascii.eqb c "-" then advance else ret tt.

Definition scan_int : Parser unit :=
  c <- peek ;; if Ascii.eqb c "0" then advance else digits1.

Definition scan_frac : Parser unit :=
  c <- peek ;; if Ascii.eqb c "." then advance ;; digits1 else ret tt.

Definition scan_exp : Parser unit :=
  c <- peek ;;
  if Ascii.eqb c "e" || Ascii.eqb c "E" then
    advance ;;
    c <- peek ;;
    (if Ascii.eqb c "+" || Ascii.eqb c "-" then advance else ret tt) ;;
    digits1
  else ret tt.

Definition scan_number : Parser unit :=
  scan_sign ;; scan_int ;; scan_frac ;; scan_exp.

(** [s.substr(start, i - start)] is the prefix of the suffix at [start] whose
    length is the number of bytes consumed since. *)
Definition parse_number : Parser Json :=
  fun st0 =>
    match scan_number st0 with
    | Ok (_, st1) =>
        let tok := substring 0 (String.length st0 - String.length st1) st0 in
        match Stod.stod tok with
        | Ok d => Ok (Num d, st1)
        | Err e => Err e
        end
    | Err e => Err e
    end.

(** The loop of [parse_string]; [n] bounds the iterations, each of which
    consumes at least one byte. *)
Fixpoint string_loop (n : nat) (out : string) : Parser string :=
  match n with
  | O => fun _ => Err OutOfFuel
  | S n' =>
      e <- eof ;;
      if e then ret out
      else
        c <- get ;;
        if Ascii.eqb c DQ then ret out
        else if Ascii.eqb c BSL then
          e <- get ;;
          if Ascii.eqb e DQ then string_loop n' (out ++ chr DQ)
          else if Ascii.eqb e BSL then string_loop n' (out ++ chr BSL)
          else if Ascii.eqb e "/" then string_loop n' (out ++ "/")
          else if Ascii.eqb e "b" then string_loop n' (out ++ chr BS)
          else if Ascii.eqb e "f" then string_loop n' (out ++ chr FF)
          else if Ascii.eqb e "n" then string_loop n' (out ++ chr LF)
          else if Ascii.eqb e "r" then string_loop n' (out ++ chr CR)
          else if Ascii.eqb e "t" then string_loop n' (out ++ chr TAB)
          else if Ascii.eqb e "u" then
            h1 <- get ;; h2 <- get ;; h3 <- get ;; h4 <- get ;;
            string_loop n'
              (out ++ String BSL "u" ++ chr h1 ++ chr h2 ++ chr h3 ++ chr h4)
          else throw "JSON: bad escape"
        else string_loop n' (out ++ chr c)
  end.

Definition parse_string_raw : Parser string :=
  expect DQ ;;
  fun st => string_loop (S (String.length st)) "" st.

Definition parse_string : Parser Json :=
  s <- parse_string_raw ;; ret (Str s).

Section Containers.

(** The recursive call [parse_value()]. *)
Variable parse_value : Parser Json.

(** The [while (true)] loop of [parse_array]; [n] bounds the iterations. *)
Fixpoint array_loop (n : nat) (arr : Array) : Parser Json :=
  match n with
  | O => fun _ => Err OutOfFuel
  | S n' =>
      v <- parse_value ;;
      let arr' := (arr ++ [v])%list in
      skip_ws ;;
      c <- get ;;
      if Ascii.eqb c "]" then ret (Arr arr')
      else if negb (Ascii.eqb c ",") then throw "JSON: expected ',' or ']'"
      else skip_ws ;; array_loop n' arr'
  end.

Definition parse_array : Parser Json :=
  expect "[" ;;
  skip_ws ;;
  c <- peek ;;
  if Ascii.eqb c "]" then get ;; ret (Arr [])
  else fun st => array_loop (S (String.length st)) [] st.

(** The [while (true)] loop of [parse_object]. *)
Fixpoint object_loop (n : nat) (obj : Object) : Parser Json :=
  match n with
  | O => fun _ => Err OutOfFuel
  | S n' =>
      skip_ws ;;
      c <- peek ;;
      if negb (Ascii.eqb c DQ) then throw "JSON: expected string key"
      else
        key <- parse_string_raw ;;
        skip_ws ;; expect ":" ;;
        val <- parse_value ;;
        let obj' := StdMap.emplace key val obj in
        skip_ws ;;
        c <- get ;;
        if Ascii.eqb c "}" then ret (Obj obj')
        else if negb (Ascii.eqb c ",") then throw "JSON: expected ',' or '}'"
        else skip_ws ;; object_loop n' obj'
  end.

Definition parse_object : Parser Json :=
  expect "{" ;;
  skip_ws ;;
  c <- peek ;;
  if Ascii.eqb c "}" then get ;; ret (Obj [])
  else fun st => object_loop (S (String.length st)) [] st.

End Containers.

(** [parse_value]; [n] bounds the nesting depth. *)
Fixpoint parse_value (n : nat) : Parser Json :=
  match n with
  | O => fun _ => Err OutOfFuel
  | S n' =>
      skip_ws ;;
      c <- peek ;;
      if Ascii.eqb c "n" then parse_null
      else if Ascii.eqb c "t" || Ascii.eqb c "f" then parse_bool
      else if Ascii.eqb c DQ then parse_string
      else if Ascii.eqb c "-" || isdigit c then parse_number
      else if Ascii.eqb c "{" then parse_object (parse_value n')
      else if Ascii.eqb c "[" then parse_array (parse_value n')
      else throw "JSON: unexpected token"
  end.

(** [Json::parse]: every nested value starts at least one byte after its
    parent, so the depth never exceeds the length of the text. *)
Definition parse (s : string) : result Json :=
  match parse_value (S (String.length s)) s with
  | Ok (j, st) =>
      match eof (drop_ws st) with
      | Ok (true, _) => Ok j
      | _ => Err (SyntaxError "JSON: trailing characters")
      end
  | Err e => Err e
  end.

(** * The vocabulary of the statements *)

(** ** Maps built from a list of members *)

(** The map an object text builds: its members, emplaced left to right. *)
Definition emplace_all (kvs : list (string * Json)) (m : Object) : Object :=
  fold_left (fun acc kv => StdMap.emplace (fst kv) (snd kv) acc) kvs m.

(** The value of the first member named [k]. *)
Fixpoint first_member (k : string) (kvs : list (string * Json)) : option Json :=
  match kvs with
  | [] => None
  | (k', v) :: r => if String.eqb k k' then Some v else first_member k r
  end.

(** ** What a parser does to its input *)

(** [p] never lengthens the unread suffix. *)
Definition nonincr {A} (p : Parser A) : Prop :=
  forall st a st', p st = Ok (a, st') -> (String.length st' <= String.length st)%nat.

(** [p] consumes at least one byte when it succeeds. *)
Definition progress {A} (p : Parser A) : Prop :=
  forall st a st', p st = Ok (a, st') -> (String.length st' < String.length st)%nat.

(** [p] does not run out of fuel on a suffix shorter than [k]. *)
Definition fueled {A} (k : nat) (p : Parser A) : Prop :=
  forall st, (String.length st < k)%nat -> p st <> Err OutOfFuel.

(** A result that is no fuel failure and leaves at most [k] bytes unread. *)
Definition within {A} (k : nat) (r : result (A * string)) : Prop :=
  match r with
  | Ok (_, st') => (String.length st' <= k)%nat
  | Err OutOfFuel => False
  | Err _ => True
  end.

(** A result that is no fuel failure and has consumed at least one byte. *)
Definition advanced {A} (st : string) (r : result (A * string)) : Prop :=
  match r with
  | Ok (_, st') => (String.length st' < String.length st)%nat
  | Err OutOfFuel => False
  | Err _ => True
  end.

(** ** Properties of every value in a document *)

(** [every Q j]: [Q] holds of [j] and of every value nested in it. *)
Fixpoint every (Q : Json -> Prop) (j : Json) : Prop :=
  Q j /\
  match j with
  | Arr a =>
      (fix all (l : list Json) : Prop :=
         match l with [] => True | x :: l' => every Q x /\ all l' end) a
  | Obj o =>
      (fix all (l : list (string * Json)) : Prop :=
         match l with [] => True | (_, v) :: l' => every Q v /\ all l' end) o
  | _ => True
  end.

(** The keys of an Object are strictly ascending. *)
Definition keys_ascending (j : Json) : Prop :=
  match j with Obj o => StdMap.sorted o | _ => True end.

Definition is_finite (d : double) : bool :=
  match d with S754_zero _ | S754_finite _ _ _ => true | _ => false end.

(** A Number is neither an infinity nor a NaN. *)
Definition number_finite (j : Json) : Prop :=
  match j with Num d => is_finite d = true | _ => True end.

(** ** Bytes and strings *)

Fixpoint all_chars (f : ascii -> bool) (s : string) : bool :=
  match s with
  | EmptyString => true
  | String c r => f c && all_chars f r
  end.

(** The bytes [escape] writes so that the parser reads them back: every
    byte except the control bytes that have no short escape. *)
Definition reversible (c : ascii) : bool :=
  (32 <=? code c) || Ascii.eqb c BS || Ascii.eqb c TAB || Ascii.eqb c LF ||
  Ascii.eqb c FF || Ascii.eqb c CR.

(** A printable ASCII character other than the quote and the backslash. *)
Definition plain (c : ascii) : bool :=
  (32 <=? code c) && (code c <=? 126) &&
  negb (Ascii.eqb c DQ) && negb (Ascii.eqb c BSL).

(** The first byte of [s] satisfies [f]. *)
Definition starts_with (f : ascii -> bool) (s : string) : bool :=
  match s with String c _ => f c | EmptyString => false end.

(** A byte that would continue a number token. *)
Definition continues (c : ascii) : bool :=
  isdigit c || Ascii.eqb c "." || Ascii.eqb c "e" || Ascii.eqb c "E".

(** The bytes [parse_value] dispatches on. *)
Definition dispatches (c : ascii) : bool :=
  Ascii.eqb c "n" || Ascii.eqb c "t" || Ascii.eqb c "f" || Ascii.eqb c DQ ||
  Ascii.eqb c "-" || isdigit c || Ascii.eqb c "{" || Ascii.eqb c "[".

(** ** Number tokens

    The number grammar, generatively: an optional minus sign; an integer
    part that is [0] or starts with a non-zero digit; an optional fraction of
    one or more digits; an optional exponent with an optional sign and one or
    more digits. *)

Record token : Type := Token {
  t_neg : bool;
  t_int : string;
  t_frac : option string;
  t_exp : option (bool * option bool * string)  (* upper case?, sign, digits *)
}.

Definition digit_run (ds : string) : bool :=
  match ds with
  | EmptyString => false
  | _ => all_chars isdigit ds
  end.

Definition int_part (i : string) : bool :=
  match i with
  | EmptyString => false
  | String c r =>
      isdigit c && all_chars isdigit r &&
      (negb (Ascii.eqb c "0") || match r with EmptyString => true | _ => false end)
  end.

Definition well_formed (t : token) : bool :=
  int_part (t_int t) &&
  match t_frac t with Some f => digit_run f | None => true end &&
  match t_exp t with Some (_, _, ds) => digit_run ds | None => true end.

Definition sign_text (neg : bool) : string := if neg then "-" else "".

Definition frac_text (f : option string) : string :=
  match f with Some ds => String "." ds | None => "" end.

Definition exp_text (e : option (bool * option bool * string)) : string :=
  match e with
  | Some (upper, sg, ds) =>
      String (if upper then "E" else "e")%char
        (match sg with
         | Some true => "-" | Some false => "+" | None => ""
         end ++ ds)
  | None => ""
  end.

Definition text (t : token) : string :=
  sign_text (t_neg t) ++ t_int t ++ frac_text (t_frac t) ++ exp_text (t_exp t).

(** The exact value of a token, [num / den], sign apart. *)
Definition token_fraction (t : token) : Z * Z :=
  let fd := match t_frac t with Some ds => ds | None => "" end in
  let ex :=
    match t_exp t with
    | Some (_, Some true, ds) => - Stod.value 0 ds
    | Some (_, _, ds) => Stod.value 0 ds
    | None => 0
    end in
  Stod.fraction (Stod.value 0 (t_int t ++ fd)) (ex - Z.of_nat (String.length fd)).

(** What [std::stod] does on the text of a token. *)
Definition token_stod (t : token) : result double :=
  let (num, den) := token_fraction t in
  let d := Stod.nearest (t_neg t) num den in
  if Stod.erange d num den then Err OutOfRange else Ok d.

(** The midpoint between the largest finite binary64 and [2^1024]: a
    magnitude at or above it rounds to an infinity. *)
Definition overflow_threshold : Z := 2 ^ 1024 - 2 ^ 970.

(** The magnitude of the token is at least the overflow threshold. *)
Definition overflows (t : token) : bool :=
  let (num, den) := token_fraction t in overflow_threshold * den <=? num.

(** ** Texts and the values they denote *)

(** [reads txt j]: wherever [txt] stands in a document, followed by a byte
    that cannot continue a number, [parse_value] consumes exactly [txt] and
    returns [j]. *)
Definition reads (txt : string) (j : Json) : Prop :=
  forall n rest,
    (String.length txt + String.length rest < n)%nat ->
    starts_with continues rest = false ->
    parse_value n (txt ++ rest) = Ok (j, rest).

(** The text of a string literal with content [s]. *)
Definition quoted (s : string) : string := chr DQ ++ escape s ++ chr DQ.

(** The text made of a quote, the bytes [s] as they are, and a quote. *)
Definition quoted_raw (s : string) : string := chr DQ ++ s ++ chr DQ.

(** The text of an object, from the content of each key and the text of
    each value, in the order written. *)
Definition member_text (m : string * string) : string :=
  quoted (fst m) ++ ":" ++ snd m.

Fixpoint members_text (ms : list (string * string)) : string :=
  match ms with
  | [] => ""
  | m :: ms' =>
      member_text m ++
      match ms' with [] => "" | _ => "," ++ members_text ms' end
  end.

Definition object_text (ms : list (string * string)) : string :=
  "{" ++ members_text ms ++ "}".

Fixpoint elements_text (es : list string) : string :=
  match es with
  | [] => ""
  | e :: es' =>
      e ++ match es' with [] => "" | _ => "," ++ elements_text es' end
  end.

Definition array_text (es : list string) : string :=
  "[" ++ elements_text es ++ "]".

(** The members of an object text, with the value each value text denotes. *)
Definition member_texts (ms : list (string * string * Json)) : list (string * string) :=
  map (fun m => (fst (fst m), snd (fst m))) ms.

Definition member_values (ms : list (string * string * Json)) : list (string * Json) :=
  map (fun m => (fst (fst m), snd m)) ms.

Definition member_ok (m : string * string * Json) : Prop :=
  all_chars reversible (fst (fst m)) = true /\ reads (snd (fst m)) (snd m).

Definition element_ok (e : string * Json) : Prop :=
  reads (fst e) (snd e) /\ starts_with dispatches (fst e) = true.

(** What [dump_impl] writes for one member of an Object, commas and
    newlines apart. *)
Definition member_line (indent depth : Z) (kv : string * Json) : string :=
  ind indent (depth + 1) ++ quoted (fst kv) ++ ":" ++ pretty indent " " ++
  dump_impl indent (depth + 1) (snd kv).

(** The texts of the members of an Object, in the order of the map. *)
Definition dumped_members (o : Object) : list (string * string) :=
  map (fun kv => (fst kv, dump compact (snd kv))) o.

Definition dumped_elements (a : Array) : list string :=
  map (dump compact) a.

(** ** The pieces of a formatted number *)

(** The token of an integer part and a fraction written by
    [with_fraction]. *)
Definition fraction_of (fp : string) : option string :=
  match Fmt.strip_zeros fp with EmptyString => None | f => Some f end.

Definition exponent_digits (X : Z) : string :=
  (if Z.abs X <? 10 then "0" else "") ++ Fmt.numeral 20 (Z.abs X) "".

Definition normalized (n d : Z) : Prop := 0 < d /\ d <= n /\ n < 10 * d.

Definition sig15_of (r : Z * Z * Z) : Z * Z :=
  let '(n, d, X) := r in
  let D := Fmt.round_div (n * 10 ^ 14) d in
  if D =? 10 ^ 15 then (10 ^ 14, X + 1) else (D, X).

(** [n] right shifts, as [iter_pos shr_1] performs them. *)
Fixpoint shr_n (k : nat) (mrs : shr_record) : shr_record :=
  match k with O => mrs | S k' => shr_1 (shr_n k' mrs) end.

(** ** Rounding a fraction to binary64 *)

(** The record [mrs] holds the integer part of [a / b] and, in its round
    and sticky bits, how the fractional part compares with one half. *)
Definition rec_for (a b : Z) (mrs : shr_record) : Prop :=
  shr_m mrs = a / b /\
  shr_r mrs = (b <=? 2 * (a mod b)) /\
  shr_s mrs = negb ((a mod b =? 0) || (2 * (a mod b) =? b)).

(** The exponent [e] is the one binary64 gives to [A / B * 2^e]: the
    significand [A / B] has 53 bits, or fewer at the least exponent. *)
Definition canon (A B e : Z) : Prop :=
  (e = -1074 /\ A < 2 ^ 53 * B) \/
  (-1074 < e /\ 2 ^ 52 * B <= A < 2 ^ 53 * B).

(** The binary64 of significand [M <= 2^53] and exponent [e]. *)
Definition finish (neg : bool) (M e : Z) : double :=
  if M =? 0 then S754_zero neg
  else if M =? 2 ^ 53 then
    if e + 1 <=? 971 then S754_finite neg (Z.to_pos (2 ^ 52)) (e + 1)
    else S754_infinity neg
  else if e <=? 971 then S754_finite neg (Z.to_pos M) e
  else S754_infinity neg.

(** The value [m * 2^e] of a finite binary64, as a fraction of integers. *)
Definition frac_of (m : positive) (e : Z) : Z * Z :=
  if 0 <=? e then (Zpos m * 2 ^ e, 1) else (Zpos m, 2 ^ (- e)).

(** ** Values that survive a round trip *)

(** What a value needs for [dump] and [parse] to give it back: a String or
    a key has no control byte without a short escape, a Number is recovered
    by [std::stod] from its 15 digits, the keys of an Object are ascending. *)
Definition roundtrips_here (j : Json) : Prop :=
  match j with
  | Str s => all_chars reversible s = true
  | Num d => Stod.stod (Fmt.double d) = Ok d
  | Obj o =>
      StdMap.sorted o /\
      Forall (fun kv => all_chars reversible (fst kv) = true) o
  | _ => True
  end.

(** [num / den] is [D * 10^k]. *)
Definition denotes (num den D k : Z) : Prop :=
  num * 10 ^ Z.max (- k) 0 = D * 10 ^ Z.max k 0 * den.

(** A token of at most 15 significant digits: its value is [D * 10^k] for
    an integer [D] below [10^15]. *)
Definition fifteen_digits (t : token) : Prop :=
  exists D k, 0 <= D < 10 ^ 15 /\
    denotes (fst (token_fraction t)) (snd (token_fraction t)) D k.

(** The doubles [std::stod] returns for the number tokens of at most 15
    significant digits. *)
Definition fifteen_digit_double (d : double) : Prop :=
  exists t, well_formed t = true /\ fifteen_digits t /\ token_stod t = Ok d.

(** The scalars that [dump] and [parse] give back: null, the booleans, the
    strings of printable ASCII characters without quote or backslash, and the
    doubles that [std::stod] returns for a decimal of at most 15 significant
    digits. *)
Definition scalar_roundtrips (v : Json) : Prop :=
  match v with
  | Null | Bool _ => True
  | Str s => all_chars plain s = true
  | Num d => fifteen_digit_double d
  | Arr _ | Obj _ => False
  end.

(** ** Receivers of the builder operations *)

Definition mismatched_for_subscript (j : Json) : bool :=
  is_bool j || is_num j || is_str j || is_array j.

Definition mismatched_for_push_back (j : Json) : bool :=
  is_bool j || is_num j || is_str j || is_object j.

(** ** Test data *)

(** The six characters backslash, u, 0, 0, e, 9. *)
Definition u00e9 : string := String BSL "u00e9".

(** A double quote, a backslash, a newline, a tab and the control byte
    0x01. *)
Definition five_bytes : string :=
  String DQ (String BSL (String LF (String TAB (String "001" "")))).

(** The double nearest to 0.1 + 0.2, which is 0.30000000000000004. *)
Definition three_tenths_up : double := S754_finite false 5404319552844596 (-54).

(** The double nearest to 0.1. *)
Definition one_tenth : double := S754_finite false 7205759403792794 (-56).

(** * The vocabulary of the further properties *)

(** A document with a nested array and a nested object. *)
Definition sample_document : Json :=
  Obj [("a", Arr [Null; Bool true; of_int (-3); Str (String LF "x")]);
       ("b", Obj [("k", Arr [])])].

(** ** The builder operations *)

(** The elements of an Array and the members of an Object; none for another
    variant. *)
Definition elements (j : Json) : Array := match j with Arr a => a | _ => [] end.
Definition members (j : Json) : Object := match j with Obj o => o | _ => [] end.

(** [push_back] of each value of [xs] in turn, on the same receiver. *)
Definition push_all (xs : list Json) (j : Json) : result Json :=
  fold_left (fun r x => match r with Ok j' => push_back x j' | Err e => Err e end)
            xs (Ok j).

(** *** [push_back] and its argument

    [push_back] takes its argument by reference, [const Json& j]: the
    reference designates the receiver itself, as in [x.push_back(x)], or
    another value.  The argument is read by the copy that
    [std::vector::push_back] makes, after [v_ = Array{}] has been executed. *)
Inductive operand : Type :=
| This
| Value (x : Json).

Definition push_back_ref (a : operand) (j : Json) : result Json :=
  let j1 := if negb (is_array j) then Arr [] else j in
  let x := match a with This => j1 | Value x => x end in
  match as_array j1 with
  | Ok l => Ok (Arr (l ++ [x])%list)
  | Err e => Err e
  end.

(** ** The bytes of a dump *)

(** A byte at or above 0x20: no control code of ASCII below the space. *)
Definition printable (c : ascii) : bool := 32 <=? code c.

(** The bytes of a dump: none below 0x20, the newline of the pretty mode
    apart. *)
Definition visible (indent : Z) (c : ascii) : bool :=
  printable c || ((0 <=? indent) && Ascii.eqb c LF).

(** The value of a hexadecimal digit of the table of [escape]. *)
Definition unhex (h : ascii) : Z :=
  if code h <? 58 then code h - 48 else code h - 55.

(** Reads back the byte that one iteration of [escape] wrote at the head of
    a text, with the rest of the text. *)
Definition unescape_head (s : string) : option (ascii * string) :=
  match s with
  | String c r =>
      if Ascii.eqb c BSL then
        match r with
        | String e r1 =>
            if Ascii.eqb e "b" then Some (BS, r1)
            else if Ascii.eqb e "f" then Some (FF, r1)
            else if Ascii.eqb e "n" then Some (LF, r1)
            else if Ascii.eqb e "r" then Some (CR, r1)
            else if Ascii.eqb e "t" then Some (TAB, r1)
            else if Ascii.eqb e "u" then
              match r1 with
              | String _ (String _ (String h1 (String h2 r2))) =>
                  Some (char_of (16 * unhex h1 + unhex h2), r2)
              | _ => None
              end
            else Some (e, r1)
        | EmptyString => None
        end
      else Some (c, r)
  | EmptyString => None
  end.

(** ** What [parse] makes of a dump *)

(** What the parser reads from the text [escape] writes for one byte: the
    byte itself, or the six characters of its [\u00XX] escape. *)
Definition literal_char (c : ascii) : string :=
  if reversible c then chr c else escape_char c.

Fixpoint literal (s : string) : string :=
  match s with
  | EmptyString => EmptyString
  | String c r => literal_char c ++ literal r
  end.

(** The first byte of a dump: a byte [parse_value] dispatches on, or the
    [i] of [inf]. *)
Definition opens_value (c : ascii) : bool := dispatches c || Ascii.eqb c "i".

(** The result of a parser that read a value and left [rest] unread. *)
Definition answer (r : result Json) (rest : string) : result (Json * string) :=
  match r with Ok j => Ok (j, rest) | Err e => Err e end.

(** [yields txt r]: wherever [txt] stands in a document, after any
    whitespace and before a byte that cannot continue a number,
    [parse_value] either consumes exactly the whitespace and [txt] and
    returns the value of [r], or throws the exception of [r]. *)
Definition yields (txt : string) (r : result Json) : Prop :=
  forall n ws rest,
    (String.length ws + String.length txt + String.length rest < n)%nat ->
    all_chars isspace ws = true ->
    starts_with continues rest = false ->
    parse_value n (ws ++ txt ++ rest) = answer r rest.

(** What [parse] makes of the text of a Number: [inf] is no token, [-inf]
    a minus sign without digit, [nan] a misspelt [null]; the text of a finite
    Number goes to [std::stod]. *)
Definition reparse_number (d : double) : result Json :=
  match d with
  | S754_infinity false => Err (SyntaxError "JSON: unexpected token")
  | S754_infinity true => Err (SyntaxError "JSON: bad number")
  | S754_nan => Err (SyntaxError "JSON: expected 'u'")
  | _ => match Stod.stod (Fmt.double d) with
         | Ok d' => Ok (Num d')
         | Err e => Err e
         end
  end.

Section Reparse.

Variable reparse_nested : Json -> result Json.

(** The elements in order, as [parse_array] collects them. *)
Fixpoint reparse_elements (l : list Json) (arr : Array) : result Json :=
  match l with
  | [] => Ok (Arr arr)
  | x :: l' =>
      match reparse_nested x with
      | Ok v => reparse_elements l' (arr ++ [v])%list
      | Err e => Err e
      end
  end.

(** The members in order, as [parse_object] emplaces them. *)
Fixpoint reparse_members (l : list (string * Json)) (obj : Object) : result Json :=
  match l with
  | [] => Ok (Obj obj)
  | (k, x) :: l' =>
      match reparse_nested x with
      | Ok v => reparse_members l' (StdMap.emplace (literal k) v obj)
      | Err e => Err e
      end
  end.

End Reparse.

(** What [parse] makes of the dump of a value. *)
Fixpoint reparse (j : Json) : result Json :=
  match j with
  | Null => Ok Null
  | Bool b => Ok (Bool b)
  | Num d => reparse_number d
  | Str s => Ok (Str (literal s))
  | Arr a => reparse_elements reparse a []
  | Obj o => reparse_members reparse o []
  end.

(** [dump_elements] and [dump_members] from the first value on, without the
    indentation before it. *)
Definition elements_from (f : Json -> string) (indent depth : Z) (l : list Json) : string :=
  match l with
  | [] => ""
  | x :: l' =>
      f x ++ match l' with [] => "" | _ => "," end ++
      pretty indent (chr LF) ++ dump_elements f indent depth l'
  end.

Definition members_from (f : Json -> string) (indent depth : Z)
    (l : list (string * Json)) : string :=
  match l with
  | [] => ""
  | (k, v) :: l' =>
      quoted k ++ ":" ++ pretty indent " " ++ f v ++
      match l' with [] => "" | _ => "," end ++
      pretty indent (chr LF) ++ dump_members f indent depth l'
  end.

(** The recursive call [pv] reads the text [f x] of a nested value as [R]
    says, below the bound on the length of the unread text. *)
Definition nested_ok (pv : Parser Json) (bound : nat) (f : Json -> string)
    (R : Json -> result Json) (x : Json) : Prop :=
  (forall ws rest,
     (String.length ws + String.length (f x) + String.length rest < bound)%nat ->
     all_chars isspace ws = true ->
     starts_with continues rest = false ->
     pv (ws ++ f x ++ rest) = answer (R x) rest) /\
  starts_with opens_value (f x) = true.

(** The largest finite double, [(2^53 - 1) * 2^971]. *)
Definition dbl_max : double := S754_finite false 9007199254740991 971.

(** ** The exceptions of [parse] *)

(** The messages of the [std::runtime_error]s that [parse] throws. *)
Definition parser_messages : list string :=
  [ "JSON: trailing characters"; "JSON: unexpected token"; "JSON: bad number";
    "JSON: bad escape"; "JSON: expected ',' or ']'"; "JSON: expected ',' or '}'";
    "JSON: expected string key";
    "JSON: expected 'u'"; "JSON: expected 'l'"; "JSON: expected 'r'";
    "JSON: expected 'e'"; "JSON: expected 'a'"; "JSON: expected 's'";
    "JSON: expected ':'" ].

(** A [std::runtime_error] with one of these messages, or the
    [std::out_of_range] of [std::stod]. *)
Definition thrown_by_parse (e : exn) : Prop :=
  match e with
  | SyntaxError what => In what parser_messages
  | OutOfRange => True
  | _ => False
  end.

(** A step of the parser that returns, throws one of these exceptions, or
    stops for lack of fuel. *)
Definition allowed {A} (r : result A) : Prop :=
  match r with
  | Ok _ => True
  | Err OutOfFuel => True
  | Err e => thrown_by_parse e
  end.

Definition clean {A} (p : Parser A) : Prop := forall st, allowed (p st).

(** A text on which [parse] throws the given exception. *)
Definition rejected_text (what : string) : string :=
  if String.eqb what "JSON: trailing characters" then "1 2"
  else if String.eqb what "JSON: unexpected token" then ""
  else if String.eqb what "JSON: bad number" then "-"
  else if String.eqb what "JSON: bad escape" then String DQ (String BSL "x")
  else if String.eqb what "JSON: expected ',' or ']'" then "[1"
  else if String.eqb what "JSON: expected ',' or '}'" then json "{'a':1"
  else if String.eqb what "JSON: expected string key" then "{1}"
  else if String.eqb what "JSON: expected 'u'" then "nx"
  else if String.eqb what "JSON: expected 'l'" then "nux"
  else if String.eqb what "JSON: expected 'r'" then "tx"
  else if String.eqb what "JSON: expected 'e'" then "trux"
  else if String.eqb what "JSON: expected 'a'" then "fx"
  else if String.eqb what "JSON: expected 's'" then "falx"
  else json "{'a'1}".

(** ** The first byte of a text *)

(** The first byte of a text that is no whitespace; NUL when there is
    none, as [peek] gives. *)
Definition first_byte (s : string) : ascii :=
  match drop_ws s with String c _ => c | EmptyString => NUL end.

(** ** String literals and whitespace *)

(** A byte that neither ends a string literal nor starts an escape. *)
Definition unescaped (c : ascii) : bool :=
  negb (Ascii.eqb c DQ) && negb (Ascii.eqb c BSL).

(** [n] NUL bytes, as [get] gives at the end of the input. *)
Fixpoint nuls (n : nat) : string :=
  match n with O => EmptyString | S n' => String NUL (nuls n') end.

(** A text made of whitespace only. *)
Definition blank (ws : string) : Prop := all_chars isspace ws = true.

(** ** Integers *)

(** The decimal numeral of an integer, with a minus sign when negative. *)
Definition decimal (i : Z) : string :=
  (if i <? 0 then "-" else "") ++ Fmt.numeral 20 (Z.abs i) "".

(** The binary64 of a positive integer below [2^53]: the integer shifted
    left to 53 bits, with the opposite exponent. *)
Definition shift_of (p : positive) : positive :=
  Z.to_pos (53 - Zpos (digits2_pos p)).

Definition double_of_pos (neg : bool) (p : positive) : double :=
  S754_finite neg (Pos.iter xO p (shift_of p)) (Zneg (shift_of p)).

(** A Number that holds an integer below [10^15] in magnitude; no
    condition on the other variants. *)
Definition integral (j : Json) : Prop :=
  match j with
  | Num _ => exists i, Z.abs i < 10 ^ 15 /\ j = of_int i
  | _ => True
  end.

(** What a String, a key and an Object need to round-trip. *)
Definition well_kept (j : Json) : Prop :=
  match j with
  | Num _ => True
  | _ => roundtrips_here j
  end.

(** ** The short escapes *)

(** The [switch] of [parse_string] on the byte after a backslash, the case
    of [u] apart: the byte each short escape stands for. *)
Definition short_escape (e : ascii) : option ascii :=
  if Ascii.eqb e DQ then Some DQ
  else if Ascii.eqb e BSL then Some BSL
  else if Ascii.eqb e "/" then Some "/"%char
  else if Ascii.eqb e "b" then Some BS
  else if Ascii.eqb e "f" then Some FF
  else if Ascii.eqb e "n" then Some LF
  else if Ascii.eqb e "r" then Some CR
  else if Ascii.eqb e "t" then Some TAB
  else None.

(** ** The layout of a dump and the accessors *)

(** What [dump_impl] writes for one element of an Array, commas and
    newlines apart. *)
Definition element_line (indent depth : Z) (x : Json) : string :=
  ind indent (depth + 1) ++ dump_impl indent (depth + 1) x.

(** The accessor of a variant returns. *)
Definition returns {A} (r : result A) : Prop := exists a, r = Ok a.

(** ** Containers written with whitespace

    An element of an array text: the whitespace before it, its text, the
    whitespace after it, and the value the text denotes. *)
Record element : Type := Element {
  e_pre : string;
  e_text : string;
  e_post : string;
  e_value : Json
}.

Definition element_wf (e : element) : Prop :=
  blank (e_pre e) /\ blank (e_post e) /\
  reads (e_text e) (e_value e) /\ starts_with dispatches (e_text e) = true.

(** The elements from the text of the first one on, and with the whitespace
    before it. *)
Fixpoint elements_spaced (es : list element) : string :=
  match es with
  | [] => ""
  | e :: es' =>
      e_text e ++ e_post e ++
      match es' with
      | [] => ""
      | e' :: _ => "," ++ e_pre e' ++ elements_spaced es'
      end
  end.

(** The text of an array: [w] is the whitespace of an empty array. *)
Definition array_spaced (w : string) (es : list element) : string :=
  "[" ++ match es with
         | [] => w
         | e :: _ => e_pre e ++ elements_spaced es
         end ++ "]".

(** A member of an object text: whitespace, the key, whitespace, the
    colon, whitespace, the text of the value, whitespace. *)
Record member : Type := Member {
  m_pre : string;
  m_key : string;
  m_colon : string;
  m_value_pre : string;
  m_text : string;
  m_post : string;
  m_value : Json
}.

Definition member_wf (m : member) : Prop :=
  blank (m_pre m) /\ blank (m_colon m) /\ blank (m_value_pre m) /\
  blank (m_post m) /\ all_chars reversible (m_key m) = true /\
  reads (m_text m) (m_value m).

Fixpoint members_spaced (ms : list member) : string :=
  match ms with
  | [] => ""
  | m :: ms' =>
      quoted (m_key m) ++ m_colon m ++ ":" ++ m_value_pre m ++ m_text m ++
      m_post m ++
      match ms' with
      | [] => ""
      | m' :: _ => "," ++ m_pre m' ++ members_spaced ms'
      end
  end.

Definition object_spaced (w : string) (ms : list member) : string :=
  "{" ++ match ms with
         | [] => w
         | m :: _ => m_pre m ++ members_spaced ms
         end ++ "}".

(** The recursive call [pv] skips whitespace and reads [txt] as [v], below
    the bound on the length of the unread text. *)
Definition reads_with (pv : Parser Json) (bound : nat) (txt : string) (v : Json) : Prop :=
  forall ws rest,
    (String.length ws + String.length txt + String.length rest < bound)%nat ->
    blank ws -> starts_with continues rest = false ->
    pv (ws ++ txt ++ rest) = Ok (v, rest).

(** ** One byte of lookahead *)

(** [p] looks at most at the first byte it leaves unread: when it stops
    with some of [u] still unread, what follows [u] plays no part. *)
Definition local {A} (p : Parser A) : Prop :=
  forall u y a st,
    p (u ++ y) = Ok (a, st) ->
    (String.length y < String.length st)%nat ->
    exists pre u', u = pre ++ u' /\ st = u' ++ y /\
      forall y', p (u ++ y') = Ok (a, u' ++ y').

(** [p] does not look at what it leaves unread: when it consumes [u] before
    a text that is not empty and returns a result in [Q], it does so before
    every text. *)
Definition closing {A} (Q : A -> Prop) (p : Parser A) : Prop :=
  forall u y a,
    Q a -> y <> "" -> p (u ++ y) = Ok (a, y) ->
    forall y', p (u ++ y') = Ok (a, y').

(** [p] consumes at least one byte when it stops before the end. *)
Definition settles {A} (p : Parser A) : Prop :=
  forall st a st',
    p st = Ok (a, st') -> st' <> "" ->
    (String.length st' < String.length st)%nat.

(** ** The depth of the recursion *)

(** The number of bytes of [s] that open an array or an object. *)
Fixpoint opens (s : string) : nat :=
  match s with
  | EmptyString => 0%nat
  | String c r =>
      ((if Ascii.eqb c "[" || Ascii.eqb c "{" then 1 else 0) + opens r)%nat
  end.

(** * Properties *)

Arguments Ascii.eqb : simpl never.
Arguments isdigit : simpl never.
Arguments isspace : simpl never.

(** ** Characters, by enumeration *)

Ltac each_char c :=
  destruct c as [[] [] [] [] [] [] [] []]; vm_compute; try reflexivity.

Lemma isspace_spec (c : ascii) :
  isspace c = true <->
  c = SP \/ c = TAB \/ c = LF \/ c = VT \/ c = FF \/ c = CR.
Proof.
  split.
  - destruct c as [[] [] [] [] [] [] [] []]; vm_compute; intro H;
      try discriminate H; tauto.
  - intros [H|[H|[H|[H|[H|H]]]]]; subst c; reflexivity.
Qed.

(** ** The ordered map *)

Module StdMapFacts.
Import StdMap.

Lemma compare_refl (s : string) : String.compare s s = Eq.
Proof.
  induction s as [|c s IH]; simpl; [reflexivity|].
  unfold Ascii.compare. now rewrite N.compare_refl.
Qed.

Lemma compare_gt_lt (a b : string) :
  String.compare a b = Gt -> String.compare b a = Lt.
Proof.
  intro H. rewrite String.compare_antisym, H. reflexivity.
Qed.

Lemma ascii_compare_lt_trans (a b c : ascii) :
  Ascii.compare a b = Lt -> Ascii.compare b c = Lt -> Ascii.compare a c = Lt.
Proof.
  unfold Ascii.compare. rewrite !N.compare_lt_iff. apply N.lt_trans.
Qed.

Lemma key_lt_trans (a b c : string) : key_lt a b -> key_lt b c -> key_lt a c.
Proof.
  unfold key_lt. revert b c.
  induction a as [|x a IH]; intros [|y b] [|z c]; simpl; try congruence.
  destruct (Ascii.compare x y) eqn:Hxy; try discriminate.
  - apply Ascii.compare_eq_iff in Hxy. subst y.
    destruct (Ascii.compare x z); try congruence. apply IH.
  - intros _. destruct (Ascii.compare y z) eqn:Hyz; try discriminate.
    + apply Ascii.compare_eq_iff in Hyz. subst z. now rewrite Hxy.
    + intros _. now rewrite (ascii_compare_lt_trans _ _ _ Hxy Hyz).
Qed.

Lemma sorted_tail k v m : sorted ((k, v) :: m) -> sorted m.
Proof. intro H. now inversion H. Qed.

(** [emplace] keeps the keys strictly ascending. *)
Lemma emplace_sorted k v m : sorted m -> sorted (emplace k v m).
Proof.
  unfold sorted, keys.
  induction m as [|[k' v'] m IH]; simpl; intro Hs.
  - repeat constructor.
  - destruct (String.compare k k') eqn:Hc; simpl.
    + exact Hs.
    + constructor; [exact Hs | constructor; exact Hc].
    + inversion Hs as [|? ? Hs' Hd]; subst.
      constructor; [now apply IH|].
      destruct m as [|[k2 v2] m]; simpl.
      * constructor. now apply compare_gt_lt.
      * destruct (String.compare k k2); simpl; constructor;
          try (now apply compare_gt_lt); now inversion Hd.
Qed.

(** [emplace] on a key that is present changes nothing: the element that
    is already there stays. *)
Lemma emplace_present k v v' m : find k m = Some v' -> emplace k v m = m.
Proof.
  induction m as [|[k1 v1] m IH]; simpl; [discriminate|].
  destruct (String.compare k k1); intro H; try discriminate; try reflexivity.
  now rewrite IH.
Qed.

Lemma find_emplace_absent k v m :
  find k m = None -> find k (emplace k v m) = Some v.
Proof.
  induction m as [|[k1 v1] m IH]; simpl.
  - now rewrite compare_refl.
  - destruct (String.compare k k1) eqn:Hc; simpl; try discriminate.
    + now rewrite compare_refl.
    + rewrite Hc. exact IH.
Qed.

Lemma find_emplace_other k k' v m :
  sorted m -> k' <> k -> find k' (emplace k v m) = find k' m.
Proof.
  induction m as [|[k1 v1] m IH]; simpl; intros Hs Hne.
  - destruct (String.compare k' k) eqn:Hc; try reflexivity.
    apply String.compare_eq_iff in Hc. contradiction.
  - destruct (String.compare k k1) eqn:Hc; simpl.
    + reflexivity.
    + destruct (String.compare k' k) eqn:Hc'.
      * apply String.compare_eq_iff in Hc'. contradiction.
      * now rewrite (key_lt_trans _ _ _ Hc' Hc).
      * reflexivity.
    + destruct (String.compare k' k1); try reflexivity.
      apply IH; [now apply sorted_tail in Hs | exact Hne].
Qed.

Lemma emplace_all_sorted kvs m : sorted m -> sorted (emplace_all kvs m).
Proof.
  revert m. induction kvs as [|[k v] kvs IH]; simpl; intros m Hs; [exact Hs|].
  apply IH. now apply emplace_sorted.
Qed.

Lemma find_emplace_all k kvs m :
  sorted m ->
  find k (emplace_all kvs m) =
  match find k m with Some v => Some v | None => first_member k kvs end.
Proof.
  revert m. induction kvs as [|[k1 v1] kvs IH]; simpl; intros m Hs.
  - now destruct (find k m).
  - rewrite IH by now apply emplace_sorted.
    destruct (String.eqb_spec k k1) as [->|Hne].
    + destruct (find k1 m) eqn:Hf.
      * now rewrite (emplace_present _ _ _ _ Hf), Hf.
      * now rewrite find_emplace_absent.
    + now rewrite find_emplace_other.
Qed.

End StdMapFacts.

Import StdMapFacts.

(** ** The parser consumes its input and never runs out of fuel *)

Section ParserFacts.

Lemma bind_ok {A B} (p : Parser A) (f : A -> Parser B) st r :
  bind p f st = Ok r -> exists a st1, p st = Ok (a, st1) /\ f a st1 = Ok r.
Proof.
  unfold bind. destruct (p st) as [[a st1]|e]; [|discriminate]. eauto.
Qed.

Lemma bind_err {A B} (p : Parser A) (f : A -> Parser B) st e :
  bind p f st = Err e ->
  p st = Err e \/ exists a st1, p st = Ok (a, st1) /\ f a st1 = Err e.
Proof.
  unfold bind. destruct (p st) as [[a st1]|e']; [eauto|].
  intro H. left. congruence.
Qed.

Lemma progress_nonincr {A} (p : Parser A) : progress p -> nonincr p.
Proof. intros H st a st' E. apply H in E. lia. Qed.

Lemma nonincr_bind {A B} (p : Parser A) (f : A -> Parser B) :
  nonincr p -> (forall a, nonincr (f a)) -> nonincr (bind p f).
Proof.
  intros Hp Hf st b st' E. apply bind_ok in E as (a & st1 & E1 & E2).
  apply Hp in E1. apply Hf in E2. lia.
Qed.

Lemma progress_bind_l {A B} (p : Parser A) (f : A -> Parser B) :
  progress p -> (forall a, nonincr (f a)) -> progress (bind p f).
Proof.
  intros Hp Hf st b st' E. apply bind_ok in E as (a & st1 & E1 & E2).
  apply Hp in E1. apply Hf in E2. lia.
Qed.

Lemma progress_bind_r {A B} (p : Parser A) (f : A -> Parser B) :
  nonincr p -> (forall a, progress (f a)) -> progress (bind p f).
Proof.
  intros Hp Hf st b st' E. apply bind_ok in E as (a & st1 & E1 & E2).
  apply Hp in E1. apply Hf in E2. lia.
Qed.

Lemma fueled_bind {A B} k (p : Parser A) (f : A -> Parser B) :
  fueled k p -> nonincr p -> (forall a, fueled k (f a)) -> fueled k (bind p f).
Proof.
  intros Hp Hn Hf st Hk E. apply bind_err in E as [E|(a & st1 & E1 & E2)].
  - exact (Hp st Hk E).
  - apply Hn in E1. apply (Hf a st1); [lia | exact E2].
Qed.

Lemma nonincr_ret {A} (a : A) : nonincr (ret a).
Proof. intros st x st' E. inversion E. lia. Qed.

Lemma fueled_ret {A} k (a : A) : fueled k (ret a).
Proof. intros st _. discriminate. Qed.

Lemma nonincr_throw {A} w : nonincr (@throw A w).
Proof. intros st x st' E. discriminate. Qed.

Lemma progress_throw {A} w : progress (@throw A w).
Proof. intros st x st' E. discriminate. Qed.

Lemma fueled_throw {A} k w : fueled k (@throw A w).
Proof. intros st _. discriminate. Qed.

Lemma nonincr_eof : nonincr eof.
Proof. intros [|c r] a st' E; inversion E; simpl; lia. Qed.

Lemma nonincr_peek : nonincr peek.
Proof. intros [|c r] a st' E; inversion E; simpl; lia. Qed.

Lemma nonincr_get : nonincr get.
Proof. intros [|c r] a st' E; inversion E; simpl; lia. Qed.

Lemma nonincr_advance : nonincr advance.
Proof. intros [|c r] a st' E; inversion E; simpl; lia. Qed.

Lemma drop_ws_length st : (String.length (drop_ws st) <= String.length st)%nat.
Proof.
  induction st as [|c r IH]; simpl; [lia|]. destruct (isspace c); simpl; lia.
Qed.

Lemma drop_digits_length st : (String.length (drop_digits st) <= String.length st)%nat.
Proof.
  induction st as [|c r IH]; simpl; [lia|]. destruct (isdigit c); simpl; lia.
Qed.

Lemma nonincr_skip_ws : nonincr skip_ws.
Proof. intros st a st' E. inversion E. apply drop_ws_length. Qed.

Lemma nonincr_skip_digits : nonincr skip_digits.
Proof. intros st a st' E. inversion E. apply drop_digits_length. Qed.

Lemma fueled_prim {A} k (p : Parser A) :
  (forall st, exists r, p st = Ok r) -> fueled k p.
Proof. intros H st _ E. destruct (H st) as [r Hr]. congruence. Qed.

Lemma fueled_eof k : fueled k eof.
Proof. apply fueled_prim. intros [|c r]; eexists; reflexivity. Qed.
Lemma fueled_peek k : fueled k peek.
Proof. apply fueled_prim. intros [|c r]; eexists; reflexivity. Qed.
Lemma fueled_get k : fueled k get.
Proof. apply fueled_prim. intros [|c r]; eexists; reflexivity. Qed.
Lemma fueled_advance k : fueled k advance.
Proof. apply fueled_prim. intros [|c r]; eexists; reflexivity. Qed.
Lemma fueled_skip_ws k : fueled k skip_ws.
Proof. apply fueled_prim. intros st; eexists; reflexivity. Qed.
Lemma fueled_skip_digits k : fueled k skip_digits.
Proof. apply fueled_prim. intros st; eexists; reflexivity. Qed.

End ParserFacts.

Create HintDb parser discriminated.
#[export] Hint Resolve nonincr_ret nonincr_throw nonincr_eof nonincr_peek nonincr_get
  nonincr_advance nonincr_skip_ws nonincr_skip_digits progress_throw
  fueled_ret fueled_throw fueled_eof fueled_peek fueled_get fueled_advance
  fueled_skip_ws fueled_skip_digits : parser.

(** Splits a goal about a composite parser along its binds and tests. *)
Ltac parser_step :=
  match goal with
  | |- nonincr (bind _ _) => apply nonincr_bind; [|intro]
  | |- fueled _ (bind _ _) => apply fueled_bind; [| |intro]
  | |- nonincr (if ?b then _ else _) => destruct b
  | |- fueled _ (if ?b then _ else _) => destruct b
  | |- progress (if ?b then _ else _) => destruct b
  | |- _ => solve [auto with parser]
  end.
Ltac parser_auto := repeat parser_step.

Section ParserTotal.

Lemma progress_expect c : c <> NUL -> progress (expect c).
Proof.
  intros Hc [|g r] a st'; unfold expect, bind, get, throw, ret; simpl.
  - destruct (Ascii.eqb_spec NUL c) as [E|_]; simpl; intro H;
      [congruence | discriminate H].
  - destruct (Ascii.eqb g c); simpl; intro H; [|discriminate H].
    inversion H. lia.
Qed.

Lemma nonincr_expect c : nonincr (expect c).
Proof. unfold expect. parser_auto. Qed.

Lemma fueled_expect k c : fueled k (expect c).
Proof. unfold expect. parser_auto. Qed.

Hint Resolve nonincr_expect fueled_expect : parser.

Lemma progress_parse_null : progress parse_null.
Proof.
  unfold parse_null. apply progress_bind_l; [|intro; parser_auto].
  apply progress_expect. discriminate.
Qed.

Lemma fueled_parse_null k : fueled k parse_null.
Proof. unfold parse_null. parser_auto. Qed.

Lemma progress_parse_bool : progress parse_bool.
Proof.
  unfold parse_bool. apply progress_bind_r; [parser_auto|intro c].
  destruct (Ascii.eqb c "t");
    (apply progress_bind_l; [apply progress_expect; discriminate|intro; parser_auto]).
Qed.

Lemma fueled_parse_bool k : fueled k parse_bool.
Proof. unfold parse_bool. parser_auto. Qed.

Lemma nonincr_digits1 : nonincr digits1.
Proof. unfold digits1. parser_auto. Qed.

Lemma fueled_digits1 k : fueled k digits1.
Proof. unfold digits1. parser_auto. Qed.

Hint Resolve nonincr_digits1 fueled_digits1 : parser.

Lemma nonincr_scan_frac : nonincr scan_frac.
Proof. unfold scan_frac. parser_auto. Qed.

Lemma nonincr_scan_exp : nonincr scan_exp.
Proof. unfold scan_exp. parser_auto. Qed.

Lemma nonincr_scan_int : nonincr scan_int.
Proof. unfold scan_int. parser_auto. Qed.

Lemma nonincr_scan_sign : nonincr scan_sign.
Proof. unfold scan_sign. parser_auto. Qed.

Hint Resolve nonincr_scan_sign nonincr_scan_int nonincr_scan_frac
  nonincr_scan_exp : parser.

Lemma nonincr_scan_number : nonincr scan_number.
Proof. unfold scan_number. parser_auto. Qed.

Lemma fueled_scan_number k : fueled k scan_number.
Proof.
  unfold scan_number, scan_sign, scan_int, scan_frac, scan_exp. parser_auto.
Qed.

(** [parse_value] enters [parse_number] on a minus sign or a digit, which
    the scan consumes. *)
Lemma scan_number_progress c r u st' :
  Ascii.eqb c "-" || isdigit c = true ->
  scan_number (String c r) = Ok (u, st') ->
  (String.length st' < String.length (String c r))%nat.
Proof.
  intros Hc E. unfold scan_number in E.
  apply bind_ok in E as (u1 & s1 & E1 & E).
  apply bind_ok in E as (u2 & s2 & E2 & E).
  assert (Hrest : nonincr (scan_frac ;; scan_exp)) by parser_auto.
  apply Hrest in E.
  pose proof (nonincr_scan_int _ _ _ E2) as H2.
  unfold scan_sign, bind, peek in E1.
  destruct (Ascii.eqb c "-") eqn:Hm.
  - inversion E1; subst. simpl. lia.
  - inversion E1; subst s1. simpl in Hc.
    unfold scan_int, bind, peek in E2.
    destruct (Ascii.eqb c "0").
    + inversion E2; subst. simpl. lia.
    + unfold digits1, bind, peek in E2. rewrite Hc in E2.
      cbn [negb] in E2. inversion E2; subst s2.
      cbn [drop_digits] in E. rewrite Hc in E.
      pose proof (drop_digits_length r). simpl. lia.
Qed.

Lemma stod_err s e :
  Stod.stod s = Err e -> e = OutOfRange \/ e = InvalidArgument.
Proof.
  unfold Stod.stod.
  destruct (Stod.sign s) as [neg s1].
  destruct (Stod.span_digits s1) as [ip s2].
  destruct (match s2 with
            | String c r => if Ascii.eqb c "." then Stod.span_digits r else (EmptyString, s2)
            | EmptyString => (EmptyString, s2)
            end) as [fp s3].
  destruct (ip ++ fp); [intro H; inversion H; auto|].
  destruct (Stod.fraction _ _) as [num den].
  destruct (Stod.erange _ _ _); intro H; inversion H; auto.
Qed.

Lemma fueled_parse_number k : fueled k parse_number.
Proof.
  intros st Hk H. unfold parse_number in H.
  destruct (scan_number st) as [[u st1]|e] eqn:E.
  - destruct (Stod.stod _) as [d|e] eqn:Es; [discriminate|].
    apply stod_err in Es. destruct Es; congruence.
  - apply (fueled_scan_number k st Hk). congruence.
Qed.

Lemma parse_number_progress c r j st' :
  Ascii.eqb c "-" || isdigit c = true ->
  parse_number (String c r) = Ok (j, st') ->
  (String.length st' < String.length (String c r))%nat.
Proof.
  intros Hc H. unfold parse_number in H.
  destruct (scan_number (String c r)) as [[u st1]|e] eqn:E; [|discriminate].
  destruct (Stod.stod _); [|discriminate]. inversion H; subst.
  eapply scan_number_progress; eauto.
Qed.

Lemma within_le {A} k k' (r : result (A * string)) :
  (k <= k')%nat -> within k r -> within k' r.
Proof. destruct r as [[a st]|[]]; simpl; auto. lia. Qed.

(** The string loop: each iteration reads at least one byte. *)
Lemma string_loop_within n :
  forall out st, (String.length st < n)%nat ->
    within (String.length st) (string_loop n out st).
Proof.
  induction n as [|n IH]; intros out st Hn; [lia|].
  destruct st as [|c r]; [exact (le_n 0)|].
  assert (Hr : forall o st1, (String.length st1 <= String.length r)%nat ->
            within (String.length (String c r)) (string_loop n o st1)).
  { intros o st1 Hl. simpl in Hn.
    apply within_le with (String.length st1); [simpl; lia|].
    apply IH. lia. }
  cbn [string_loop]. unfold bind at 1. cbn [eof].
  unfold bind at 1. cbn [get]. unfold ret, throw.
  destruct (Ascii.eqb c DQ); [simpl; lia|].
  destruct (Ascii.eqb c BSL); [|apply Hr; lia].
  unfold bind at 1.
  destruct r as [|e r1]; cbn [get].
  { repeat match goal with
      | |- context [if Ascii.eqb NUL ?x then _ else _] =>
          change (Ascii.eqb NUL x) with false; cbv iota
      end.
    exact I. }
  assert (Hr1 : forall o st1, (String.length st1 <= String.length r1)%nat ->
            within (String.length (String c (String e r1))) (string_loop n o st1)).
  { intros o st1 Hl. eapply within_le; [|apply (Hr o st1); simpl; lia].
    simpl. lia. }
  repeat match goal with
    | |- context [if Ascii.eqb e ?x then _ else _] =>
        destruct (Ascii.eqb e x); [first [apply Hr1; lia | idtac]|]
    end.
  2: exact I.
  unfold bind.
  destruct r1 as [|h1 r2]; cbn [get]; [apply Hr1; simpl; lia|].
  destruct r2 as [|h2 r3]; cbn [get]; [apply Hr1; simpl; lia|].
  destruct r3 as [|h3 r4]; cbn [get]; [apply Hr1; simpl; lia|].
  destruct r4 as [|h4 r5]; cbn [get]; apply Hr1; simpl; lia.
Qed.

Lemma string_loop_total n out st :
  (String.length st < n)%nat ->
    string_loop n out st <> Err OutOfFuel /\
    forall s st', string_loop n out st = Ok (s, st') ->
      (String.length st' <= String.length st)%nat.
Proof.
  intro Hn. pose proof (string_loop_within n out st Hn) as W.
  split.
  - intro E. rewrite E in W. exact W.
  - intros s st' E. rewrite E in W. exact W.
Qed.

Lemma progress_parse_string_raw : progress parse_string_raw.
Proof.
  unfold parse_string_raw. apply progress_bind_l.
  - apply progress_expect. discriminate.
  - intros _ st s st' E.
    now apply (string_loop_total (S (String.length st)) "" st ltac:(lia)) in E.
Qed.

Lemma fueled_parse_string_raw k : fueled k parse_string_raw.
Proof.
  unfold parse_string_raw. apply fueled_bind; auto with parser.
  intros _ st _.
  apply (string_loop_total (S (String.length st)) "" st ltac:(lia)).
Qed.

Lemma progress_parse_string : progress parse_string.
Proof.
  unfold parse_string. apply progress_bind_l;
    [apply progress_parse_string_raw | intro; parser_auto].
Qed.

Lemma fueled_parse_string k : fueled k parse_string.
Proof.
  unfold parse_string. apply fueled_bind; auto with parser.
  - apply fueled_parse_string_raw.
  - apply progress_nonincr, progress_parse_string_raw.
Qed.

Lemma advanced_of {A} (p : Parser A) k st :
  progress p -> fueled k p -> (String.length st < k)%nat -> advanced st (p st).
Proof.
  intros Hp Hf Hk. unfold advanced.
  destruct (p st) as [[a st']|e] eqn:E.
  - eapply Hp; eauto.
  - destruct e; try exact I. exact (Hf st Hk E).
Qed.

Lemma advanced_shorter {A} st st0 (r : result (A * string)) :
  (String.length st <= String.length st0)%nat -> advanced st r -> advanced st0 r.
Proof. destruct r as [[a st']|[]]; simpl; auto. lia. Qed.

Section Loops.

Variable pv : Parser Json.
Variable b : nat.
Hypothesis pv_advances :
  forall st, (String.length st < b)%nat -> advanced st (pv st).

Lemma array_loop_advances n :
  forall arr st, (String.length st < n)%nat -> (String.length st < b)%nat ->
    advanced st (array_loop pv n arr st).
Proof.
  induction n as [|n IH]; intros arr st Hn Hb; [lia|].
  cbn [array_loop]. unfold bind at 1.
  pose proof (pv_advances st Hb) as Hv.
  destruct (pv st) as [[v st1]|e]; [|exact Hv]. simpl in Hv.
  unfold bind at 1, skip_ws at 1. unfold bind at 1.
  pose proof (drop_ws_length st1) as Hw.
  destruct (drop_ws st1) as [|c st2]; cbn [get].
  - change (Ascii.eqb NUL "]") with false.
    change (Ascii.eqb NUL ",") with false. exact I.
  - simpl in Hw. destruct (Ascii.eqb c "]"); [simpl; lia|].
    destruct (Ascii.eqb c ","); [|exact I].
    cbn [negb]. unfold bind, skip_ws.
    pose proof (drop_ws_length st2) as Hw2.
    eapply advanced_shorter; [|apply IH; lia]. lia.
Qed.

Lemma parse_array_advances st :
  (String.length st < S b)%nat -> advanced st (parse_array pv st).
Proof.
  intro Hb. unfold parse_array. unfold bind at 1.
  destruct st as [|c st1]; unfold expect at 1, bind at 1; cbn [get].
  - change (Ascii.eqb NUL "[") with false. exact I.
  - destruct (Ascii.eqb c "["); cbn [negb]; [|exact I].
    unfold ret at 1, bind at 1, skip_ws at 1, bind at 1.
    pose proof (drop_ws_length st1) as Hw. simpl in Hb.
    destruct (drop_ws st1) as [|c2 st2] eqn:Ed; cbn [peek].
    + change (Ascii.eqb NUL "]") with false.
      eapply advanced_shorter; [|apply array_loop_advances]; simpl; lia.
    + destruct (Ascii.eqb c2 "]").
      * unfold bind, get, ret. simpl in *. lia.
      * eapply advanced_shorter; [|apply array_loop_advances]; simpl in *; lia.
Qed.

Lemma object_loop_advances n :
  forall obj st, (String.length st < n)%nat -> (String.length st < b)%nat ->
    advanced st (object_loop pv n obj st).
Proof.
  induction n as [|n IH]; intros obj st Hn Hb; [lia|].
  cbn [object_loop]. unfold bind at 1, skip_ws at 1, bind at 1.
  pose proof (drop_ws_length st) as Hw0.
  set (st0 := drop_ws st) in *.
  assert (Hp : exists c, peek st0 = Ok (c, st0)) by (destruct st0; eexists; reflexivity).
  destruct Hp as [c ->].
  destruct (Ascii.eqb c DQ); cbn [negb]; [|exact I].
  unfold bind at 1.
  pose proof (advanced_of parse_string_raw (S (String.length st0)) st0
                progress_parse_string_raw (fueled_parse_string_raw _)
                ltac:(lia)) as Hk.
  destruct (parse_string_raw st0) as [[key st1]|e]; [|exact Hk]. simpl in Hk.
  unfold bind at 1, skip_ws at 1, bind at 1.
  pose proof (drop_ws_length st1) as Hw1.
  destruct (expect ":" (drop_ws st1)) as [[u st2]|e] eqn:Ee.
  2: { destruct e; try exact I.
       apply (fueled_expect (S (String.length (drop_ws st1))) ":" (drop_ws st1));
         [lia|exact Ee]. }
  apply nonincr_expect in Ee.
  unfold bind at 1.
  pose proof (pv_advances st2 ltac:(lia)) as Hv.
  destruct (pv st2) as [[v st3]|e]; [|exact Hv]. simpl in Hv.
  unfold bind at 1, skip_ws at 1. unfold bind at 1.
  pose proof (drop_ws_length st3) as Hw3.
  destruct (drop_ws st3) as [|c4 st4]; cbn [get].
  - change (Ascii.eqb NUL "}") with false.
    change (Ascii.eqb NUL ",") with false. exact I.
  - simpl in Hw3. destruct (Ascii.eqb c4 "}"); [simpl; lia|].
    destruct (Ascii.eqb c4 ","); [|exact I].
    cbn [negb]. unfold bind, skip_ws.
    pose proof (drop_ws_length st4) as Hw4.
    eapply advanced_shorter; [|apply IH; lia]. lia.
Qed.

Lemma parse_object_advances st :
  (String.length st < S b)%nat -> advanced st (parse_object pv st).
Proof.
  intro Hb. unfold parse_object. unfold bind at 1.
  destruct st as [|c st1]; unfold expect at 1, bind at 1; cbn [get].
  - change (Ascii.eqb NUL "{") with false. exact I.
  - destruct (Ascii.eqb c "{"); cbn [negb]; [|exact I].
    unfold ret at 1, bind at 1, skip_ws at 1, bind at 1.
    pose proof (drop_ws_length st1) as Hw. simpl in Hb.
    destruct (drop_ws st1) as [|c2 st2] eqn:Ed; cbn [peek].
    + change (Ascii.eqb NUL "}") with false.
      eapply advanced_shorter; [|apply object_loop_advances]; simpl; lia.
    + destruct (Ascii.eqb c2 "}").
      * unfold bind, get, ret. simpl in *. lia.
      * eapply advanced_shorter; [|apply object_loop_advances]; simpl in *; lia.
Qed.

End Loops.

(** [parse_value] with fuel above the length of the unread text consumes
    at least one byte or throws an exception of the code. *)
Lemma parse_value_advances n :
  forall st, (String.length st < n)%nat -> advanced st (parse_value n st).
Proof.
  induction n as [|n IH]; intros st Hn; [lia|].
  cbn [parse_value]. unfold bind at 1, skip_ws at 1, bind at 1.
  pose proof (drop_ws_length st) as Hw.
  destruct (drop_ws st) as [|c st1] eqn:Ed; cbn [peek].
  - change (Ascii.eqb NUL "n") with false. change (Ascii.eqb NUL "t") with false.
    change (Ascii.eqb NUL "f") with false. change (Ascii.eqb NUL DQ) with false.
    change (Ascii.eqb NUL "-") with false. change (isdigit NUL) with false.
    change (Ascii.eqb NUL "{") with false. change (Ascii.eqb NUL "[") with false.
    exact I.
  - assert (Hs : (String.length (String c st1) < S (String.length (String c st1)))%nat) by lia.
    eapply advanced_shorter; [exact Hw|].
    destruct (Ascii.eqb c "n").
    { eapply advanced_of; [apply progress_parse_null|apply fueled_parse_null|exact Hs]. }
    destruct (Ascii.eqb c "t" || Ascii.eqb c "f").
    { eapply advanced_of; [apply progress_parse_bool|apply fueled_parse_bool|exact Hs]. }
    destruct (Ascii.eqb c DQ).
    { eapply advanced_of; [apply progress_parse_string|apply fueled_parse_string|exact Hs]. }
    destruct (Ascii.eqb c "-" || isdigit c) eqn:Hd.
    { unfold advanced.
      destruct (parse_number (String c st1)) as [[j st']|e] eqn:E.
      - eapply parse_number_progress; eauto.
      - destruct e; try exact I. exact (fueled_parse_number _ _ Hs E). }
    destruct (Ascii.eqb c "{").
    { apply parse_object_advances with (b := n); [exact IH|simpl in *; lia]. }
    destruct (Ascii.eqb c "[").
    { apply parse_array_advances with (b := n); [exact IH|simpl in *; lia]. }
    exact I.
Qed.

End ParserTotal.

(** ** What [parse] can return

    An induction principle over the run of the parser: a property that holds
    of the scalars the parser builds and is kept by [push_back] and [emplace]
    holds of every value [parse] returns. *)

Section ParserInvariant.

Variable P : Json -> Prop.
Hypothesis P_null : P Null.
Hypothesis P_bool : forall b, P (Bool b).
Hypothesis P_str : forall s, P (Str s).
Hypothesis P_num : forall tok d, Stod.stod tok = Ok d -> P (Num d).
Hypothesis P_arr_nil : P (Arr []).
Hypothesis P_arr_push : forall a v, P (Arr a) -> P v -> P (Arr (a ++ [v])).
Hypothesis P_obj_nil : P (Obj []).
Hypothesis P_obj_emplace :
  forall o k v, P (Obj o) -> P v -> P (Obj (StdMap.emplace k v o)).

Lemma parse_null_value st j st' : parse_null st = Ok (j, st') -> j = Null.
Proof.
  unfold parse_null. intro H.
  repeat (apply bind_ok in H as (? & ? & _ & H)). now inversion H.
Qed.

Lemma parse_bool_value st j st' : parse_bool st = Ok (j, st') -> exists b, j = Bool b.
Proof.
  unfold parse_bool. intro H.
  apply bind_ok in H as (c & ? & _ & H).
  destruct (Ascii.eqb c "t");
    repeat (apply bind_ok in H as (? & ? & _ & H)); inversion H; eauto.
Qed.

Lemma parse_string_value st j st' : parse_string st = Ok (j, st') -> exists s, j = Str s.
Proof.
  unfold parse_string. intro H.
  apply bind_ok in H as (s & ? & _ & H). inversion H; eauto.
Qed.

Lemma parse_number_value st j st' :
  parse_number st = Ok (j, st') -> exists tok d, Stod.stod tok = Ok d /\ j = Num d.
Proof.
  unfold parse_number. intro H.
  destruct (scan_number st) as [[u st1]|e]; [|discriminate].
  destruct (Stod.stod _) as [d|e] eqn:E; [|discriminate].
  inversion H; eauto.
Qed.

Section Loops.

Variable pv : Parser Json.
Hypothesis pv_P : forall st j st', pv st = Ok (j, st') -> P j.

Lemma array_loop_inv n :
  forall arr st j st',
    P (Arr arr) -> array_loop pv n arr st = Ok (j, st') -> P j.
Proof.
  induction n as [|n IH]; intros arr st j st' Ha H; [discriminate|].
  cbn [array_loop] in H.
  apply bind_ok in H as (v & s1 & Hv & H).
  apply bind_ok in H as (? & s2 & _ & H).
  apply bind_ok in H as (c & s3 & _ & H).
  apply pv_P in Hv.
  destruct (Ascii.eqb c "]").
  - inversion H; subst. now apply P_arr_push.
  - destruct (Ascii.eqb c ","); [|discriminate].
    apply bind_ok in H as (? & s4 & _ & H).
    eapply IH; [|exact H]. now apply P_arr_push.
Qed.

Lemma parse_array_inv st j st' : parse_array pv st = Ok (j, st') -> P j.
Proof.
  unfold parse_array. intro H.
  apply bind_ok in H as (? & s1 & _ & H).
  apply bind_ok in H as (? & s2 & _ & H).
  apply bind_ok in H as (c & s3 & _ & H).
  destruct (Ascii.eqb c "]").
  - apply bind_ok in H as (? & ? & _ & H). now inversion H.
  - eapply array_loop_inv; [|exact H]. exact P_arr_nil.
Qed.

Lemma object_loop_inv n :
  forall obj st j st',
    P (Obj obj) -> object_loop pv n obj st = Ok (j, st') -> P j.
Proof.
  induction n as [|n IH]; intros obj st j st' Ho H; [discriminate|].
  cbn [object_loop] in H.
  apply bind_ok in H as (? & s1 & _ & H).
  apply bind_ok in H as (c & s2 & _ & H).
  destruct (Ascii.eqb c DQ); [|discriminate]. cbn [negb] in H.
  apply bind_ok in H as (key & s3 & _ & H).
  apply bind_ok in H as (? & s4 & _ & H).
  apply bind_ok in H as (? & s5 & _ & H).
  apply bind_ok in H as (v & s6 & Hv & H).
  apply bind_ok in H as (? & s7 & _ & H).
  apply bind_ok in H as (c' & s8 & _ & H).
  apply pv_P in Hv.
  destruct (Ascii.eqb c' "}").
  - inversion H; subst. now apply P_obj_emplace.
  - destruct (Ascii.eqb c' ","); [|discriminate].
    apply bind_ok in H as (? & s9 & _ & H).
    eapply IH; [|exact H]. now apply P_obj_emplace.
Qed.

Lemma parse_object_inv st j st' : parse_object pv st = Ok (j, st') -> P j.
Proof.
  unfold parse_object. intro H.
  apply bind_ok in H as (? & s1 & _ & H).
  apply bind_ok in H as (? & s2 & _ & H).
  apply bind_ok in H as (c & s3 & _ & H).
  destruct (Ascii.eqb c "}").
  - apply bind_ok in H as (? & ? & _ & H). now inversion H.
  - eapply object_loop_inv; [|exact H]. exact P_obj_nil.
Qed.

End Loops.

Lemma parse_value_inv n :
  forall st j st', parse_value n st = Ok (j, st') -> P j.
Proof.
  induction n as [|n IH]; intros st j st' H; [discriminate|].
  cbn [parse_value] in H.
  apply bind_ok in H as (? & s1 & _ & H).
  apply bind_ok in H as (c & s2 & _ & H).
  destruct (Ascii.eqb c "n").
  { apply parse_null_value in H. now subst. }
  destruct (Ascii.eqb c "t" || Ascii.eqb c "f").
  { apply parse_bool_value in H as [b ->]. apply P_bool. }
  destruct (Ascii.eqb c DQ).
  { apply parse_string_value in H as [s ->]. apply P_str. }
  destruct (Ascii.eqb c "-" || isdigit c).
  { apply parse_number_value in H as (tok & d & Hd & ->). eapply P_num; eauto. }
  destruct (Ascii.eqb c "{").
  { eapply parse_object_inv; [exact IH|exact H]. }
  destruct (Ascii.eqb c "[").
  { eapply parse_array_inv; [exact IH|exact H]. }
  discriminate.
Qed.

Lemma parse_inv s j : parse s = Ok j -> P j.
Proof.
  unfold parse.
  destruct (parse_value _ s) as [[v st]|e] eqn:E; [|discriminate].
  destruct (eof (drop_ws st)) as [[[] ?]|]; try discriminate.
  intro H. inversion H; subst. eapply parse_value_inv; eauto.
Qed.

End ParserInvariant.

(** ** Properties of every value inside a document *)

Section Every.

Variable Q : Json -> Prop.
Hypothesis Q_null : Q Null.
Hypothesis Q_bool : forall b, Q (Bool b).
Hypothesis Q_str : forall s, Q (Str s).
Hypothesis Q_num : forall tok d, Stod.stod tok = Ok d -> Q (Num d).
Hypothesis Q_arr : forall a, Q (Arr a).
Hypothesis Q_obj_nil : Q (Obj []).
Hypothesis Q_obj_emplace : forall o k v, Q (Obj o) -> Q (Obj (StdMap.emplace k v o)).

Lemma every_push a v : every Q (Arr a) -> every Q v -> every Q (Arr (a ++ [v])).
Proof.
  intros [_ Ha] Hv. split; [apply Q_arr|].
  induction a as [|x a IH]; simpl in *; [tauto|].
  destruct Ha as [Hx Ha]. split; [exact Hx|]. now apply IH.
Qed.

Lemma every_emplace o k v :
  every Q (Obj o) -> every Q v -> every Q (Obj (StdMap.emplace k v o)).
Proof.
  intros [Hq Ho] Hv. split; [now apply Q_obj_emplace|].
  clear Hq. induction o as [|[k1 v1] o IH]; simpl in *; [tauto|].
  destruct Ho as [H1 Ho].
  destruct (String.compare k k1); simpl; tauto.
Qed.

Lemma parse_every s j : parse s = Ok j -> every Q j.
Proof.
  apply parse_inv.
  - simpl; auto.
  - simpl; auto.
  - simpl; auto.
  - intros tok d H. split; [eapply Q_num; eauto|exact I].
  - simpl; auto.
  - apply every_push.
  - simpl; auto.
  - apply every_emplace.
Qed.

End Every.

Lemma stod_finite tok d : Stod.stod tok = Ok d -> is_finite d = true.
Proof.
  unfold Stod.stod.
  destruct (Stod.sign tok) as [neg s1].
  destruct (Stod.span_digits s1) as [ip s2].
  destruct (match s2 with
            | String c r => if Ascii.eqb c "." then Stod.span_digits r else (EmptyString, s2)
            | EmptyString => (EmptyString, s2)
            end) as [fp s3].
  destruct (ip ++ fp); [discriminate|].
  destruct (Stod.fraction _ _) as [num den].
  destruct (Stod.erange _ num den) eqn:E; [discriminate|].
  intro H. inversion H; subst d. clear H.
  unfold Stod.erange in E.
  destruct (Stod.nearest neg num den); try discriminate; reflexivity.
Qed.

(** Every Object in a parsed document has its keys strictly ascending. *)
Lemma parse_keys_ascending s j : parse s = Ok j -> every keys_ascending j.
Proof.
  apply parse_every; simpl; auto.
  - constructor.
  - intros o k v. apply StdMapFacts.emplace_sorted.
Qed.

(** No Number in a parsed document is an infinity or a NaN. *)
Lemma parse_numbers_finite s j : parse s = Ok j -> every number_finite j.
Proof.
  apply parse_every; simpl; auto. apply stod_finite.
Qed.

(** ** Strings: [escape] against the string loop *)

Section StringRoundTrip.

Lemma append_assoc (a b c : string) : (a ++ b) ++ c = a ++ (b ++ c).
Proof. induction a as [|x a IH]; simpl; [reflexivity|now rewrite IH]. Qed.

Lemma append_nil_r (a : string) : a ++ "" = a.
Proof. induction a as [|x a IH]; simpl; [reflexivity|now rewrite IH]. Qed.

Lemma length_append (a b : string) :
  String.length (a ++ b) = (String.length a + String.length b)%nat.
Proof. induction a as [|x a IH]; simpl; [reflexivity|now rewrite IH]. Qed.

Lemma plain_reversible c : plain c = true -> reversible c = true.
Proof.
  destruct c as [[] [] [] [] [] [] [] []]; vm_compute; intro H;
    first [reflexivity | discriminate H].
Qed.

Lemma all_chars_impl (f g : ascii -> bool) s :
  (forall c, f c = true -> g c = true) ->
  all_chars f s = true -> all_chars g s = true.
Proof.
  intro Hfg. induction s as [|c r IH]; simpl; [reflexivity|].
  rewrite !andb_true_iff. intros [H1 H2]. split; auto.
Qed.

(** One iteration of the loop of [parse_string] undoes one iteration of
    the loop of [escape]. *)
Lemma string_loop_escape_char c :
  reversible c = true ->
  forall n out r,
    string_loop (S n) out (escape_char c ++ r) = string_loop n (out ++ chr c) r.
Proof.
  destruct c as [[] [] [] [] [] [] [] []]; intro H;
    first [discriminate H | intros n out r; reflexivity].
Qed.

Lemma string_loop_escape s :
  all_chars reversible s = true ->
  forall n out rest, (String.length s < n)%nat ->
    string_loop n out (escape s ++ String DQ rest) = Ok (out ++ s, rest).
Proof.
  induction s as [|c r IH]; intros Hs n out rest Hn.
  - destruct n as [|n]; [simpl in Hn; lia|].
    rewrite append_nil_r. reflexivity.
  - simpl in Hs. apply andb_true_iff in Hs as [Hc Hr].
    destruct n as [|n]; [simpl in Hn; lia|].
    cbn [escape]. rewrite append_assoc.
    rewrite (string_loop_escape_char c Hc).
    rewrite (IH Hr) by (simpl in Hn; lia).
    now rewrite append_assoc.
Qed.

Lemma escape_char_length c : (1 <= String.length (escape_char c))%nat.
Proof. destruct c as [[] [] [] [] [] [] [] []]; vm_compute; lia. Qed.

Lemma escape_length s : (String.length s <= String.length (escape s))%nat.
Proof.
  induction s as [|c r IH]; simpl; [lia|].
  rewrite length_append. pose proof (escape_char_length c). lia.
Qed.

Lemma parse_value_quote n r :
  parse_value (S n) (String DQ r) =
  match string_loop (S (String.length r)) "" r with
  | Ok (s, st) => Ok (Str s, st)
  | Err e => Err e
  end.
Proof.
  cbn [parse_value]. unfold bind at 1, skip_ws at 1. cbn [drop_ws].
  change (isspace DQ) with false. cbv iota.
  unfold bind at 1. cbn [peek].
  change (Ascii.eqb DQ "n") with false.
  change (Ascii.eqb DQ "t" || Ascii.eqb DQ "f") with false.
  change (Ascii.eqb DQ DQ) with true. cbv iota.
  unfold parse_string, parse_string_raw, bind, expect, bind, get.
  change (negb (Ascii.eqb DQ DQ)) with false. cbv iota. unfold ret.
  destruct (string_loop _ _ _) as [[s st]|e]; reflexivity.
Qed.

(** Dumping a String and parsing the text gives the String back when no
    byte of it is a control byte without a short escape. *)
Lemma string_roundtrip s :
  all_chars reversible s = true ->
  parse (dump compact (Str s)) = Ok (Str s).
Proof.
  intro Hs. unfold parse, dump. cbn [dump_impl].
  change (chr DQ ++ escape s ++ chr DQ) with (String DQ (escape s ++ chr DQ)).
  cbn [String.length]. rewrite parse_value_quote.
  unfold chr at 1 2.
  rewrite (string_loop_escape s Hs).
  - reflexivity.
  - rewrite length_append. pose proof (escape_length s). simpl. lia.
Qed.

End StringRoundTrip.

(** ** Number tokens against the scan of [parse_number] *)

Section Tokens.

Lemma digit_run_all ds : digit_run ds = true -> all_chars isdigit ds = true.
Proof. destruct ds; [discriminate|auto]. Qed.

Lemma digit_run_head ds : digit_run ds = true -> starts_with isdigit ds = true.
Proof.
  destruct ds as [|c r]; [discriminate|]. simpl.
  intro H. now apply andb_true_iff in H.
Qed.

Lemma drop_digits_app ds r :
  all_chars isdigit ds = true -> starts_with isdigit r = false ->
  drop_digits (ds ++ r) = r.
Proof.
  intros Hd Hr. induction ds as [|c ds IH]; simpl in *.
  - destruct r as [|x r]; [reflexivity|]. simpl in Hr |- *. now rewrite Hr.
  - apply andb_true_iff in Hd as [Hc Hd]. rewrite Hc. auto.
Qed.

Lemma span_digits_app ds r :
  all_chars isdigit ds = true -> starts_with isdigit r = false ->
  Stod.span_digits (ds ++ r) = (ds, r).
Proof.
  intros Hd Hr. induction ds as [|c ds IH]; simpl in *.
  - destruct r as [|x r]; [reflexivity|]. simpl in Hr |- *. now rewrite Hr.
  - apply andb_true_iff in Hd as [Hc Hd]. rewrite Hc. now rewrite IH.
Qed.

Lemma digits1_app ds r :
  digit_run ds = true -> starts_with isdigit r = false ->
  digits1 (ds ++ r) = Ok (tt, r).
Proof.
  intros Hd Hr. pose proof (digit_run_head _ Hd) as Hh.
  apply digit_run_all in Hd.
  destruct ds as [|c ds]; [discriminate|].
  unfold digits1, bind, peek, skip_digits. simpl in Hh |- *.
  rewrite Hh. cbn [negb].
  change (String c (ds ++ r)) with (String c ds ++ r).
  now rewrite drop_digits_app.
Qed.

Lemma isdigit_not (c x : ascii) :
  isdigit c = true -> isdigit x = false -> Ascii.eqb c x = false.
Proof.
  intros Hc Hx. destruct (Ascii.eqb_spec c x); [congruence|reflexivity].
Qed.

Lemma scan_sign_text neg r :
  starts_with isdigit r = true ->
  scan_sign (sign_text neg ++ r) = Ok (tt, r).
Proof.
  intro Hr. destruct neg; [reflexivity|].
  destruct r as [|c r]; [discriminate|]. simpl in Hr |- *.
  unfold scan_sign, bind, peek.
  now rewrite (isdigit_not c "-" Hr eq_refl).
Qed.

Lemma scan_int_text i r :
  int_part i = true -> starts_with isdigit r = false ->
  scan_int (i ++ r) = Ok (tt, r).
Proof.
  intros Hi Hr. destruct i as [|c i]; [discriminate|].
  simpl in Hi. apply andb_true_iff in Hi as [Hi Hz].
  apply andb_true_iff in Hi as [Hc Hd].
  unfold scan_int, bind. cbn [String.append peek].
  destruct (Ascii.eqb_spec c "0") as [->|Hne].
  - destruct i; [reflexivity|discriminate].
  - apply digits1_app with (ds := String c i); [|exact Hr].
    simpl. now rewrite Hc, Hd.
Qed.

Lemma scan_frac_text f r :
  match f with Some ds => digit_run ds | None => true end = true ->
  starts_with isdigit r = false -> starts_with (Ascii.eqb ".") r = false ->
  scan_frac (frac_text f ++ r) = Ok (tt, r).
Proof.
  intros Hf Hr Hp. destruct f as [ds|]; simpl.
  - unfold scan_frac, bind at 1. cbn [peek].
    change (Ascii.eqb "." ".") with true. cbv iota.
    unfold bind, advance. now apply digits1_app.
  - unfold scan_frac, bind. destruct r as [|c r]; [reflexivity|].
    simpl in Hp |- *. rewrite Ascii.eqb_sym in Hp. now rewrite Hp.
Qed.

Lemma scan_exp_text e r :
  match e with Some (_, _, ds) => digit_run ds | None => true end = true ->
  starts_with isdigit r = false ->
  starts_with (fun c => Ascii.eqb c "e" || Ascii.eqb c "E") r = false ->
  scan_exp (exp_text e ++ r) = Ok (tt, r).
Proof.
  intros He Hr Hp. destruct e as [[[upper sg] ds]|]; simpl.
  - pose proof (digit_run_head _ He) as Hh.
    assert (Hs : forall x, isdigit x = false ->
               starts_with (fun c => Ascii.eqb c x) (ds ++ r) = false).
    { intros x Hx. destruct ds as [|c ds]; [discriminate|]. simpl in *.
      now apply isdigit_not. }
    unfold scan_exp, bind at 1. cbn [peek].
    replace (Ascii.eqb (if upper then "E"%char else "e"%char) "e" ||
             Ascii.eqb (if upper then "E"%char else "e"%char) "E") with true
      by now destruct upper.
    unfold bind at 1, advance at 1.
    destruct sg as [[]|]; cbn [String.append].
    + unfold bind at 1. cbn [peek]. change (Ascii.eqb "-" "+" || Ascii.eqb "-" "-") with true.
      cbv iota. unfold bind, advance. now apply digits1_app.
    + unfold bind at 1. cbn [peek]. change (Ascii.eqb "+" "+" || Ascii.eqb "+" "-") with true.
      cbv iota. unfold bind, advance. now apply digits1_app.
    + unfold bind at 1.
      destruct ds as [|c ds]; [discriminate|]. simpl in Hh. cbn [String.append peek].
      rewrite (isdigit_not c "+" Hh eq_refl), (isdigit_not c "-" Hh eq_refl).
      cbn [orb]. unfold bind, ret.
      now apply digits1_app with (ds := String c ds).
  - unfold scan_exp, bind. destruct r as [|c r]; [reflexivity|].
    simpl in Hp |- *. now rewrite Hp.
Qed.

Lemma starts_frac_exp f e r (g : ascii -> bool) :
  g "."%char = false -> g "e"%char = false -> g "E"%char = false ->
  starts_with g r = false ->
  starts_with g (frac_text f ++ exp_text e ++ r) = false.
Proof.
  intros H1 H2 H3 Hr. destruct f as [ds|]; [exact H1|].
  destruct e as [[[[] sg] ds]|]; simpl; auto.
Qed.

Lemma starts_exp e r (g : ascii -> bool) :
  g "e"%char = false -> g "E"%char = false ->
  starts_with g r = false ->
  starts_with g (exp_text e ++ r) = false.
Proof.
  intros H2 H3 Hr. destruct e as [[[[] sg] ds]|]; simpl; auto.
Qed.

Lemma continues_split r :
  starts_with continues r = false ->
  starts_with isdigit r = false /\
  starts_with (Ascii.eqb ".") r = false /\
  starts_with (fun c => Ascii.eqb c "e" || Ascii.eqb c "E") r = false.
Proof.
  destruct r as [|c r]; simpl; [auto|]. unfold continues.
  rewrite (Ascii.eqb_sym "." c).
  destruct (isdigit c), (Ascii.eqb c "."), (Ascii.eqb c "e"), (Ascii.eqb c "E");
    simpl; intro H; try discriminate H; auto.
Qed.

Lemma int_part_head i : int_part i = true -> starts_with isdigit i = true.
Proof.
  destruct i as [|c i]; [discriminate|]. simpl. intro H.
  apply andb_true_iff in H as [H _]. now apply andb_true_iff in H as [H _].
Qed.

Lemma int_part_all i : int_part i = true -> all_chars isdigit i = true.
Proof.
  destruct i as [|c i]; [discriminate|]. simpl. intro H.
  apply andb_true_iff in H as [H _]. exact H.
Qed.

Lemma starts_with_app (g : ascii -> bool) a b :
  starts_with g a = true -> starts_with g (a ++ b) = true.
Proof. destruct a; [discriminate|auto]. Qed.

(** The scan of [parse_number] consumes exactly the token. *)
Lemma scan_number_text t rest :
  well_formed t = true -> starts_with continues rest = false ->
  scan_number (text t ++ rest) = Ok (tt, rest).
Proof.
  intros Hw Hr. apply continues_split in Hr as (Hd & Hp & He).
  unfold well_formed in Hw.
  apply andb_true_iff in Hw as [Hw Hexp]. apply andb_true_iff in Hw as [Hint Hfrac].
  unfold text. rewrite !append_assoc.
  unfold scan_number, bind.
  rewrite scan_sign_text
    by (apply starts_with_app, int_part_head, Hint).
  rewrite scan_int_text; [|exact Hint|].
  2: { apply starts_frac_exp; auto. }
  rewrite scan_frac_text; [|exact Hfrac| |].
  2: { apply starts_exp; auto. }
  2: { apply starts_exp; auto. }
  now rewrite scan_exp_text.
Qed.

Lemma sign_sign_text neg r :
  starts_with isdigit r = true ->
  Stod.sign (sign_text neg ++ r) = (neg, r).
Proof.
  intro Hr. destruct neg; [reflexivity|].
  destruct r as [|c r]; [discriminate|]. simpl in Hr |- *.
  now rewrite (isdigit_not c "-" Hr eq_refl), (isdigit_not c "+" Hr eq_refl).
Qed.

Lemma exponent_exp_text e :
  match e with Some (_, _, ds) => digit_run ds | None => true end = true ->
  Stod.exponent (exp_text e) =
  match e with
  | Some (_, Some true, ds) => - Stod.value 0 ds
  | Some (_, _, ds) => Stod.value 0 ds
  | None => 0
  end.
Proof.
  destruct e as [[[upper sg] ds]|]; [|reflexivity].
  intro Hd. pose proof (digit_run_head _ Hd) as Hh.
  apply digit_run_all in Hd.
  assert (Hsp : Stod.span_digits ds = (ds, "")).
  { rewrite <- (append_nil_r ds) at 1. now apply span_digits_app. }
  unfold exp_text, Stod.exponent.
  replace (Ascii.eqb (if upper then "E"%char else "e"%char) "e" ||
           Ascii.eqb (if upper then "E"%char else "e"%char) "E") with true
    by now destruct upper.
  destruct sg as [[]|]; cbn [String.append].
  - unfold Stod.sign. change (Ascii.eqb "-" "-") with true. cbv iota.
    now rewrite Hsp.
  - unfold Stod.sign. change (Ascii.eqb "+" "-") with false.
    change (Ascii.eqb "+" "+") with true. cbv iota. now rewrite Hsp.
  - destruct ds as [|c ds]; [discriminate|]. simpl in Hh.
    unfold Stod.sign.
    rewrite (isdigit_not c "-" Hh eq_refl), (isdigit_not c "+" Hh eq_refl).
    now rewrite Hsp.
Qed.

(** [std::stod] on the text of a token converts the value of the token. *)
Lemma stod_text t : well_formed t = true -> Stod.stod (text t) = token_stod t.
Proof.
  intro Hw. unfold well_formed in Hw.
  apply andb_true_iff in Hw as [Hw Hexp]. apply andb_true_iff in Hw as [Hint Hfrac].
  unfold Stod.stod, text.
  rewrite sign_sign_text by (apply starts_with_app, int_part_head, Hint).
  rewrite span_digits_app; [|apply int_part_all, Hint|].
  2: { rewrite <- (append_nil_r (exp_text (t_exp t))).
       rewrite <- append_assoc. rewrite append_assoc.
       apply starts_frac_exp; auto. }
  unfold token_stod, token_fraction.
  destruct (t_frac t) as [fd|] eqn:Ef; simpl frac_text.
  - cbn [String.append]. change (Ascii.eqb "." ".") with true. cbv iota.
    rewrite span_digits_app; [|apply digit_run_all, Hfrac|].
    2: { rewrite <- (append_nil_r (exp_text (t_exp t))).
         apply starts_exp; auto. }
    rewrite exponent_exp_text by exact Hexp.
    destruct (t_int t ++ fd) eqn:Ei.
    { destruct (t_int t); discriminate. }
    reflexivity.
  - cbn [String.append].
    assert (Hs : match exp_text (t_exp t) with
                 | String c r =>
                     if Ascii.eqb c "." then Stod.span_digits r
                     else ("", exp_text (t_exp t))
                 | "" => ("", exp_text (t_exp t))
                 end = ("", exp_text (t_exp t))).
    { destruct (t_exp t) as [[[[] sg] ds]|]; reflexivity. }
    rewrite Hs. rewrite exponent_exp_text by exact Hexp.
    rewrite !append_nil_r.
    destruct (t_int t) eqn:Ei; [discriminate|].
    reflexivity.
Qed.

Lemma substring_prefix a b : substring 0 (String.length a) (a ++ b) = a.
Proof.
  induction a as [|c a IH]; simpl.
  - destruct b; reflexivity.
  - now rewrite IH.
Qed.

(** [parse_number] on a token followed by a byte that cannot continue it:
    the Number [std::stod] converts, or the exception it throws. *)
Lemma parse_number_text t rest :
  well_formed t = true -> starts_with continues rest = false ->
  parse_number (text t ++ rest) =
  match token_stod t with
  | Ok d => Ok (Num d, rest)
  | Err e => Err e
  end.
Proof.
  intros Hw Hr. unfold parse_number.
  rewrite scan_number_text by assumption.
  rewrite length_append.
  replace (String.length (text t) + String.length rest - String.length rest)%nat
    with (String.length (text t)) by lia.
  rewrite substring_prefix. now rewrite stod_text.
Qed.

Lemma text_head t :
  well_formed t = true ->
  exists c r, text t = String c r /\ Ascii.eqb c "-" || isdigit c = true /\
              isspace c = false /\
              Ascii.eqb c "n" = false /\ Ascii.eqb c "t" || Ascii.eqb c "f" = false /\
              Ascii.eqb c DQ = false.
Proof.
  intro Hw. unfold well_formed in Hw.
  apply andb_true_iff in Hw as [Hw _]. apply andb_true_iff in Hw as [Hint _].
  apply int_part_head in Hint. unfold text.
  destruct (t_neg t); simpl.
  - eexists _, _. split; [reflexivity|]. repeat split; reflexivity.
  - destruct (t_int t) as [|c i]; [discriminate|]. simpl in Hint |- *.
    eexists _, _. split; [reflexivity|]. rewrite Hint.
    rewrite (isdigit_not c "n" Hint eq_refl), (isdigit_not c "t" Hint eq_refl),
      (isdigit_not c "f" Hint eq_refl), (isdigit_not c DQ Hint eq_refl).
    repeat split; try apply orb_true_r.
    destruct c as [[] [] [] [] [] [] [] []]; try discriminate Hint; reflexivity.
Qed.

(** [parse] on a text that is one number token. *)
Lemma parse_text t :
  well_formed t = true ->
  parse (text t) =
  match token_stod t with Ok d => Ok (Num d) | Err e => Err e end.
Proof.
  intro Hw. destruct (text_head t Hw) as (c & r & Et & Hc & Hsp & Hn & Htf & Hq).
  unfold parse. cbn [parse_value].
  unfold bind at 1, skip_ws at 1. rewrite Et. cbn [drop_ws]. rewrite Hsp.
  unfold bind at 1. cbn [peek]. rewrite Hn, Htf, Hq, Hc.
  rewrite <- Et. rewrite <- (append_nil_r (text t)).
  rewrite parse_number_text by (assumption || reflexivity).
  destruct (token_stod t); reflexivity.
Qed.

End Tokens.

(** ** Texts and the values they denote *)

Section Reads.

Lemma reads_parse txt j : reads txt j -> parse txt = Ok j.
Proof.
  intro H. unfold parse.
  specialize (H (S (String.length txt)) "").
  rewrite append_nil_r in H. rewrite H; [reflexivity|simpl; lia|reflexivity].
Qed.

Lemma reads_null : reads "null" Null.
Proof. intros [|n] rest Hn _; [lia|reflexivity]. Qed.

Lemma reads_true : reads "true" (Bool true).
Proof. intros [|n] rest Hn _; [lia|reflexivity]. Qed.

Lemma reads_false : reads "false" (Bool false).
Proof. intros [|n] rest Hn _; [lia|reflexivity]. Qed.

Lemma parse_string_raw_quoted s rest :
  all_chars reversible s = true ->
  parse_string_raw (quoted s ++ rest) = Ok (s, rest).
Proof.
  intro Hs. unfold quoted. rewrite !append_assoc.
  change (chr DQ ++ escape s ++ chr DQ ++ rest)
    with (String DQ (escape s ++ String DQ rest)).
  unfold parse_string_raw, bind, expect, bind, get.
  change (negb (Ascii.eqb DQ DQ)) with false. cbv iota. unfold ret.
  rewrite (string_loop_escape s Hs); [reflexivity|].
  rewrite length_append. pose proof (escape_length s). lia.
Qed.

Lemma reads_string s : all_chars reversible s = true -> reads (quoted s) (Str s).
Proof.
  intros Hs [|n] rest Hn _; [lia|].
  unfold quoted. rewrite !append_assoc.
  change (chr DQ ++ escape s ++ chr DQ ++ rest)
    with (String DQ (escape s ++ String DQ rest)).
  rewrite parse_value_quote.
  rewrite (string_loop_escape s Hs); [reflexivity|].
  rewrite length_append. pose proof (escape_length s). lia.
Qed.

Lemma reads_number t d :
  well_formed t = true -> token_stod t = Ok d -> reads (text t) (Num d).
Proof.
  intros Hw Hd [|n] rest Hn Hr; [lia|].
  destruct (text_head t Hw) as (c & r & Et & Hc & Hsp & Hnn & Htf & Hq).
  cbn [parse_value].
  unfold bind at 1, skip_ws at 1. rewrite Et. cbn [String.append drop_ws]. rewrite Hsp.
  unfold bind at 1. cbn [peek]. rewrite Hnn, Htf, Hq, Hc.
  change (String c (r ++ rest)) with (String c r ++ rest).
  rewrite <- Et. rewrite parse_number_text by assumption.
  now rewrite Hd.
Qed.

Lemma bind_eq {A B} (p : Parser A) (f : A -> Parser B) st a st1 :
  p st = Ok (a, st1) -> bind p f st = f a st1.
Proof. unfold bind. now intros ->. Qed.

Lemma drop_ws_stop st :
  starts_with isspace st = false -> drop_ws st = st.
Proof. destruct st as [|c r]; simpl; [reflexivity|]. now intros ->. Qed.

Lemma skip_ws_stop st :
  starts_with isspace st = false -> skip_ws st = Ok (tt, st).
Proof. intro H. unfold skip_ws. now rewrite drop_ws_stop. Qed.

Lemma members_text_cons m ms :
  members_text (m :: ms) =
  quoted (fst m) ++ ":" ++ snd m ++
  match ms with [] => "" | _ => "," ++ members_text ms end.
Proof. cbn [members_text]. unfold member_text. now rewrite !append_assoc. Qed.

Lemma members_text_head m ms rest :
  exists r, members_text (m :: ms) ++ rest = String DQ r.
Proof.
  rewrite members_text_cons. unfold quoted. rewrite !append_assoc.
  eexists. reflexivity.
Qed.

Lemma members_text_starts ms rest :
  ms <> [] -> starts_with isspace (members_text ms ++ rest) = false.
Proof.
  destruct ms as [|m ms]; [congruence|]. intros _.
  destruct (members_text_head m ms rest) as [r ->]. reflexivity.
Qed.

Lemma members_text_peek ms rest :
  ms <> [] ->
  peek (members_text ms ++ rest) = Ok (DQ, members_text ms ++ rest).
Proof.
  destruct ms as [|m ms]; [congruence|]. intros _.
  destruct (members_text_head m ms rest) as [r ->]. reflexivity.
Qed.

Lemma object_loop_members (pv : Parser Json) (bound : nat) :
  forall ms,
    Forall (fun m => forall rest,
              (String.length (snd (fst m)) + String.length rest < bound)%nat ->
              starts_with continues rest = false ->
              pv (snd (fst m) ++ rest) = Ok (snd m, rest)) ms ->
    Forall (fun m => all_chars reversible (fst (fst m)) = true) ms ->
    ms <> [] ->
    forall k obj rest,
      (String.length (members_text (member_texts ms)) < k)%nat ->
      (String.length (members_text (member_texts ms)) + S (String.length rest) < bound)%nat ->
      object_loop pv k obj (members_text (member_texts ms) ++ String "}" rest) =
      Ok (Obj (emplace_all (member_values ms) obj), rest).
Proof.
  induction ms as [|[[key vt] v] ms IH]; intros Hv Hk Hne k obj rest Hlen Hb;
    [congruence|].
  destruct k as [|k]; [lia|].
  inversion Hv as [|? ? Hv1 Hv']; subst. inversion Hk as [|? ? Hk1 Hk']; subst.
  cbn [fst snd] in Hv1, Hk1.
  cbn [member_texts member_values map fst snd] in *.
  rewrite members_text_cons in *. cbn [fst snd] in *.
  rewrite !append_assoc. rewrite !length_append in Hb, Hlen.
  cbn [object_loop].
  rewrite (bind_eq _ _ _ tt (quoted key ++ ":" ++ vt ++
             match map (fun m => (fst (fst m), snd (fst m))) ms with
             | [] => "" | _ :: _ => "," ++ members_text (member_texts ms)
             end ++ String "}" rest)) by reflexivity.
  rewrite (bind_eq _ _ _ DQ (quoted key ++ ":" ++ vt ++
             match map (fun m => (fst (fst m), snd (fst m))) ms with
             | [] => "" | _ :: _ => "," ++ members_text (member_texts ms)
             end ++ String "}" rest)) by reflexivity.
  change (negb (Ascii.eqb DQ DQ)) with false. cbv iota.
  rewrite (bind_eq _ _ _ _ _ (parse_string_raw_quoted key _ Hk1)).
  cbn [String.append].
  rewrite (bind_eq _ _ _ tt (String ":" (vt ++
             match map (fun m => (fst (fst m), snd (fst m))) ms with
             | [] => "" | _ :: _ => "," ++ members_text (member_texts ms)
             end ++ String "}" rest))) by reflexivity.
  rewrite (bind_eq _ _ _ tt (vt ++
             match map (fun m => (fst (fst m), snd (fst m))) ms with
             | [] => "" | _ :: _ => "," ++ members_text (member_texts ms)
             end ++ String "}" rest)) by reflexivity.
  destruct ms as [|m2 ms].
  - cbn [map String.append].
    rewrite (bind_eq _ _ _ _ _ (Hv1 (String "}" rest) ltac:(simpl in *; lia) eq_refl)).
    rewrite (bind_eq _ _ _ tt (String "}" rest)) by reflexivity.
    rewrite (bind_eq _ _ _ "}"%char rest) by reflexivity.
    reflexivity.
  - cbn [map]. cbn [String.append].
    assert (Hb2 : (String.length vt +
                   String.length (String "," (members_text (member_texts (m2 :: ms)) ++
                                              String "}" rest)) < bound)%nat).
    { cbn [String.length String.append] in *. rewrite length_append.
      cbn [String.length member_texts map] in *. lia. }
    rewrite (bind_eq _ _ _ _ _ (Hv1 _ Hb2 eq_refl)).
    rewrite (bind_eq _ _ _ tt (String "," (members_text (member_texts (m2 :: ms)) ++
                                            String "}" rest))) by reflexivity.
    rewrite (bind_eq _ _ _ ","%char (members_text (member_texts (m2 :: ms)) ++
                                     String "}" rest)) by reflexivity.
    change (Ascii.eqb "," "}") with false. change (negb (Ascii.eqb "," ",")) with false.
    cbv iota.
    rewrite (bind_eq _ _ _ tt (members_text (member_texts (m2 :: ms)) ++ String "}" rest)).
    2: { apply skip_ws_stop, members_text_starts. discriminate. }
    rewrite IH; auto.
    + discriminate.
    + cbn [String.length String.append member_texts map] in *. lia.
    + cbn [String.length String.append member_texts map] in *. lia.
Qed.

(** An object text denotes the Object its members build by [emplace], in
    the order written. *)
Lemma reads_object ms :
  Forall member_ok ms ->
  reads (object_text (member_texts ms))
        (Obj (emplace_all (member_values ms) [])).
Proof.
  intros Hm [|n] rest Hn Hr; [lia|].
  unfold object_text in *. rewrite !append_assoc.
  cbn [String.append String.length] in *. rewrite length_append in Hn.
  cbn [String.length] in Hn.
  cbn [parse_value].
  rewrite (bind_eq _ _ _ tt (String "{" (members_text (member_texts ms) ++ String "}" rest)))
    by reflexivity.
  rewrite (bind_eq _ _ _ "{"%char
             (String "{" (members_text (member_texts ms) ++ String "}" rest)))
    by reflexivity.
  change (Ascii.eqb "{" "n") with false.
  change (Ascii.eqb "{" "t" || Ascii.eqb "{" "f") with false.
  change (Ascii.eqb "{" DQ) with false.
  change (Ascii.eqb "{" "-" || isdigit "{") with false.
  change (Ascii.eqb "{" "{") with true. cbv iota.
  unfold parse_object.
  rewrite (bind_eq _ _ _ tt (members_text (member_texts ms) ++ String "}" rest))
    by reflexivity.
  destruct ms as [|m ms].
  - reflexivity.
  - rewrite (bind_eq _ _ _ tt (members_text (member_texts (m :: ms)) ++ String "}" rest)).
    2: { apply skip_ws_stop, members_text_starts. discriminate. }
    rewrite (bind_eq _ _ _ DQ (members_text (member_texts (m :: ms)) ++ String "}" rest)).
    2: { apply members_text_peek. discriminate. }
    change (Ascii.eqb DQ "}") with false. cbv iota.
    apply object_loop_members with (bound := n).
    + eapply Forall_impl; [|exact Hm]. intros a [_ Ha] rest' Hl Hc.
      apply Ha; assumption.
    + eapply Forall_impl; [|exact Hm]. intros a [Ha _]. exact Ha.
    + discriminate.
    + rewrite length_append. lia.
    + lia.
Qed.

Lemma elements_text_cons e es :
  elements_text (e :: es) =
  e ++ match es with [] => "" | _ => "," ++ elements_text es end.
Proof. reflexivity. Qed.

End Reads.

(** ** Compact dumps *)

Section Dump.

(** Induction over a document, with the hypothesis for every element and
    every member. *)
Lemma Json_nested_ind (P : Json -> Prop) :
  P Null -> (forall b, P (Bool b)) -> (forall d, P (Num d)) ->
  (forall s, P (Str s)) ->
  (forall a, Forall P a -> P (Arr a)) ->
  (forall o, Forall (fun kv => P (snd kv)) o -> P (Obj o)) ->
  forall j, P j.
Proof.
  intros Hn Hb Hd Hs Ha Ho.
  fix IH 1. intros [| b | d | s | a | o].
  - exact Hn.
  - apply Hb.
  - apply Hd.
  - apply Hs.
  - apply Ha. induction a as [|x a IHa]; constructor; [apply IH | exact IHa].
  - apply Ho. induction o as [|[k v] o IHo]; constructor; [apply IH | exact IHo].
Qed.

Lemma dump_elements_compact f g d d' l :
  Forall (fun x => f x = g x) l ->
  dump_elements f compact d l = dump_elements g compact d' l.
Proof.
  induction 1 as [|x l Hx Hl IH]; [reflexivity|].
  cbn [dump_elements]. now rewrite Hx, IH.
Qed.

Lemma dump_members_compact f g d d' l :
  Forall (fun kv => f (snd kv) = g (snd kv)) l ->
  dump_members f compact d l = dump_members g compact d' l.
Proof.
  induction 1 as [|[k v] l Hx Hl IH]; [reflexivity|].
  cbn [dump_members]. cbn [snd] in Hx. now rewrite Hx, IH.
Qed.

(** In compact mode the depth plays no part. *)
Lemma dump_impl_compact_depth j : forall d, dump_impl compact d j = dump compact j.
Proof.
  unfold dump.
  induction j as [| b | x | s | a IHa | o IHo] using Json_nested_ind;
    intro d; try reflexivity.
  - cbn [dump_impl]. destruct a as [|x a]; [reflexivity|].
    rewrite (dump_elements_compact _ (dump_impl compact (0 + 1)) d 0); [reflexivity|].
    eapply Forall_impl; [|exact IHa]. intros y Hy. cbv beta in Hy.
    now rewrite (Hy (d + 1)), (Hy (0 + 1)).
  - cbn [dump_impl]. destruct o as [|x o]; [reflexivity|].
    rewrite (dump_members_compact _ (dump_impl compact (0 + 1)) d 0); [reflexivity|].
    eapply Forall_impl; [|exact IHo]. intros y Hy. cbv beta in Hy.
    now rewrite (Hy (d + 1)), (Hy (0 + 1)).
Qed.

Lemma dump_members_text f d o :
  dump_members f compact d o =
  members_text (map (fun kv => (fst kv, f (snd kv))) o).
Proof.
  induction o as [|[k v] l IH]; [reflexivity|].
  cbn [dump_members map members_text fst snd]. unfold member_text, quoted.
  cbn [fst snd]. rewrite IH.
  change (ind compact (d + 1)) with "". change (pretty compact " ") with "".
  change (pretty compact (chr LF)) with "".
  cbn [String.append]. rewrite !append_assoc. cbn [String.append].
  do 3 f_equal. destruct l; reflexivity.
Qed.

Lemma dump_elements_text f d a :
  dump_elements f compact d a = elements_text (map f a).
Proof.
  induction a as [|v l IH]; [reflexivity|].
  cbn [dump_elements map elements_text]. rewrite IH.
  change (ind compact (d + 1)) with "".
  change (pretty compact (chr LF)) with "".
  cbn [String.append]. f_equal. destruct l; reflexivity.
Qed.

(** The compact dump of an Object is the object text of its members, in
    the order of the map. *)
Lemma dump_object o : dump compact (Obj o) = object_text (dumped_members o).
Proof.
  unfold dump, object_text, dumped_members. cbn [dump_impl]. f_equal.
  destruct o as [|x o]; [reflexivity|].
  change (pretty compact (chr LF)) with "". change (ind compact 0) with "".
  cbn [String.append]. rewrite append_nil_r. f_equal.
  rewrite dump_members_text. f_equal.
  apply map_ext. intros [k v]. cbn [fst snd].
  now rewrite dump_impl_compact_depth.
Qed.

Lemma dump_members_lines indent depth l :
  l <> [] ->
  dump_members (dump_impl indent (depth + 1)) indent depth l =
  String.concat ("," ++ pretty indent (chr LF)) (map (member_line indent depth) l) ++
  pretty indent (chr LF).
Proof.
  induction l as [|[k v] l IH]; [congruence|]. intros _.
  assert (E : member_line indent depth (k, v) =
              ind indent (depth + 1) ++ chr DQ ++ escape k ++ chr DQ ++ ":" ++
              pretty indent " " ++ dump_impl indent (depth + 1) v).
  { unfold member_line, quoted. cbn [fst snd]. now rewrite !append_assoc. }
  destruct l as [|m l].
  - cbn [dump_members map String.concat]. rewrite E, !append_assoc.
    cbn [String.append]. now rewrite append_nil_r.
  - cbn [dump_members] in *. rewrite IH by discriminate.
    cbn [map String.concat]. rewrite E, !append_assoc. reflexivity.
Qed.

(** In every mode the members of an Object are written in the order of the
    map, one line each in pretty mode. *)
Lemma dump_object_lines indent depth m o :
  dump_impl indent depth (Obj (m :: o)) =
  "{" ++ pretty indent (chr LF) ++
  String.concat ("," ++ pretty indent (chr LF))
    (map (member_line indent depth) (m :: o)) ++
  pretty indent (chr LF) ++ ind indent depth ++ "}".
Proof.
  cbn [dump_impl]. rewrite dump_members_lines by discriminate.
  now rewrite !append_assoc.
Qed.

Lemma dump_array a : dump compact (Arr a) = array_text (dumped_elements a).
Proof.
  unfold dump, array_text, dumped_elements. cbn [dump_impl]. f_equal.
  destruct a as [|x a]; [reflexivity|].
  change (pretty compact (chr LF)) with "". change (ind compact 0) with "".
  cbn [String.append]. rewrite append_nil_r. f_equal.
  rewrite dump_elements_text. f_equal.
  apply map_ext. intros v. now rewrite dump_impl_compact_depth.
Qed.

End Dump.

(** ** The text of a Number is a number token *)

Section FmtFacts.

Import Fmt.

Lemma all_chars_app f a b :
  all_chars f (a ++ b) = all_chars f a && all_chars f b.
Proof.
  induction a as [|c a IH]; simpl; [reflexivity|].
  now rewrite IH, andb_assoc.
Qed.

Lemma isdigit_digit n : isdigit (digit (n mod 10)) = true.
Proof.
  pose proof (Z.mod_pos_bound n 10 ltac:(lia)) as Hb.
  assert (H : n mod 10 = 0 \/ n mod 10 = 1 \/ n mod 10 = 2 \/ n mod 10 = 3 \/
              n mod 10 = 4 \/ n mod 10 = 5 \/ n mod 10 = 6 \/ n mod 10 = 7 \/
              n mod 10 = 8 \/ n mod 10 = 9) by lia.
  repeat (destruct H as [H|H]; [rewrite H; reflexivity|]).
  rewrite H; reflexivity.
Qed.

Lemma numeral_all fuel : forall n acc,
  all_chars isdigit acc = true -> all_chars isdigit (numeral fuel n acc) = true.
Proof.
  induction fuel as [|f IH]; intros n acc Ha; [exact Ha|].
  cbn [numeral].
  assert (Hc : all_chars isdigit (String (digit (n mod 10)) acc) = true)
    by (simpl; now rewrite isdigit_digit).
  destruct (n <? 10); [exact Hc|now apply IH].
Qed.

Lemma numeral_nonempty fuel n acc :
  numeral (S fuel) n acc <> "".
Proof.
  revert n acc. induction fuel as [|f IH]; intros n acc.
  - cbn [numeral]. destruct (n <? 10); discriminate.
  - change (numeral (S (S f)) n acc) with
      (if n <? 10 then String (digit (n mod 10)) acc
       else numeral (S f) (n / 10) (String (digit (n mod 10)) acc)).
    destruct (n <? 10); [discriminate|apply IH].
Qed.

Lemma strip_zeros_all f s :
  all_chars f s = true -> all_chars f (strip_zeros s) = true.
Proof.
  induction s as [|c r IH]; simpl; [reflexivity|].
  rewrite andb_true_iff. intros [Hc Hr]. specialize (IH Hr).
  destruct (strip_zeros r) as [|x r'].
  - destruct (Ascii.eqb c "0"); simpl; [reflexivity|now rewrite Hc].
  - simpl in *. now rewrite Hc.
Qed.

Lemma all_chars_substring f s : forall n m,
  all_chars f s = true -> all_chars f (substring n m s) = true.
Proof.
  induction s as [|c r IH]; intros n m Hs.
  - destruct n, m; reflexivity.
  - simpl in Hs. apply andb_true_iff in Hs as [Hc Hr].
    destruct n as [|n]; simpl.
    + destruct m as [|m]; [reflexivity|]. simpl. rewrite Hc. now apply IH.
    + now apply IH.
Qed.

Lemma zeros_all n : all_chars isdigit (zeros n) = true.
Proof. induction n as [|n IH]; simpl; [reflexivity|exact IH]. Qed.

Lemma digit_run_of s : s <> "" -> all_chars isdigit s = true -> digit_run s = true.
Proof. destruct s; [congruence|auto]. Qed.

Lemma with_fraction_text ip fp :
  with_fraction ip fp = ip ++ frac_text (fraction_of fp).
Proof.
  unfold with_fraction, fraction_of.
  destruct (strip_zeros fp); simpl; [now rewrite append_nil_r|reflexivity].
Qed.

Lemma fraction_of_run fp :
  all_chars isdigit fp = true ->
  match fraction_of fp with Some f => digit_run f | None => true end = true.
Proof.
  intro H. apply (strip_zeros_all isdigit) in H. unfold fraction_of.
  destruct (strip_zeros fp); [reflexivity|exact H].
Qed.

Lemma exponent_text X :
  String "e" (exponent X) = exp_text (Some (false, Some (X <? 0), exponent_digits X)).
Proof.
  unfold exponent, exp_text, exponent_digits.
  destruct (X <? 0); reflexivity.
Qed.

Lemma exponent_digits_run X : digit_run (exponent_digits X) = true.
Proof.
  unfold exponent_digits. apply digit_run_of.
  - destruct (Z.abs X <? 10); cbn [String.append];
      [discriminate|apply (numeral_nonempty 19)].
  - rewrite all_chars_app, numeral_all by reflexivity.
    destruct (Z.abs X <? 10); reflexivity.
Qed.

(** *** The significant digits *)

Ltac triple E :=
  match type of E with
  | (?a, ?b, ?c) = (?x, ?y, ?z) =>
      assert (x = a) by congruence; assert (y = b) by congruence;
      assert (z = c) by congruence; clear E; subst x y z
  end.

Ltac pair E :=
  match type of E with
  | (?a, ?b) = (?x, ?y) =>
      assert (x = a) by congruence; assert (y = b) by congruence;
      clear E; subst x y
  end.

Lemma scale10_S f num den X :
  scale10 (S f) num den X =
  if num <? den then scale10 f (10 * num) den (X - 1)
  else if 10 * den <=? num then scale10 f num (10 * den) (X + 1)
  else (num, den, X).
Proof. reflexivity. Qed.

Lemma scale10_fix f n d X : normalized n d -> scale10 f n d X = (n, d, X).
Proof.
  intros (Hd & Hl & Hu). destruct f as [|f]; [reflexivity|].
  rewrite scale10_S.
  destruct (Z.ltb_spec n d); [lia|].
  destruct (Z.leb_spec (10 * d) n); [lia|reflexivity].
Qed.

Lemma pow10_succ f : 10 ^ Z.of_nat (S f) = 10 * 10 ^ Z.of_nat f.
Proof. rewrite Nat2Z.inj_succ. apply Z.pow_succ_r. lia. Qed.

Lemma scale10_up f : forall num den X n d X',
  0 < num -> num < den -> den <= 10 ^ Z.of_nat f * num ->
  scale10 f num den X = (n, d, X') ->
  normalized n d.
Proof.
  induction f as [|f IH]; intros num den X n d X' Hn Hlt Hf E.
  - change (10 ^ Z.of_nat 0) with 1 in Hf. lia.
  - rewrite scale10_S in E. rewrite pow10_succ in Hf.
    destruct (Z.ltb_spec num den); [|lia].
    destruct (Z.ltb_spec (10 * num) den) as [Hlt2|Hge].
    + apply IH in E; [exact E|lia|exact Hlt2|lia].
    + rewrite scale10_fix in E by (unfold normalized; lia).
      triple E. unfold normalized. lia.
Qed.

Lemma scale10_down f : forall num den X n d X',
  0 < den -> 10 * den <= num -> num < 10 ^ Z.of_nat f * (10 * den) ->
  scale10 f num den X = (n, d, X') ->
  normalized n d.
Proof.
  induction f as [|f IH]; intros num den X n d X' Hd Hge Hf E.
  - change (10 ^ Z.of_nat 0) with 1 in Hf. lia.
  - rewrite scale10_S in E. rewrite pow10_succ in Hf.
    destruct (Z.ltb_spec num den); [lia|].
    destruct (Z.leb_spec (10 * den) num); [|lia].
    destruct (Z.leb_spec (10 * (10 * den)) num) as [Hge2|Hlt].
    + apply IH in E; [exact E|lia|exact Hge2|lia].
    + rewrite scale10_fix in E by (unfold normalized; lia).
      triple E. unfold normalized. lia.
Qed.

Lemma below_pow10 x k : 0 < x -> Z.log2 x < k -> x < 10 ^ k.
Proof.
  intros Hx Hk. pose proof (Z.log2_nonneg x) as H0.
  apply Z.lt_le_trans with (2 ^ k).
  - apply Z.log2_lt_pow2; assumption.
  - apply Z.pow_le_mono_l. lia.
Qed.

(** [scale10] brings every positive fraction into [[1, 10)]. *)
Lemma scale10_normalizes num den n d X' :
  0 < num -> 0 < den ->
  scale10 (scale_fuel num den) num den 0 = (n, d, X') ->
  normalized n d.
Proof.
  intros Hn Hd E. unfold scale_fuel in E.
  pose proof (Z.log2_nonneg num) as Ln. pose proof (Z.log2_nonneg den) as Ld.
  set (k := Z.log2 num + Z.log2 den + 2) in *.
  assert (Hk : Z.of_nat (Z.to_nat k) = k) by (apply Z2Nat.id; lia).
  assert (Pn : num < 10 ^ k) by (apply below_pow10; lia).
  assert (Pd : den < 10 ^ k) by (apply below_pow10; lia).
  destruct (Z.ltb_spec num den) as [Hlt|Hge].
  - apply scale10_up in E; [exact E|lia|lia|]. rewrite Hk. nia.
  - destruct (Z.leb_spec (10 * den) num) as [Hge2|Hlt].
    + apply scale10_down in E; [exact E|lia|lia|]. rewrite Hk. nia.
    + rewrite scale10_fix in E by (unfold normalized; lia).
      triple E. unfold normalized. lia.
Qed.

Lemma round_div_bounds a b :
  0 < b -> a / b <= round_div a b <= a / b + 1.
Proof.
  intro Hb. unfold round_div.
  destruct (2 * (a mod b) ?= b); [destruct (Z.even (a / b))| |]; lia.
Qed.

Lemma sig15_eq num den :
  sig15 num den = sig15_of (scale10 (scale_fuel num den) num den 0).
Proof. reflexivity. Qed.

(** The significand has exactly 15 digits. *)
Lemma sig15_bounds num den D X :
  0 < num -> 0 < den ->
  sig15 num den = (D, X) ->
  10 ^ 14 <= D < 10 ^ 15.
Proof.
  intros Hn Hd E. rewrite sig15_eq in E.
  destruct (scale10 (scale_fuel num den) num den 0) as [[n d] X0] eqn:Es.
  apply scale10_normalizes in Es; [|lia|lia].
  destruct Es as (Hd0 & Hl & Hu). unfold sig15_of in E.
  pose proof (round_div_bounds (n * 10 ^ 14) d Hd0) as [Hlo Hhi].
  assert (H1 : 10 ^ 14 <= n * 10 ^ 14 / d).
  { apply Z.div_le_lower_bound; [lia|]. change (10 ^ 14) with 100000000000000. lia. }
  assert (H2 : n * 10 ^ 14 / d < 10 ^ 15).
  { apply Z.div_lt_upper_bound; [lia|].
    change (10 ^ 14) with 100000000000000. change (10 ^ 15) with 1000000000000000. lia. }
  cbv zeta in E.
  destruct (Z.eqb_spec (round_div (n * 10 ^ 14) d) (10 ^ 15)) as [He|Hne];
    pair E.
  - change (10 ^ 14) with 100000000000000. change (10 ^ 15) with 1000000000000000. lia.
  - lia.
Qed.

Lemma first_digit D :
  10 ^ 14 <= D < 10 ^ 15 ->
  Ascii.eqb (digit ((D / 10 / 10 / 10 / 10 / 10 / 10 / 10 / 10 / 10 / 10 / 10 /
                       10 / 10 / 10) mod 10)) "0" = false.
Proof.
  intro H.
  repeat (rewrite Z.div_div; [|discriminate|reflexivity]).
  change (10 * (10 * (10 * (10 * (10 * (10 * (10 * (10 * (10 * (10 * (10 *
           (10 * (10 * 10))))))))))))) with (10 ^ 14).
  assert (Hq : 1 <= D / 10 ^ 14 < 10).
  { split.
    - apply Z.div_le_lower_bound; [reflexivity|lia].
    - apply Z.div_lt_upper_bound; [reflexivity|].
      change (10 ^ 14 * 10) with (10 ^ 15). lia. }
  rewrite Z.mod_small by lia.
  assert (Hc : D / 10 ^ 14 = 1 \/ D / 10 ^ 14 = 2 \/ D / 10 ^ 14 = 3 \/
               D / 10 ^ 14 = 4 \/ D / 10 ^ 14 = 5 \/ D / 10 ^ 14 = 6 \/
               D / 10 ^ 14 = 7 \/ D / 10 ^ 14 = 8 \/ D / 10 ^ 14 = 9) by lia.
  repeat (destruct Hc as [Hc|Hc]; [rewrite Hc; reflexivity|]).
  rewrite Hc; reflexivity.
Qed.

(** The 15 digits of a significand. *)
Lemma digits15 D :
  exists c0 c1 c2 c3 c4 c5 c6 c7 c8 c9 c10 c11 c12 c13 c14 : ascii,
    digits 15 D "" =
      String c0 (String c1 (String c2 (String c3 (String c4 (String c5
      (String c6 (String c7 (String c8 (String c9 (String c10 (String c11
      (String c12 (String c13 (String c14 "")))))))))))))) /\
    (isdigit c0 = true /\ isdigit c1 = true /\ isdigit c2 = true /\
     isdigit c3 = true /\ isdigit c4 = true /\ isdigit c5 = true /\
     isdigit c6 = true /\ isdigit c7 = true /\ isdigit c8 = true /\
     isdigit c9 = true /\ isdigit c10 = true /\ isdigit c11 = true /\
     isdigit c12 = true /\ isdigit c13 = true /\ isdigit c14 = true) /\
    (10 ^ 14 <= D < 10 ^ 15 -> Ascii.eqb c0 "0" = false).
Proof.
  do 15 eexists. split; [reflexivity|]. split.
  - repeat split; apply isdigit_digit.
  - apply first_digit.
Qed.

(** What [g15] writes is a number token. *)
Lemma g15_token num den :
  0 < num -> 0 < den ->
  exists ip fp ep,
    well_formed (Token false ip fp ep) = true /\
    g15 num den = ip ++ frac_text fp ++ exp_text ep.
Proof.
  intros Hn Hd. unfold g15.
  destruct (sig15 num den) as [D X] eqn:E.
  pose proof (sig15_bounds num den D X Hn Hd E) as HD.
  destruct (digits15 D) as
    (c0 & c1 & c2 & c3 & c4 & c5 & c6 & c7 & c8 & c9 & c10 & c11 & c12 & c13 & c14
     & Hds & Hdig & H0).
  specialize (H0 HD). rewrite Hds. clear Hds E.
  destruct Hdig as (d0 & d1 & d2 & d3 & d4 & d5 & d6 & d7 & d8 & d9 & d10 & d11
                    & d12 & d13 & d14).
  set (ds := String c0 _).
  assert (Hall : forall n m, all_chars isdigit (substring n m ds) = true).
  { intros n m. apply all_chars_substring. subst ds. simpl.
    now rewrite d0, d1, d2, d3, d4, d5, d6, d7, d8, d9, d10, d11, d12, d13, d14. }
  destruct ((X <? -4) || (15 <=? X)) eqn:Hstyle.
  - (* the scientific style *)
    exists (substring 0 1 ds), (fraction_of (substring 1 14 ds)),
           (Some (false, Some (X <? 0), exponent_digits X)).
    split.
    2: { rewrite with_fraction_text, append_assoc.
         rewrite <- exponent_text. reflexivity. }
    unfold well_formed. cbn [t_int t_frac t_exp].
    rewrite exponent_digits_run. rewrite fraction_of_run; [|apply Hall].
    subst ds. simpl. now rewrite H0, d0.
  - apply orb_false_iff in Hstyle as [Hlo Hhi].
    apply Z.ltb_ge in Hlo. apply Z.leb_gt in Hhi.
    destruct (Z.leb_spec 0 X) as [Hpos|Hneg].
    + (* the fixed style, no leading zeros *)
      exists (substring 0 (Z.to_nat (X + 1)) ds),
             (fraction_of (substring (Z.to_nat (X + 1)) (15 - Z.to_nat (X + 1)) ds)),
             None.
      split.
      2: { rewrite with_fraction_text. cbn [exp_text].
           now rewrite append_nil_r. }
      unfold well_formed. cbn [t_int t_frac t_exp].
      rewrite fraction_of_run; [|apply Hall].
      assert (HX : X = 0 \/ X = 1 \/ X = 2 \/ X = 3 \/ X = 4 \/ X = 5 \/ X = 6 \/
                   X = 7 \/ X = 8 \/ X = 9 \/ X = 10 \/ X = 11 \/ X = 12 \/
                   X = 13 \/ X = 14) by lia.
      subst ds.
      repeat (destruct HX as [HX|HX];
              [subst X; simpl;
               now rewrite ?H0, ?d0, ?d1, ?d2, ?d3, ?d4, ?d5, ?d6, ?d7,
                 ?d8, ?d9, ?d10, ?d11, ?d12, ?d13, ?d14|]).
      subst X; simpl.
      now rewrite ?H0, ?d0, ?d1, ?d2, ?d3, ?d4, ?d5, ?d6, ?d7,
        ?d8, ?d9, ?d10, ?d11, ?d12, ?d13, ?d14.
    + (* the fixed style, below one *)
      exists "0", (fraction_of (zeros (Z.to_nat (- X - 1)) ++ ds)), None.
      split.
      2: { rewrite with_fraction_text. cbn [exp_text].
           now rewrite append_nil_r. }
      unfold well_formed. cbn [t_int t_frac t_exp].
      rewrite fraction_of_run; [reflexivity|].
      rewrite all_chars_app, zeros_all. subst ds. simpl.
      now rewrite d0, d1, d2, d3, d4, d5, d6, d7, d8, d9, d10, d11, d12, d13, d14.
Qed.

(** The text of a finite Number is a number token. *)
Lemma double_token d :
  is_finite d = true ->
  exists t, well_formed t = true /\ text t = Fmt.double d.
Proof.
  destruct d as [s | s | | s m e]; try discriminate; intros _.
  - exists (Token s "0" None None). split; [reflexivity|].
    destruct s; reflexivity.
  - assert (H : exists ip fp ep,
               well_formed (Token false ip fp ep) = true /\
               (if 0 <=? e then g15 (Z.pos m * 2 ^ e) 1
                else g15 (Z.pos m) (2 ^ (- e))) = ip ++ frac_text fp ++ exp_text ep).
    { destruct (Z.leb_spec 0 e).
      - apply g15_token; [|lia].
        apply Z.mul_pos_pos; [lia|]. apply Z.pow_pos_nonneg; lia.
      - apply g15_token; [lia|]. apply Z.pow_pos_nonneg; lia. }
    destruct H as (ip & fp & ep & Hw & Ht).
    exists (Token s ip fp ep). split; [exact Hw|].
    unfold text, Fmt.double. cbn [t_neg t_int t_frac t_exp].
    rewrite Ht. destruct s; reflexivity.
Qed.

(** Dumping a Number and parsing the text is [std::stod] on the 15
    significant digits [dump] writes. *)
Lemma parse_dump_number d :
  is_finite d = true ->
  parse (dump compact (Num d)) =
  match Stod.stod (Fmt.double d) with
  | Ok d' => Ok (Num d')
  | Err e => Err e
  end.
Proof.
  intro Hf. destruct (double_token d Hf) as (t & Hw & Ht).
  change (dump compact (Num d)) with (Fmt.double d).
  rewrite <- Ht. rewrite parse_text by exact Hw.
  now rewrite stod_text.
Qed.

Lemma reads_dump_number d :
  Stod.stod (Fmt.double d) = Ok d -> reads (dump compact (Num d)) (Num d).
Proof.
  intro H. pose proof (stod_finite _ _ H) as Hf.
  destruct (double_token d Hf) as (t & Hw & Ht).
  change (dump compact (Num d)) with (Fmt.double d).
  rewrite <- Ht in *. apply reads_number; [exact Hw|].
  now rewrite <- stod_text.
Qed.

End FmtFacts.

(** ** Rounding to binary64: the overflow boundary *)

Lemma digits2_bounds p :
  2 ^ (Zpos (digits2_pos p) - 1) <= Zpos p < 2 ^ Zpos (digits2_pos p).
Proof.
  induction p as [p IH|p IH|]; cbn [digits2_pos].
  - rewrite Pos2Z.inj_succ.
    replace (Z.succ (Z.pos (digits2_pos p)) - 1) with (Z.succ (Z.pos (digits2_pos p) - 1)) by lia.
    rewrite !Z.pow_succ_r by lia. lia.
  - rewrite Pos2Z.inj_succ.
    replace (Z.succ (Z.pos (digits2_pos p)) - 1) with (Z.succ (Z.pos (digits2_pos p) - 1)) by lia.
    rewrite !Z.pow_succ_r by lia. lia.
  - simpl. lia.
Qed.

Lemma Zdigits2_bounds n :
  0 < n -> 2 ^ (Zdigits2 n - 1) <= n < 2 ^ Zdigits2 n.
Proof.
  destruct n as [|p|p]; try lia. intros _. apply digits2_bounds.
Qed.

Lemma Zdigits2_ge n k : 0 <= k -> 2 ^ k <= n -> k < Zdigits2 n.
Proof.
  intros Hk H.
  assert (Hn : 0 < n) by (pose proof (Z.pow_pos_nonneg 2 k); lia).
  pose proof (Zdigits2_bounds n Hn) as [_ Hu].
  destruct (Z.lt_ge_cases k (Zdigits2 n)) as [|Hge]; [assumption|].
  assert (2 ^ Zdigits2 n <= 2 ^ k) by (apply Z.pow_le_mono_r; lia). lia.
Qed.

Lemma Zdigits2_le n k : 0 < n -> n < 2 ^ k -> Zdigits2 n <= k.
Proof.
  intros Hn H.
  pose proof (Zdigits2_bounds n Hn) as [Hl _].
  destruct (Z.le_gt_cases (Zdigits2 n) k) as [|Hgt]; [assumption|].
  assert (0 <= k).
  { destruct (Z.le_gt_cases 0 k); [assumption|].
    rewrite Z.pow_neg_r in H by lia. lia. }
  assert (2 ^ k <= 2 ^ (Zdigits2 n - 1)) by (apply Z.pow_le_mono_r; lia). lia.
Qed.

Lemma Zdigits2_pos n : 0 < n -> 0 < Zdigits2 n.
Proof. destruct n; simpl; lia. Qed.

Lemma iter_pos_shr p mrs : iter_pos shr_1 p mrs = shr_n (Pos.to_nat p) mrs.
Proof.
  assert (Hadd : forall a b x, shr_n (a + b) x = shr_n a (shr_n b x)).
  { induction a as [|a IH]; intros b x; simpl; [reflexivity|now rewrite IH]. }
  revert mrs. induction p as [p IH|p IH|]; intro mrs; cbn [iter_pos].
  - rewrite !IH. rewrite Pos2Nat.inj_xI.
    replace (S (2 * Pos.to_nat p)) with (Pos.to_nat p + (Pos.to_nat p + 1))%nat by lia.
    rewrite !Hadd. reflexivity.
  - rewrite !IH. rewrite Pos2Nat.inj_xO.
    replace (2 * Pos.to_nat p)%nat with (Pos.to_nat p + Pos.to_nat p)%nat by lia.
    now rewrite Hadd.
  - reflexivity.
Qed.

Lemma shr_1_m mrs : 0 <= shr_m mrs -> shr_m (shr_1 mrs) = shr_m mrs / 2.
Proof.
  destruct mrs as [m r s]. cbn [shr_m]. intro Hm.
  destruct m as [|[p|p|]|]; try lia; cbn [shr_1 shr_m].
  - reflexivity.
  - rewrite Pos2Z.inj_xI. apply Z.div_unique with 1; lia.
  - rewrite Pos2Z.inj_xO. apply Z.div_unique with 0; lia.
  - reflexivity.
Qed.

Lemma shr_1_r mrs : 0 <= shr_m mrs -> shr_r (shr_1 mrs) = Z.odd (shr_m mrs).
Proof.
  destruct mrs as [m r s]. cbn [shr_m]. intro Hm.
  destruct m as [|[p|p|]|]; try lia; reflexivity.
Qed.

Lemma shr_n_m k : forall m r s, 0 <= m ->
  shr_m (shr_n k (Build_shr_record m r s)) = m / 2 ^ Z.of_nat k.
Proof.
  induction k as [|k IH]; intros m r s Hm.
  - simpl. now rewrite Z.div_1_r.
  - cbn [shr_n]. rewrite shr_1_m; rewrite IH by assumption.
    + rewrite Nat2Z.inj_succ, Z.pow_succ_r by lia.
      rewrite Z.div_div; [|apply Z.pow_nonzero; lia|lia].
      f_equal. lia.
    + apply Z.div_pos; [assumption|]. apply Z.pow_pos_nonneg; lia.
Qed.

Lemma shr_n_r k : forall m r s, 0 <= m ->
  shr_r (shr_n (S k) (Build_shr_record m r s)) = Z.odd (m / 2 ^ Z.of_nat k).
Proof.
  intros m r s Hm. cbn [shr_n]. rewrite shr_1_r; rewrite shr_n_m by assumption.
  - reflexivity.
  - apply Z.div_pos; [assumption|]. apply Z.pow_pos_nonneg; lia.
Qed.

Lemma shr_pos mrs e n :
  0 < n -> shr mrs e n = (shr_n (Z.to_nat n) mrs, e + n).
Proof.
  destruct n as [|p|p]; try lia. intros _.
  unfold shr. now rewrite iter_pos_shr.
Qed.

Lemma record_of_loc m l :
  exists r s, shr_record_of_loc m l = Build_shr_record m r s.
Proof. destruct l as [|[]]; simpl; eauto. Qed.

Lemma round_nearest_even_bounds m l :
  m <= round_nearest_even m l <= m + 1.
Proof.
  unfold round_nearest_even. destruct l as [|[]]; try lia.
  destruct (Z.even m); lia.
Qed.

Lemma round_nearest_even_up m mrs :
  Z.odd m = true -> shr_r mrs = true ->
  round_nearest_even m (loc_of_shr_record mrs) = m + 1.
Proof.
  intros Hm Hr. destruct mrs as [x r s]. cbn [shr_r] in Hr. subst r.
  unfold loc_of_shr_record, round_nearest_even.
  destruct s; [reflexivity|].
  rewrite <- Z.negb_odd, Hm. reflexivity.
Qed.

Lemma fexp_large x : -1021 <= x -> fexp 53 1024 x = x - 53.
Proof. intro H. unfold fexp, emin. lia. Qed.

(** The last steps of [binary_round_aux] on a significand of 53 or 54 bits
    with an exponent beyond the largest one. *)
Lemma round_aux_tail neg m e :
  2 ^ 52 <= m <= 2 ^ 53 -> (971 < e \/ (971 <= e /\ m = 2 ^ 53)) ->
  (let '(mrs, e') := shr_fexp 53 1024 m e loc_Exact in
   match shr_m mrs with
   | Z0 => S754_zero neg
   | Zpos p => if e' <=? 1024 - 53 then S754_finite neg p e' else S754_infinity neg
   | Zneg _ => S754_nan
   end) = S754_infinity neg.
Proof.
  intros Hm He.
  assert (Hpos : 0 < m) by (pose proof (Z.pow_pos_nonneg 2 52); lia).
  assert (He' : 971 <= e) by (destruct He as [|[? _]]; lia).
  unfold shr_fexp. rewrite fexp_large.
  2: { pose proof (Zdigits2_pos m Hpos). clear - He' H. lia. }
  destruct (Z.eq_dec m (2 ^ 53)) as [->|Hne].
  - change (Zdigits2 (2 ^ 53)) with 54.
    replace (54 + e - 53 - e) with 1 by lia.
    cbn -[Z.leb Z.add].
    destruct (Z.leb_spec (e + 1) (1024 - 53)); [lia|reflexivity].
  - assert (Hd : Zdigits2 m = 53).
    { assert (52 < Zdigits2 m) by (apply Zdigits2_ge; lia).
      assert (Zdigits2 m <= 53) by (apply Zdigits2_le; lia). lia. }
    rewrite Hd.
    replace (53 + e - 53 - e) with 0 by lia. cbn [shr shr_record_of_loc shr_m].
    destruct m as [|p|p]; try lia.
    destruct (Z.leb_spec e (1024 - 53)); [lia|reflexivity].
Qed.

Lemma round_aux_overflow neg q l :
  overflow_threshold <= q ->
  binary_round_aux 53 1024 neg q 0 l = S754_infinity neg.
Proof.
  unfold overflow_threshold. intro Hq.
  assert (Hqpos : 0 < q) by lia.
  assert (Hdq : 1023 < Zdigits2 q) by (apply Zdigits2_ge; lia).
  pose proof (Zdigits2_bounds q Hqpos) as [Hlo Hhi].
  set (dq := Zdigits2 q) in *.
  set (n := dq - 53).
  unfold binary_round_aux.
  assert (E1 : shr_fexp 53 1024 q 0 l =
               (shr_n (Z.to_nat n) (shr_record_of_loc q l), n)).
  { unfold shr_fexp. rewrite fexp_large by (fold dq; lia). fold dq.
    replace (dq + 0 - 53 - 0) with n by (unfold n; lia).
    rewrite shr_pos by (unfold n; lia). reflexivity. }
  rewrite E1.
  destruct (record_of_loc q l) as (r & s & ->).
  set (mrs1 := shr_n (Z.to_nat n) (Build_shr_record q r s)).
  assert (Hm1 : shr_m mrs1 = q / 2 ^ n).
  { unfold mrs1. rewrite shr_n_m by lia. rewrite Z2Nat.id by (unfold n; lia). reflexivity. }
  assert (Hn : 0 < 2 ^ n) by (apply Z.pow_pos_nonneg; unfold n; lia).
  assert (Hb : 2 ^ 52 <= q / 2 ^ n < 2 ^ 53).
  { split.
    - apply Z.div_le_lower_bound; [exact Hn|].
      rewrite <- Z.pow_add_r by (unfold n; lia).
      replace (n + 52) with (dq - 1) by (unfold n; lia). exact Hlo.
    - apply Z.div_lt_upper_bound; [exact Hn|].
      rewrite <- Z.pow_add_r by (unfold n; lia).
      replace (n + 53) with dq by (unfold n; lia). exact Hhi. }
  pose proof (round_nearest_even_bounds (shr_m mrs1) (loc_of_shr_record mrs1)) as Hr.
  rewrite Hm1 in Hr.
  apply round_aux_tail; [rewrite Hm1; lia|].
  destruct (Z.eq_dec dq 1024) as [E|NE].
  - right. split; [unfold n; lia|].
    assert (Hn971 : n = 971) by (unfold n; lia).
    assert (Hq970 : q / 2 ^ 970 = 2 ^ 54 - 1).
    { assert (2 ^ 54 - 1 <= q / 2 ^ 970).
      { apply Z.div_le_lower_bound; [reflexivity|].
        replace (2 ^ 970 * (2 ^ 54 - 1)) with (2 ^ 1024 - 2 ^ 970) by reflexivity.
        exact Hq. }
      assert (q / 2 ^ 970 < 2 ^ 54).
      { apply Z.div_lt_upper_bound; [reflexivity|].
        replace (2 ^ 970 * 2 ^ 54) with (2 ^ 1024) by reflexivity.
        rewrite E in Hhi. exact Hhi. }
      lia. }
    assert (Hq971 : q / 2 ^ n = 2 ^ 53 - 1).
    { rewrite Hn971. replace (2 ^ 971) with (2 ^ 970 * 2) by reflexivity.
      rewrite <- Z.div_div by (try reflexivity; discriminate).
      rewrite Hq970. reflexivity. }
    rewrite round_nearest_even_up.
    + rewrite Hm1, Hq971. reflexivity.
    + rewrite Hm1, Hq971. reflexivity.
    + unfold mrs1. rewrite Hn971. change (Z.to_nat 971) with (S 970).
      rewrite shr_n_r by lia. change (Z.of_nat 970) with 970. rewrite Hq970. reflexivity.
  - left. unfold n. lia.
Qed.

Lemma div_core_large num den :
  0 < den -> 2 ^ 53 * den <= num ->
  SFdiv_core_binary 53 1024 num 0 den 0 =
  (num / den, 0, new_location den (num mod den)).
Proof.
  intros Hd Hn.
  assert (Hnum : 0 < num) by nia.
  pose proof (Zdigits2_bounds den Hd) as [Hdl Hdu].
  pose proof (Zdigits2_pos den Hd) as Hdp.
  assert (Hdig : 53 + (Zdigits2 den - 1) < Zdigits2 num).
  { apply Zdigits2_ge; [lia|]. rewrite Z.pow_add_r by lia. nia. }
  unfold SFdiv_core_binary.
  rewrite fexp_large by lia.
  replace (Z.min (Zdigits2 num + 0 - (Zdigits2 den + 0) - 53) (0 - 0)) with 0 by lia.
  cbn [Z.sub Z.opp Z.add].
  unfold Z.div, Z.modulo. destruct (Z.div_eucl num den) as [q r]. reflexivity.
Qed.

(** A fraction at or above [2^1024 - 2^970], the midpoint between the
    largest finite binary64 and [2^1024], rounds to an infinity. *)
Lemma nearest_overflow neg num den :
  0 < den -> overflow_threshold * den <= num ->
  Stod.nearest neg num den = S754_infinity neg.
Proof.
  intros Hd Hn. unfold Stod.nearest, Stod.prec, Stod.emax.
  assert (HT : 2 ^ 53 <= overflow_threshold) by (vm_compute; discriminate).
  assert (Hnum : 0 < num) by nia.
  destruct (Z.eqb_spec num 0); [lia|].
  rewrite div_core_large by nia.
  apply round_aux_overflow.
  apply Z.div_le_lower_bound; lia.
Qed.

Lemma fraction_den_pos m e10 num den :
  Stod.fraction m e10 = (num, den) -> 0 < den.
Proof.
  unfold Stod.fraction. destruct (Z.leb_spec 0 e10) as [Hle|Hgt]; intro E.
  - assert (den = 1) by congruence. lia.
  - assert (den = 10 ^ (- e10)) by congruence. subst den.
    apply Z.pow_pos_nonneg; lia.
Qed.

(** ** Documents that round-trip *)

Lemma starts_dispatch_not_space c : dispatches c = true -> isspace c = false.
Proof.
  destruct c as [[] [] [] [] [] [] [] []]; vm_compute; intro H;
    first [reflexivity | discriminate H].
Qed.

Lemma starts_dispatch_not_close c : dispatches c = true -> Ascii.eqb c "]" = false.
Proof.
  destruct c as [[] [] [] [] [] [] [] []]; vm_compute; intro H;
    first [reflexivity | discriminate H].
Qed.

Lemma elements_text_starts es r :
  Forall (fun e => starts_with dispatches e = true) es -> es <> [] ->
  starts_with dispatches (elements_text es ++ r) = true.
Proof.
  intros H Hne. destruct es as [|e es]; [congruence|].
  inversion H as [|? ? He _]; subst.
  cbn [elements_text]. rewrite append_assoc.
  destruct e as [|c e]; [discriminate|]. exact He.
Qed.

Lemma starts_dispatch_space txt :
  starts_with dispatches txt = true -> starts_with isspace txt = false.
Proof.
  destruct txt as [|c r]; [discriminate|]. simpl. apply starts_dispatch_not_space.
Qed.

Lemma array_loop_elements (pv : Parser Json) (bound : nat) :
  forall es,
    Forall (fun e => forall rest,
              (String.length (fst e) + String.length rest < bound)%nat ->
              starts_with continues rest = false ->
              pv (fst e ++ rest) = Ok (snd e, rest)) es ->
    Forall (fun e => starts_with dispatches (fst e) = true) es ->
    es <> [] ->
    forall k arr rest,
      (String.length (elements_text (map fst es)) < k)%nat ->
      (String.length (elements_text (map fst es)) + S (String.length rest) < bound)%nat ->
      array_loop pv k arr (elements_text (map fst es) ++ String "]" rest) =
      Ok (Arr (arr ++ map snd es), rest).
Proof.
  induction es as [|[e v] es IH]; intros Hv Hs Hne k arr rest Hlen Hb; [congruence|].
  destruct k as [|k]; [lia|].
  inversion Hv as [|? ? Hv1 Hv']; subst. inversion Hs as [|? ? Hs1 Hs']; subst.
  cbn [fst snd] in Hv1, Hs1. cbn [map fst snd] in *.
  rewrite elements_text_cons in *. rewrite !append_assoc.
  rewrite !length_append in Hb, Hlen.
  assert (He : (1 <= String.length e)%nat) by (destruct e; [discriminate|simpl; lia]).
  cbn [array_loop].
  destruct es as [|e2 es].
  - cbn [map String.append] in *.
    rewrite (bind_eq _ _ _ _ _ (Hv1 (String "]" rest) ltac:(simpl in *; lia) eq_refl)).
    rewrite (bind_eq _ _ _ tt (String "]" rest)) by reflexivity.
    rewrite (bind_eq _ _ _ "]"%char rest) by reflexivity.
    reflexivity.
  - cbn [map]. cbn [String.append].
    assert (Hb2 : (String.length e +
                   String.length (String "," (elements_text (map fst (e2 :: es)) ++
                                              String "]" rest)) < bound)%nat).
    { cbn [String.length String.append map] in *. rewrite length_append.
      cbn [String.length] in *. lia. }
    rewrite (bind_eq _ _ _ _ _ (Hv1 _ Hb2 eq_refl)).
    rewrite (bind_eq _ _ _ tt (String "," (elements_text (map fst (e2 :: es)) ++
                                            String "]" rest))) by reflexivity.
    rewrite (bind_eq _ _ _ ","%char (elements_text (map fst (e2 :: es)) ++
                                     String "]" rest)) by reflexivity.
    change (Ascii.eqb "," "]") with false. change (negb (Ascii.eqb "," ",")) with false.
    cbv iota.
    rewrite (bind_eq _ _ _ tt (elements_text (map fst (e2 :: es)) ++ String "]" rest)).
    2: { apply skip_ws_stop, starts_dispatch_space, elements_text_starts.
         - apply Forall_map. exact Hs'.
         - discriminate. }
    rewrite IH; auto.
    + rewrite <- app_assoc. reflexivity.
    + discriminate.
    + cbn [String.length String.append map] in *. lia.
    + cbn [String.length String.append map] in *. lia.
Qed.

(** An array text denotes the Array of its elements, in the order written. *)
Lemma reads_array es :
  Forall element_ok es ->
  reads (array_text (map fst es)) (Arr (map snd es)).
Proof.
  intros Hm [|n] rest Hn Hr; [lia|].
  unfold array_text in *. rewrite !append_assoc.
  cbn [String.append String.length] in *. rewrite length_append in Hn.
  cbn [String.length] in Hn.
  cbn [parse_value].
  rewrite (bind_eq _ _ _ tt (String "[" (elements_text (map fst es) ++ String "]" rest)))
    by reflexivity.
  rewrite (bind_eq _ _ _ "["%char
             (String "[" (elements_text (map fst es) ++ String "]" rest)))
    by reflexivity.
  change (Ascii.eqb "[" "n") with false.
  change (Ascii.eqb "[" "t" || Ascii.eqb "[" "f") with false.
  change (Ascii.eqb "[" DQ) with false.
  change (Ascii.eqb "[" "-" || isdigit "[") with false.
  change (Ascii.eqb "[" "{") with false.
  change (Ascii.eqb "[" "[") with true. cbv iota.
  unfold parse_array.
  rewrite (bind_eq _ _ _ tt (elements_text (map fst es) ++ String "]" rest))
    by reflexivity.
  destruct es as [|m es].
  - reflexivity.
  - assert (Hst : starts_with dispatches
                    (elements_text (map fst (m :: es)) ++ String "]" rest) = true).
    { apply elements_text_starts; [|discriminate].
      apply Forall_map. eapply Forall_impl; [|exact Hm]. intros a [_ Ha]. exact Ha. }
    rewrite (bind_eq _ _ _ tt (elements_text (map fst (m :: es)) ++ String "]" rest)).
    2: { apply skip_ws_stop, starts_dispatch_space, Hst. }
    destruct (elements_text (map fst (m :: es)) ++ String "]" rest) as [|c r] eqn:Et;
      [discriminate|].
    rewrite (bind_eq _ _ _ c (String c r)) by reflexivity.
    simpl in Hst. rewrite (starts_dispatch_not_close c Hst).
    rewrite <- Et.
    apply (array_loop_elements (parse_value n) n (m :: es)) with (arr := []).
    + eapply Forall_impl; [|exact Hm]. intros a [Ha _] rest' Hl Hc.
      apply Ha; assumption.
    + eapply Forall_impl; [|exact Hm]. intros a [_ Ha]. exact Ha.
    + discriminate.
    + rewrite length_append. lia.
    + lia.
Qed.

(** *** The map of a sorted list of members *)

Lemma emplace_append k v pre :
  Forall (fun kv => StdMap.key_lt (fst kv) k) pre ->
  StdMap.emplace k v pre = (pre ++ [(k, v)])%list.
Proof.
  induction 1 as [|[k1 v1] pre H1 Hp IH]; [reflexivity|].
  cbn [fst] in H1. cbn [StdMap.emplace app].
  unfold StdMap.key_lt in H1.
  rewrite String.compare_antisym, H1. cbn [CompOpp]. now rewrite IH.
Qed.

Lemma emplace_all_append suf : forall pre,
  StronglySorted StdMap.key_lt (StdMap.keys (pre ++ suf)%list) ->
  emplace_all suf pre = (pre ++ suf)%list.
Proof.
  induction suf as [|[k v] suf IH]; intros pre Hs.
  - now rewrite app_nil_r.
  - cbn [emplace_all fold_left fst snd].
    change (fold_left _ suf ?m) with (emplace_all suf m).
    rewrite emplace_append.
    + rewrite IH; rewrite <- app_assoc; [reflexivity|exact Hs].
    + unfold StdMap.keys in Hs. rewrite map_app in Hs. cbn [map fst] in Hs.
      clear IH. induction pre as [|[k1 v1] pre IHp]; [constructor|].
      cbn [map app fst] in Hs. inversion Hs as [|? ? Hs' Hall]; subst.
      constructor.
      * cbn [fst]. rewrite Forall_forall in Hall. apply Hall.
        apply in_or_app. right. left. reflexivity.
      * apply IHp. exact Hs'.
Qed.

(** Emplacing the members of a map in the order of the map rebuilds it. *)
Lemma emplace_all_sorted_id o : StdMap.sorted o -> emplace_all o [] = o.
Proof.
  intro Hs. apply (emplace_all_append o []). cbn [app].
  apply Sorted_StronglySorted; [|exact Hs].
  intros a b c. apply key_lt_trans.
Qed.

(** *** The round trip of a document *)

Lemma every_arr Q a : every Q (Arr a) -> Forall (every Q) a.
Proof.
  intros [_ H]. induction a as [|x a IH]; constructor.
  - exact (proj1 H).
  - apply IH. exact (proj2 H).
Qed.

Lemma every_obj Q o : every Q (Obj o) -> Forall (fun kv => every Q (snd kv)) o.
Proof.
  intros [_ H]. induction o as [|[k v] o IH]; constructor.
  - exact (proj1 H).
  - apply IH. exact (proj2 H).
Qed.

Lemma every_here Q j : every Q j -> Q j.
Proof. destruct j; intros [H _]; exact H. Qed.

Lemma dump_number_starts d :
  Stod.stod (Fmt.double d) = Ok d ->
  starts_with dispatches (dump compact (Num d)) = true.
Proof.
  intro H. pose proof (stod_finite _ _ H) as Hf.
  destruct (double_token d Hf) as (t & Hw & Ht).
  change (dump compact (Num d)) with (Fmt.double d). rewrite <- Ht.
  destruct (text_head t Hw) as (c & r & -> & Hc & _).
  simpl. unfold dispatches.
  apply orb_true_iff in Hc as [Hc|Hc]; rewrite Hc; rewrite ?orb_true_r; reflexivity.
Qed.

Lemma document_reads j :
  every roundtrips_here j ->
  reads (dump compact j) j /\ starts_with dispatches (dump compact j) = true.
Proof.
  induction j as [| b | d | s | a IHa | o IHo] using Json_nested_ind; intro Hj.
  - split; [exact reads_null|reflexivity].
  - destruct b; (split; [first [exact reads_true|exact reads_false]|reflexivity]).
  - apply every_here in Hj. simpl in Hj.
    split; [now apply reads_dump_number|now apply dump_number_starts].
  - apply every_here in Hj. simpl in Hj.
    split; [exact (reads_string s Hj)|reflexivity].
  - split; [|reflexivity].
    apply every_arr in Hj. rewrite dump_array. unfold dumped_elements.
    assert (H : exists es, map fst es = map (dump compact) a /\ map snd es = a /\
                           Forall element_ok es).
    { exists (map (fun x => (dump compact x, x)) a). split; [|split].
      - rewrite map_map. reflexivity.
      - rewrite map_map. apply map_id.
      - apply Forall_map. rewrite Forall_forall in *.
        intros x Hx. exact (IHa x Hx (Hj x Hx)). }
    destruct H as (es & E1 & E2 & Hes).
    rewrite <- E1, <- E2. now apply reads_array.
  - split; [|reflexivity].
    pose proof (every_here _ _ Hj) as [Hs Hk]. apply every_obj in Hj.
    rewrite dump_object. unfold dumped_members.
    assert (H : exists ms,
               member_texts ms = map (fun kv => (fst kv, dump compact (snd kv))) o /\
               member_values ms = o /\ Forall member_ok ms).
    { exists (map (fun kv => (fst kv, dump compact (snd kv), snd kv)) o).
      split; [|split].
      - unfold member_texts. rewrite map_map. reflexivity.
      - unfold member_values. rewrite map_map. cbn [fst snd].
        rewrite <- (map_id o) at 2. apply map_ext. now intros [k v].
      - apply Forall_map. rewrite Forall_forall in *.
        intros kv Hkv. split; cbn [fst snd].
        + exact (Hk kv Hkv).
        + exact (proj1 (IHo kv Hkv (Hj kv Hkv))). }
    destruct H as (ms & E1 & E2 & Hms).
    rewrite <- E1. rewrite <- (emplace_all_sorted_id o Hs).
    rewrite <- E2. now apply reads_object.
Qed.


(** ** Integers and their digits *)

Lemma iter_xO_digits p k :
  digits2_pos (Pos.iter xO p k) = (digits2_pos p + k)%positive.
Proof.
  induction k as [|k IH] using Pos.peano_ind.
  - cbn [Pos.iter digits2_pos]. lia.
  - rewrite Pos.iter_succ. cbn [digits2_pos]. rewrite IH. lia.
Qed.

Lemma iter_xO_value p k : Zpos (Pos.iter xO p k) = Zpos p * 2 ^ Zpos k.
Proof.
  induction k as [|k IH] using Pos.peano_ind.
  - cbn [Pos.iter]. lia.
  - rewrite Pos.iter_succ, Pos2Z.inj_succ, Z.pow_succ_r by lia.
    rewrite Pos2Z.inj_xO, IH. lia.
Qed.

Lemma shiftl_pos p s : Z.shiftl (Zpos p) (Zpos s) = Zpos (Pos.iter xO p s).
Proof.
  unfold Z.shiftl. symmetry. apply Pos.iter_swap_gen. reflexivity.
Qed.

Lemma round_aux_exact neg m e :
  digits2_pos m = 53%positive -> -1074 <= e <= 971 ->
  binary_round_aux 53 1024 neg (Zpos m) e loc_Exact = S754_finite neg m e.
Proof.
  intros Hd He. unfold binary_round_aux, shr_fexp.
  cbn [Zdigits2 shr_record_of_loc]. rewrite Hd.
  rewrite fexp_large by lia.
  replace (53 + e - 53 - e) with 0 by lia.
  cbn [shr shr_m loc_of_shr_record shr_r shr_s round_nearest_even Zdigits2
       shr_record_of_loc].
  rewrite Hd. rewrite fexp_large by lia.
  replace (53 + e - 53 - e) with 0 by lia.
  cbn [shr shr_m].
  destruct (Z.leb_spec e (1024 - 53)); [reflexivity|lia].
Qed.

Lemma round_aux_even neg m e :
  digits2_pos m = 53%positive -> -1074 <= e <= 971 ->
  binary_round_aux 53 1024 neg (Zpos m~0) (e - 1) loc_Exact = S754_finite neg m e.
Proof.
  intros Hd He. unfold binary_round_aux, shr_fexp.
  cbn [Zdigits2 shr_record_of_loc digits2_pos]. rewrite Hd.
  rewrite fexp_large by lia.
  replace (Zpos (Pos.succ 53) + (e - 1) - 53 - (e - 1)) with 1 by lia.
  cbn [shr iter_pos shr_1 shr_m shr_r shr_s orb loc_of_shr_record
       round_nearest_even Zdigits2 shr_record_of_loc].
  rewrite Hd. rewrite fexp_large by lia.
  replace (53 + (e - 1 + 1) - 53 - (e - 1 + 1)) with 0 by lia.
  cbn [shr shr_m].
  destruct (Z.leb_spec (e - 1 + 1) (1024 - 53)); [|lia].
  f_equal. lia.
Qed.

Lemma shift_of_spec p :
  Zpos (digits2_pos p) < 53 ->
  Zpos (shift_of p) = 53 - Zpos (digits2_pos p) /\
  digits2_pos (Pos.iter xO p (shift_of p)) = 53%positive.
Proof.
  intro H. unfold shift_of. split.
  - rewrite Z2Pos.id; lia.
  - rewrite iter_xO_digits.
    assert (E : Zpos (digits2_pos p + Z.to_pos (53 - Zpos (digits2_pos p))) = 53).
    { rewrite Pos2Z.inj_add, Z2Pos.id; lia. }
    congruence.
Qed.

(** [static_cast<double>(i)] for an integer of less than 53 bits. *)
Lemma binary_round_int neg p :
  Zpos (digits2_pos p) < 53 ->
  binary_round 53 1024 neg p 0 = double_of_pos neg p.
Proof.
  intro H. destruct (shift_of_spec p H) as [Hs Hd].
  unfold binary_round, shl_align.
  rewrite fexp_large by lia.
  replace (Zpos (digits2_pos p) + 0 - 53 - 0) with (Zneg (shift_of p)) by lia.
  cbv iota beta.
  replace (Zpos (digits2_pos p) + 0 - 53) with (Zneg (shift_of p)) by lia.
  apply round_aux_exact; [exact Hd|lia].
Qed.

(** [std::stod] on an integer of less than 53 bits. *)
Lemma nearest_int neg p :
  Zpos (digits2_pos p) < 53 ->
  Stod.nearest neg (Zpos p) 1 = double_of_pos neg p.
Proof.
  intro H. destruct (shift_of_spec p H) as [Hs Hd].
  unfold Stod.nearest. cbn [Z.eqb]. cbv iota.
  unfold SFdiv_core_binary. cbn [Zdigits2 digits2_pos].
  rewrite fexp_large by lia.
  replace (Z.min (Zpos (digits2_pos p) + 0 - (1 + 0) - 53) (0 - 0))
    with (Zneg (Pos.succ (shift_of p))) by lia.
  replace (0 - 0 - Zneg (Pos.succ (shift_of p))) with (Zpos (Pos.succ (shift_of p))) by lia.
  cbv iota beta. rewrite shiftl_pos, Pos.iter_succ.
  set (m := Pos.iter xO p (shift_of p)) in *.
  pose proof (Z.div_1_r (Zpos m~0)) as Hq. pose proof (Z.mod_1_r (Zpos m~0)) as Hr.
  unfold Z.div, Z.modulo in Hq, Hr.
  destruct (Z.div_eucl (Zpos m~0) 1) as [q r]. subst q r.
  change (new_location 1 0) with loc_Exact.
  unfold double_of_pos. fold m.
  replace (Zneg (Pos.succ (shift_of p))) with (Zneg (shift_of p) - 1) by lia.
  apply round_aux_even; [exact Hd|lia].
Qed.

(** *** The digits of an integer *)

Section IntegerDigits.

Import Fmt.

Lemma digit_code x : 0 <= x < 10 -> code (digit x) = 48 + x.
Proof.
  intro H. unfold code, digit, char_of.
  rewrite N_ascii_embedding by lia. lia.
Qed.

Lemma digit_nonzero x :
  1 <= x < 10 -> Ascii.eqb (digit x) "0" = false /\ isdigit (digit x) = true.
Proof.
  intro H.
  assert (E : x = 1 \/ x = 2 \/ x = 3 \/ x = 4 \/ x = 5 \/ x = 6 \/ x = 7 \/
              x = 8 \/ x = 9) by lia.
  repeat (destruct E as [->|E]; [split; reflexivity|]). subst. split; reflexivity.
Qed.

Lemma digits_acc k : forall n acc, digits k n acc = digits k n "" ++ acc.
Proof.
  induction k as [|k IH]; intros n acc; [reflexivity|].
  cbn [digits]. rewrite IH, (IH _ (String _ "")).
  now rewrite append_assoc.
Qed.

Lemma digits_length k : forall n, String.length (digits k n "") = k.
Proof.
  induction k as [|k IH]; intro n; [reflexivity|].
  cbn [digits]. rewrite digits_acc, length_append, IH. cbn [String.length]. lia.
Qed.

Lemma zeros_snoc j acc : zeros j ++ String "0" acc = String "0" (zeros j ++ acc).
Proof.
  induction j as [|j IH]; [reflexivity|].
  cbn [zeros String.append]. now rewrite IH.
Qed.

Lemma digits_scaled j : forall k n acc,
  digits (k + j) (n * 10 ^ Z.of_nat j) acc = digits k n (zeros j ++ acc).
Proof.
  induction j as [|j IH]; intros k n acc.
  - rewrite Nat.add_0_r. cbn [zeros String.append Z.of_nat]. now rewrite Z.pow_0_r, Z.mul_1_r.
  - rewrite Nat.add_succ_r, pow10_succ. cbn [digits].
    replace (n * (10 * 10 ^ Z.of_nat j)) with ((n * 10 ^ Z.of_nat j) * 10) by lia.
    rewrite Z.div_mul, Z.mod_mul by lia.
    change (digit 0) with "0"%char.
    rewrite IH. now rewrite zeros_snoc.
Qed.

Lemma strip_zeros_zeros j : strip_zeros (zeros j) = "".
Proof.
  induction j as [|j IH]; [reflexivity|].
  cbn [zeros strip_zeros]. now rewrite IH.
Qed.

Lemma zeros_length j : String.length (zeros j) = j.
Proof. induction j as [|j IH]; [reflexivity|]. cbn [zeros String.length]. now rewrite IH. Qed.

Lemma substring_all b : substring 0 (String.length b) b = b.
Proof. induction b as [|c b IH]; [reflexivity|]. cbn [String.length substring]. now rewrite IH. Qed.

Lemma substring_suffix a b :
  substring (String.length a) (String.length b) (a ++ b) = b.
Proof.
  induction a as [|c a IH]; [apply substring_all|].
  cbn [String.length String.append substring]. exact IH.
Qed.

Lemma numeral_digits j : forall fuel n acc,
  10 ^ Z.of_nat j <= n < 10 ^ Z.of_nat (S j) -> (j < fuel)%nat ->
  numeral fuel n acc = digits (S j) n acc.
Proof.
  induction j as [|j IH]; intros fuel n acc Hn Hf;
    (destruct fuel as [|fuel]; [lia|]); cbn [numeral].
  - change (10 ^ Z.of_nat 1) with 10 in Hn.
    destruct (Z.ltb_spec n 10); [reflexivity|lia].
  - rewrite !pow10_succ in Hn.
    assert (0 < 10 ^ Z.of_nat j) by (apply Z.pow_pos_nonneg; lia).
    destruct (Z.ltb_spec n 10); [lia|].
    rewrite (IH fuel (n / 10)); [reflexivity| |lia].
    rewrite pow10_succ. split.
    + apply Z.div_le_lower_bound; lia.
    + apply Z.div_lt_upper_bound; lia.
Qed.

Lemma digits_head j : forall n acc,
  10 ^ Z.of_nat j <= n < 10 ^ Z.of_nat (S j) ->
  exists c r, digits (S j) n acc = String c r /\
              isdigit c = true /\ Ascii.eqb c "0" = false.
Proof.
  induction j as [|j IH]; intros n acc Hn.
  - change (10 ^ Z.of_nat 1) with 10 in Hn. change (10 ^ Z.of_nat 0) with 1 in Hn.
    cbn [digits]. rewrite Z.mod_small by lia.
    destruct (digit_nonzero n Hn) as [H0 Hd]. eauto.
  - rewrite !pow10_succ in Hn.
    assert (0 < 10 ^ Z.of_nat j) by (apply Z.pow_pos_nonneg; lia).
    change (digits (S (S j)) n acc)
      with (digits (S j) (n / 10) (String (digit (n mod 10)) acc)).
    apply IH. rewrite pow10_succ. split.
    + apply Z.div_le_lower_bound; lia.
    + apply Z.div_lt_upper_bound; lia.
Qed.

Lemma value_digits k : forall n a s,
  0 <= n ->
  Stod.value a (digits k n s) = Stod.value (a * 10 ^ Z.of_nat k + n mod 10 ^ Z.of_nat k) s.
Proof.
  induction k as [|k IH]; intros n a s Hn.
  - cbn [digits Z.of_nat]. rewrite Z.pow_0_r, Z.mod_1_r. f_equal. lia.
  - cbn [digits]. rewrite IH by (apply Z.div_pos; lia).
    cbn [Stod.value]. rewrite digit_code by (apply Z.mod_pos_bound; lia).
    f_equal. rewrite pow10_succ.
    rewrite (Z.rem_mul_r n 10 (10 ^ Z.of_nat k)) by (try apply Z.pow_pos_nonneg; lia).
    lia.
Qed.

(** A positive integer below [10^k] has [j + 1] decimal digits for some
    [j < k]. *)
Lemma decimal_size k : forall n,
  0 < n < 10 ^ Z.of_nat k ->
  exists j, (j < k)%nat /\ 10 ^ Z.of_nat j <= n < 10 ^ Z.of_nat (S j).
Proof.
  induction k as [|k IH]; intros n Hn.
  - change (10 ^ Z.of_nat 0) with 1 in Hn. lia.
  - destruct (Z.lt_ge_cases n (10 ^ Z.of_nat k)) as [Hlt|Hge].
    + destruct (IH n ltac:(lia)) as (j & Hj & Hb). exists j. split; [lia|exact Hb].
    + exists k. split; [lia|]. lia.
Qed.


Lemma scale10_ge f : forall num den X n d X',
  0 < den -> den <= num ->
  scale10 f num den X = (n, d, X') ->
  n = num /\ exists j : nat, X' = X + Z.of_nat j /\ d = den * 10 ^ Z.of_nat j.
Proof.
  induction f as [|f IH]; intros num den X n d X' Hd Hge E.
  - cbn [scale10] in E.
    assert (n = num) by congruence. assert (d = den) by congruence.
    assert (X' = X) by congruence. subst. split; [reflexivity|]. exists 0%nat.
    cbn [Z.of_nat]. rewrite Z.pow_0_r. lia.
  - rewrite scale10_S in E.
    destruct (Z.ltb_spec num den); [lia|].
    destruct (Z.leb_spec (10 * den) num).
    + destruct (IH num (10 * den) (X + 1) n d X' ltac:(lia) ltac:(lia) E)
        as (-> & j & -> & ->).
      split; [reflexivity|]. exists (S j). rewrite pow10_succ. lia.
    + assert (n = num) by congruence. assert (d = den) by congruence.
      assert (X' = X) by congruence. subst. split; [reflexivity|]. exists 0%nat.
      cbn [Z.of_nat]. rewrite Z.pow_0_r. lia.
Qed.

(** [%.15g] of an integer below [10^15] is its decimal numeral. *)
Lemma g15_int n K :
  0 < n < 10 ^ 15 -> 0 < K -> g15 (n * K) K = numeral 20 n "".
Proof.
  intros Hn HK.
  destruct (scale10 (scale_fuel (n * K) K) (n * K) K 0) as [[n' d'] X] eqn:E.
  assert (Hnk : 0 < n * K) by nia. assert (Hge : K <= n * K) by nia.
  pose proof (scale10_normalizes _ _ _ _ _ Hnk HK E) as (Hd0 & Hlo & Hhi).
  destruct (scale10_ge _ _ _ _ _ _ _ HK Hge E) as (-> & j & -> & ->).
  assert (Hp : 0 < 10 ^ Z.of_nat j) by (apply Z.pow_pos_nonneg; lia).
  assert (Hj : 10 ^ Z.of_nat j <= n < 10 ^ Z.of_nat (S j)).
  { rewrite pow10_succ. split; nia. }
  assert (Hj15 : (j < 15)%nat).
  { destruct (Nat.lt_ge_cases j 15) as [|Hge15]; [assumption|exfalso].
    assert (10 ^ 15 <= 10 ^ Z.of_nat j) by (apply Z.pow_le_mono_r; lia). lia. }
  unfold g15. rewrite sig15_eq, E. unfold sig15_of.
  set (D := n * 10 ^ Z.of_nat (14 - j)).
  assert (Hpk : 0 < 10 ^ Z.of_nat (14 - j)) by (apply Z.pow_pos_nonneg; lia).
  assert (E14 : 10 ^ 14 = 10 ^ Z.of_nat (14 - j) * 10 ^ Z.of_nat j).
  { rewrite <- Z.pow_add_r by lia. f_equal. lia. }
  assert (ED : round_div (n * K * 10 ^ 14) (K * 10 ^ Z.of_nat j) = D).
  { unfold round_div. rewrite E14.
    replace (n * K * (10 ^ Z.of_nat (14 - j) * 10 ^ Z.of_nat j))
      with (D * (K * 10 ^ Z.of_nat j)) by (unfold D; ring).
    rewrite Z.div_mul, Z.mod_mul by nia.
    destruct (Z.compare_spec (2 * 0) (K * 10 ^ Z.of_nat j)); [nia|reflexivity|nia]. }
  rewrite ED.
  assert (HD : D < 10 ^ 15).
  { unfold D. change (10 ^ 15) with (10 * 10 ^ 14). rewrite E14.
    rewrite pow10_succ in Hj. nia. }
  destruct (Z.eqb_spec D (10 ^ 15)); [lia|].
  destruct (Z.ltb_spec (0 + Z.of_nat j) (-4)); [lia|].
  destruct (Z.leb_spec 15 (0 + Z.of_nat j)); [lia|].
  cbn [orb]. destruct (Z.leb_spec 0 (0 + Z.of_nat j)); [|lia].
  replace (Z.to_nat (0 + Z.of_nat j + 1)) with (S j) by lia.
  assert (Eds : digits 15 D "" = digits (S j) n "" ++ zeros (14 - j)).
  { replace 15%nat with (S j + (14 - j))%nat by lia.
    unfold D. rewrite digits_scaled, append_nil_r. apply digits_acc. }
  rewrite Eds.
  rewrite <- (digits_length (S j) n) at 1.
  rewrite substring_prefix.
  replace (15 - S j)%nat with (String.length (zeros (14 - j)))
    by (rewrite zeros_length; lia).
  rewrite <- (digits_length (S j) n) at 2.
  rewrite substring_suffix.
  unfold with_fraction. rewrite strip_zeros_zeros.
  symmetry. apply numeral_digits; [exact Hj|lia].
Qed.

End IntegerDigits.

Lemma digits2_small p : Zpos p < 10 ^ 15 -> Zpos (digits2_pos p) < 53.
Proof.
  intro H. pose proof (digits2_bounds p) as [Hlo _].
  destruct (Z.lt_ge_cases (Zpos (digits2_pos p)) 53) as [|Hge]; [assumption|exfalso].
  assert (2 ^ 52 <= 2 ^ (Zpos (digits2_pos p) - 1)) by (apply Z.pow_le_mono_r; lia).
  lia.
Qed.

Lemma dump_double_of_pos neg p :
  Zpos p < 10 ^ 15 ->
  Fmt.double (double_of_pos neg p) =
  (if neg then "-" else "") ++ Fmt.numeral 20 (Zpos p) "".
Proof.
  intro H. unfold double_of_pos. cbn [Fmt.double]. cbv iota.
  change (0 <=? Zneg (shift_of p)) with false. cbv iota.
  change (- Zneg (shift_of p)) with (Zpos (shift_of p)).
  rewrite iter_xO_value. f_equal.
  apply g15_int; [lia|]. apply Z.pow_pos_nonneg; lia.
Qed.

Lemma decimal_int_part n : 0 <= n < 10 ^ 15 -> int_part (Fmt.numeral 20 n "") = true.
Proof.
  intro Hn. destruct (Z.eq_dec n 0) as [->|Hz]; [reflexivity|].
  destruct (decimal_size 15 n ltac:(change (10 ^ Z.of_nat 15) with (10 ^ 15); lia))
    as (j & Hj & Hb).
  pose proof (numeral_all 20 n "" eq_refl) as Ha.
  rewrite (numeral_digits j 20 n "" Hb ltac:(lia)) in *.
  destruct (digits_head j n "" Hb) as (c & r & E & Hc & H0).
  rewrite E in *. cbn [all_chars] in Ha. apply andb_true_iff in Ha as [_ Hr].
  cbn [int_part]. now rewrite Hc, Hr, H0.
Qed.

Lemma decimal_value n : 0 <= n < 10 ^ 15 -> Stod.value 0 (Fmt.numeral 20 n "") = n.
Proof.
  intro Hn. destruct (Z.eq_dec n 0) as [->|Hz]; [reflexivity|].
  destruct (decimal_size 15 n ltac:(change (10 ^ Z.of_nat 15) with (10 ^ 15); lia))
    as (j & Hj & Hb).
  rewrite (numeral_digits j 20 n "" Hb ltac:(lia)).
  rewrite value_digits by lia. cbn [Stod.value].
  rewrite Z.mod_small by lia. lia.
Qed.

Lemma decimal_text i :
  decimal i = text (Token (i <? 0) (Fmt.numeral 20 (Z.abs i) "") None None).
Proof.
  unfold decimal, text. cbn [t_neg t_int t_frac t_exp frac_text exp_text].
  unfold sign_text. now rewrite !append_nil_r.
Qed.

Lemma of_int_double i :
  i <> 0 -> Z.abs i < 10 ^ 15 ->
  of_int i = Num (double_of_pos (i <? 0) (Z.to_pos (Z.abs i))).
Proof.
  intros Hz Hb. unfold of_int, binary_normalize.
  destruct i as [|p|p]; [contradiction| |];
    cbn [Z.abs Z.to_pos Z.ltb Z.compare];
    rewrite binary_round_int by (apply digits2_small; exact Hb); reflexivity.
Qed.

Lemma decimal_stod i :
  Z.abs i < 10 ^ 15 ->
  token_stod (Token (i <? 0) (Fmt.numeral 20 (Z.abs i) "") None None) =
  match of_int i with Num d => Ok d | _ => Err OutOfRange end.
Proof.
  intro Hb. destruct (Z.eq_dec i 0) as [->|Hz]; [reflexivity|].
  rewrite (of_int_double i Hz Hb).
  unfold token_stod, token_fraction. cbn [t_neg t_int t_frac t_exp].
  rewrite append_nil_r, decimal_value by lia.
  change (Stod.fraction (Z.abs i) (0 - Z.of_nat (String.length "")))
    with (Z.abs i * 10 ^ 0, 1).
  cbv iota beta. rewrite Z.pow_0_r, Z.mul_1_r.
  set (p := Z.to_pos (Z.abs i)).
  assert (Ep : Z.abs i = Zpos p) by (unfold p; rewrite Z2Pos.id; lia).
  clearbody p. rewrite Ep in *.
  assert (Hp : Zpos (digits2_pos p) < 53) by (apply digits2_small; lia).
  rewrite nearest_int by exact Hp.
  destruct (shift_of_spec p Hp) as [_ Hd].
  unfold Stod.erange, double_of_pos.
  replace (Stod.tiny (Z.pos p) 1) with false; [reflexivity|].
  symmetry. apply Z.ltb_ge.
  assert (H54 : (2 ^ 54 - 1) * 1 <= 1 * 2 ^ 1076) by (vm_compute; discriminate).
  apply Z.le_trans with (1 * 2 ^ 1076); [exact H54|].
  apply Z.mul_le_mono_nonneg_r; [apply Z.pow_nonneg|]; lia.
Qed.

Example decimal_examples :
  decimal 0 = "0" /\ decimal 42 = "42" /\ decimal (-2147483648) = "-2147483648".
Proof. repeat split. Qed.

Lemma of_int_num i : exists d, of_int i = Num d.
Proof. unfold of_int. eauto. Qed.

Lemma dump_of_int indent i : Z.abs i < 10 ^ 15 -> dump indent (of_int i) = decimal i.
Proof.
  intro H. destruct (Z.eq_dec i 0) as [->|Hz]; [reflexivity|].
  rewrite (of_int_double i Hz H). unfold dump. cbn [dump_impl].
  rewrite dump_double_of_pos by (rewrite Z2Pos.id; lia).
  unfold decimal. rewrite Z2Pos.id by lia. reflexivity.
Qed.

Lemma parse_decimal i : Z.abs i < 10 ^ 15 -> parse (decimal i) = Ok (of_int i).
Proof.
  intro H. rewrite decimal_text, parse_text.
  - rewrite decimal_stod by exact H. reflexivity.
  - unfold well_formed. cbn [t_int t_frac t_exp].
    rewrite decimal_int_part by lia. reflexivity.
Qed.

Lemma stod_decimal i : Z.abs i < 10 ^ 15 -> roundtrips_here (of_int i).
Proof.
  intro H. destruct (of_int_num i) as [d Ed]. rewrite Ed. cbn [roundtrips_here].
  assert (E : Fmt.double d = decimal i).
  { pose proof (dump_of_int compact i H) as Hd. rewrite Ed in Hd. exact Hd. }
  rewrite E, decimal_text, stod_text.
  - rewrite decimal_stod by exact H. now rewrite Ed.
  - unfold well_formed. cbn [t_int t_frac t_exp].
    rewrite decimal_int_part by lia. reflexivity.
Qed.

(** ** Fifteen significant digits

    [std::stod] rounds a decimal to the nearest binary64 and [dump] rounds
    a binary64 to 15 significant digits.  As [10^15 < 2^53], the second
    rounding undoes the first: a decimal of at most 15 digits is written
    back digit for digit. *)

Section FifteenDigits.

Import Fmt.

(** *** [round_div] *)

Lemma round_div_spec a b :
  0 < b ->
  - b <= 2 * (round_div a b * b - a) <= b /\
  (2 * (round_div a b * b - a) = b \/ 2 * (round_div a b * b - a) = - b ->
   Z.even (round_div a b) = true).
Proof.
  intro Hb. unfold round_div.
  pose proof (Z.div_mod a b ltac:(lia)) as E.
  pose proof (Z.mod_pos_bound a b Hb) as Hr.
  set (q := a / b) in *. set (r := a mod b) in *.
  destruct (Z.compare_spec (2 * r) b) as [Heq|Hlt|Hgt].
  - destruct (Z.even q) eqn:Ev.
    + split; [nia|]. intros _. exact Ev.
    + split; [nia|]. intros _. rewrite Z.even_add, Ev. reflexivity.
  - split; [nia|]. intros [H|H]; nia.
  - split; [nia|]. intros [H|H]; nia.
Qed.

Lemma round_div_charac a b M :
  0 < b ->
  - b <= 2 * (M * b - a) <= b ->
  (2 * (M * b - a) = b \/ 2 * (M * b - a) = - b -> Z.even M = true) ->
  round_div a b = M.
Proof.
  intros Hb HM Hev. unfold round_div.
  pose proof (Z.div_mod a b ltac:(lia)) as E.
  pose proof (Z.mod_pos_bound a b Hb) as Hr.
  set (q := a / b) in *. set (r := a mod b) in *.
  assert (Hc : M = q \/ M = q + 1) by nia.
  destruct (Z.compare_spec (2 * r) b) as [Heq|Hlt|Hgt].
  - destruct Hc as [->| ->].
    + rewrite Hev by (right; nia). reflexivity.
    + assert (Ev : Z.even (q + 1) = true) by (apply Hev; left; nia).
      rewrite Z.even_add in Ev. destruct (Z.even q); [discriminate|reflexivity].
  - destruct Hc as [->| ->]; [reflexivity|nia].
  - destruct Hc as [->| ->]; [nia|reflexivity].
Qed.

Lemma div_ext a b a' b' :
  0 < b -> 0 < b' -> a * b' = a' * b ->
  a / b = a' / b' /\ (a mod b) * b' = (a' mod b') * b.
Proof.
  intros Hb Hb' E.
  pose proof (Z.div_mod a b ltac:(lia)) as E1.
  pose proof (Z.mod_pos_bound a b Hb) as Hr.
  pose proof (Z.div_mod a' b' ltac:(lia)) as E2.
  pose proof (Z.mod_pos_bound a' b' Hb') as Hr'.
  set (q := a / b) in *. set (r := a mod b) in *.
  set (q' := a' / b') in *. set (r' := a' mod b') in *.
  assert (Hq : q = q').
  { destruct (Z.lt_trichotomy q q') as [H|[H|H]]; [exfalso|exact H|exfalso].
    - assert (q + 1 <= q') by lia.
      assert (b * b' * (q + 1) <= b * b' * q') by (apply Z.mul_le_mono_nonneg_l; nia).
      assert (r * b' < b * b') by (apply Z.mul_lt_mono_pos_r; lia).
      assert (0 <= r' * b) by nia. nia.
    - assert (q' + 1 <= q) by lia.
      assert (b * b' * (q' + 1) <= b * b' * q) by (apply Z.mul_le_mono_nonneg_l; nia).
      assert (r' * b < b' * b) by (apply Z.mul_lt_mono_pos_r; lia).
      assert (0 <= r * b') by nia. nia. }
  split; [exact Hq|]. subst q'. nia.
Qed.

Lemma round_div_ext a b a' b' :
  0 < b -> 0 < b' -> a * b' = a' * b -> round_div a b = round_div a' b'.
Proof.
  intros Hb Hb' E. destruct (div_ext a b a' b' Hb Hb' E) as [Hq Hr].
  unfold round_div. rewrite <- Hq.
  pose proof (Z.mod_pos_bound a b Hb) as Br.
  pose proof (Z.mod_pos_bound a' b' Hb') as Br'.
  set (r := a mod b) in *. set (r' := a' mod b') in *.
  assert (Hc : (2 * r ?= b) = (2 * r' ?= b')).
  { destruct (Z.compare_spec (2 * r) b) as [H|H|H];
      destruct (Z.compare_spec (2 * r') b') as [H'|H'|H']; try reflexivity; exfalso; nia. }
  now rewrite Hc.
Qed.

(** *** The records of [shr] *)

Lemma shr_1_s mrs : shr_s (shr_1 mrs) = shr_r mrs || shr_s mrs.
Proof. destruct mrs as [[|[p|p|]|[p|p|]] r s]; reflexivity. Qed.

Lemma rec_for_init A den :
  0 <= A -> 0 < den ->
  rec_for A den (shr_record_of_loc (A / den) (new_location den (A mod den))).
Proof.
  intros HA Hd. pose proof (Z.mod_pos_bound A den Hd) as Hr.
  set (r := A mod den) in *.
  assert (L : new_location den r =
              if r =? 0 then loc_Exact else loc_Inexact (2 * r ?= den)).
  { unfold new_location, new_location_even, new_location_odd.
    destruct (Z.even den) eqn:Ev; [reflexivity|].
    destruct (Z.eqb_spec r 0); [reflexivity|]. f_equal.
    assert (Ho : Z.odd den = true) by (rewrite <- Z.negb_even, Ev; reflexivity).
    apply Z.odd_spec in Ho as [k Hk].
    destruct (Z.compare_spec (2 * r + 1) den);
      destruct (Z.compare_spec (2 * r) den); try reflexivity; lia. }
  rewrite L. unfold rec_for. fold r.
  destruct (Z.eqb_spec r 0) as [E0|N0].
  - cbn [shr_record_of_loc shr_m shr_r shr_s]. rewrite E0.
    repeat split.
    + symmetry. apply Z.leb_gt. lia.
  - destruct (Z.compare_spec (2 * r) den) as [H|H|H];
      cbn [shr_record_of_loc shr_m shr_r shr_s]; repeat split.
    + symmetry. apply Z.leb_le. lia.
    + destruct (Z.eqb_spec (2 * r) den); [reflexivity|lia].
    + symmetry. apply Z.leb_gt. lia.
    + destruct (Z.eqb_spec (2 * r) den); [lia|reflexivity].
    + symmetry. apply Z.leb_le. lia.
    + destruct (Z.eqb_spec (2 * r) den); [lia|reflexivity].
Qed.

Lemma rec_for_shr_1 a b mrs :
  0 <= a -> 0 < b -> rec_for a b mrs -> rec_for a (2 * b) (shr_1 mrs).
Proof.
  intros Ha Hb (Hm & Hr & Hs).
  assert (Hq : 0 <= a / b) by (apply Z.div_pos; lia).
  pose proof (Z.mod_pos_bound a b Hb) as Br.
  assert (Ediv : a / (2 * b) = a / b / 2).
  { rewrite Z.div_div by lia. f_equal. lia. }
  assert (Emod : a mod (2 * b) = a mod b + b * ((a / b) mod 2)).
  { rewrite (Z.mul_comm 2 b). apply Z.rem_mul_r; lia. }
  pose proof (Z.mod_pos_bound (a / b) 2 ltac:(lia)) as B2.
  assert (Eodd : Z.odd (a / b) = ((a / b) mod 2 =? 1)).
  { rewrite Zmod_odd. destruct (Z.odd (a / b)); reflexivity. }
  unfold rec_for. rewrite shr_1_m, shr_1_r, shr_1_s by (rewrite Hm; exact Hq).
  rewrite Hm, Hr, Hs, Ediv, Emod, Eodd.
  set (r := a mod b) in *. set (t := (a / b) mod 2) in *.
  clearbody r t. clear Hm Hr Hs Ediv Emod Eodd.
  assert (Ht : t = 0 \/ t = 1) by lia.
  destruct Ht as [-> | ->]; rewrite ?Z.mul_0_r, ?Z.mul_1_r, ?Z.add_0_r.
  - repeat split.
    + destruct (Z.leb_spec (2 * b) (2 * r)); [lia|reflexivity].
    + destruct (Z.leb_spec b (2 * r)); destruct (Z.eqb_spec r 0);
        destruct (Z.eqb_spec (2 * r) b);
        destruct (Z.eqb_spec (2 * r) (2 * b)); try reflexivity; lia.
  - repeat split.
    + destruct (Z.leb_spec (2 * b) (2 * (r + b))); [reflexivity|lia].
    + destruct (Z.leb_spec b (2 * r)); destruct (Z.eqb_spec r 0);
        destruct (Z.eqb_spec (2 * r) b);
        destruct (Z.eqb_spec (r + b) 0);
        destruct (Z.eqb_spec (2 * (r + b)) (2 * b)); try reflexivity; lia.
Qed.

Lemma rec_for_shr_n k a b mrs :
  0 <= a -> 0 < b -> rec_for a b mrs ->
  rec_for a (b * 2 ^ Z.of_nat k) (shr_n k mrs).
Proof.
  intros Ha Hb H. induction k as [|k IH].
  - cbn [shr_n Z.of_nat]. now rewrite Z.pow_0_r, Z.mul_1_r.
  - cbn [shr_n]. rewrite Nat2Z.inj_succ, Z.pow_succ_r by lia.
    replace (b * (2 * 2 ^ Z.of_nat k)) with (2 * (b * 2 ^ Z.of_nat k)) by ring.
    apply rec_for_shr_1; [exact Ha| |exact IH].
    apply Z.mul_pos_pos; [exact Hb|]. apply Z.pow_pos_nonneg; lia.
Qed.

Lemma rec_for_round a b mrs :
  0 < b -> rec_for a b mrs ->
  round_nearest_even (shr_m mrs) (loc_of_shr_record mrs) = round_div a b.
Proof.
  intros Hb (Hm & Hr & Hs). destruct mrs as [m r s].
  cbn [shr_m shr_r shr_s] in *. subst m.
  pose proof (Z.mod_pos_bound a b Hb) as Br.
  unfold round_div, loc_of_shr_record, round_nearest_even.
  set (x := a mod b) in *.
  destruct (Z.compare_spec (2 * x) b) as [H|H|H];
    destruct (Z.leb_spec b (2 * x)); try lia;
    destruct (Z.eqb_spec x 0); try lia;
    destruct (Z.eqb_spec (2 * x) b); try lia;
    cbn [negb orb] in Hs; subst r s; reflexivity.
Qed.

Lemma shr_nonneg mrs e n :
  0 <= n -> shr mrs e n = (shr_n (Z.to_nat n) mrs, e + n).
Proof.
  intro H. destruct (Z.eq_dec n 0) as [->|N].
  - cbn [shr Z.to_nat shr_n]. now rewrite Z.add_0_r.
  - apply shr_pos. lia.
Qed.

(** *** [Stod.nearest] is the rounding of the fraction *)

Lemma pow2_pos k : 0 <= k -> 0 < 2 ^ k.
Proof. intro H. apply Z.pow_pos_nonneg; lia. Qed.

Lemma shr_nonpos mrs e n : n <= 0 -> shr mrs e n = (mrs, e).
Proof. destruct n as [|p|p]; [reflexivity|lia|reflexivity]. Qed.

Lemma round_tail neg M e0 :
  0 <= M <= 2 ^ 53 -> -1074 <= e0 ->
  (let '(mrs, e) := shr_fexp 53 1024 M e0 loc_Exact in
   match shr_m mrs with
   | Z0 => S754_zero neg
   | Zpos p => if e <=? 1024 - 53 then S754_finite neg p e else S754_infinity neg
   | Zneg _ => S754_nan
   end) = finish neg M e0.
Proof.
  intros HM He. unfold finish, shr_fexp.
  destruct (Z.eqb_spec M 0) as [->|N0].
  - cbn [Zdigits2]. rewrite shr_nonpos by (unfold fexp, emin; lia). reflexivity.
  - destruct (Z.eqb_spec M (2 ^ 53)) as [->|N53].
    + change (Zdigits2 (2 ^ 53)) with 54.
      replace (fexp 53 1024 (54 + e0) - e0) with 1 by (unfold fexp, emin; lia).
      cbn [shr shr_record_of_loc iter_pos].
      change (shr_m (shr_1 {| shr_m := 2 ^ 53; shr_r := false; shr_s := false |}))
        with (2 ^ 52).
      change (2 ^ 52) with (Zpos (Z.to_pos (2 ^ 52))) at 1. cbv iota.
      change (1024 - 53) with 971. reflexivity.
    + assert (Hd : Zdigits2 M <= 53) by (apply Zdigits2_le; lia).
      rewrite shr_nonpos by (unfold fexp, emin; lia).
      cbn [shr_record_of_loc shr_m].
      destruct M as [|m|m]; try lia.
      change (1024 - 53) with 971. reflexivity.
Qed.

Lemma nearest_round neg num den :
  0 < num -> 0 < den ->
  exists s n,
    0 <= s /\ 0 <= n /\
    canon (num * 2 ^ s) (den * 2 ^ n) (n - s) /\
    Stod.nearest neg num den =
      finish neg (round_div (num * 2 ^ s) (den * 2 ^ n)) (n - s).
Proof.
  intros Hn Hd. unfold Stod.nearest, Stod.prec, Stod.emax.
  destruct (Z.eqb_spec num 0) as [|_]; [lia|].
  pose proof (Zdigits2_bounds num Hn) as [Nl Nu].
  pose proof (Zdigits2_bounds den Hd) as [Dl Du].
  pose proof (Zdigits2_pos num Hn) as Np. pose proof (Zdigits2_pos den Hd) as Dp.
  set (d1 := Zdigits2 num) in *. set (d2 := Zdigits2 den) in *.
  set (e' := Z.min (fexp 53 1024 (d1 - d2)) 0).
  set (s := - e').
  assert (He' : -1074 <= e' <= 0) by (unfold e', fexp, emin; lia).
  assert (Hs : 0 <= s) by (unfold s; lia).
  set (A := num * 2 ^ s).
  assert (Ecore : SFdiv_core_binary 53 1024 num 0 den 0 =
            (A / den, e', new_location den (A mod den))).
  { unfold SFdiv_core_binary. cbv zeta. fold d1 d2.
    replace (d1 + 0 - (d2 + 0)) with (d1 - d2) by lia.
    replace (0 - 0) with 0 by lia. fold e'.
    replace (0 - e') with s by (unfold s; lia).
    assert (Em : match s with
                 | Zpos _ => Z.shiftl num s | Z0 => num | Zneg _ => 0
                 end = A).
    { unfold A. destruct s as [|p|p] eqn:Es; [rewrite Z.pow_0_r; lia| |lia].
      apply Z.shiftl_mul_pow2. lia. }
    rewrite Em. unfold Z.div, Z.modulo.
    destruct (Z.div_eucl A den) as [q r]. reflexivity. }
  rewrite Ecore.
  assert (P2s : 0 < 2 ^ s) by (apply pow2_pos; exact Hs).
  assert (HA : 0 < A) by (unfold A; nia).
  pose proof (Z.div_mod A den ltac:(lia)) as EA.
  pose proof (Z.mod_pos_bound A den Hd) as BA.
  set (q := A / den) in *.
  assert (Hq : 0 <= q) by (apply Z.div_pos; lia).
  (* away from the least exponent the quotient has at least 53 bits *)
  assert (F1 : -1074 < e' -> 2 ^ 52 <= q).
  { intro H. apply Z.div_le_lower_bound; [exact Hd|].
    assert (Hx : 52 + d2 <= d1 - 1 + s) by (unfold s, e', fexp, emin in *; lia).
    assert (Hp : 2 ^ (52 + d2) <= 2 ^ (d1 - 1 + s)) by (apply Z.pow_le_mono_r; lia).
    rewrite !Z.pow_add_r in Hp by lia.
    assert (2 ^ (d1 - 1) * 2 ^ s <= num * 2 ^ s)
      by (apply Z.mul_le_mono_nonneg_r; lia).
    assert (den * 2 ^ 52 <= 2 ^ d2 * 2 ^ 52)
      by (apply Z.mul_le_mono_nonneg_r; lia).
    unfold A. lia. }
  set (k := Zdigits2 q).
  set (n := fexp 53 1024 (k + e') - e').
  assert (Hk : 0 <= k) by (destruct q; cbn; lia).
  assert (Hk53 : -1074 < e' -> 53 <= k).
  { intro H. specialize (F1 H).
    assert (52 < k) by (apply Zdigits2_ge; lia). lia. }
  assert (Hn0 : 0 <= n) by (unfold n, fexp, emin; lia).
  set (B := den * 2 ^ n).
  assert (P2n : 0 < 2 ^ n) by (apply pow2_pos; exact Hn0).
  assert (HB : 0 < B) by (unfold B; nia).
  assert (Hcanon : canon A B (n - s)).
  { unfold canon. destruct (Z.eq_dec q 0) as [E0|N0].
    - left. assert (e' = -1074) by (destruct (Z.eq_dec e' (-1074)); [assumption|];
                                   specialize (F1 ltac:(lia)); lia).
      assert (En : n = 0) by (unfold n, k, fexp, emin; rewrite E0; cbn; lia).
      split; [unfold s; lia|]. unfold B. rewrite En, Z.pow_0_r. nia.
    - assert (Hqpos : 0 < q) by lia.
      pose proof (Zdigits2_bounds q Hqpos) as [Ql Qu]. fold k in Ql, Qu.
      assert (Hk1 : 1 <= k) by (pose proof (Zdigits2_pos q Hqpos); unfold k; lia).
      assert (HAu : A < 2 ^ k * den) by nia.
      destruct (Z.le_gt_cases (k + e' - 53) (-1074)) as [Hsub|Hnorm].
      + left. assert (En : n = -1074 - e') by (unfold n, fexp, emin; lia).
        split; [unfold s; lia|].
        assert (2 ^ k <= 2 ^ (53 + n)) by (apply Z.pow_le_mono_r; lia).
        rewrite Z.pow_add_r in * by lia. unfold B. nia.
      + right. assert (En : n = k - 53) by (unfold n, fexp, emin; lia).
        split; [unfold s; lia|].
        assert (E1 : 2 ^ (k - 1) = 2 ^ 52 * 2 ^ n).
        { rewrite <- Z.pow_add_r by lia. f_equal. lia. }
        assert (E2 : 2 ^ k = 2 ^ 53 * 2 ^ n).
        { rewrite <- Z.pow_add_r by lia. f_equal. lia. }
        unfold B. split; nia. }
  exists s, n. split; [exact Hs|]. split; [exact Hn0|]. split; [exact Hcanon|].
  fold A B.
  unfold binary_round_aux, shr_fexp at 1. fold k n.
  rewrite shr_nonneg by exact Hn0.
  pose proof (rec_for_init A den ltac:(lia) Hd) as R0. fold q in R0.
  apply (rec_for_shr_n (Z.to_nat n)) in R0; [|lia|exact Hd].
  rewrite Z2Nat.id in R0 by exact Hn0. fold B in R0.
  set (mrs1 := shr_n (Z.to_nat n) _) in *.
  rewrite (rec_for_round A B mrs1 HB R0).
  replace (e' + n) with (n - s) by (unfold s; lia).
  apply round_tail.
  - pose proof (round_div_bounds A B HB) as [Rl Ru].
    assert (0 <= A / B) by (apply Z.div_pos; lia).
    assert (A / B < 2 ^ 53).
    { apply Z.div_lt_upper_bound; [exact HB|].
      destruct Hcanon as [[_ Hc]|[_ [_ Hc]]]; lia. }
    lia.
  - destruct Hcanon as [[H _]|[H _]]; lia.
Qed.

Lemma scaled_cross num den num' den' s n s' n' k :
  0 <= s -> 0 <= n -> 0 <= s' -> 0 <= n' -> 0 <= k ->
  num * den' = num' * den -> s + n' = s' + n + k ->
  (num * 2 ^ s) * (den' * 2 ^ n') = (num' * 2 ^ s') * (den * 2 ^ n) * 2 ^ k.
Proof.
  intros Hs Hn Hs' Hn' Hk E Ek.
  assert (P : 2 ^ s * 2 ^ n' = 2 ^ s' * 2 ^ n * 2 ^ k).
  { rewrite <- !Z.pow_add_r by lia. f_equal. lia. }
  replace (num * 2 ^ s * (den' * 2 ^ n')) with (num * den' * (2 ^ s * 2 ^ n')) by ring.
  rewrite E, P. ring.
Qed.

Lemma canon_order A B e A' B' e' k :
  0 < B -> 0 < B' -> 1 <= k -> A * B' = A' * B * 2 ^ k ->
  canon A B e -> canon A' B' e' -> e' <= e.
Proof.
  intros HB HB' Hk E C C'.
  destruct (Z.le_gt_cases e' e) as [|Hlt]; [assumption|exfalso].
  assert (H2 : 2 <= 2 ^ k).
  { change 2 with (2 ^ 1) at 1. apply Z.pow_le_mono_r; lia. }
  assert (HA : A < 2 ^ 53 * B) by (destruct C as [[_ H]|[_ [_ H]]]; exact H).
  assert (HA' : 2 ^ 52 * B' <= A').
  { destruct C as [[He _]|[He _]]; destruct C' as [[He' _]|[_ [H _]]];
      try lia; exact H. }
  assert (L1 : A * B' < 2 ^ 53 * B * B') by (apply Z.mul_lt_mono_pos_r; lia).
  assert (L2 : 2 ^ 52 * B' * B <= A' * B) by (apply Z.mul_le_mono_nonneg_r; lia).
  assert (L3 : A' * B * 2 <= A' * B * 2 ^ k).
  { apply Z.mul_le_mono_nonneg_l; [|exact H2].
    apply Z.mul_nonneg_nonneg; [|lia].
    assert (0 < 2 ^ 52 * B') by (apply Z.mul_pos_pos; lia). lia. }
  lia.
Qed.

(** [Stod.nearest] depends on the value of the fraction only. *)
Lemma nearest_ext neg num den num' den' :
  0 < num -> 0 < den -> 0 < num' -> 0 < den' ->
  num * den' = num' * den ->
  Stod.nearest neg num den = Stod.nearest neg num' den'.
Proof.
  intros Hn Hd Hn' Hd' E.
  destruct (nearest_round neg num den Hn Hd) as (s & n & Hs & Hn0 & C & ->).
  destruct (nearest_round neg num' den' Hn' Hd') as (s' & n' & Hs' & Hn0' & C' & ->).
  pose proof (pow2_pos s Hs). pose proof (pow2_pos n Hn0).
  pose proof (pow2_pos s' Hs'). pose proof (pow2_pos n' Hn0').
  assert (HB : 0 < den * 2 ^ n) by (apply Z.mul_pos_pos; lia).
  assert (HB' : 0 < den' * 2 ^ n') by (apply Z.mul_pos_pos; lia).
  assert (He : n - s = n' - s').
  { destruct (Z.lt_trichotomy (n - s) (n' - s')) as [Hlt|[Heq|Hgt]];
      [exfalso|exact Heq|exfalso].
    - pose proof (scaled_cross num den num' den' s n s' n' (n' - s' - (n - s))
                    Hs Hn0 Hs' Hn0' ltac:(lia) E ltac:(lia)) as X.
      pose proof (canon_order _ _ (n - s) _ _ (n' - s') (n' - s' - (n - s))
                    HB HB' ltac:(lia) X C C'). lia.
    - pose proof (scaled_cross num' den' num den s' n' s n (n - s - (n' - s'))
                    Hs' Hn0' Hs Hn0 ltac:(lia) (eq_sym E) ltac:(lia)) as X.
      pose proof (canon_order _ _ (n' - s') _ _ (n - s) (n - s - (n' - s'))
                    HB' HB ltac:(lia) X C' C). lia. }
  rewrite He. f_equal.
  apply round_div_ext; [exact HB|exact HB'|].
  pose proof (scaled_cross num den num' den' s n s' n' 0
                Hs Hn0 Hs' Hn0' ltac:(lia) E ltac:(lia)) as X.
  rewrite Z.pow_0_r, Z.mul_1_r in X. exact X.
Qed.

Lemma finish_finite neg M e0 sg m e :
  0 <= M -> finish neg M e0 = S754_finite sg m e ->
  sg = neg /\ e0 <= e <= e0 + 1 /\ e <= 971 /\ Zpos m * 2 ^ (e - e0) = M.
Proof.
  intros HM. unfold finish.
  destruct (Z.eqb_spec M 0); [discriminate|].
  destruct (Z.eqb_spec M (2 ^ 53)) as [->|N].
  - destruct (Z.leb_spec (e0 + 1) 971); [|discriminate].
    intro E. inversion E; subst. repeat split; try lia.
    replace (e0 + 1 - e0) with 1 by lia. reflexivity.
  - destruct (Z.leb_spec e0 971); [|discriminate].
    intro E. inversion E; subst. repeat split; try lia.
    rewrite Z.sub_diag, Z.pow_0_r, Z2Pos.id; lia.
Qed.

Ltac split_pair E :=
  match type of E with
  | (?a, ?b) = (?x, ?y) =>
      assert (x = a) by congruence; assert (y = b) by congruence;
      clear E; subst x y
  end.

Lemma frac_of_pos m e nd dd : frac_of m e = (nd, dd) -> 0 < nd /\ 0 < dd.
Proof.
  unfold frac_of. destruct (Z.leb_spec 0 e); intro E; split_pair E.
  - split; [|lia]. apply Z.mul_pos_pos; [lia|]. apply pow2_pos. lia.
  - split; [lia|]. apply pow2_pos. lia.
Qed.

Lemma frac_of_scaled m e nd dd M s n :
  frac_of m e = (nd, dd) -> 0 <= s -> 0 <= n -> n - s <= e ->
  Zpos m * 2 ^ (e - (n - s)) = M ->
  nd * 2 ^ s = M * 2 ^ n * dd.
Proof.
  unfold frac_of. intros E Hs Hn He <-.
  destruct (Z.leb_spec 0 e); split_pair E.
  - replace (Zpos m * 2 ^ e * 2 ^ s) with (Zpos m * (2 ^ e * 2 ^ s)) by ring.
    replace (Zpos m * 2 ^ (e - (n - s)) * 2 ^ n * 1)
      with (Zpos m * (2 ^ (e - (n - s)) * 2 ^ n)) by ring.
    rewrite <- !Z.pow_add_r by lia. do 2 f_equal. lia.
  - replace (Zpos m * 2 ^ (e - (n - s)) * 2 ^ n * 2 ^ (- e))
      with (Zpos m * (2 ^ (e - (n - s)) * 2 ^ n * 2 ^ (- e))) by ring.
    rewrite <- !Z.pow_add_r by lia. do 2 f_equal. lia.
Qed.

Lemma exact_frac sg m e num den nd dd :
  frac_of m e = (nd, dd) ->
  Stod.exact (S754_finite sg m e) num den = true -> nd * den = num * dd.
Proof.
  unfold frac_of, Stod.exact.
  destruct (Z.leb_spec 0 e); intro E; split_pair E; intro Hx;
    apply Z.eqb_eq in Hx; lia.
Qed.

(** The relative error of a result that [strtod] does not flag is at most
    [2^-53]. *)
Lemma nearest_error neg num den sg m e nd dd :
  0 < num -> 0 < den ->
  Stod.nearest neg num den = S754_finite sg m e ->
  Stod.erange (S754_finite sg m e) num den = false ->
  frac_of m e = (nd, dd) ->
  sg = neg /\ -1075 <= e <= 971 /\ Zpos m <= 2 ^ 53 /\
  2 ^ 53 * (nd * den) <= (2 ^ 53 + 1) * (num * dd) /\
  (2 ^ 53 - 1) * (num * dd) <= 2 ^ 53 * (nd * den).
Proof.
  intros Hn Hd E Hr Ef.
  destruct (frac_of_pos _ _ _ _ Ef) as [Pnd Pdd].
  destruct (nearest_round neg num den Hn Hd) as (s & n & Hs & Hn0 & C & E').
  rewrite E in E'. symmetry in E'.
  pose proof (pow2_pos s Hs) as P2s. pose proof (pow2_pos n Hn0) as P2n.
  set (A := num * 2 ^ s) in *. set (B := den * 2 ^ n) in *.
  assert (HA : 0 < A) by (unfold A; nia).
  assert (HB : 0 < B) by (unfold B; nia).
  set (M := round_div A B) in *.
  assert (HM0 : 0 <= M).
  { pose proof (round_div_bounds A B HB) as [Rl _].
    assert (0 <= A / B) by (apply Z.div_pos; lia). unfold M. lia. }
  assert (HM53 : M <= 2 ^ 53).
  { pose proof (round_div_bounds A B HB) as [_ Ru].
    assert (A / B < 2 ^ 53).
    { apply Z.div_lt_upper_bound; [exact HB|].
      destruct C as [[_ H]|[_ [_ H]]]; lia. }
    unfold M. lia. }
  destruct (finish_finite _ _ _ _ _ _ HM0 E') as (-> & He & He971 & Em).
  assert (Ee0 : -1074 <= n - s) by (destruct C as [[H _]|[H _]]; lia).
  assert (Hm : Zpos m <= 2 ^ 53).
  { assert (1 <= 2 ^ (e - (n - s))) by (pose proof (pow2_pos (e - (n - s))); lia).
    nia. }
  split; [reflexivity|]. split; [lia|]. split; [exact Hm|].
  pose proof (frac_of_scaled m e nd dd M s n Ef Hs Hn0 ltac:(lia) Em) as Ev.
  (* the two sides, multiplied by [2^s] *)
  assert (X1 : nd * den * 2 ^ s = M * B * dd) by (unfold B; nia).
  assert (X2 : num * dd * 2 ^ s = A * dd) by (unfold A; ring).
  assert (Raw : 2 ^ 53 * (M * B) <= (2 ^ 53 + 1) * A /\
                (2 ^ 53 - 1) * A <= 2 ^ 53 * (M * B)).
  { unfold Stod.erange in Hr. apply andb_false_iff in Hr as [Ht|Hx].
    - (* not tiny *)
      unfold Stod.tiny in Ht. apply Z.ltb_ge in Ht.
      destruct (round_div_spec A B HB) as [[Sl Su] _]. fold M in Sl, Su.
      destruct (Z.le_gt_cases (2 ^ 52 * B) A) as [Hnorm|Hsub].
      + lia.
      + destruct C as [[Ce _]|[_ [Cl _]]]; [|lia].
        assert (Es : s = n + 1074) by lia.
        assert (H4 : (2 ^ 54 - 1) * B <= 4 * A).
        { unfold A, B. rewrite Es, Z.pow_add_r by lia.
          replace (4 * (num * (2 ^ n * 2 ^ 1074))) with ((num * 2 ^ 1076) * 2 ^ n)
            by (change (2 ^ 1076) with (4 * 2 ^ 1074); ring).
          replace ((2 ^ 54 - 1) * (den * 2 ^ n)) with ((2 ^ 54 - 1) * den * 2 ^ n) by ring.
          apply Z.mul_le_mono_nonneg_r; lia. }
        assert (EM : M = 2 ^ 52).
        { unfold M. apply round_div_charac; [exact HB|lia|].
          intros [H|H]; lia. }
        rewrite EM. lia.
    - apply negb_false_iff in Hx.
      pose proof (exact_frac _ _ _ _ _ _ _ Ef Hx) as Ex.
      assert (M * B * dd = A * dd) by (rewrite <- X1, <- X2, Ex; reflexivity).
      assert (M * B = A) by nia. lia. }
  destruct Raw as [R1 R2].
  split.
  - apply Z.mul_le_mono_pos_r with (2 ^ s); [exact P2s|].
    replace (2 ^ 53 * (nd * den) * 2 ^ s) with (2 ^ 53 * (nd * den * 2 ^ s)) by ring.
    replace ((2 ^ 53 + 1) * (num * dd) * 2 ^ s)
      with ((2 ^ 53 + 1) * (num * dd * 2 ^ s)) by ring.
    rewrite X1, X2.
    replace (2 ^ 53 * (M * B * dd)) with (2 ^ 53 * (M * B) * dd) by ring.
    replace ((2 ^ 53 + 1) * (A * dd)) with ((2 ^ 53 + 1) * A * dd) by ring.
    apply Z.mul_le_mono_nonneg_r; lia.
  - apply Z.mul_le_mono_pos_r with (2 ^ s); [exact P2s|].
    replace (2 ^ 53 * (nd * den) * 2 ^ s) with (2 ^ 53 * (nd * den * 2 ^ s)) by ring.
    replace ((2 ^ 53 - 1) * (num * dd) * 2 ^ s)
      with ((2 ^ 53 - 1) * (num * dd * 2 ^ s)) by ring.
    rewrite X1, X2.
    replace (2 ^ 53 * (M * B * dd)) with (2 ^ 53 * (M * B) * dd) by ring.
    replace ((2 ^ 53 - 1) * (A * dd)) with ((2 ^ 53 - 1) * A * dd) by ring.
    apply Z.mul_le_mono_nonneg_r; lia.
Qed.

(** *** The 15 digits of a fraction *)

Lemma pow10_pos k : 0 <= k -> 0 < 10 ^ k.
Proof. intro H. apply Z.pow_pos_nonneg; lia. Qed.

Lemma scale10_value f : forall num den X n d X',
  scale10 f num den X = (n, d, X') ->
  exists a b, 0 <= a /\ 0 <= b /\
    n = num * 10 ^ a /\ d = den * 10 ^ b /\ X' = X + b - a /\
    Z.abs (X' - X) <= Z.of_nat f.
Proof.
  induction f as [|f IH]; intros num den X n d X' E.
  - cbn [scale10] in E.
    assert (n = num) by congruence. assert (d = den) by congruence.
    assert (X' = X) by congruence. subst.
    exists 0, 0. rewrite Z.pow_0_r. repeat split; lia.
  - rewrite scale10_S in E.
    destruct (num <? den).
    + destruct (IH _ _ _ _ _ _ E) as (a & b & Ha & Hb & -> & -> & -> & Hf).
      exists (a + 1), b. rewrite Z.pow_add_r by lia.
      repeat split; try lia.
    + destruct (10 * den <=? num).
      * destruct (IH _ _ _ _ _ _ E) as (a & b & Ha & Hb & -> & -> & -> & Hf).
        exists a, (b + 1). rewrite Z.pow_add_r by lia.
        repeat split; try lia.
      * assert (n = num) by congruence. assert (d = den) by congruence.
        assert (X' = X) by congruence. subst.
        exists 0, 0. rewrite Z.pow_0_r. repeat split; lia.
Qed.

Lemma pow10_cmp x y : 0 <= x -> 0 <= y -> x <= y -> 10 ^ x <= 10 ^ y.
Proof. intros. apply Z.pow_le_mono_r; lia. Qed.

Lemma sig15_charac nd dd D k :
  0 < nd -> 0 < dd -> 10 ^ 14 <= D < 10 ^ 15 ->
  (2 * D - 1) * (10 ^ Z.max k 0 * dd) < 2 * (10 ^ Z.max (- k) 0 * nd) ->
  2 * (10 ^ Z.max (- k) 0 * nd) < (2 * D + 1) * (10 ^ Z.max k 0 * dd) ->
  (20 * 10 ^ 14 - 1) * (10 ^ Z.max k 0 * dd) <= 20 * (10 ^ Z.max (- k) 0 * nd) ->
  sig15 nd dd = (D, 14 + k).
Proof.
  intros Hnd Hdd HD H1 H2 H3.
  set (p := Z.max k 0) in *. set (q := Z.max (- k) 0) in *.
  assert (Hp : 0 <= p) by (unfold p; lia). assert (Hq : 0 <= q) by (unfold q; lia).
  assert (Hk : k = p - q) by (unfold p, q; lia).
  rewrite sig15_eq.
  destruct (scale10 (scale_fuel nd dd) nd dd 0) as [[n' d'] X0] eqn:Es.
  pose proof (scale10_normalizes _ _ _ _ _ Hnd Hdd Es) as (Hd0 & Nl & Nu).
  destruct (scale10_value _ _ _ _ _ _ _ Es) as (a & b & Ha & Hb & -> & -> & -> & _).
  pose proof (pow10_pos a Ha) as Pa. pose proof (pow10_pos b Hb) as Pb.
  pose proof (pow10_pos p Hp) as Pp. pose proof (pow10_pos q Hq) as Pq.
  set (U := 10 ^ a) in *. set (V := 10 ^ b) in *.
  set (P := 10 ^ p) in *. set (Q := 10 ^ q) in *.
  set (al := nd * Q * U). set (be := dd * V * Q). set (ga := dd * P * U).
  assert (Pga : 0 < ga) by (unfold ga; apply Z.mul_pos_pos; [apply Z.mul_pos_pos|]; lia).
  assert (G1 : (2 * D - 1) * ga < 2 * al).
  { unfold ga, al.
    replace ((2 * D - 1) * (dd * P * U)) with ((2 * D - 1) * (P * dd) * U) by ring.
    replace (2 * (nd * Q * U)) with (2 * (Q * nd) * U) by ring.
    apply Z.mul_lt_mono_pos_r; assumption. }
  assert (G2 : 2 * al < (2 * D + 1) * ga).
  { unfold ga, al.
    replace ((2 * D + 1) * (dd * P * U)) with ((2 * D + 1) * (P * dd) * U) by ring.
    replace (2 * (nd * Q * U)) with (2 * (Q * nd) * U) by ring.
    apply Z.mul_lt_mono_pos_r; assumption. }
  assert (G3 : (20 * 10 ^ 14 - 1) * ga <= 20 * al).
  { unfold ga, al.
    replace ((20 * 10 ^ 14 - 1) * (dd * P * U))
      with ((20 * 10 ^ 14 - 1) * (P * dd) * U) by ring.
    replace (20 * (nd * Q * U)) with (20 * (Q * nd) * U) by ring.
    apply Z.mul_le_mono_nonneg_r; [lia|assumption]. }
  assert (GN : be <= al /\ al < 10 * be).
  { unfold be, al. split.
    - replace (dd * V * Q) with (dd * V * Q) by ring.
      replace (nd * Q * U) with (nd * U * Q) by ring.
      apply Z.mul_le_mono_nonneg_r; lia.
    - replace (10 * (dd * V * Q)) with (10 * (dd * V) * Q) by ring.
      replace (nd * Q * U) with (nd * U * Q) by ring.
      apply Z.mul_lt_mono_pos_r; lia. }
  destruct GN as [GNl GNu].
  assert (GD : 10 ^ 14 * ga <= D * ga /\ D * ga <= (10 ^ 15 - 1) * ga).
  { split; apply Z.mul_le_mono_nonneg_r; lia. }
  destruct GD as [GDl GDu].
  (* the two products of powers of ten *)
  assert (Rel : forall c, 0 <= c ->
            (b + q = c + p + a -> be = 10 ^ c * ga) /\
            (c + p + a <= b + q -> 10 ^ c * ga <= be) /\
            (b + q <= c + p + a -> be <= 10 ^ c * ga)).
  { intros c Hc.
    assert (Ebe : be = dd * 10 ^ (b + q))
      by (unfold be, V, Q; rewrite Z.pow_add_r by lia; ring).
    assert (Ega : 10 ^ c * ga = dd * 10 ^ (c + p + a))
      by (unfold ga, P, U; rewrite !Z.pow_add_r by lia; ring).
    rewrite Ebe, Ega. repeat split; intro Hx.
    - now rewrite Hx.
    - apply Z.mul_le_mono_nonneg_l; [lia|]. apply pow10_cmp; lia.
    - apply Z.mul_le_mono_nonneg_l; [lia|]. apply pow10_cmp; lia. }
  assert (Hup : b + q <= 14 + p + a).
  { destruct (Z.le_gt_cases (b + q) (14 + p + a)) as [|Hgt]; [assumption|exfalso].
    destruct (Rel 15 ltac:(lia)) as (_ & R & _). specialize (R ltac:(lia)). lia. }
  assert (Hlo : 13 + p + a <= b + q).
  { destruct (Z.le_gt_cases (13 + p + a) (b + q)) as [|Hlt]; [assumption|exfalso].
    destruct (Rel 12 ltac:(lia)) as (_ & _ & R). specialize (R ltac:(lia)). lia. }
  unfold sig15_of.
  destruct (Z.eq_dec (b + q) (14 + p + a)) as [E14|N14].
  - destruct (Rel 14 ltac:(lia)) as (R & _ & _). specialize (R E14).
    assert (ED : round_div (nd * U * 10 ^ 14) (dd * V) = D).
    { apply round_div_charac; [exact Hd0| |].
      - assert (X : - (dd * V * Q) < 2 * (D * (dd * V) - nd * U * 10 ^ 14) * Q
                    /\ 2 * (D * (dd * V) - nd * U * 10 ^ 14) * Q < dd * V * Q).
        { replace (2 * (D * (dd * V) - nd * U * 10 ^ 14) * Q)
            with (2 * (D * be - 10 ^ 14 * al)) by (unfold be, al; ring).
          fold be. rewrite R.
          replace (D * (10 ^ 14 * ga)) with (10 ^ 14 * (D * ga)) by ring. lia. }
        destruct X as [Xl Xu].
        replace (- (dd * V * Q)) with ((- (dd * V)) * Q) in Xl by ring.
        apply Z.mul_lt_mono_pos_r in Xl; [|exact Pq].
        apply Z.mul_lt_mono_pos_r in Xu; [|exact Pq]. lia.
      - intro Ht. exfalso.
        assert (X : 2 * (D * (dd * V) - nd * U * 10 ^ 14) * Q = dd * V * Q \/
                    2 * (D * (dd * V) - nd * U * 10 ^ 14) * Q = - (dd * V) * Q)
          by (destruct Ht as [-> | ->]; [left|right]; reflexivity).
        replace (2 * (D * (dd * V) - nd * U * 10 ^ 14) * Q)
          with (2 * (D * be - 10 ^ 14 * al)) in X by (unfold be, al; ring).
        replace (- (dd * V) * Q) with (- be) in X by (unfold be; ring).
        fold be in X. rewrite R in X.
        replace (D * (10 ^ 14 * ga)) with (10 ^ 14 * (D * ga)) in X by ring. lia. }
    cbv zeta. rewrite ED.
    destruct (Z.eqb_spec D (10 ^ 15)); [lia|]. f_equal. lia.
  - assert (E13 : b + q = 13 + p + a) by lia.
    destruct (Rel 13 ltac:(lia)) as (R & _ & _). specialize (R E13).
    assert (HD14 : D = 10 ^ 14).
    { assert (X : (2 * D - 1) * ga < (2 * 10 ^ 14) * ga) by lia.
      apply Z.mul_lt_mono_pos_r in X; [lia|exact Pga]. }
    subst D.
    assert (ED : round_div (nd * U * 10 ^ 14) (dd * V) = 10 ^ 15).
    { apply round_div_charac; [exact Hd0| |intros _; reflexivity].
      assert (X : (- (dd * V)) * Q <= 2 * (10 ^ 15 * (dd * V) - nd * U * 10 ^ 14) * Q
                  /\ 2 * (10 ^ 15 * (dd * V) - nd * U * 10 ^ 14) * Q <= dd * V * Q).
      { replace (2 * (10 ^ 15 * (dd * V) - nd * U * 10 ^ 14) * Q)
          with (2 * (10 ^ 15 * be - 10 ^ 14 * al)) by (unfold be, al; ring).
        replace (- (dd * V) * Q) with (- be) by (unfold be; ring).
        fold be. rewrite R. lia. }
      destruct X as [Xl Xu].
      apply Z.mul_le_mono_pos_r in Xl; [|exact Pq].
      apply Z.mul_le_mono_pos_r in Xu; [|exact Pq]. lia. }
    cbv zeta. rewrite ED.
    destruct (Z.eqb_spec (10 ^ 15) (10 ^ 15)); [|lia]. f_equal. lia.
Qed.

(** *** The value of the text of a Number *)

Lemma value_app s1 : forall a s2,
  Stod.value a (s1 ++ s2) = Stod.value (Stod.value a s1) s2.
Proof.
  induction s1 as [|c r IH]; intros a s2; [reflexivity|].
  cbn [String.append Stod.value]. apply IH.
Qed.

Lemma value_zeros j : forall a, Stod.value a (zeros j) = a * 10 ^ Z.of_nat j.
Proof.
  induction j as [|j IH]; intro a.
  - cbn [zeros Stod.value Z.of_nat]. rewrite Z.pow_0_r. lia.
  - cbn [zeros Stod.value]. rewrite IH, pow10_succ.
    change (code "0") with 48. ring.
Qed.

Lemma strip_zeros_split s : exists j, s = strip_zeros s ++ zeros j.
Proof.
  induction s as [|c r [j IH]].
  - exists 0%nat. reflexivity.
  - cbn [strip_zeros]. destruct (strip_zeros r) as [|x r'] eqn:E.
    + cbn [String.append] in IH. destruct (Ascii.eqb_spec c "0") as [->|N].
      * exists (S j). cbn [zeros String.append]. now rewrite IH.
      * exists j. cbn [chr String.append]. now rewrite IH.
    + exists j. cbn [String.append]. f_equal. exact IH.
Qed.

Lemma fraction_of_digits rest :
  match fraction_of rest with Some ds => ds | None => "" end = strip_zeros rest.
Proof. unfold fraction_of. destruct (strip_zeros rest); reflexivity. Qed.

Lemma fraction_denotes V j D e10 num den :
  0 <= j -> V * 10 ^ j = D ->
  Stod.fraction V e10 = (num, den) -> denotes num den D (e10 - j).
Proof.
  intros Hj <- E. unfold Stod.fraction in E. unfold denotes.
  destruct (Z.leb_spec 0 e10); split_pair E.
  - destruct (Z.le_gt_cases 0 (e10 - j)).
    + rewrite (Z.max_l (e10 - j)), (Z.max_r (- (e10 - j))) by lia.
      rewrite Z.pow_0_r.
      replace (V * 10 ^ j * 10 ^ (e10 - j) * 1) with (V * (10 ^ j * 10 ^ (e10 - j))) by ring.
      rewrite <- Z.pow_add_r by lia. replace (j + (e10 - j)) with e10 by lia. ring.
    + rewrite (Z.max_r (e10 - j)), (Z.max_l (- (e10 - j))) by lia.
      rewrite Z.pow_0_r.
      replace (V * 10 ^ e10 * 10 ^ (- (e10 - j))) with (V * (10 ^ e10 * 10 ^ (- (e10 - j)))) by ring.
      rewrite <- Z.pow_add_r by lia. replace (e10 + - (e10 - j)) with j by lia. ring.
  - rewrite (Z.max_r (e10 - j)), (Z.max_l (- (e10 - j))) by lia.
    rewrite Z.pow_0_r.
    replace (V * 10 ^ j * 1 * 10 ^ (- e10)) with (V * (10 ^ j * 10 ^ (- e10))) by ring.
    rewrite <- Z.pow_add_r by lia. do 2 f_equal. lia.
Qed.

(** The value of a token whose digits, trailing zeros of the fraction
    included, are those of [D]. *)
Lemma token_denotes neg ip rest ep ex D num den :
  Stod.value 0 (ip ++ rest) = D ->
  ex = match ep with
       | Some (_, Some true, ds) => - Stod.value 0 ds
       | Some (_, _, ds) => Stod.value 0 ds
       | None => 0
       end ->
  token_fraction (Token neg ip (fraction_of rest) ep) = (num, den) ->
  denotes num den D (ex - Z.of_nat (String.length rest)).
Proof.
  intros HV Hex E. unfold token_fraction in E.
  cbn [t_int t_frac t_exp] in E. rewrite fraction_of_digits, <- Hex in E.
  destruct (strip_zeros_split rest) as [j Hj].
  set (fd := strip_zeros rest) in *.
  assert (Hl : Z.of_nat (String.length rest) = Z.of_nat (String.length fd) + Z.of_nat j).
  { rewrite Hj at 1. rewrite length_append, zeros_length. lia. }
  replace (ex - Z.of_nat (String.length rest))
    with (ex - Z.of_nat (String.length fd) - Z.of_nat j) by lia.
  apply fraction_denotes with (V := Stod.value 0 (ip ++ fd)); [lia| |exact E].
  rewrite <- HV. clearbody fd. rewrite Hj.
  rewrite <- append_assoc, (value_app (ip ++ fd)), value_zeros. reflexivity.
Qed.

Lemma exponent_digits_value X :
  Z.abs X < 10 ^ 15 -> Stod.value 0 (exponent_digits X) = Z.abs X.
Proof.
  intro H. unfold exponent_digits. rewrite value_app.
  replace (Stod.value 0 (if Z.abs X <? 10 then "0" else "")) with 0
    by (destruct (Z.abs X <? 10); reflexivity).
  apply decimal_value. lia.
Qed.

Lemma split_at s : forall n, (n <= String.length s)%nat ->
  exists a b, s = a ++ b /\ String.length a = n.
Proof.
  induction s as [|c r IH]; intros n Hn.
  - exists "", "". cbn in *. split; [reflexivity|lia].
  - destruct n as [|n].
    + exists "", (String c r). split; reflexivity.
    + cbn [String.length] in Hn. destruct (IH n ltac:(lia)) as (a & b & -> & Hl).
      exists (String c a), b. split; [reflexivity|]. cbn [String.length]. lia.
Qed.

Lemma substring_parts s n :
  (n <= String.length s)%nat ->
  exists a b, s = a ++ b /\ String.length a = n /\
    substring 0 n s = a /\ substring n (String.length s - n) s = b.
Proof.
  intro Hn. destruct (split_at s n Hn) as (a & b & -> & Hl).
  exists a, b. split; [reflexivity|]. split; [exact Hl|]. split.
  - rewrite <- Hl. apply substring_prefix.
  - rewrite length_append. replace (String.length a + String.length b - n)%nat
      with (String.length b) by lia.
    rewrite <- Hl. apply substring_suffix.
Qed.

Lemma digits_all k : forall n acc,
  all_chars isdigit acc = true -> all_chars isdigit (digits k n acc) = true.
Proof.
  induction k as [|k IH]; intros n acc Ha; [exact Ha|].
  cbn [digits]. apply IH. cbn [all_chars]. now rewrite isdigit_digit.
Qed.

Lemma int_part_of c r :
  isdigit c = true -> Ascii.eqb c "0" = false -> all_chars isdigit r = true ->
  int_part (String c r) = true.
Proof. intros Hc H0 Hr. cbn [int_part]. now rewrite Hc, Hr, H0. Qed.

(** What [g15] writes is a number token whose value is [D * 10^(X - 14)]
    for the 15 digits [D] and the exponent [X] of the fraction. *)
Lemma g15_pieces num den D X :
  0 < num -> 0 < den -> sig15 num den = (D, X) -> Z.abs X < 10 ^ 15 ->
  exists ip fp ep,
    well_formed (Token false ip fp ep) = true /\
    g15 num den = ip ++ frac_text fp ++ exp_text ep /\
    (forall neg n' d',
       token_fraction (Token neg ip fp ep) = (n', d') -> denotes n' d' D (X - 14)).
Proof.
  intros Hn Hd E HX. unfold g15. rewrite E.
  pose proof (sig15_bounds num den D X Hn Hd E) as HD.
  set (ds := digits 15 D "").
  assert (Hlen : String.length ds = 15%nat) by apply digits_length.
  assert (Hall : all_chars isdigit ds = true) by (apply digits_all; reflexivity).
  assert (Hval : Stod.value 0 ds = D).
  { unfold ds. rewrite value_digits by lia. cbn [Stod.value].
    change (Z.of_nat 15) with 15. rewrite Z.mod_small by lia. lia. }
  destruct (digits_head 14 D "" HD) as (c0 & r0 & Hds & Hc0 & Hnz).
  fold ds in Hds.
  destruct ((X <? -4) || (15 <=? X)) eqn:Hstyle.
  - (* the scientific style *)
    destruct (substring_parts ds 1 ltac:(lia)) as (a & b & Eab & La & Sa & Sb).
    rewrite Hlen in Sb. change (15 - 1)%nat with 14%nat in Sb.
    rewrite Sa, Sb.
    assert (Ea : a = String c0 "").
    { rewrite Hds in Eab. destruct a as [|x [|y a']]; cbn in La; try lia.
      cbn [String.append] in Eab. congruence. }
    assert (Lb : String.length b = 14%nat).
    { rewrite Eab, length_append in Hlen. lia. }
    assert (Hb : all_chars isdigit b = true).
    { rewrite Eab, all_chars_app in Hall. now apply andb_true_iff in Hall as [_ H]. }
    exists a, (fraction_of b), (Some (false, Some (X <? 0), exponent_digits X)).
    split; [|split].
    + unfold well_formed. cbn [t_int t_frac t_exp].
      rewrite exponent_digits_run, fraction_of_run by exact Hb.
      rewrite Ea, int_part_of by (assumption || reflexivity). reflexivity.
    + rewrite with_fraction_text, append_assoc, <- exponent_text. reflexivity.
    + intros neg n' d' Ef.
      replace (X - 14) with (X - Z.of_nat (String.length b)) by lia.
      apply (token_denotes neg a b (Some (false, Some (X <? 0), exponent_digits X)));
        [now rewrite <- Eab| |exact Ef].
      rewrite exponent_digits_value by exact HX.
      destruct (Z.ltb_spec X 0); lia.
  - apply orb_false_iff in Hstyle as [Hlo Hhi].
    apply Z.ltb_ge in Hlo. apply Z.leb_gt in Hhi.
    destruct (Z.leb_spec 0 X) as [Hpos|Hneg].
    + (* the fixed style, no leading zeros *)
      destruct (substring_parts ds (Z.to_nat (X + 1)) ltac:(lia))
        as (a & b & Eab & La & Sa & Sb).
      rewrite Hlen in Sb. rewrite Sa, Sb.
      assert (Ea : exists a', a = String c0 a').
      { rewrite Hds in Eab. destruct a as [|x a']; cbn in La; [lia|].
        cbn [String.append] in Eab. exists a'. congruence. }
      destruct Ea as [a' Ea].
      assert (Lb : Z.of_nat (String.length b) = 14 - X).
      { rewrite Eab, length_append in Hlen. lia. }
      rewrite Eab, all_chars_app in Hall. apply andb_true_iff in Hall as [Ha Hb].
      exists a, (fraction_of b), None.
      split; [|split].
      * unfold well_formed. cbn [t_int t_frac t_exp].
        rewrite fraction_of_run by exact Hb.
        rewrite Ea in Ha |- *. cbn [all_chars] in Ha.
        apply andb_true_iff in Ha as [_ Ha].
        rewrite int_part_of by assumption. reflexivity.
      * rewrite with_fraction_text. cbn [exp_text]. now rewrite append_nil_r.
      * intros neg n' d' Ef.
        replace (X - 14) with (0 - Z.of_nat (String.length b)) by lia.
        apply (token_denotes neg a b None); [now rewrite <- Eab|reflexivity|exact Ef].
    + (* the fixed style, below one *)
      exists "0", (fraction_of (zeros (Z.to_nat (- X - 1)) ++ ds)), None.
      split; [|split].
      * unfold well_formed. cbn [t_int t_frac t_exp].
        rewrite fraction_of_run; [reflexivity|].
        now rewrite all_chars_app, zeros_all, Hall.
      * rewrite with_fraction_text. cbn [exp_text]. now rewrite append_nil_r.
      * intros neg n' d' Ef.
        replace (X - 14)
          with (0 - Z.of_nat (String.length (zeros (Z.to_nat (- X - 1)) ++ ds)))
          by (rewrite length_append, zeros_length, Hlen; lia).
        apply (token_denotes neg "0" _ None); [|reflexivity|exact Ef].
        change ("0" ++ zeros (Z.to_nat (- X - 1)) ++ ds)
          with (zeros (S (Z.to_nat (- X - 1))) ++ ds).
        rewrite value_app, value_zeros, Z.mul_0_l. exact Hval.
Qed.

(** *** Fifteen digits determine the double they were rounded to *)

Lemma value_nonneg s : forall a,
  all_chars isdigit s = true -> 0 <= a -> 0 <= Stod.value a s.
Proof.
  induction s as [|c r IH]; intros a Hs Ha; [exact Ha|].
  cbn [all_chars] in Hs. apply andb_true_iff in Hs as [Hc Hr].
  cbn [Stod.value]. apply IH; [exact Hr|].
  unfold isdigit in Hc. apply andb_true_iff in Hc as [Hc _].
  apply Z.leb_le in Hc. lia.
Qed.

Lemma token_fraction_sign t num den :
  well_formed t = true -> token_fraction t = (num, den) -> 0 <= num /\ 0 < den.
Proof.
  intros Hw E. split; [|exact (fraction_den_pos _ _ _ _ E)].
  unfold well_formed in Hw.
  apply andb_true_iff in Hw as [Hw _]. apply andb_true_iff in Hw as [Hi Hf].
  unfold token_fraction in E.
  assert (HV : 0 <= Stod.value 0 (t_int t ++ match t_frac t with
                                              | Some ds => ds | None => "" end)).
  { apply value_nonneg; [|lia]. rewrite all_chars_app, (int_part_all _ Hi).
    destruct (t_frac t); [now apply digit_run_all|reflexivity]. }
  unfold Stod.fraction in E.
  destruct (Z.leb_spec 0 (match t_exp t with
                          | Some (_, Some true, ds) => - Stod.value 0 ds
                          | Some (_, _, ds) => Stod.value 0 ds
                          | None => 0
                          end - Z.of_nat (String.length match t_frac t with
                                                          | Some ds => ds | None => "" end)));
    split_pair E; [|exact HV].
  apply Z.mul_nonneg_nonneg; [exact HV|]. apply Z.pow_nonneg. lia.
Qed.

Lemma denotes_same a b a' b' D k :
  denotes a b D k -> denotes a' b' D k -> a * b' = a' * b.
Proof.
  unfold denotes. intros H H'.
  assert (Q : 0 < 10 ^ Z.max (- k) 0) by (apply pow10_pos; lia).
  apply Z.mul_cancel_r with (10 ^ Z.max (- k) 0); [lia|].
  replace (a * b' * 10 ^ Z.max (- k) 0) with (a * 10 ^ Z.max (- k) 0 * b') by ring.
  replace (a' * b * 10 ^ Z.max (- k) 0) with (a' * 10 ^ Z.max (- k) 0 * b) by ring.
  rewrite H, H'. ring.
Qed.

Lemma denotes_scale num den D k i :
  0 <= i -> denotes num den D k -> denotes num den (D * 10 ^ i) (k - i).
Proof.
  unfold denotes. intros Hi H.
  assert (E : 10 ^ Z.max (- (k - i)) 0 * 10 ^ Z.max k 0 =
              10 ^ i * 10 ^ Z.max (k - i) 0 * 10 ^ Z.max (- k) 0).
  { rewrite <- !Z.pow_add_r by lia. f_equal. lia. }
  assert (Q : 0 < 10 ^ Z.max (- k) 0) by (apply pow10_pos; lia).
  apply Z.mul_cancel_r with (10 ^ Z.max (- k) 0); [lia|].
  replace (num * 10 ^ Z.max (- (k - i)) 0 * 10 ^ Z.max (- k) 0)
    with (num * 10 ^ Z.max (- k) 0 * 10 ^ Z.max (- (k - i)) 0) by ring.
  rewrite H.
  replace (D * 10 ^ Z.max k 0 * den * 10 ^ Z.max (- (k - i)) 0)
    with (D * den * (10 ^ Z.max (- (k - i)) 0 * 10 ^ Z.max k 0)) by ring.
  rewrite E. ring.
Qed.

(** A positive integer below [10^15] scaled to 15 digits. *)
Lemma fifteen_normal D :
  0 < D < 10 ^ 15 -> exists i, 0 <= i /\ 10 ^ 14 <= D * 10 ^ i < 10 ^ 15.
Proof.
  intro H.
  destruct (decimal_size 15 D ltac:(change (10 ^ Z.of_nat 15) with (10 ^ 15); lia))
    as (j & Hj & Hb).
  exists (14 - Z.of_nat j). split; [lia|].
  assert (E14 : 10 ^ 14 = 10 ^ Z.of_nat j * 10 ^ (14 - Z.of_nat j)).
  { rewrite <- Z.pow_add_r by lia. f_equal. lia. }
  assert (E15 : 10 ^ 15 = 10 ^ Z.of_nat (S j) * 10 ^ (14 - Z.of_nat j)).
  { rewrite <- Z.pow_add_r by lia. f_equal. lia. }
  assert (P : 0 < 10 ^ (14 - Z.of_nat j)) by (apply pow10_pos; lia).
  rewrite E14 at 1. rewrite E15. split.
  - apply Z.mul_le_mono_nonneg_r; lia.
  - apply Z.mul_lt_mono_pos_r; lia.
Qed.

Lemma tiny_ext num den num' den' :
  0 < den -> 0 < den' -> num * den' = num' * den ->
  Stod.tiny num den = Stod.tiny num' den'.
Proof.
  intros Hd Hd' E. unfold Stod.tiny.
  destruct (Z.ltb_spec (num * 2 ^ 1076) ((2 ^ 54 - 1) * den)) as [H|H];
    destruct (Z.ltb_spec (num' * 2 ^ 1076) ((2 ^ 54 - 1) * den')) as [H'|H'];
    try reflexivity; exfalso.
  - assert (X : num * 2 ^ 1076 * den' < (2 ^ 54 - 1) * den * den')
      by (apply Z.mul_lt_mono_pos_r; lia).
    assert (Y : (2 ^ 54 - 1) * den' * den <= num' * 2 ^ 1076 * den)
      by (apply Z.mul_le_mono_nonneg_r; lia).
    replace (num * 2 ^ 1076 * den') with (num * den' * 2 ^ 1076) in X by ring.
    replace (num' * 2 ^ 1076 * den) with (num' * den * 2 ^ 1076) in Y by ring.
    rewrite E in X. lia.
  - assert (X : (2 ^ 54 - 1) * den * den' <= num * 2 ^ 1076 * den')
      by (apply Z.mul_le_mono_nonneg_r; lia).
    assert (Y : num' * 2 ^ 1076 * den < (2 ^ 54 - 1) * den' * den)
      by (apply Z.mul_lt_mono_pos_r; lia).
    replace (num * 2 ^ 1076 * den') with (num * den' * 2 ^ 1076) in X by ring.
    replace (num' * 2 ^ 1076 * den) with (num' * den * 2 ^ 1076) in Y by ring.
    rewrite E in X. lia.
Qed.

Lemma exact_ext d num den num' den' :
  0 < den -> 0 < den' -> 0 < num -> num * den' = num' * den ->
  Stod.exact d num den = Stod.exact d num' den'.
Proof.
  intros Hd Hd' Hn E.
  assert (Hn' : 0 < num') by nia.
  destruct d as [s|s| |s m e]; cbn [Stod.exact]; try reflexivity.
  - destruct (Z.eqb_spec num 0); destruct (Z.eqb_spec num' 0); try reflexivity; lia.
  - destruct (Z.leb_spec 0 e).
    + set (v := Zpos m * 2 ^ e).
      destruct (Z.eqb_spec (v * den) num) as [X|X];
        destruct (Z.eqb_spec (v * den') num') as [X'|X']; try reflexivity; exfalso.
      * apply X'. apply Z.mul_cancel_r with den; [lia|].
        rewrite <- E, <- X. ring.
      * apply X. apply Z.mul_cancel_r with den'; [lia|].
        rewrite E, <- X'. ring.
    + set (w := 2 ^ (- e)).
      destruct (Z.eqb_spec (Zpos m * den) (num * w)) as [X|X];
        destruct (Z.eqb_spec (Zpos m * den') (num' * w)) as [X'|X'];
        try reflexivity; exfalso.
      * apply X'. apply Z.mul_cancel_r with den; [lia|].
        replace (num' * w * den) with (num' * den * w) by ring.
        rewrite <- E.
        replace (num * den' * w) with (num * w * den') by ring.
        rewrite <- X. ring.
      * apply X. apply Z.mul_cancel_r with den'; [lia|].
        replace (num * w * den') with (num * den' * w) by ring.
        rewrite E.
        replace (num' * den * w) with (num' * w * den) by ring.
        rewrite <- X'. ring.
Qed.

Lemma erange_ext d num den num' den' :
  0 < den -> 0 < den' -> 0 < num -> num * den' = num' * den ->
  Stod.erange d num den = Stod.erange d num' den'.
Proof.
  intros Hd Hd' Hn E. unfold Stod.erange.
  rewrite (tiny_ext num den num' den' Hd Hd' E).
  rewrite (exact_ext d num den num' den' Hd Hd' Hn E). reflexivity.
Qed.

(** A positive fraction that rounds to zero is flagged. *)
Lemma nearest_zero neg num den sg :
  0 < num -> 0 < den ->
  Stod.nearest neg num den = S754_zero sg ->
  Stod.erange (S754_zero sg) num den = true.
Proof.
  intros Hn Hd E.
  destruct (nearest_round neg num den Hn Hd) as (s & n & Hs & Hn0 & C & E').
  rewrite E in E'. symmetry in E'.
  pose proof (pow2_pos s Hs) as P2s. pose proof (pow2_pos n Hn0) as P2n.
  set (A := num * 2 ^ s) in *. set (B := den * 2 ^ n) in *.
  assert (HB : 0 < B) by (unfold B; nia).
  assert (EM : round_div A B = 0).
  { unfold finish in E'.
    destruct (Z.eqb_spec (round_div A B) 0); [assumption|].
    destruct (round_div A B =? 2 ^ 53).
    - destruct (n - s + 1 <=? 971); discriminate.
    - destruct (n - s <=? 971); discriminate. }
  destruct (round_div_spec A B HB) as [[Sl _] _]. rewrite EM in Sl.
  assert (H2 : 2 * A <= B) by lia.
  assert (Es : s = n + 1074).
  { destruct C as [[Ce _]|[_ [Cl _]]]; [lia|exfalso].
    assert (0 < A) by (unfold A; nia). lia. }
  unfold Stod.erange, Stod.tiny, Stod.exact.
  destruct (Z.eqb_spec num 0); [lia|]. cbn [negb]. rewrite andb_true_r.
  apply Z.ltb_lt.
  assert (X : 2 * (num * 2 ^ 1074) * 2 ^ n <= den * 2 ^ n).
  { unfold A, B in H2. rewrite Es, (Z.add_comm n), Z.pow_add_r in H2 by lia.
    replace (2 * (num * 2 ^ 1074) * 2 ^ n) with (2 * (num * (2 ^ 1074 * 2 ^ n))) by ring.
    exact H2. }
  apply Z.mul_le_mono_pos_r in X; [|exact P2n].
  change (2 ^ 1076) with (4 * 2 ^ 1074). lia.
Qed.

Lemma sig15_exponent nd dd D X :
  sig15 nd dd = (D, X) -> Z.abs X <= Z.of_nat (scale_fuel nd dd) + 1.
Proof.
  rewrite sig15_eq.
  destruct (scale10 (scale_fuel nd dd) nd dd 0) as [[n' d'] X0] eqn:Es.
  destruct (scale10_value _ _ _ _ _ _ _ Es) as (a & b & _ & _ & _ & _ & _ & Hf).
  unfold sig15_of.
  destruct (round_div (n' * 10 ^ 14) d' =? 10 ^ 15); intro E; split_pair E; lia.
Qed.

Lemma frac_of_fuel m e nd dd :
  frac_of m e = (nd, dd) -> -1075 <= e <= 971 -> Zpos m <= 2 ^ 53 ->
  Z.of_nat (scale_fuel nd dd) < 2000.
Proof.
  intros E He Hm. unfold scale_fuel.
  destruct (frac_of_pos _ _ _ _ E) as [Pn Pd].
  pose proof (Z.log2_nonneg nd). pose proof (Z.log2_nonneg dd).
  rewrite Z2Nat.id by lia.
  unfold frac_of in E. destruct (Z.leb_spec 0 e); split_pair E.
  - change (Z.log2 1) with 0.
    assert (Z.log2 (Zpos m * 2 ^ e) < 54 + e).
    { apply Z.log2_lt_pow2; [exact Pn|].
      rewrite Z.pow_add_r by lia.
      assert (0 < 2 ^ e) by (apply pow2_pos; lia). nia. }
    lia.
  - rewrite Z.log2_pow2 by lia.
    assert (Z.log2 (Zpos m) < 54).
    { apply Z.log2_lt_pow2; [lia|]. change (2 ^ 54) with (2 * 2 ^ 53). lia. }
    lia.
Qed.

Lemma double_frac sg m e nd dd :
  frac_of m e = (nd, dd) ->
  Fmt.double (S754_finite sg m e) = (if sg then "-" else "") ++ g15 nd dd.
Proof.
  unfold frac_of, Fmt.double. destruct (0 <=? e); intro E; split_pair E; reflexivity.
Qed.

(** The digits [dump] writes for a double that is not flagged are those of
    the decimal it was rounded from, when that one has 15 digits. *)
Lemma sig15_recovers num den nd dd D k :
  0 < num -> 0 < den -> 0 < nd -> 0 < dd ->
  10 ^ 14 <= D < 10 ^ 15 -> denotes num den D k ->
  2 ^ 53 * (nd * den) <= (2 ^ 53 + 1) * (num * dd) ->
  (2 ^ 53 - 1) * (num * dd) <= 2 ^ 53 * (nd * den) ->
  sig15 nd dd = (D, 14 + k).
Proof.
  intros Hn Hd Hnd Hdd HD Hden E1 E2. unfold denotes in Hden.
  set (P := 10 ^ Z.max k 0) in *. set (Q := 10 ^ Z.max (- k) 0) in *.
  assert (PP : 0 < P) by (apply pow10_pos; lia).
  assert (PQ : 0 < Q) by (apply pow10_pos; lia).
  set (W := P * dd * den). set (V := Q * nd * den). set (Z1 := D * W).
  assert (PW : 0 < W) by (unfold W; apply Z.mul_pos_pos; [apply Z.mul_pos_pos|]; lia).
  assert (EZ : num * dd * Q = Z1).
  { unfold Z1, W. replace (num * dd * Q) with (num * Q * dd) by ring.
    rewrite Hden. ring. }
  assert (F1 : 2 ^ 53 * V <= (2 ^ 53 + 1) * Z1).
  { rewrite <- EZ. unfold V.
    replace (2 ^ 53 * (Q * nd * den)) with (2 ^ 53 * (nd * den) * Q) by ring.
    replace ((2 ^ 53 + 1) * (num * dd * Q)) with ((2 ^ 53 + 1) * (num * dd) * Q) by ring.
    apply Z.mul_le_mono_nonneg_r; lia. }
  assert (F2 : (2 ^ 53 - 1) * Z1 <= 2 ^ 53 * V).
  { rewrite <- EZ. unfold V.
    replace (2 ^ 53 * (Q * nd * den)) with (2 ^ 53 * (nd * den) * Q) by ring.
    replace ((2 ^ 53 - 1) * (num * dd * Q)) with ((2 ^ 53 - 1) * (num * dd) * Q) by ring.
    apply Z.mul_le_mono_nonneg_r; lia. }
  assert (ZL : 10 ^ 14 * W <= Z1) by (unfold Z1; apply Z.mul_le_mono_nonneg_r; lia).
  assert (ZU : Z1 <= (10 ^ 15 - 1) * W) by (unfold Z1; apply Z.mul_le_mono_nonneg_r; lia).
  assert (ZS : Z1 = 10 ^ 14 * W \/ (10 ^ 14 + 1) * W <= Z1).
  { destruct (Z.eq_dec D (10 ^ 14)) as [->|N]; [left; reflexivity|right].
    unfold Z1. apply Z.mul_le_mono_nonneg_r; lia. }
  apply sig15_charac; try assumption; fold P Q.
  - apply Z.mul_lt_mono_pos_r with den; [exact Hd|].
    replace ((2 * D - 1) * (P * dd) * den) with (2 * Z1 - W) by (unfold Z1, W; ring).
    replace (2 * (Q * nd) * den) with (2 * V) by (unfold V; ring). lia.
  - apply Z.mul_lt_mono_pos_r with den; [exact Hd|].
    replace ((2 * D + 1) * (P * dd) * den) with (2 * Z1 + W) by (unfold Z1, W; ring).
    replace (2 * (Q * nd) * den) with (2 * V) by (unfold V; ring). lia.
  - apply Z.mul_le_mono_pos_r with den; [exact Hd|].
    replace ((20 * 10 ^ 14 - 1) * (P * dd) * den) with ((20 * 10 ^ 14 - 1) * W)
      by (unfold W; ring).
    replace (20 * (Q * nd) * den) with (20 * V) by (unfold V; ring).
    destruct ZS as [ZS|ZS]; lia.
Qed.

Lemma well_formed_sign neg neg' ip fp ep :
  well_formed (Token neg ip fp ep) = well_formed (Token neg' ip fp ep).
Proof. reflexivity. Qed.

(** [std::stod] gives back a double from the digits [dump] writes for it
    when it is what [std::stod] returns on a token of at most 15
    significant digits. *)
Lemma stod_fifteen t d :
  well_formed t = true -> fifteen_digits t -> token_stod t = Ok d ->
  Stod.stod (Fmt.double d) = Ok d.
Proof.
  intros Hw (D0 & k0 & HD0 & Hden) Hs. unfold token_stod in Hs.
  destruct (token_fraction t) as [num den] eqn:Ef. cbn [fst snd] in Hden.
  destruct (token_fraction_sign t num den Hw Ef) as [Hn Hd].
  destruct (Stod.erange (Stod.nearest (t_neg t) num den) num den) eqn:Er;
    [discriminate|].
  assert (d = Stod.nearest (t_neg t) num den) by congruence. subst d.
  set (neg := t_neg t) in *.
  destruct (Z.eq_dec num 0) as [->|Nz].
  { unfold Stod.nearest. cbn [Z.eqb]. destruct neg; reflexivity. }
  assert (Hnum : 0 < num) by lia.
  destruct (Stod.nearest neg num den) as [sg|sg| |sg m e] eqn:En.
  - rewrite (nearest_zero neg num den sg Hnum Hd En) in Er. discriminate.
  - discriminate.
  - discriminate.
  - destruct (frac_of m e) as [nd dd] eqn:Efr.
    destruct (frac_of_pos _ _ _ _ Efr) as [Pnd Pdd].
    destruct (nearest_error neg num den sg m e nd dd Hnum Hd En Er Efr)
      as (-> & He & Hm & E1 & E2).
    assert (HD0' : 0 < D0).
    { unfold denotes in Hden.
      assert (0 < 10 ^ Z.max (- k0) 0) by (apply pow10_pos; lia).
      assert (0 < 10 ^ Z.max k0 0) by (apply pow10_pos; lia).
      destruct (Z.eq_dec D0 0) as [->|]; [|lia]. nia. }
    destruct (fifteen_normal D0 ltac:(lia)) as (i & Hi & HD).
    apply (denotes_scale _ _ _ _ i Hi) in Hden.
    set (D := D0 * 10 ^ i) in *. set (k := k0 - i) in *.
    pose proof (sig15_recovers num den nd dd D k Hnum Hd Pnd Pdd HD Hden E1 E2) as Esig.
    assert (HX : Z.abs (14 + k) < 10 ^ 15).
    { pose proof (sig15_exponent _ _ _ _ Esig).
      pose proof (frac_of_fuel _ _ _ _ Efr He Hm).
      change (10 ^ 15) with 1000000000000000. lia. }
    destruct (g15_pieces nd dd D (14 + k) Pnd Pdd Esig HX)
      as (ip & fp & ep & Hwf & Htxt & Hval).
    rewrite (double_frac _ _ _ _ _ Efr), Htxt.
    change ((if neg then "-" else "") ++ ip ++ frac_text fp ++ exp_text ep)
      with (text (Token neg ip fp ep)).
    rewrite stod_text by exact Hwf.
    unfold token_stod. cbn [t_neg].
    destruct (token_fraction (Token neg ip fp ep)) as [n' d'] eqn:Ef'.
    pose proof (Hval neg n' d' Ef') as Hden'.
    replace (14 + k - 14) with k in Hden' by lia.
    pose proof (denotes_same _ _ _ _ _ _ Hden Hden') as Ex.
    destruct (token_fraction_sign _ n' d' Hwf Ef') as [Hn' Hd'].
    assert (Pn' : 0 < n') by nia.
    rewrite <- (nearest_ext neg num den n' d' Hnum Hd Pn' Hd' Ex), En.
    rewrite <- (erange_ext _ num den n' d' Hd Hd' Hnum Ex), Er. reflexivity.
Qed.

Lemma token_stod_bounds t sg m e :
  well_formed t = true -> token_stod t = Ok (S754_finite sg m e) ->
  -1075 <= e <= 971 /\ Zpos m <= 2 ^ 53.
Proof.
  intros Hw Hs. unfold token_stod in Hs.
  destruct (token_fraction t) as [num den] eqn:Ef.
  destruct (token_fraction_sign t num den Hw Ef) as [Hn Hd].
  destruct (Stod.erange (Stod.nearest (t_neg t) num den) num den) eqn:Er;
    [discriminate|].
  assert (En : Stod.nearest (t_neg t) num den = S754_finite sg m e) by congruence.
  rewrite En in Er.
  destruct (Z.eq_dec num 0) as [->|Nz].
  { unfold Stod.nearest in En. cbn [Z.eqb] in En. discriminate. }
  destruct (frac_of m e) as [nd dd] eqn:Efr.
  destruct (nearest_error _ num den sg m e nd dd ltac:(lia) Hd En Er Efr)
    as (_ & He & Hm & _).
  split; assumption.
Qed.

(** The digits [dump] writes are a token of at most 15 significant
    digits. *)
Lemma double_fifteen d :
  Stod.stod (Fmt.double d) = Ok d ->
  exists t, well_formed t = true /\ fifteen_digits t /\ text t = Fmt.double d.
Proof.
  intro Hs. pose proof (stod_finite _ _ Hs) as Hf.
  destruct d as [s|s| |sg m e]; try discriminate.
  - exists (Token s "0" None None). split; [reflexivity|]. split.
    + exists 0, 0. split; [lia|reflexivity].
    + destruct s; reflexivity.
  - destruct (double_token (S754_finite sg m e) Hf) as (t0 & Hw0 & Ht0).
    rewrite <- Ht0, stod_text in Hs by exact Hw0.
    destruct (token_stod_bounds t0 sg m e Hw0 Hs) as [He Hm].
    destruct (frac_of m e) as [nd dd] eqn:Efr.
    destruct (frac_of_pos _ _ _ _ Efr) as [Pnd Pdd].
    destruct (sig15 nd dd) as [D X] eqn:Esig.
    pose proof (sig15_bounds nd dd D X Pnd Pdd Esig) as HD.
    assert (HX : Z.abs X < 10 ^ 15).
    { pose proof (sig15_exponent _ _ _ _ Esig).
      pose proof (frac_of_fuel _ _ _ _ Efr He Hm).
      change (10 ^ 15) with 1000000000000000. lia. }
    destruct (g15_pieces nd dd D X Pnd Pdd Esig HX)
      as (ip & fp & ep & Hwf & Htxt & Hval).
    exists (Token sg ip fp ep). split; [exact Hwf|]. split.
    + exists D, (X - 14). split; [lia|].
      destruct (token_fraction (Token sg ip fp ep)) as [n' d'] eqn:Ef'.
      cbn [fst snd]. now apply (Hval sg).
    + rewrite (double_frac _ _ _ _ _ Efr), Htxt. reflexivity.
Qed.

(** The doubles that [std::stod] recovers from the digits [dump] writes
    are those it returns for a token of at most 15 significant digits. *)
Lemma stod_recovers_iff d :
  Stod.stod (Fmt.double d) = Ok d <-> fifteen_digit_double d.
Proof.
  split.
  - intro Hs. destruct (double_fifteen d Hs) as (t & Hw & H15 & Ht).
    exists t. split; [exact Hw|]. split; [exact H15|].
    now rewrite <- stod_text, Ht.
  - intros (t & Hw & H15 & Hs). now apply (stod_fifteen t).
Qed.

Lemma parse_number_roundtrip d :
  parse (dump compact (Num d)) = Ok (Num d) <-> fifteen_digit_double d.
Proof.
  rewrite <- stod_recovers_iff. split.
  - intro H. assert (Hf : is_finite d = true).
    { destruct d as [s|[]| |s m e]; try reflexivity; vm_compute in H; discriminate. }
    rewrite parse_dump_number in H by exact Hf.
    destruct (Stod.stod (Fmt.double d)); congruence.
  - intro H. apply reads_parse, reads_dump_number, H.
Qed.

End FifteenDigits.

(** * The claims *)


(** ** C1: duplicate keys *)

(** C1, as stated: the text [{"x":1,"x":2}] does not parse to the Object
    binding [x] to 2. *)
Lemma C1_counterexample :
  parse (json "{'x':1,'x':2}") <> Ok (Obj [("x", of_int 2)]).
Proof. vm_compute. discriminate. Qed.

(** C1, as the code has it: [parse_object] inserts with [emplace], which
    leaves a key that is present untouched.  An object text parses to the
    Object its members build by [emplace] in the order written, so the first
    occurrence of a key wins; [{"x":1,"x":2}] yields the single key [x]
    bound to 1. *)
Theorem C1_first_occurrence_wins (ms : list (string * string * Json))
    (H : Forall member_ok ms) :
  parse (object_text (member_texts ms)) =
    Ok (Obj (emplace_all (member_values ms) [])) /\
  (forall k, StdMap.find k (emplace_all (member_values ms) []) =
             first_member k (member_values ms)) /\
  parse (json "{'x':1,'x':2}") = Ok (Obj [("x", of_int 1)]).
Proof.
  split; [|split].
  - apply reads_parse, reads_object, H.
  - intro k. rewrite find_emplace_all by constructor. reflexivity.
  - vm_compute. reflexivity.
Qed.

Lemma C1_first_occurrence_wins_witness :
  parse (object_text [("x", "1"); ("x", "2")]) = Ok (Obj [("x", of_int 1)]) /\
  (forall k, StdMap.find k [("x", of_int 1)] =
             first_member k [("x", of_int 1); ("x", of_int 2)]) /\
  parse (json "{'x':1,'x':2}") = Ok (Obj [("x", of_int 1)]).
Proof.
  apply (C1_first_occurrence_wins [("x", "1", of_int 1); ("x", "2", of_int 2)]).
  repeat constructor.
  - apply (reads_number (Token false "1" None None)); reflexivity.
  - apply (reads_number (Token false "2" None None)); reflexivity.
Defined.

(** ** C2: the unicode escape *)

(** C2, as stated: no value parsed from the text made of a quote, the six
    characters and a quote dumps to that text. *)
Lemma C2_counterexample :
  ~ (exists j, parse (quoted_raw u00e9) = Ok j /\
               dump compact j = quoted_raw u00e9).
Proof.
  intros (j & Hp & Hd). vm_compute in Hp. inversion Hp; subst j.
  vm_compute in Hd. discriminate Hd.
Qed.

(** C2, as the code has it: parsing that text yields the String of the six
    characters, and so for any four bytes after the backslash and the u,
    unvalidated.  [escape] doubles every backslash: the dump of that String
    has two backslashes before the u, nine bytes in all, and parses back to
    the same six characters. *)
Theorem C2_unicode_escape_kept :
  parse (quoted_raw u00e9) = Ok (Str u00e9) /\
  String.length u00e9 = 6%nat /\
  (forall h1 h2 h3 h4 : ascii,
     let hs := String h1 (String h2 (String h3 (String h4 ""))) in
     parse (quoted_raw (String BSL (String "u" hs))) =
     Ok (Str (String BSL (String "u" hs)))) /\
  dump compact (Str u00e9) = quoted_raw (String BSL u00e9) /\
  String.length (dump compact (Str u00e9)) = 9%nat /\
  parse (dump compact (Str u00e9)) = Ok (Str u00e9).
Proof.
  repeat split; try (vm_compute; reflexivity).
Qed.

(** ** C3: the escape round trip *)

(** C3, as stated: that String does not come back. *)
Lemma C3_counterexample :
  parse (dump compact (Str five_bytes)) <> Ok (Str five_bytes).
Proof. vm_compute. discriminate. Qed.

(** C3, as the code has it: a String round-trips through [dump] and [parse]
    when none of its bytes is a control byte other than backspace, form
    feed, newline, carriage return and tab (a double quote, a backslash, a
    newline and a tab are fine).  The byte 0x01 is dumped as a backslash
    and [u0001], which the parser keeps as these six characters. *)
Theorem C3_escape_roundtrip (s : string) (H : all_chars reversible s = true) :
  parse (dump compact (Str s)) = Ok (Str s) /\
  parse (dump compact (Str five_bytes)) =
    Ok (Str (String DQ (String BSL (String LF (String TAB (String BSL "u0001")))))).
Proof.
  split; [now apply string_roundtrip | vm_compute; reflexivity].
Qed.

Lemma C3_escape_roundtrip_witness :
  parse (dump compact (Str (String DQ (String BSL (String LF (String TAB "")))))) =
    Ok (Str (String DQ (String BSL (String LF (String TAB ""))))) /\
  parse (dump compact (Str five_bytes)) =
    Ok (Str (String DQ (String BSL (String LF (String TAB (String BSL "u0001")))))).
Proof.
  apply (C3_escape_roundtrip (String DQ (String BSL (String LF (String TAB ""))))).
  reflexivity.
Defined.

(** ** C4: the unterminated string *)

(** C4 asks for a SyntaxError; the loop of [parse_string] leaves at the end
    of the input without one, and [parse] returns the String read so far. *)
Theorem C4_unterminated_string_accepted :
  parse (json "'abc") = Ok (Str "abc").
Proof. vm_compute. reflexivity. Qed.

(** ** C5: numbers out of range *)

(** C5, as stated: [1e999] does not parse. *)
Lemma C5_counterexample : parse "1e999" = Err OutOfRange.
Proof. vm_compute. reflexivity. Qed.

(** C5, as the code has it: on a well-formed number token whose magnitude
    is at least [2^1024 - 2^970], where rounding to nearest leaves the finite
    doubles, [std::stod] throws [std::out_of_range], and so does [parse]; no
    number [parse] returns is an infinity. *)
Theorem C5_overflow_throws (t : token)
    (Hw : well_formed t = true) (Ho : overflows t = true) :
  parse (text t) = Err OutOfRange /\
  forall s j, parse s = Ok j -> every number_finite j.
Proof.
  split; [|exact parse_numbers_finite].
  rewrite parse_text by exact Hw.
  unfold overflows in Ho. unfold token_stod.
  destruct (token_fraction t) as [num den] eqn:Ef.
  apply Z.leb_le in Ho.
  rewrite nearest_overflow; [reflexivity| |exact Ho].
  unfold token_fraction in Ef. now apply fraction_den_pos in Ef.
Qed.

Lemma C5_overflow_throws_witness :
  parse "1e999" = Err OutOfRange /\
  forall s j, parse s = Ok j -> every number_finite j.
Proof.
  apply (C5_overflow_throws (Token false "1" None (Some (false, None, "999"))));
    vm_compute; reflexivity.
Defined.

(** ** C6: rejected inputs *)


(** ** C7: key order *)

Lemma subscript_keys_ascending key j j' r :
  keys_ascending j -> subscript key j = Ok (j', r) -> keys_ascending j'.
Proof.
  unfold subscript. intros Hj H.
  assert (Hs : forall o, StdMap.sorted o ->
             let (o', _) := StdMap.subscript key o in StdMap.sorted o').
  { intros o Ho. unfold StdMap.subscript.
    destruct (StdMap.find key o); [exact Ho|now apply emplace_sorted]. }
  destruct j; simpl in H;
    try (inversion H; subst; repeat constructor).
  specialize (Hs o Hj). destruct (StdMap.subscript key o) as [o' x].
  inversion H; subst. exact Hs.
Qed.

(** C7. An Object keeps its members in ascending key order whatever the
    order of insertion: [emplace] and [operator[]] keep the keys ascending,
    an object text parses to such an Object whatever the order of its
    members, and every Object in a parsed document is one.  In every mode
    the dump of an Object writes the members in the order of the map.
    Parsing [{"b":1,"a":2}] and dumping gives [{"a":2,"b":1}]. *)
Theorem C7_dump_in_key_order (ms : list (string * string * Json))
    (H : Forall member_ok ms) :
  let o := emplace_all (member_values ms) [] in
  (parse (object_text (member_texts ms)) = Ok (Obj o) /\
   StdMap.sorted o /\
   dump compact (Obj o) = object_text (dumped_members o)) /\
  (forall kvs, StdMap.sorted (emplace_all kvs [])) /\
  (forall key j j' r,
     keys_ascending j -> subscript key j = Ok (j', r) -> keys_ascending j') /\
  (forall s j, parse s = Ok j -> every keys_ascending j) /\
  (forall indent depth m o',
     dump_impl indent depth (Obj (m :: o')) =
     "{" ++ pretty indent (chr LF) ++
     String.concat ("," ++ pretty indent (chr LF))
       (map (member_line indent depth) (m :: o')) ++
     pretty indent (chr LF) ++ ind indent depth ++ "}") /\
  parse (json "{'b':1,'a':2}") = Ok (Obj [("a", of_int 2); ("b", of_int 1)]) /\
  dump compact (Obj [("a", of_int 2); ("b", of_int 1)]) = json "{'a':2,'b':1}".
Proof.
  cbv zeta. repeat split.
  - apply reads_parse, reads_object, H.
  - apply emplace_all_sorted. constructor.
  - apply dump_object.
  - intro kvs. apply emplace_all_sorted. constructor.
  - exact subscript_keys_ascending.
  - exact parse_keys_ascending.
  - exact dump_object_lines.
Qed.

Lemma C7_dump_in_key_order_witness :
  (parse (object_text [("b", "1"); ("a", "2")]) =
     Ok (Obj [("a", of_int 2); ("b", of_int 1)]) /\
   StdMap.sorted [("a", of_int 2); ("b", of_int 1)] /\
   dump compact (Obj [("a", of_int 2); ("b", of_int 1)]) =
     object_text [("a", "2"); ("b", "1")]) /\
  (forall kvs, StdMap.sorted (emplace_all kvs [])) /\
  (forall key j j' r,
     keys_ascending j -> subscript key j = Ok (j', r) -> keys_ascending j') /\
  (forall s j, parse s = Ok j -> every keys_ascending j) /\
  (forall indent depth m o',
     dump_impl indent depth (Obj (m :: o')) =
     "{" ++ pretty indent (chr LF) ++
     String.concat ("," ++ pretty indent (chr LF))
       (map (member_line indent depth) (m :: o')) ++
     pretty indent (chr LF) ++ ind indent depth ++ "}") /\
  parse (json "{'b':1,'a':2}") = Ok (Obj [("a", of_int 2); ("b", of_int 1)]) /\
  dump compact (Obj [("a", of_int 2); ("b", of_int 1)]) = json "{'a':2,'b':1}".
Proof.
  apply (C7_dump_in_key_order [("b", "1", of_int 1); ("a", "2", of_int 2)]).
  repeat constructor.
  - apply (reads_number (Token false "1" None None)); reflexivity.
  - apply (reads_number (Token false "2" None None)); reflexivity.
Defined.

(** ** C8: the round trip of scalars *)

(** C8, as stated: this finite double is dumped as [0.3] and parsed back
    as the double nearest to 0.3, which is another one. *)
Lemma C8_counterexample :
  valid_binary 53 1024 three_tenths_up = true /\
  is_finite three_tenths_up = true /\
  dump compact (Num three_tenths_up) = "0.3" /\
  parse (dump compact (Num three_tenths_up)) <> Ok (Num three_tenths_up).
Proof.
  repeat split; try (vm_compute; reflexivity).
  vm_compute. discriminate.
Qed.

(** C8, as the code has it: [parse(dump(v))] gives [v] back for null, true,
    false, every ASCII string with no special character, and every double
    that [std::stod] returns for a decimal numeral of at most 15 significant
    digits.  A Number is written with 15 significant digits: for any double
    [d], [parse(dump(d))] is [d] for these doubles and for no other, and for
    a finite one it is what [std::stod] makes of the 15 digits. *)
Theorem C8_scalar_roundtrip (v : Json) (d : double)
    (H : scalar_roundtrips v) :
  parse (dump compact v) = Ok v /\
  (parse (dump compact (Num d)) = Ok (Num d) <-> fifteen_digit_double d) /\
  (is_finite d = true ->
   parse (dump compact (Num d)) =
     match Stod.stod (Fmt.double d) with
     | Ok d' => Ok (Num d')
     | Err e => Err e
     end).
Proof.
  split; [|split; [apply parse_number_roundtrip|apply parse_dump_number]].
  destruct v as [| b | x | s | a | o]; simpl in H; try contradiction.
  - reflexivity.
  - destruct b; reflexivity.
  - now apply parse_number_roundtrip.
  - apply string_roundtrip.
    eapply all_chars_impl; [exact plain_reversible|exact H].
Qed.

Lemma C8_scalar_roundtrip_witness :
  parse (dump compact (Num one_tenth)) = Ok (Num one_tenth) /\
  (parse (dump compact (Num three_tenths_up)) = Ok (Num three_tenths_up) <->
   fifteen_digit_double three_tenths_up) /\
  (is_finite three_tenths_up = true ->
   parse (dump compact (Num three_tenths_up)) =
     match Stod.stod (Fmt.double three_tenths_up) with
     | Ok d' => Ok (Num d')
     | Err e => Err e
     end).
Proof.
  apply (C8_scalar_roundtrip (Num one_tenth) three_tenths_up).
  exists (Token false "0" (Some "1") None).
  split; [reflexivity|]. split; [|vm_compute; reflexivity].
  exists 1, (-1). split; [lia|reflexivity].
Defined.

(** ** C9: whitespace and dispatch *)

Lemma drop_ws_app ws st :
  all_chars isspace ws = true -> starts_with isspace st = false ->
  drop_ws (ws ++ st) = st.
Proof.
  intros Hws Hst. induction ws as [|x ws IH]; simpl in *.
  - now apply drop_ws_stop.
  - apply andb_true_iff in Hws as [Hx Hws]. rewrite Hx. auto.
Qed.

Lemma parse_value_undispatched n ws c r :
  all_chars isspace ws = true -> isspace c = false -> dispatches c = false ->
  parse_value (S n) (ws ++ String c r) = Err (SyntaxError "JSON: unexpected token").
Proof.
  intros Hws Hc Hd. cbn [parse_value].
  rewrite (bind_eq _ _ _ tt (String c r)).
  2: { unfold skip_ws. now rewrite drop_ws_app. }
  rewrite (bind_eq _ _ _ c (String c r)) by reflexivity.
  unfold dispatches in Hd.
  repeat (apply orb_false_iff in Hd as [Hd ?]).
  repeat match goal with H : _ = false |- _ => rewrite H end.
  reflexivity.
Qed.

Lemma parse_value_blank n ws :
  all_chars isspace ws = true ->
  parse_value (S n) ws = Err (SyntaxError "JSON: unexpected token").
Proof.
  intros Hws. cbn [parse_value].
  rewrite (bind_eq _ _ _ tt "").
  2: { unfold skip_ws. rewrite <- (append_nil_r ws). now rewrite drop_ws_app. }
  reflexivity.
Qed.

(** C9, as stated: a form feed before [null] is no error. *)
Lemma C9_counterexample : parse (String FF "null") = Ok Null.
Proof. vm_compute. reflexivity. Qed.

(** C9, as the code has it: [skip_ws] skips what [std::isspace] accepts,
    which is the six bytes space, tab, newline, vertical tab, form feed and
    carriage return.  After the whitespace, a byte other than [n], [t], [f],
    the double quote, the minus sign, a digit, [{] and [[] makes
    [parse_value] throw, and so does the end of the input.  A form feed or a
    vertical tab before a value is skipped. *)
Theorem C9_whitespace_and_dispatch (ws : string) (c : ascii) (r : string)
    (Hws : all_chars isspace ws = true)
    (Hc : isspace c = false) (Hd : dispatches c = false) :
  (forall x, isspace x = true <->
             x = SP \/ x = TAB \/ x = LF \/ x = VT \/ x = FF \/ x = CR) /\
  skip_ws (ws ++ String c r) = Ok (tt, String c r) /\
  parse (ws ++ String c r) = Err (SyntaxError "JSON: unexpected token") /\
  parse ws = Err (SyntaxError "JSON: unexpected token") /\
  parse (String FF "null") = Ok Null /\
  parse (String VT "null") = Ok Null.
Proof.
  split; [exact isspace_spec|]. split; [|split; [|split]].
  - unfold skip_ws. now rewrite drop_ws_app.
  - unfold parse. now rewrite parse_value_undispatched.
  - unfold parse. now rewrite parse_value_blank.
  - split; vm_compute; reflexivity.
Qed.

Lemma C9_whitespace_and_dispatch_witness :
  (forall x, isspace x = true <->
             x = SP \/ x = TAB \/ x = LF \/ x = VT \/ x = FF \/ x = CR) /\
  skip_ws (String FF (String SP "}")) = Ok (tt, "}") /\
  parse (String FF (String SP "}")) = Err (SyntaxError "JSON: unexpected token") /\
  parse (String FF (chr SP)) = Err (SyntaxError "JSON: unexpected token") /\
  parse (String FF "null") = Ok Null /\
  parse (String VT "null") = Ok Null.
Proof.
  apply (C9_whitespace_and_dispatch (String FF (chr SP)) "}" ""); reflexivity.
Defined.

(** ** C10: [operator[]] and [push_back] on a mismatched value *)

(** C10. On a Boolean, Number, String or Array receiver, [operator[](key)]
    throws nothing: the receiver becomes an Object holding only [key], bound
    to a fresh Null, which is the element returned.  On a Boolean, Number,
    String or Object receiver, [push_back(x)] throws nothing: the receiver
    becomes the one-element Array holding [x]. *)
Theorem C10_silent_overwrite (key : string) (x j1 j2 : Json)
    (H1 : mismatched_for_subscript j1 = true)
    (H2 : mismatched_for_push_back j2 = true) :
  subscript key j1 = Ok (Obj [(key, Null)], Null) /\
  push_back x j2 = Ok (Arr [x]).
Proof.
  split.
  - destruct j1; try discriminate H1; reflexivity.
  - destruct j2; try discriminate H2; reflexivity.
Qed.

Lemma C10_silent_overwrite_witness :
  subscript "k" (Str "payload") = Ok (Obj [("k", Null)], Null) /\
  push_back (Bool true) (Obj [("a", Null)]) = Ok (Arr [Bool true]).
Proof.
  apply (C10_silent_overwrite "k" (Bool true) (Str "payload") (Obj [("a", Null)]));
    reflexivity.
Defined.

(** * Further properties *)

(** Dumping a document in compact mode and parsing the text gives the
    document back, when every String and key in it is free of control bytes
    without a short escape, every Number is recovered by [std::stod] from its
    15 digits, and every Object has its keys ascending (as every Object the
    code builds has). *)
Theorem document_roundtrip (j : Json) (H : every roundtrips_here j) :
  parse (dump compact j) = Ok j.
Proof. apply reads_parse. now apply document_reads. Qed.

Lemma document_roundtrip_witness :
  parse (dump compact sample_document) = Ok sample_document.
Proof.
  apply (document_roundtrip sample_document).
  simpl. repeat split; try reflexivity; repeat constructor.
Defined.

(** The fuel of the model never runs out: [Err OutOfFuel] is no result of
    [parse].  The call stack of the program is not part of the model. *)
Lemma parse_fuel_suffices (s : string) : parse s <> Err OutOfFuel.
Proof.
  unfold parse.
  pose proof (parse_value_advances (S (String.length s)) s ltac:(lia)) as H.
  destruct (parse_value (S (String.length s)) s) as [[j st]|e].
  - destruct (drop_ws st); simpl; discriminate.
  - destruct e; simpl in *; try discriminate. contradiction.
Qed.

(** ** The builder operations *)

Lemma push_all_array xs : forall a, push_all xs (Arr a) = Ok (Arr (a ++ xs)).
Proof.
  induction xs as [|x xs IH]; intro a.
  - now rewrite app_nil_r.
  - unfold push_all in *. cbn [fold_left]. 
    change (push_back x (Arr a)) with (Ok (Arr (a ++ [x]))).
    rewrite IH. now rewrite <- app_assoc.
Qed.

(** [operator[]] followed by a lookup: the key is present afterwards and
    [at] gives the element the reference designates, which is the value
    already stored under the key or a fresh Null; no other key is
    touched, and a receiver that has the key is left as it is. *)
Theorem subscript_then_at (key : string) (j : Json) (H : keys_ascending j) :
  exists j' v,
    subscript key j = Ok (j', v) /\
    v = match StdMap.find key (members j) with Some x => x | None => Null end /\
    at_ key j' = Ok v /\ contains key j' = true /\
    (forall k, k <> key -> at_ k j' = StdMap.at_ k (members j)) /\
    (contains key j = true -> j' = j).
Proof.
  assert (G : forall o, StdMap.sorted o ->
            exists j' v,
              (let (o', r) := StdMap.subscript key o in Ok (Obj o', r)) = Ok (j', v) /\
              v = match StdMap.find key o with Some x => x | None => Null end /\
              at_ key j' = Ok v /\ contains key j' = true /\
              (forall k, k <> key -> at_ k j' = StdMap.at_ k o) /\
              (StdMap.find key o <> None -> j' = Obj o)).
  { intros o Ho. unfold StdMap.subscript.
    destruct (StdMap.find key o) as [x|] eqn:E.
    - exists (Obj o), x. cbn [at_ as_object contains is_object negb].
      unfold StdMap.at_, StdMap.count. rewrite E. repeat split.
    - exists (Obj (StdMap.emplace key Null o)), Null.
      cbn [at_ as_object contains is_object negb].
      unfold StdMap.at_, StdMap.count.
      rewrite (find_emplace_absent key Null o E). repeat split.
      + intros k Hk. now rewrite (find_emplace_other key k Null o Ho Hk).
      + congruence. }
  destruct j as [| b | d | s | a | o];
    try (destruct (G [] ltac:(constructor)) as (j' & v & E & Hv & Ha & Hc & Hk & _);
         exists j', v; repeat split; solve [assumption | discriminate]).
  destruct (G o H) as (j' & v & E & Hv & Ha & Hc & Hk & Hp).
  exists j', v. repeat split; try assumption.
  cbn [contains is_object negb]. unfold StdMap.count. intro Hin. apply Hp.
  destruct (StdMap.find key o); [discriminate|discriminate Hin].
Qed.

Lemma subscript_then_at_witness :
  exists j' v,
    subscript "b" (Obj [("a", Bool true); ("c", Null)]) = Ok (j', v) /\
    v = Null /\ at_ "b" j' = Ok v /\ contains "b" j' = true /\
    (forall k, k <> "b" ->
               at_ k j' = StdMap.at_ k [("a", Bool true); ("c", Null)]) /\
    (contains "b" (Obj [("a", Bool true); ("c", Null)]) = true ->
     j' = Obj [("a", Bool true); ("c", Null)]).
Proof.
  apply (subscript_then_at "b" (Obj [("a", Bool true); ("c", Null)])).
  simpl. repeat constructor.
Defined.

(** Values pushed one after another, none of them the receiver itself,
    come after the elements already there, in the order of the calls,
    whatever the receiver was: a receiver that is no Array counts as empty.
    They are dumped in that order. *)
Theorem push_back_in_order (x : Json) (xs : list Json) (j : Json) :
  push_all (x :: xs) j = Ok (Arr (elements j ++ x :: xs)) /\
  dump compact (Arr (elements j ++ x :: xs)) =
  array_text (map (dump compact) (elements j ++ x :: xs)).
Proof.
  split; [|apply dump_array].
  unfold push_all. cbn [fold_left].
  assert (E : push_back x j = Ok (Arr (elements j ++ [x]))) by (destruct j; reflexivity).
  rewrite E. change (fold_left _ xs (Ok ?r)) with (push_all xs r).
  rewrite push_all_array. now rewrite <- app_assoc.
Qed.

(** *** [push_back] of the receiver itself *)

(** With an argument that is another value, [push_back] appends a copy of
    it; with the receiver itself as argument, on a receiver that is no Array,
    the value held before is lost altogether: the receiver is reset to an
    empty Array before the argument is read, and the result is the Array
    holding one empty Array. *)
Theorem push_back_self (j : Json) (H : is_array j = false) :
  (forall x r, push_back_ref (Value x) r = push_back x r) /\
  push_back_ref This j = Ok (Arr [Arr []]) /\
  push_back j j = Ok (Arr [j]).
Proof.
  split; [|split].
  - intros x r. reflexivity.
  - destruct j; try reflexivity. discriminate H.
  - destruct j; try reflexivity. discriminate H.
Qed.

Lemma push_back_self_witness :
  (forall x r, push_back_ref (Value x) r = push_back x r) /\
  push_back_ref This (of_int 5) = Ok (Arr [Arr []]) /\
  push_back (of_int 5) (of_int 5) = Ok (Arr [of_int 5]).
Proof. apply (push_back_self (of_int 5)). reflexivity. Defined.

(** ** What [escape] and [dump] write *)

Lemma escape_app a b : escape (a ++ b) = escape a ++ escape b.
Proof.
  induction a as [|c a IH]; [reflexivity|].
  cbn [String.append escape]. now rewrite IH, append_assoc.
Qed.

Lemma unescape_head_escape c r : unescape_head (escape_char c ++ r) = Some (c, r).
Proof. destruct c as [[] [] [] [] [] [] [] []]; reflexivity. Qed.

Lemma escape_char_printable c : all_chars printable (escape_char c) = true.
Proof. destruct c as [[] [] [] [] [] [] [] []]; reflexivity. Qed.

Lemma escape_printable s : all_chars printable (escape s) = true.
Proof.
  induction s as [|c s IH]; [reflexivity|].
  cbn [escape]. now rewrite all_chars_app, escape_char_printable, IH.
Qed.

(** [escape] writes distinct texts for distinct strings: the text of a
    String tells which String was dumped. *)
Theorem escape_injective (a b : string) : escape a = escape b <-> a = b.
Proof.
  split; [|now intros ->].
  revert b. induction a as [|c a IH]; intros [|d b] E.
  - reflexivity.
  - exfalso. cbn [escape] in E.
    apply (f_equal unescape_head) in E. rewrite unescape_head_escape in E. discriminate.
  - exfalso. cbn [escape] in E.
    apply (f_equal unescape_head) in E. rewrite unescape_head_escape in E. discriminate.
  - cbn [escape] in E. apply (f_equal unescape_head) in E.
    rewrite !unescape_head_escape in E. inversion E; subst. f_equal. now apply IH.
Qed.

Lemma isdigit_printable c : isdigit c = true -> printable c = true.
Proof.
  unfold isdigit, printable. rewrite andb_true_iff, !Z.leb_le. lia.
Qed.

Lemma text_printable t : well_formed t = true -> all_chars printable (text t) = true.
Proof.
  destruct t as [neg ip fp ep]. unfold well_formed, text. cbn [t_neg t_int t_frac t_exp].
  rewrite !andb_true_iff. intros [[Hi Hf] He].
  rewrite !all_chars_app, !andb_true_iff. repeat split.
  - now destruct neg.
  - destruct ip as [|c r]; [discriminate|]. cbn [int_part] in Hi.
    rewrite !andb_true_iff in Hi. destruct Hi as [[Hc Hr] _].
    cbn [all_chars]. rewrite (isdigit_printable c Hc).
    exact (all_chars_impl _ _ r isdigit_printable Hr).
  - destruct fp as [f|]; [|reflexivity]. cbn [frac_text all_chars].
    destruct f as [|c r]; [discriminate|]. cbn [digit_run] in Hf.
    exact (all_chars_impl _ _ _ isdigit_printable Hf).
  - destruct ep as [[[up sg] ds]|]; [|reflexivity]. cbn [exp_text all_chars].
    rewrite all_chars_app.
    destruct ds as [|c r]; [discriminate|]. cbn [digit_run] in He.
    rewrite (all_chars_impl _ _ _ isdigit_printable He).
    destruct up, sg as [[]|]; reflexivity.
Qed.

Lemma double_printable d : all_chars printable (Fmt.double d) = true.
Proof.
  destruct d as [s | s | | s m e] eqn:E; try (destruct s; reflexivity); try reflexivity.
  rewrite <- E. destruct (double_token d) as (t & Hw & Ht); [now subst|].
  rewrite <- Ht. now apply text_printable.
Qed.

Lemma printable_visible indent s :
  all_chars printable s = true -> all_chars (visible indent) s = true.
Proof.
  apply all_chars_impl. intros c H. unfold visible. now rewrite H.
Qed.

Lemma spaces_printable n : all_chars printable (spaces n) = true.
Proof. induction n as [|n IH]; [reflexivity|]. cbn [spaces all_chars]. now rewrite IH. Qed.

Lemma ind_visible indent d : all_chars (visible indent) (ind indent d) = true.
Proof.
  apply printable_visible. unfold ind.
  destruct (0 <=? indent); [apply spaces_printable|reflexivity].
Qed.

Lemma newline_visible indent : all_chars (visible indent) (pretty indent (chr LF)) = true.
Proof.
  unfold pretty, visible. destruct (0 <=? indent); reflexivity.
Qed.

Lemma dump_elements_visible f indent d l :
  Forall (fun x => all_chars (visible indent) (f x) = true) l ->
  all_chars (visible indent) (dump_elements f indent d l) = true.
Proof.
  induction 1 as [|y l Hy Hl IH]; [reflexivity|].
  cbn [dump_elements].
  rewrite !all_chars_app, ind_visible, Hy, newline_visible, IH.
  destruct l; reflexivity.
Qed.

Lemma dump_members_visible f indent d l :
  Forall (fun kv => all_chars (visible indent) (f (snd kv)) = true) l ->
  all_chars (visible indent) (dump_members f indent d l) = true.
Proof.
  induction 1 as [|[k v] l Hy Hl IH]; [reflexivity|].
  cbn [dump_members]. cbn [snd] in Hy.
  rewrite !all_chars_app, ind_visible, Hy, newline_visible, IH.
  rewrite (printable_visible indent (escape k) (escape_printable k)).
  unfold pretty. destruct l, (0 <=? indent); reflexivity.
Qed.

Lemma dump_impl_visible indent j :
  forall depth, all_chars (visible indent) (dump_impl indent depth j) = true.
Proof.
  induction j as [| b | d | s | a IHa | o IHo] using Json_nested_ind; intro depth.
  - reflexivity.
  - destruct b; reflexivity.
  - apply printable_visible, double_printable.
  - cbn [dump_impl]. apply printable_visible.
    now rewrite !all_chars_app, escape_printable.
  - cbn [dump_impl]. destruct a as [|x a]; [reflexivity|].
    rewrite !all_chars_app, newline_visible, ind_visible, dump_elements_visible.
    + reflexivity.
    + eapply Forall_impl; [|exact IHa]. intros y Hy. apply Hy.
  - cbn [dump_impl]. destruct o as [|x o]; [reflexivity|].
    rewrite !all_chars_app, newline_visible, ind_visible, dump_members_visible.
    + reflexivity.
    + eapply Forall_impl; [|exact IHo]. intros y Hy. apply Hy.
Qed.

Lemma dump_elements_ext f g indent indent' d d' l :
  ind indent (d + 1) = ind indent' (d' + 1) ->
  pretty indent (chr LF) = pretty indent' (chr LF) ->
  Forall (fun x => f x = g x) l ->
  dump_elements f indent d l = dump_elements g indent' d' l.
Proof.
  intros Hi Hp. induction 1 as [|x l Hx Hl IH]; [reflexivity|].
  cbn [dump_elements]. now rewrite Hx, IH, Hi, Hp.
Qed.

Lemma dump_members_ext f g indent indent' d d' l :
  ind indent (d + 1) = ind indent' (d' + 1) ->
  pretty indent (chr LF) = pretty indent' (chr LF) ->
  pretty indent " " = pretty indent' " " ->
  Forall (fun kv => f (snd kv) = g (snd kv)) l ->
  dump_members f indent d l = dump_members g indent' d' l.
Proof.
  intros Hi Hp Hs. induction 1 as [|[k v] l Hx Hl IH]; [reflexivity|].
  cbn [dump_members]. cbn [snd] in Hx. now rewrite Hx, IH, Hi, Hp, Hs.
Qed.

Lemma dump_impl_negative indent j :
  indent < 0 -> forall depth, dump_impl indent depth j = dump compact j.
Proof.
  intro Hneg.
  assert (Hi : forall d d', ind indent d = ind compact d').
  { intros d d'. unfold ind. destruct (Z.leb_spec 0 indent); [lia|reflexivity]. }
  assert (Hp : forall c, pretty indent c = pretty compact c).
  { intro c. unfold pretty. destruct (Z.leb_spec 0 indent); [lia|reflexivity]. }
  unfold dump.
  induction j as [| b | d | s | a IHa | o IHo] using Json_nested_ind;
    intro depth; try reflexivity.
  - cbn [dump_impl]. destruct a as [|x a]; [reflexivity|].
    rewrite (Hp (chr LF)), (Hi depth 0).
    rewrite (dump_elements_ext _ (dump_impl compact (0 + 1)) indent compact depth 0);
      auto.
    eapply Forall_impl; [|exact IHa]. intros y Hy. cbv beta in Hy.
    rewrite Hy. symmetry. apply (dump_impl_compact_depth y (0 + 1)).
  - cbn [dump_impl]. destruct o as [|x o]; [reflexivity|].
    rewrite (Hp (chr LF)), (Hi depth 0).
    rewrite (dump_members_ext _ (dump_impl compact (0 + 1)) indent compact depth 0);
      auto.
    eapply Forall_impl; [|exact IHo]. intros y Hy. cbv beta in Hy.
    rewrite Hy. symmetry. apply (dump_impl_compact_depth (snd y) (0 + 1)).
Qed.

(** Every negative indent is the compact mode. *)
Theorem dump_negative_indent (indent : Z) (j : Json) (H : indent < 0) :
  dump indent j = dump compact j.
Proof. apply dump_impl_negative, H. Qed.

Lemma dump_negative_indent_witness :
  dump (-7) (Obj [("a", Arr [Null; Bool true])]) =
  dump compact (Obj [("a", Arr [Null; Bool true])]).
Proof. apply (dump_negative_indent (-7)). lia. Defined.

(** A dump holds no byte below 0x20 but the newlines of the pretty mode;
    the compact dump holds none at all and is a single line. *)
Theorem dump_bytes (indent : Z) (j : Json) :
  all_chars (visible indent) (dump indent j) = true /\
  all_chars printable (dump compact j) = true.
Proof.
  split; [apply dump_impl_visible|].
  pose proof (dump_impl_visible compact j 0) as H.
  unfold dump. revert H. generalize (dump_impl compact 0 j).
  intro s. apply all_chars_impl. intros c. unfold visible.
  change (0 <=? compact) with false. now rewrite orb_false_r.
Qed.

(** ** What [parse] makes of a dump *)

Lemma drop_ws_blank ws st :
  all_chars isspace ws = true -> drop_ws (ws ++ st) = drop_ws st.
Proof.
  induction ws as [|c ws IH]; [reflexivity|].
  cbn [all_chars]. rewrite andb_true_iff. intros [Hc Hw].
  cbn [String.append drop_ws]. rewrite Hc. now apply IH.
Qed.

(** [parse_value] after whitespace: the dispatch on the first byte that is
    no whitespace. *)
Lemma parse_value_at n ws c r :
  all_chars isspace ws = true -> isspace c = false ->
  parse_value (S n) (ws ++ String c r) =
  (if Ascii.eqb c "n" then parse_null
   else if Ascii.eqb c "t" || Ascii.eqb c "f" then parse_bool
   else if Ascii.eqb c DQ then parse_string
   else if Ascii.eqb c "-" || isdigit c then parse_number
   else if Ascii.eqb c "{" then parse_object (parse_value n)
   else if Ascii.eqb c "[" then parse_array (parse_value n)
   else throw "JSON: unexpected token") (String c r).
Proof.
  intros Hw Hc. cbn [parse_value].
  unfold bind at 1, skip_ws at 1. rewrite drop_ws_blank by exact Hw.
  cbn [drop_ws]. rewrite Hc. reflexivity.
Qed.

Lemma string_loop_escape_any c n out r :
  string_loop (S n) out (escape_char c ++ r) = string_loop n (out ++ literal_char c) r.
Proof. destruct c as [[] [] [] [] [] [] [] []]; reflexivity. Qed.

Lemma string_loop_literal s :
  forall n out rest, (String.length s < n)%nat ->
    string_loop n out (escape s ++ String DQ rest) = Ok (out ++ literal s, rest).
Proof.
  induction s as [|c r IH]; intros n out rest Hn.
  - destruct n as [|n]; [simpl in Hn; lia|].
    cbn [literal]. rewrite append_nil_r. reflexivity.
  - destruct n as [|n]; [simpl in Hn; lia|].
    cbn [escape literal]. rewrite append_assoc.
    rewrite string_loop_escape_any.
    rewrite IH by (simpl in Hn; lia).
    now rewrite append_assoc.
Qed.

Lemma parse_string_raw_literal s rest :
  parse_string_raw (quoted s ++ rest) = Ok (literal s, rest).
Proof.
  unfold quoted. rewrite !append_assoc.
  change (chr DQ ++ escape s ++ chr DQ ++ rest)
    with (String DQ (escape s ++ String DQ rest)).
  unfold parse_string_raw, bind, expect, bind, get.
  change (negb (Ascii.eqb DQ DQ)) with false. cbv iota. unfold ret.
  rewrite (string_loop_literal s); [reflexivity|].
  rewrite length_append. pose proof (escape_length s). lia.
Qed.

Lemma literal_reversible s : all_chars reversible s = true -> literal s = s.
Proof.
  induction s as [|c r IH]; [reflexivity|].
  cbn [all_chars literal]. rewrite andb_true_iff. intros [Hc Hr].
  unfold literal_char. rewrite Hc, (IH Hr). reflexivity.
Qed.

Lemma literal_char_length c : reversible c = false -> String.length (literal_char c) = 6%nat.
Proof.
  destruct c as [[] [] [] [] [] [] [] []]; intro H;
    first [discriminate H | reflexivity].
Qed.

Lemma literal_length s : (String.length s <= String.length (literal s))%nat.
Proof.
  induction s as [|c r IH]; [simpl; lia|].
  cbn [literal]. rewrite length_append. cbn [String.length].
  assert (1 <= String.length (literal_char c))%nat; [|lia].
  unfold literal_char. destruct (reversible c) eqn:E; [simpl; lia|].
  pose proof (escape_char_length c). lia.
Qed.

Lemma literal_fixed s : literal s = s -> all_chars reversible s = true.
Proof.
  induction s as [|c r IH]; [reflexivity|].
  cbn [literal all_chars]. intro E.
  destruct (reversible c) eqn:Hc.
  - unfold literal_char in E. rewrite Hc in E. cbn [chr String.append] in E.
    inversion E as [E']. now rewrite E', IH.
  - exfalso. apply (f_equal String.length) in E.
    rewrite length_append in E. unfold literal_char in E at 1. rewrite Hc in E.
    fold (literal_char c) in E.
    pose proof (literal_length r). 
    assert (String.length (escape_char c) = 6%nat).
    { rewrite <- (literal_char_length c Hc). unfold literal_char. now rewrite Hc. }
    cbn [String.length] in E. lia.
Qed.

Lemma isspace_not_continues c : isspace c = true -> continues c = false.
Proof.
  destruct c as [[] [] [] [] [] [] [] []]; vm_compute; intro H;
    first [reflexivity | discriminate H].
Qed.

Lemma opens_not_space c : opens_value c = true -> isspace c = false.
Proof.
  destruct c as [[] [] [] [] [] [] [] []]; vm_compute; intro H;
    first [reflexivity | discriminate H].
Qed.

Lemma opens_not_close c :
  opens_value c = true -> Ascii.eqb c "]" = false /\ Ascii.eqb c "}" = false.
Proof.
  destruct c as [[] [] [] [] [] [] [] []]; vm_compute; intro H;
    first [split; reflexivity | discriminate H].
Qed.

Lemma blank_then ws c r :
  all_chars isspace ws = true -> continues c = false ->
  starts_with continues (ws ++ String c r) = false.
Proof.
  destruct ws as [|w ws]; [intros _ H; exact H|].
  cbn [all_chars String.append starts_with]. rewrite andb_true_iff.
  intros [H _] _. now apply isspace_not_continues.
Qed.

Lemma drop_ws_to ws st :
  all_chars isspace ws = true -> starts_with isspace st = false ->
  drop_ws (ws ++ st) = st.
Proof. intros Hw Hs. rewrite drop_ws_blank by exact Hw. now apply drop_ws_stop. Qed.

Lemma opens_stop txt r :
  starts_with opens_value txt = true -> starts_with isspace (txt ++ r) = false.
Proof.
  destruct txt as [|c t]; [discriminate|]. cbn [starts_with String.append].
  apply opens_not_space.
Qed.

Lemma spaces_blank n : all_chars isspace (spaces n) = true.
Proof. induction n as [|n IH]; [reflexivity|]. cbn [spaces all_chars]. now rewrite IH. Qed.

Lemma ind_blank indent d : all_chars isspace (ind indent d) = true.
Proof. unfold ind. destruct (0 <=? indent); [apply spaces_blank|reflexivity]. Qed.

Lemma pretty_blank indent c :
  all_chars isspace c = true -> all_chars isspace (pretty indent c) = true.
Proof. unfold pretty. now destruct (0 <=? indent). Qed.

Lemma dump_elements_from f indent depth l :
  dump_elements f indent depth l =
  match l with [] => "" | _ => ind indent (depth + 1) end ++
  elements_from f indent depth l.
Proof. destruct l; reflexivity. Qed.

Lemma dump_members_from f indent depth l :
  dump_members f indent depth l =
  match l with [] => "" | _ => ind indent (depth + 1) end ++
  members_from f indent depth l.
Proof.
  destruct l as [|[k v] l]; [reflexivity|].
  cbn [dump_members members_from]. unfold quoted. now rewrite !append_assoc.
Qed.

Section DumpedLoops.

Variable pv : Parser Json.
Variable bound : nat.
Variable f : Json -> string.
Variable R : Json -> result Json.
Variables indent depth : Z.


Lemma nested_here x rest :
  nested_ok pv bound f R x ->
  (String.length (f x) + String.length rest < bound)%nat ->
  starts_with continues rest = false ->
  pv (f x ++ rest) = answer (R x) rest.
Proof. intros [H _] Hb Hr. exact (H "" rest Hb eq_refl Hr). Qed.

Lemma elements_from_stop l r :
  Forall (nested_ok pv bound f R) l -> l <> [] ->
  starts_with isspace (elements_from f indent depth l ++ r) = false.
Proof.
  intros H Hne. destruct l as [|x l]; [congruence|].
  inversion H as [|? ? [_ Hx] _]; subst.
  cbn [elements_from]. rewrite !append_assoc. now apply opens_stop.
Qed.

Lemma array_loop_dumped :
  forall l, Forall (nested_ok pv bound f R) l -> l <> [] ->
    forall k arr rest,
      (String.length (elements_from f indent depth l ++ ind indent depth ++ String "]" rest) < k)%nat ->
      (String.length (elements_from f indent depth l ++ ind indent depth ++ String "]" rest) < bound)%nat ->
      array_loop pv k arr
        (elements_from f indent depth l ++ ind indent depth ++ String "]" rest) =
      answer (reparse_elements R l arr) rest.
Proof.
  induction l as [|x l IH]; intros Hl Hne k arr rest Hk Hb; [congruence|].
  destruct k as [|k]; [lia|].
  inversion Hl as [|? ? Hx Hl']; subst.
  assert (Hfx : (1 <= String.length (f x))%nat)
    by (destruct Hx as [_ Hx]; destruct (f x); [discriminate|simpl; lia]).
  cbn [elements_from reparse_elements] in *.
  rewrite !append_assoc in *. rewrite !length_append in Hk, Hb.
  cbn [array_loop]. unfold bind at 1.
  destruct l as [|x2 l].
  - cbn [dump_elements String.append] in *.
    rewrite (nested_here x _ Hx); cycle 1.
    { rewrite !length_append in *. cbn [String.length] in *. lia. }
    { rewrite <- append_assoc. apply blank_then; [|reflexivity].
      rewrite all_chars_app, ind_blank, pretty_blank; reflexivity. }
    destruct (R x) as [v|e]; [|reflexivity]. cbn [answer].
    unfold bind at 1, skip_ws at 1. rewrite <- append_assoc.
    rewrite drop_ws_to; [|rewrite all_chars_app, ind_blank, pretty_blank; reflexivity
                         |reflexivity].
    reflexivity.
  - set (tail := elements_from f indent depth (x2 :: l) ++ ind indent depth ++ String "]" rest) in *.
    assert (Ht : String.length tail =
                 (String.length (elements_from f indent depth (x2 :: l)) +
                  (String.length (ind indent depth) + S (String.length rest)))%nat)
      by (unfold tail; rewrite !length_append; reflexivity).
    rewrite (dump_elements_from f indent depth (x2 :: l)) in *.
    rewrite !append_assoc in *.
    cbn [String.append] in *. fold tail.
    rewrite !length_append in Hk, Hb. cbn [String.length] in Hk, Hb.
    rewrite (nested_here x _ Hx); cycle 1.
    { cbn [String.length]. rewrite !length_append. lia. }
    { reflexivity. }
    destruct (R x) as [v|e]; [|reflexivity]. cbn [answer].
    unfold bind at 1, skip_ws at 1. cbn [drop_ws].
    change (isspace ",") with false. cbv iota.
    unfold bind at 1. cbn [get].
    change (Ascii.eqb "," "]") with false. change (negb (Ascii.eqb "," ",")) with false.
    cbv iota. unfold bind at 1, skip_ws at 1.
    rewrite <- append_assoc.
    rewrite drop_ws_to; cycle 1.
    { rewrite all_chars_app, ind_blank, pretty_blank; reflexivity. }
    { unfold tail. apply elements_from_stop; [exact Hl'|discriminate]. }
    unfold tail. apply IH; [exact Hl'|discriminate| |]; fold tail; lia.
Qed.

Lemma members_from_head l r :
  l <> [] -> exists t, members_from f indent depth l ++ r = String DQ t.
Proof.
  destruct l as [|[k v] l]; [congruence|]. intros _.
  cbn [members_from]. unfold quoted. rewrite !append_assoc.
  eexists. reflexivity.
Qed.

Lemma object_loop_dumped :
  forall l, Forall (fun kv => nested_ok pv bound f R (snd kv)) l -> l <> [] ->
    forall k obj rest,
      (String.length (members_from f indent depth l ++ ind indent depth ++ String "}" rest) < k)%nat ->
      (String.length (members_from f indent depth l ++ ind indent depth ++ String "}" rest) < bound)%nat ->
      object_loop pv k obj
        (members_from f indent depth l ++ ind indent depth ++ String "}" rest) =
      answer (reparse_members R l obj) rest.
Proof.
  induction l as [|[key x] l IH]; intros Hl Hne k obj rest Hk Hb; [congruence|].
  destruct k as [|k]; [lia|].
  inversion Hl as [|? ? [Hx Hxo] Hl']; subst. cbn [snd] in Hx, Hxo.
  assert (Hfx : (1 <= String.length (f x))%nat)
    by (destruct (f x); [discriminate|simpl; lia]).
  cbn [members_from reparse_members] in *.
  rewrite !append_assoc in *. rewrite !length_append in Hk, Hb.
  cbn [object_loop].
  set (after := f x ++ match l with [] => "" | _ => "," end ++
                pretty indent (chr LF) ++ dump_members f indent depth l ++
                ind indent depth ++ String "}" rest) in *.
  cbn [String.append].
  assert (Eq0 : quoted key ++ String ":" (pretty indent " " ++ after) =
                String DQ (escape key ++ String DQ (String ":" (pretty indent " " ++ after)))).
  { unfold quoted. rewrite !append_assoc. reflexivity. }
  rewrite (bind_eq _ _ _ tt (quoted key ++ String ":" (pretty indent " " ++ after)))
    by (rewrite Eq0; reflexivity).
  rewrite (bind_eq _ _ _ DQ (quoted key ++ String ":" (pretty indent " " ++ after)))
    by (rewrite Eq0; reflexivity).
  change (negb (Ascii.eqb DQ DQ)) with false. cbv iota.
  rewrite (bind_eq _ _ _ _ _ (parse_string_raw_literal key _)).
  rewrite (bind_eq _ _ _ tt (String ":" (pretty indent " " ++ after))) by reflexivity.
  rewrite (bind_eq _ _ _ tt (pretty indent " " ++ after)) by reflexivity.
  unfold bind at 1. unfold after at 1.
  rewrite (Hx (pretty indent " ")); cycle 1.
  { rewrite ?length_append. cbn [String.length] in *. lia. }
  { apply pretty_blank. reflexivity. }
  { destruct l as [|m l].
    - cbn [dump_members String.append].
      rewrite <- append_assoc. apply blank_then; [|reflexivity].
      rewrite all_chars_app, ind_blank, pretty_blank; reflexivity.
    - reflexivity. }
  destruct (R x) as [v|e]; [|reflexivity]. cbn [answer].
  destruct l as [|m l].
  - cbn [dump_members String.append reparse_members].
    unfold bind at 1, skip_ws at 1.
    rewrite <- append_assoc.
    rewrite drop_ws_to; [|rewrite all_chars_app, ind_blank, pretty_blank; reflexivity
                         |reflexivity].
    reflexivity.
  - set (tail := members_from f indent depth (m :: l) ++ ind indent depth ++ String "}" rest) in *.
    assert (Ht : String.length tail =
                 (String.length (members_from f indent depth (m :: l)) +
                  (String.length (ind indent depth) + S (String.length rest)))%nat)
      by (unfold tail; rewrite !length_append; reflexivity).
    unfold after in Hk, Hb.
    rewrite (dump_members_from f indent depth (m :: l)) in *.
    rewrite !append_assoc in *.
    cbn [String.append] in *. fold tail.
    rewrite !length_append in Hk, Hb. cbn [String.length] in Hk, Hb.
    unfold bind at 1, skip_ws at 1. cbn [drop_ws].
    change (isspace ",") with false. cbv iota.
    unfold bind at 1. cbn [get].
    change (Ascii.eqb "," "}") with false. change (negb (Ascii.eqb "," ",")) with false.
    cbv iota. unfold bind at 1, skip_ws at 1.
    rewrite <- append_assoc.
    rewrite drop_ws_to; cycle 1.
    { rewrite all_chars_app, ind_blank, pretty_blank; reflexivity. }
    { unfold tail. destruct (members_from_head (m :: l) (ind indent depth ++ String "}" rest))
        as [t ->]; [discriminate|reflexivity]. }
    unfold tail. apply IH; [exact Hl'|discriminate| |]; fold tail; lia.
Qed.

End DumpedLoops.

Lemma yields_number d : yields (Fmt.double d) (reparse_number d).
Proof.
  intros [|n] ws rest Hn Hw Hr; [lia|].
  assert (Hfin : is_finite d = true ->
                 parse_value (S n) (ws ++ Fmt.double d ++ rest) =
                 answer (match Stod.stod (Fmt.double d) with
                         | Ok d' => Ok (Num d')
                         | Err e => Err e
                         end) rest).
  { intro Hf. destruct (double_token d Hf) as (t & Hwf & Ht).
    rewrite <- Ht, (stod_text t Hwf).
    destruct (text_head t Hwf) as (c & r & Et & Hc & Hsp & Hnn & Htf & Hq).
    rewrite Et. cbn [String.append].
    rewrite parse_value_at by assumption.
    rewrite Hnn, Htf, Hq, Hc.
    change (String c (r ++ rest)) with (String c r ++ rest). rewrite <- Et.
    rewrite parse_number_text by assumption.
    destruct (token_stod t); reflexivity. }
  destruct d as [s | [] | | s m e]; try (apply Hfin; reflexivity);
    cbn [Fmt.double String.append];
    (rewrite parse_value_at; [reflexivity|assumption|reflexivity]).
Qed.

Lemma double_opens d : starts_with opens_value (Fmt.double d) = true.
Proof.
  destruct d as [s | s | | s m e] eqn:E; try (destruct s; reflexivity); try reflexivity.
  rewrite <- E. destruct (double_token d) as (t & Hw & Ht); [now subst|].
  rewrite <- Ht. destruct (text_head t Hw) as (c & r & -> & Hc & _).
  cbn [starts_with]. unfold opens_value, dispatches.
  apply orb_true_iff in Hc as [Hc|Hc]; rewrite Hc; rewrite ?orb_true_r; reflexivity.
Qed.

Lemma yields_string s : yields (quoted s) (Ok (Str (literal s))).
Proof.
  intros [|n] ws rest Hn Hw Hr; [lia|].
  assert (E : quoted s ++ rest = String DQ (escape s ++ String DQ rest)).
  { unfold quoted. rewrite !append_assoc. reflexivity. }
  rewrite E, parse_value_at; [|assumption|reflexivity].
  change (Ascii.eqb DQ "n") with false.
  change (Ascii.eqb DQ "t" || Ascii.eqb DQ "f") with false.
  change (Ascii.eqb DQ DQ) with true. cbv iota.
  rewrite <- E. unfold parse_string.
  rewrite (bind_eq _ _ _ _ _ (parse_string_raw_literal s rest)). reflexivity.
Qed.

(** What [parse_value] makes of the text [dump_impl] writes, in every mode
    and at every depth. *)
Lemma dump_yields j :
  forall indent depth,
    yields (dump_impl indent depth j) (reparse j) /\
    starts_with opens_value (dump_impl indent depth j) = true.
Proof.
  induction j as [| b | d | s | a IHa | o IHo] using Json_nested_ind;
    intros indent depth.
  - split; [|reflexivity]. intros [|n] ws rest Hn Hw Hr; [lia|].
    cbn [dump_impl String.append].
    rewrite parse_value_at; [reflexivity|assumption|reflexivity].
  - split; [|destruct b; reflexivity]. intros [|n] ws rest Hn Hw Hr; [lia|].
    destruct b; cbn [dump_impl String.append];
      (rewrite parse_value_at; [reflexivity|assumption|reflexivity]).
  - split; [apply yields_number|apply double_opens].
  - split; [apply yields_string|reflexivity].
  - split; [|reflexivity]. intros [|n] ws rest Hn Hw Hr; [lia|].
    cbn [dump_impl reparse] in Hn |- *. destruct a as [|x a].
    + cbn [String.append].
      rewrite parse_value_at; [reflexivity|assumption|reflexivity].
    + set (f := dump_impl indent (depth + 1)) in *.
      rewrite (dump_elements_from f indent depth (x :: a)) in *.
      rewrite !append_assoc in *. cbn [String.append] in *.
      rewrite parse_value_at; [|assumption|reflexivity].
      change (Ascii.eqb "[" "n") with false.
      change (Ascii.eqb "[" "t" || Ascii.eqb "[" "f") with false.
      change (Ascii.eqb "[" DQ) with false.
      change (Ascii.eqb "[" "-" || isdigit "[") with false.
      change (Ascii.eqb "[" "{") with false.
      change (Ascii.eqb "[" "[") with true. cbv iota.
      assert (Hok : Forall (nested_ok (parse_value n) n f reparse) (x :: a)).
      { eapply Forall_impl; [|exact IHa]. intros y Hy. cbv beta in Hy.
        destruct (Hy indent (depth + 1)) as [Hy1 Hy2]. split; [|exact Hy2].
        intros ws' rest' Hl Hw' Hr'. now apply Hy1. }
      set (st := elements_from f indent depth (x :: a) ++ ind indent depth ++ String "]" rest).
      assert (Hst : drop_ws (pretty indent (chr LF) ++ ind indent (depth + 1) ++ st) = st).
      { rewrite <- append_assoc. apply drop_ws_to.
        - rewrite all_chars_app, ind_blank, pretty_blank; reflexivity.
        - apply (elements_from_stop (parse_value n) n f reparse); [exact Hok|discriminate]. }
      unfold parse_array.
      rewrite (bind_eq _ _ _ tt (pretty indent (chr LF) ++ ind indent (depth + 1) ++ st))
        by reflexivity.
      unfold bind at 1, skip_ws at 1. rewrite Hst.
      assert (Hc : exists c r, st = String c r /\ opens_value c = true).
      { inversion Hok as [|? ? [_ Hx] _]; subst. unfold st. cbn [elements_from].
        destruct (f x) as [|c r]; [discriminate|].
        rewrite !append_assoc. cbn [String.append]. eauto. }
      destruct Hc as (c & r & Ec & Hc).
      rewrite Ec at 1. unfold bind at 1. cbn [peek].
      rewrite (proj1 (opens_not_close c Hc)). rewrite <- Ec.
      assert (Hlen : (String.length st < n)%nat).
      { unfold st. rewrite ?length_append in *. cbn [String.length] in *.
        rewrite ?length_append in *. cbn [String.length] in *. lia. }
      apply (array_loop_dumped (parse_value n) n f reparse indent depth (x :: a) Hok
               ltac:(discriminate) (S (String.length st)) [] rest);
        [unfold st; lia|unfold st in Hlen; exact Hlen].
  - split; [|reflexivity]. intros [|n] ws rest Hn Hw Hr; [lia|].
    cbn [dump_impl reparse] in Hn |- *. destruct o as [|x o].
    + cbn [String.append].
      rewrite parse_value_at; [reflexivity|assumption|reflexivity].
    + set (f := dump_impl indent (depth + 1)) in *.
      rewrite (dump_members_from f indent depth (x :: o)) in *.
      rewrite !append_assoc in *. cbn [String.append] in *.
      rewrite parse_value_at; [|assumption|reflexivity].
      change (Ascii.eqb "{" "n") with false.
      change (Ascii.eqb "{" "t" || Ascii.eqb "{" "f") with false.
      change (Ascii.eqb "{" DQ) with false.
      change (Ascii.eqb "{" "-" || isdigit "{") with false.
      change (Ascii.eqb "{" "{") with true. cbv iota.
      assert (Hok : Forall (fun kv => nested_ok (parse_value n) n f reparse (snd kv)) (x :: o)).
      { eapply Forall_impl; [|exact IHo]. intros y Hy. cbv beta in Hy.
        destruct (Hy indent (depth + 1)) as [Hy1 Hy2]. split; [|exact Hy2].
        intros ws' rest' Hl Hw' Hr'. now apply Hy1. }
      set (st := members_from f indent depth (x :: o) ++ ind indent depth ++ String "}" rest).
      destruct (members_from_head f indent depth (x :: o)
                  (ind indent depth ++ String "}" rest)) as [t Et]; [discriminate|].
      fold st in Et.
      assert (Hst : drop_ws (pretty indent (chr LF) ++ ind indent (depth + 1) ++ st) = st).
      { rewrite <- append_assoc. apply drop_ws_to.
        - rewrite all_chars_app, ind_blank, pretty_blank; reflexivity.
        - rewrite Et. reflexivity. }
      unfold parse_object.
      rewrite (bind_eq _ _ _ tt (pretty indent (chr LF) ++ ind indent (depth + 1) ++ st))
        by reflexivity.
      unfold bind at 1, skip_ws at 1. rewrite Hst.
      rewrite Et at 1. unfold bind at 1. cbn [peek].
      change (Ascii.eqb DQ "}") with false. cbv iota. rewrite <- Et.
      assert (Hlen : (String.length st < n)%nat).
      { unfold st. rewrite ?length_append in *. cbn [String.length] in *.
        rewrite ?length_append in *. cbn [String.length] in *. lia. }
      apply (object_loop_dumped (parse_value n) n f reparse indent depth (x :: o) Hok
               ltac:(discriminate) (S (String.length st)) [] rest);
        [unfold st; lia|unfold st in Hlen; exact Hlen].
Qed.

(** [parse] of a dump, in every mode. *)
Lemma parse_dump_reparse indent j : parse (dump indent j) = reparse j.
Proof.
  unfold parse, dump.
  destruct (dump_yields j indent 0) as [H _].
  specialize (H (S (String.length (dump_impl indent 0 j))) "" "").
  cbn [String.append String.length] in H. rewrite append_nil_r in H.
  rewrite H; [|lia|reflexivity|reflexivity].
  destruct (reparse j); reflexivity.
Qed.

Lemma reparse_number_finite d :
  is_finite d = true ->
  reparse_number d = Err OutOfRange \/
  exists d', reparse_number d = Ok (Num d') /\ is_finite d' = true.
Proof.
  intro Hf. destruct (double_token d Hf) as (t & Hw & Ht).
  assert (E : reparse_number d =
              match Stod.stod (Fmt.double d) with
              | Ok d' => Ok (Num d')
              | Err e => Err e
              end) by (destruct d as [|[]| |]; try reflexivity; discriminate).
  rewrite E. destruct (Stod.stod (Fmt.double d)) as [d'|e] eqn:Es.
  - right. exists d'. split; [reflexivity|]. exact (stod_finite _ _ Es).
  - left. rewrite <- Ht, (stod_text t Hw) in Es. unfold token_stod in Es.
    destruct (token_fraction t) as [num den].
    destruct (Stod.erange _ num den); [|discriminate]. now inversion Es.
Qed.

Lemma reparse_elements_finite l :
  Forall (fun x => reparse x = Err OutOfRange \/ exists v, reparse x = Ok v) l ->
  forall arr,
    reparse_elements reparse l arr = Err OutOfRange \/
    exists v, reparse_elements reparse l arr = Ok v.
Proof.
  induction 1 as [|x l Hx Hl IH]; intro arr; cbn [reparse_elements].
  - right. eauto.
  - destruct Hx as [->|[v ->]]; [now left|apply IH].
Qed.

Lemma reparse_members_finite l :
  Forall (fun kv => reparse (snd kv) = Err OutOfRange \/
                    exists v, reparse (snd kv) = Ok v) l ->
  forall obj,
    reparse_members reparse l obj = Err OutOfRange \/
    exists v, reparse_members reparse l obj = Ok v.
Proof.
  induction 1 as [|[k x] l Hx Hl IH]; intro obj; cbn [reparse_members].
  - right. eauto.
  - cbn [snd] in Hx. destruct Hx as [->|[v ->]]; [now left|apply IH].
Qed.

Lemma reparse_finite j :
  every number_finite j ->
  reparse j = Err OutOfRange \/ exists v, reparse j = Ok v.
Proof.
  induction j as [| b | d | s | a IHa | o IHo] using Json_nested_ind; intro H;
    try (right; eexists; reflexivity).
  - apply every_here in H. cbn [number_finite] in H. cbn [reparse].
    destruct (reparse_number_finite d H) as [E|(d' & E & _)]; [now left|right; eauto].
  - cbn [reparse]. apply reparse_elements_finite.
    apply every_arr in H. rewrite Forall_forall in *. intros x Hx. auto.
  - cbn [reparse]. apply reparse_members_finite.
    apply every_obj in H. rewrite Forall_forall in *. intros x Hx. auto.
Qed.

Lemma reparse_elements_ok l :
  Forall (fun x => forall v, reparse x = Ok v -> every number_finite x) l ->
  forall arr v, reparse_elements reparse l arr = Ok v -> Forall (every number_finite) l.
Proof.
  induction 1 as [|x l Hx Hl IH]; intros arr v E; [constructor|].
  cbn [reparse_elements] in E. destruct (reparse x) as [w|e] eqn:Ex; [|discriminate].
  constructor; [exact (Hx w eq_refl)|exact (IH _ _ E)].
Qed.

Lemma reparse_members_ok l :
  Forall (fun kv => forall v, reparse (snd kv) = Ok v -> every number_finite (snd kv)) l ->
  forall obj v, reparse_members reparse l obj = Ok v ->
    Forall (fun kv => every number_finite (snd kv)) l.
Proof.
  induction 1 as [|[k x] l Hx Hl IH]; intros obj v E; [constructor|].
  cbn [reparse_members] in E. cbn [snd] in Hx.
  destruct (reparse x) as [w|e] eqn:Ex; [|discriminate].
  constructor; [exact (Hx w eq_refl)|exact (IH _ _ E)].
Qed.

Lemma every_of_arr (Q : Json -> Prop) a :
  Q (Arr a) -> Forall (every Q) a -> every Q (Arr a).
Proof.
  intros Hq H. split; [exact Hq|]. clear Hq.
  induction H as [|x l Hx Hl IH]; [exact I|]. split; [exact Hx|exact IH].
Qed.

Lemma every_of_obj (Q : Json -> Prop) o :
  Q (Obj o) -> Forall (fun kv => every Q (snd kv)) o -> every Q (Obj o).
Proof.
  intros Hq H. split; [exact Hq|]. clear Hq.
  induction H as [|[k x] l Hx Hl IH]; [exact I|]. split; [exact Hx|exact IH].
Qed.

Lemma reparse_ok_finite j : forall v, reparse j = Ok v -> every number_finite j.
Proof.
  induction j as [| b | d | s | a IHa | o IHo] using Json_nested_ind; intros v E;
    try (split; exact I).
  - split; [|exact I]. cbn [number_finite].
    destruct d as [|[]| |]; try reflexivity; discriminate.
  - apply every_of_arr; [exact I|]. exact (reparse_elements_ok a IHa [] v E).
  - apply every_of_obj; [exact I|]. exact (reparse_members_ok o IHo [] v E).
Qed.

(** The indent plays no part in what a dump parses to: the text of every
    value, in every mode, parses to what its compact text parses to (or
    throws the same exception); so the pretty dump of a document that
    round-trips parses back to the document. *)
Theorem parse_dump_any_indent (indent : Z) (j : Json) :
  parse (dump indent j) = parse (dump compact j) /\
  (every roundtrips_here j -> parse (dump indent j) = Ok j).
Proof.
  split.
  - now rewrite !parse_dump_reparse.
  - intro H. rewrite parse_dump_reparse, <- (parse_dump_reparse compact).
    apply reads_parse. now apply document_reads.
Qed.

(** Dumping a String and parsing the text never fails, in any mode: it
    gives the String in which every control byte without a short escape
    stands as the six characters of its [\u00XX] escape, that is the String
    itself exactly when it holds no such byte. *)
Theorem string_reparse (indent : Z) (s : string) :
  parse (dump indent (Str s)) = Ok (Str (literal s)) /\
  (literal s = s <-> all_chars reversible s = true).
Proof.
  split; [apply parse_dump_reparse|].
  split; [apply literal_fixed|apply literal_reversible].
Qed.

(** The dump of a document without infinity or NaN is always a text of the
    grammar of the parser: [parse] returns a value or [std::stod] throws
    [std::out_of_range], and no syntax error is possible.  The exception
    does occur: the largest finite double is written with 15 digits as
    1.79769313486232e+308, which is above every double. *)
Theorem dump_is_parsable (indent : Z) (j : Json) (H : every number_finite j) :
  ((exists j', parse (dump indent j) = Ok j') \/
   parse (dump indent j) = Err OutOfRange) /\
  dump indent (Num dbl_max) = "1.79769313486232e+308" /\
  parse (dump indent (Num dbl_max)) = Err OutOfRange.
Proof.
  split; [|split].
  - rewrite parse_dump_reparse.
    destruct (reparse_finite j H) as [E|[v E]]; [now right|left; eauto].
  - vm_compute. reflexivity.
  - rewrite parse_dump_reparse. vm_compute. reflexivity.
Qed.

Lemma dump_is_parsable_witness :
  ((exists j', parse (dump 2 (Arr [of_int 1; Str "a"])) = Ok j') \/
   parse (dump 2 (Arr [of_int 1; Str "a"])) = Err OutOfRange) /\
  dump 2 (Num dbl_max) = "1.79769313486232e+308" /\
  parse (dump 2 (Num dbl_max)) = Err OutOfRange.
Proof.
  apply (dump_is_parsable 2 (Arr [of_int 1; Str "a"])).
  simpl. repeat split; reflexivity.
Defined.

(** A dump that parses back, in any mode, is the dump of a document
    without infinity or NaN: these are written as inf, -inf and nan, which
    the parser rejects wherever they stand. *)
Theorem nonfinite_never_parses (indent : Z) (j j' : Json)
    (H : parse (dump indent j) = Ok j') :
  every number_finite j.
Proof. rewrite parse_dump_reparse in H. exact (reparse_ok_finite j j' H). Qed.

Lemma nonfinite_never_parses_witness :
  every number_finite (Arr [of_int 7; Null]).
Proof.
  apply (nonfinite_never_parses 2 (Arr [of_int 7; Null]) (Arr [of_int 7; Null])).
  vm_compute. reflexivity.
Defined.

(** ** The exceptions of [parse] *)

Ltac listed := cbv; repeat (first [left; reflexivity | right]).

Lemma allowed_bind {A B} (p : Parser A) (f : A -> Parser B) st :
  allowed (p st) ->
  (forall a st1, p st = Ok (a, st1) -> allowed (f a st1)) ->
  allowed (bind p f st).
Proof.
  unfold bind. destruct (p st) as [[a st1]|e]; [|intros H _; exact H].
  intros _ H. now apply H.
Qed.

Lemma clean_bind {A B} (p : Parser A) (f : A -> Parser B) :
  clean p -> (forall a, clean (f a)) -> clean (bind p f).
Proof. intros Hp Hf st. apply allowed_bind; [apply Hp|]. intros a st1 _. apply Hf. Qed.

Lemma clean_ret {A} (a : A) : clean (ret a).
Proof. intro st. exact I. Qed.

Lemma clean_throw {A} what : In what parser_messages -> clean (@throw A what).
Proof. intros H st. exact H. Qed.

Lemma clean_total {A} (p : Parser A) : (forall st, exists r, p st = Ok r) -> clean p.
Proof. intros H st. destruct (H st) as [r ->]. exact I. Qed.

Lemma clean_eof : clean eof.
Proof. apply clean_total. intros [|c r]; eexists; reflexivity. Qed.
Lemma clean_peek : clean peek.
Proof. apply clean_total. intros [|c r]; eexists; reflexivity. Qed.
Lemma clean_get : clean get.
Proof. apply clean_total. intros [|c r]; eexists; reflexivity. Qed.
Lemma clean_advance : clean advance.
Proof. apply clean_total. intros [|c r]; eexists; reflexivity. Qed.
Lemma clean_skip_ws : clean skip_ws.
Proof. apply clean_total. intros st; eexists; reflexivity. Qed.
Lemma clean_skip_digits : clean skip_digits.
Proof. apply clean_total. intros st; eexists; reflexivity. Qed.

Lemma clean_expect c :
  In ("JSON: expected '" ++ chr c ++ "'") parser_messages -> clean (expect c).
Proof.
  intros H. unfold expect. apply clean_bind; [apply clean_get|]. intro g.
  destruct (negb (Ascii.eqb g c)); [now apply clean_throw|apply clean_ret].
Qed.

(** Splits a goal [clean p] along the binds and tests of [p]. *)
Ltac clean_step :=
  match goal with
  | |- clean (bind _ _) => apply clean_bind; [|intro]
  | |- clean (if ?b then _ else _) => destruct b
  | |- clean (ret _) => apply clean_ret
  | |- clean (throw _) => apply clean_throw; listed
  | |- clean (expect _) => apply clean_expect; listed
  | |- clean eof => apply clean_eof
  | |- clean peek => apply clean_peek
  | |- clean get => apply clean_get
  | |- clean advance => apply clean_advance
  | |- clean skip_ws => apply clean_skip_ws
  | |- clean skip_digits => apply clean_skip_digits
  end.
Ltac clean_auto := repeat clean_step.

Lemma clean_scan_number : clean scan_number.
Proof.
  unfold scan_number, scan_sign, scan_int, scan_frac, scan_exp, digits1. clean_auto.
Qed.

Lemma clean_string_loop n : forall out, clean (string_loop n out).
Proof.
  induction n as [|n IH]; intro out; [intro st; exact I|].
  cbn [string_loop]. clean_auto; apply IH.
Qed.

(** The literals, entered on their first byte. *)
Lemma allowed_parse_null r : allowed (parse_null (String "n" r)).
Proof.
  unfold parse_null. rewrite (bind_eq _ _ _ tt r) by reflexivity.
  revert r. change (clean (expect "u" ;; expect "l" ;; expect "l" ;; ret Null)).
  clean_auto.
Qed.

Lemma allowed_parse_bool c r :
  Ascii.eqb c "t" || Ascii.eqb c "f" = true -> allowed (parse_bool (String c r)).
Proof.
  intro H. unfold parse_bool. rewrite (bind_eq _ _ _ c (String c r)) by reflexivity.
  destruct (Ascii.eqb_spec c "t") as [->|Hn].
  - rewrite (bind_eq _ _ _ tt r) by reflexivity.
    revert r. change (clean (expect "r" ;; expect "u" ;; expect "e" ;; ret (Bool true))).
    clean_auto.
  - cbn [orb] in H. apply Ascii.eqb_eq in H. subst c.
    rewrite (bind_eq _ _ _ tt r) by reflexivity.
    revert r.
    change (clean (expect "a" ;; expect "l" ;; expect "s" ;; expect "e" ;;
                   ret (Bool false))).
    clean_auto.
Qed.

Lemma allowed_parse_string_raw r : allowed (parse_string_raw (String DQ r)).
Proof.
  unfold parse_string_raw. rewrite (bind_eq _ _ _ tt r) by reflexivity.
  apply clean_string_loop.
Qed.

Lemma allowed_parse_string r : allowed (parse_string (String DQ r)).
Proof.
  unfold parse_string. apply allowed_bind; [apply allowed_parse_string_raw|].
  intros. exact I.
Qed.

(** The token that [parse_number] passes to [std::stod] holds a digit, so
    [std::invalid_argument] is never thrown. *)
Lemma isdigit_not_sign d :
  isdigit d = true -> Ascii.eqb d "-" = false /\ Ascii.eqb d "+" = false.
Proof.
  destruct d as [[] [] [] [] [] [] [] []]; vm_compute; intro H;
    first [split; reflexivity | discriminate H].
Qed.

Lemma stod_digit d t :
  isdigit d = true ->
  Stod.stod (String d t) <> Err InvalidArgument /\
  Stod.stod (String "-" (String d t)) <> Err InvalidArgument.
Proof.
  intro Hd. destruct (isdigit_not_sign d Hd) as [Hm Hp].
  assert (G : forall neg,
            (let (ip, s2) := Stod.span_digits (String d t) in
             let (fp, s3) :=
               match s2 with
               | String c r =>
                   if Ascii.eqb c "." then Stod.span_digits r else (EmptyString, s2)
               | EmptyString => (EmptyString, s2)
               end in
             match ip ++ fp with
             | EmptyString => Err InvalidArgument
             | ds =>
                 let (num, den) :=
                   Stod.fraction (Stod.value 0 ds)
                     (Stod.exponent s3 - Z.of_nat (String.length fp)) in
                 let x := Stod.nearest neg num den in
                 if Stod.erange x num den then Err OutOfRange else Ok x
             end) <> Err InvalidArgument).
  { intro neg. cbn [Stod.span_digits]. rewrite Hd.
    destruct (Stod.span_digits t) as [ip s2].
    destruct (match s2 with
              | String c r =>
                  if Ascii.eqb c "." then Stod.span_digits r else (EmptyString, s2)
              | EmptyString => (EmptyString, s2)
              end) as [fp s3].
    cbn [String.append].
    destruct (Stod.fraction _ _) as [num den].
    destruct (Stod.erange _ num den); discriminate. }
  split.
  - unfold Stod.stod. cbn [Stod.sign]. rewrite Hm, Hp. apply G.
  - unfold Stod.stod. cbn [Stod.sign].
    change (Ascii.eqb "-" "-") with true. cbv iota. apply G.
Qed.

Lemma scan_int_digit st u st' :
  scan_int st = Ok (u, st') ->
  exists d r, st = String d r /\ isdigit d = true /\
              (String.length st' <= String.length r)%nat.
Proof.
  unfold scan_int, bind. destruct st as [|d r]; cbn [peek].
  - change (Ascii.eqb NUL "0") with false. cbv iota.
    unfold digits1, bind. cbn [peek]. change (isdigit NUL) with false. discriminate.
  - destruct (Ascii.eqb_spec d "0") as [->|Hn].
    + cbn [advance]. intro H. inversion H; subst. exists "0"%char, st'.
      split; [reflexivity|split; [reflexivity|lia]].
    + unfold digits1, bind. cbn [peek].
      destruct (isdigit d) eqn:Hd; cbn [negb]; [|discriminate].
      unfold skip_digits. cbn [drop_digits]. rewrite Hd.
      intro H. inversion H; subst. exists d, r.
      split; [reflexivity|split; [exact Hd|apply drop_digits_length]].
Qed.

Lemma substring_head c r k :
  substring 0 (S k) (String c r) = String c (substring 0 k r).
Proof. reflexivity. Qed.

Lemma allowed_parse_number st : allowed (parse_number st).
Proof.
  unfold parse_number.
  pose proof (clean_scan_number st) as Hs.
  destruct (scan_number st) as [[u st1]|e] eqn:E; [|exact Hs]. clear Hs.
  destruct (Stod.stod _) as [x|e] eqn:Es; [exact I|].
  destruct (stod_err _ _ Es) as [-> | ->]; [exact I|]. exfalso.
  unfold scan_number in E.
  apply bind_ok in E as (u1 & s1 & E1 & E).
  apply bind_ok in E as (u2 & s2 & E2 & E).
  assert (Hrest : nonincr (scan_frac ;; scan_exp))
    by (apply nonincr_bind; [apply nonincr_scan_frac|intro; apply nonincr_scan_exp]).
  apply Hrest in E.
  apply scan_int_digit in E2 as (d & r & -> & Hd & Hl).
  unfold scan_sign, bind in E1. destruct st as [|c r0]; cbn [peek] in E1.
  - change (Ascii.eqb NUL "-") with false in E1. discriminate.
  - destruct (Ascii.eqb_spec c "-") as [->|Hn].
    + cbn [advance] in E1. inversion E1; subst r0. clear E1.
      cbn [String.length] in Es.
      replace (S (S (String.length r)) - String.length st1)%nat
        with (S (S (String.length r - String.length st1))) in Es by lia.
      rewrite !substring_head in Es.
      exact (proj2 (stod_digit d _ Hd) Es).
    + cbn [ret] in E1. inversion E1 as [[Ec Er]]. subst c r0. clear E1.
      cbn [String.length] in Es.
      replace (S (String.length r) - String.length st1)%nat
        with (S (String.length r - String.length st1)) in Es by lia.
      rewrite !substring_head in Es.
      exact (proj1 (stod_digit d _ Hd) Es).
Qed.

Section CleanLoops.

Variable pv : Parser Json.
Hypothesis pv_clean : clean pv.

Lemma clean_array_loop n : forall arr, clean (array_loop pv n arr).
Proof.
  induction n as [|n IH]; intro arr; [intro st; exact I|].
  cbn [array_loop]. clean_auto; first [apply pv_clean|apply IH].
Qed.

Lemma allowed_parse_array r : allowed (parse_array pv (String "[" r)).
Proof.
  unfold parse_array. rewrite (bind_eq _ _ _ tt r) by reflexivity.
  revert r.
  change (clean (skip_ws ;; c <- peek ;;
                 if Ascii.eqb c "]" then get ;; ret (Arr [])
                 else fun st => array_loop pv (S (String.length st)) [] st)).
  clean_auto. intro st. apply clean_array_loop.
Qed.

Lemma clean_object_loop n : forall obj, clean (object_loop pv n obj).
Proof.
  induction n as [|n IH]; intro obj; [intro st; exact I|].
  cbn [object_loop]. intro st.
  apply allowed_bind; [apply clean_skip_ws|]. intros [] s1 _.
  destruct s1 as [|c r]; unfold bind at 1; cbn [peek].
  - change (negb (Ascii.eqb NUL DQ)) with true. cbv iota. listed.
  - destruct (Ascii.eqb_spec c DQ) as [->|Hn]; cbn [negb]; [|listed].
    apply allowed_bind; [apply allowed_parse_string_raw|]. intros key s2 _.
    revert s2.
    match goal with |- forall s2, allowed (?p s2) => change (clean p) end.
    clean_auto; first [apply pv_clean|apply IH].
Qed.

Lemma allowed_parse_object r : allowed (parse_object pv (String "{" r)).
Proof.
  unfold parse_object. rewrite (bind_eq _ _ _ tt r) by reflexivity.
  revert r.
  change (clean (skip_ws ;; c <- peek ;;
                 if Ascii.eqb c "}" then get ;; ret (Obj [])
                 else fun st => object_loop pv (S (String.length st)) [] st)).
  clean_auto. intro st. apply clean_object_loop.
Qed.

End CleanLoops.

Lemma clean_parse_value n : clean (parse_value n).
Proof.
  induction n as [|n IH]; [intro st; exact I|].
  intro st. cbn [parse_value].
  unfold bind at 1, skip_ws at 1, bind at 1.
  destruct (drop_ws st) as [|c r]; cbn [peek].
  - listed.
  - destruct (Ascii.eqb_spec c "n") as [->|_]; [apply allowed_parse_null|].
    destruct (Ascii.eqb c "t" || Ascii.eqb c "f") eqn:Hb;
      [now apply allowed_parse_bool|].
    destruct (Ascii.eqb_spec c DQ) as [->|_]; [apply allowed_parse_string|].
    destruct (Ascii.eqb c "-" || isdigit c); [apply allowed_parse_number|].
    destruct (Ascii.eqb_spec c "{") as [->|_]; [now apply allowed_parse_object|].
    destruct (Ascii.eqb_spec c "[") as [->|_]; [now apply allowed_parse_array|].
    listed.
Qed.

Lemma parse_thrown s e : parse s = Err e -> thrown_by_parse e.
Proof.
  unfold parse.
  pose proof (clean_parse_value (S (String.length s)) s) as Hc.
  pose proof (parse_value_advances (S (String.length s)) s ltac:(lia)) as Ha.
  destruct (parse_value (S (String.length s)) s) as [[j st]|e'].
  - destruct (drop_ws st); cbn [eof]; intro H; inversion H. listed.
  - intro H. inversion H; subst e'. destruct e; try exact Hc. contradiction.
Qed.

Lemma thrown_rejected e : thrown_by_parse e -> exists s, parse s = Err e.
Proof.
  destruct e as [what| | | | |]; cbn [thrown_by_parse]; try contradiction.
  - intro H. exists (rejected_text what).
    cbv [parser_messages In] in H.
    repeat (destruct H as [<-|H]; [vm_compute; reflexivity|]). contradiction.
  - intros _. exists "1e999". vm_compute. reflexivity.
Qed.

(** The exceptions of [parse] are the [std::runtime_error]s with the
    fourteen messages of [parser_messages] and the [std::out_of_range] of
    [std::stod], each of them thrown on some text; [std::invalid_argument]
    and [std::bad_variant_access] are never thrown. *)
Theorem parse_exceptions (e : exn) :
  (exists s, parse s = Err e) <-> thrown_by_parse e.
Proof.
  split; [intros [s H]; exact (parse_thrown s e H)|apply thrown_rejected].
Qed.

(** ** The fuel of the model plays no part *)

Lemma bind_same {A B} (p p' : Parser A) (f f' : A -> Parser B) st :
  p st = p' st ->
  (forall a st1, p st = Ok (a, st1) -> f a st1 = f' a st1) ->
  bind p f st = bind p' f' st.
Proof.
  intros Hp Hf. unfold bind. rewrite <- Hp.
  destruct (p st) as [[a st1]|e]; [now apply Hf|reflexivity].
Qed.

Section SameLoops.

Variables pv pv' : Parser Json.
Variable b : nat.
Hypothesis pv_same : forall st, (String.length st < b)%nat -> pv st = pv' st.
Hypothesis pv_advances :
  forall st, (String.length st < b)%nat -> advanced st (pv st).

Lemma pv_shorter st v st1 :
  (String.length st < b)%nat -> pv st = Ok (v, st1) ->
  (String.length st1 < String.length st)%nat.
Proof. intros Hb E. pose proof (pv_advances st Hb) as H. now rewrite E in H. Qed.

Lemma array_loop_same n :
  forall arr st, (String.length st < b)%nat ->
    array_loop pv n arr st = array_loop pv' n arr st.
Proof.
  induction n as [|n IH]; intros arr st Hb; [reflexivity|].
  cbn [array_loop].
  apply bind_same; [now apply pv_same|]. intros v s1 E1.
  apply (pv_shorter _ _ _ Hb) in E1.
  apply bind_same; [reflexivity|]. intros [] s2 E2. apply nonincr_skip_ws in E2.
  apply bind_same; [reflexivity|]. intros c s3 E3. apply nonincr_get in E3.
  destruct (Ascii.eqb c "]"); [reflexivity|].
  destruct (negb (Ascii.eqb c ",")); [reflexivity|].
  apply bind_same; [reflexivity|]. intros [] s4 E4. apply nonincr_skip_ws in E4.
  apply IH. lia.
Qed.

Lemma parse_array_same st :
  (String.length st < S b)%nat -> parse_array pv st = parse_array pv' st.
Proof.
  intro Hb. unfold parse_array.
  apply bind_same; [reflexivity|]. intros [] s1 E1.
  apply (progress_expect "[") in E1; [|discriminate].
  apply bind_same; [reflexivity|]. intros [] s2 E2. apply nonincr_skip_ws in E2.
  apply bind_same; [reflexivity|]. intros c s3 E3. apply nonincr_peek in E3.
  destruct (Ascii.eqb c "]"); [reflexivity|].
  apply array_loop_same. lia.
Qed.

Lemma object_loop_same n :
  forall obj st, (String.length st < b)%nat ->
    object_loop pv n obj st = object_loop pv' n obj st.
Proof.
  induction n as [|n IH]; intros obj st Hb; [reflexivity|].
  cbn [object_loop].
  apply bind_same; [reflexivity|]. intros [] s1 E1. apply nonincr_skip_ws in E1.
  apply bind_same; [reflexivity|]. intros c s2 E2. apply nonincr_peek in E2.
  destruct (negb (Ascii.eqb c DQ)); [reflexivity|].
  apply bind_same; [reflexivity|]. intros key s3 E3.
  apply progress_parse_string_raw in E3.
  apply bind_same; [reflexivity|]. intros [] s4 E4. apply nonincr_skip_ws in E4.
  apply bind_same; [reflexivity|]. intros [] s5 E5. apply nonincr_expect in E5.
  assert (Hb5 : (String.length s5 < b)%nat) by lia.
  apply bind_same; [now apply pv_same|]. intros v s6 E6.
  apply (pv_shorter _ _ _ Hb5) in E6.
  apply bind_same; [reflexivity|]. intros [] s7 E7. apply nonincr_skip_ws in E7.
  apply bind_same; [reflexivity|]. intros c' s8 E8. apply nonincr_get in E8.
  destruct (Ascii.eqb c' "}"); [reflexivity|].
  destruct (negb (Ascii.eqb c' ",")); [reflexivity|].
  apply bind_same; [reflexivity|]. intros [] s9 E9. apply nonincr_skip_ws in E9.
  apply IH. lia.
Qed.

Lemma parse_object_same st :
  (String.length st < S b)%nat -> parse_object pv st = parse_object pv' st.
Proof.
  intro Hb. unfold parse_object.
  apply bind_same; [reflexivity|]. intros [] s1 E1.
  apply (progress_expect "{") in E1; [|discriminate].
  apply bind_same; [reflexivity|]. intros [] s2 E2. apply nonincr_skip_ws in E2.
  apply bind_same; [reflexivity|]. intros c s3 E3. apply nonincr_peek in E3.
  destruct (Ascii.eqb c "}"); [reflexivity|].
  apply object_loop_same. lia.
Qed.

End SameLoops.

(** Above the length of the unread text, the fuel of [parse_value] plays
    no part in its result. *)
Lemma parse_value_fuel n :
  forall m st, (String.length st < n)%nat -> (String.length st < m)%nat ->
    parse_value n st = parse_value m st.
Proof.
  induction n as [|n IH]; intros m st Hn Hm; [lia|].
  destruct m as [|m]; [lia|].
  cbn [parse_value].
  apply bind_same; [reflexivity|]. intros [] s1 E1. apply nonincr_skip_ws in E1.
  apply bind_same; [reflexivity|]. intros c s2 E2. apply nonincr_peek in E2.
  destruct (Ascii.eqb c "n"); [reflexivity|].
  destruct (Ascii.eqb c "t" || Ascii.eqb c "f"); [reflexivity|].
  destruct (Ascii.eqb c DQ); [reflexivity|].
  destruct (Ascii.eqb c "-" || isdigit c); [reflexivity|].
  destruct (Ascii.eqb c "{").
  { apply (parse_object_same _ _ (Nat.min n m)).
    - intros s Hs. apply IH; lia.
    - intros s Hs. apply parse_value_advances. lia.
    - lia. }
  destruct (Ascii.eqb c "[").
  { apply (parse_array_same _ _ (Nat.min n m)).
    - intros s Hs. apply IH; lia.
    - intros s Hs. apply parse_value_advances. lia.
    - lia. }
  reflexivity.
Qed.

Lemma parse_value_skips n ws st :
  all_chars isspace ws = true -> parse_value n (ws ++ st) = parse_value n st.
Proof.
  intro Hw. destruct n as [|n]; [reflexivity|].
  cbn [parse_value]. unfold bind at 1 3, skip_ws at 1 2.
  now rewrite drop_ws_blank.
Qed.

(** Whitespace before the value plays no part: the text parses to the same
    value, or throws the same exception, with and without it. *)
Theorem parse_leading_whitespace (ws s : string)
    (H : all_chars isspace ws = true) :
  parse (ws ++ s) = parse s.
Proof.
  unfold parse. rewrite parse_value_skips by exact H.
  rewrite (parse_value_fuel (S (String.length (ws ++ s))) (S (String.length s)) s);
    [reflexivity|rewrite length_append; lia|lia].
Qed.

Lemma parse_leading_whitespace_witness :
  parse (String LF (String TAB " ") ++ "[1, 2") = parse "[1, 2".
Proof. apply (parse_leading_whitespace (String LF (String TAB " "))). reflexivity. Defined.

(** ** The variant of a parsed value *)

Section LoopVariants.

Variable pv : Parser Json.

Lemma array_loop_array n :
  forall arr st j st', array_loop pv n arr st = Ok (j, st') -> is_array j = true.
Proof.
  induction n as [|n IH]; intros arr st j st' H; [discriminate|].
  cbn [array_loop] in H.
  apply bind_ok in H as (v & s1 & _ & H).
  apply bind_ok in H as (? & s2 & _ & H).
  apply bind_ok in H as (c & s3 & _ & H).
  destruct (Ascii.eqb c "]"); [now inversion H|].
  destruct (Ascii.eqb c ","); [|discriminate].
  apply bind_ok in H as (? & s4 & _ & H). eapply IH; exact H.
Qed.

Lemma parse_array_array st j st' :
  parse_array pv st = Ok (j, st') -> is_array j = true.
Proof.
  unfold parse_array. intro H.
  apply bind_ok in H as (? & s1 & _ & H).
  apply bind_ok in H as (? & s2 & _ & H).
  apply bind_ok in H as (c & s3 & _ & H).
  destruct (Ascii.eqb c "]").
  - apply bind_ok in H as (? & ? & _ & H). now inversion H.
  - eapply array_loop_array; exact H.
Qed.

Lemma object_loop_object n :
  forall obj st j st', object_loop pv n obj st = Ok (j, st') -> is_object j = true.
Proof.
  induction n as [|n IH]; intros obj st j st' H; [discriminate|].
  cbn [object_loop] in H.
  apply bind_ok in H as (? & s1 & _ & H).
  apply bind_ok in H as (c & s2 & _ & H).
  destruct (Ascii.eqb c DQ); [|discriminate]. cbn [negb] in H.
  apply bind_ok in H as (key & s3 & _ & H).
  apply bind_ok in H as (? & s4 & _ & H).
  apply bind_ok in H as (? & s5 & _ & H).
  apply bind_ok in H as (v & s6 & _ & H).
  apply bind_ok in H as (? & s7 & _ & H).
  apply bind_ok in H as (c' & s8 & _ & H).
  destruct (Ascii.eqb c' "}"); [now inversion H|].
  destruct (Ascii.eqb c' ","); [|discriminate].
  apply bind_ok in H as (? & s9 & _ & H). eapply IH; exact H.
Qed.

Lemma parse_object_object st j st' :
  parse_object pv st = Ok (j, st') -> is_object j = true.
Proof.
  unfold parse_object. intro H.
  apply bind_ok in H as (? & s1 & _ & H).
  apply bind_ok in H as (? & s2 & _ & H).
  apply bind_ok in H as (c & s3 & _ & H).
  destruct (Ascii.eqb c "}").
  - apply bind_ok in H as (? & ? & _ & H). now inversion H.
  - eapply object_loop_object; exact H.
Qed.

End LoopVariants.

(** The first byte of the text that is no whitespace decides the variant
    of the value [parse] returns. *)
Theorem parse_variant (s : string) (j : Json) (H : parse s = Ok j) :
  let c := first_byte s in
  (is_null j = Ascii.eqb c "n") /\
  (is_bool j = Ascii.eqb c "t" || Ascii.eqb c "f") /\
  (is_str j = Ascii.eqb c DQ) /\
  (is_num j = Ascii.eqb c "-" || isdigit c) /\
  (is_object j = Ascii.eqb c "{") /\
  (is_array j = Ascii.eqb c "[").
Proof.
  cbv zeta. unfold parse in H.
  destruct (parse_value _ s) as [[v st]|e] eqn:E; [|discriminate].
  destruct (eof (drop_ws st)) as [[[] ?]|]; try discriminate.
  inversion H; subst v. clear H.
  cbn [parse_value] in E. unfold bind at 1, skip_ws at 1, bind at 1 in E.
  unfold first_byte.
  destruct (drop_ws s) as [|c r]; cbn [peek] in E; [discriminate E|].
  destruct (Ascii.eqb_spec c "n") as [->|_].
  { apply parse_null_value in E. subst j. repeat split. }
  destruct (Ascii.eqb c "t" || Ascii.eqb c "f") eqn:Hb.
  { apply parse_bool_value in E as [b ->].
    apply orb_true_iff in Hb as [Hb|Hb]; apply Ascii.eqb_eq in Hb; subst c;
      repeat split. }
  destruct (Ascii.eqb_spec c DQ) as [->|_].
  { apply parse_string_value in E as [x ->]. repeat split. }
  destruct (Ascii.eqb c "-" || isdigit c) eqn:Hd.
  { apply parse_number_value in E as (tok & d & _ & ->).
    cbn [is_null is_bool is_str is_num is_object is_array].
    repeat split.
    - destruct (Ascii.eqb_spec c "{") as [->|_]; [discriminate Hd|reflexivity].
    - destruct (Ascii.eqb_spec c "[") as [->|_]; [discriminate Hd|reflexivity]. }
  destruct (Ascii.eqb_spec c "{") as [->|_].
  { apply parse_object_object in E. destruct j; try discriminate E. repeat split. }
  destruct (Ascii.eqb_spec c "[") as [->|_].
  { apply parse_array_array in E. destruct j; try discriminate E. repeat split. }
  discriminate E.
Qed.

Lemma parse_variant_witness :
  let c := first_byte " [1]" in
  (is_null (Arr [of_int 1]) = Ascii.eqb c "n") /\
  (is_bool (Arr [of_int 1]) = Ascii.eqb c "t" || Ascii.eqb c "f") /\
  (is_str (Arr [of_int 1]) = Ascii.eqb c DQ) /\
  (is_num (Arr [of_int 1]) = Ascii.eqb c "-" || isdigit c) /\
  (is_object (Arr [of_int 1]) = Ascii.eqb c "{") /\
  (is_array (Arr [of_int 1]) = Ascii.eqb c "[").
Proof. apply (parse_variant " [1]" (Arr [of_int 1])). vm_compute. reflexivity. Defined.

(** ** String literals as the parser reads them *)

Lemma string_loop_unescaped c n out r :
  unescaped c = true ->
  string_loop (S n) out (String c r) = string_loop n (out ++ chr c) r.
Proof.
  unfold unescaped. rewrite andb_true_iff, !negb_true_iff. intros [Hq Hb].
  cbn [string_loop]. unfold bind at 1. cbn [eof]. unfold bind at 1. cbn [get].
  now rewrite Hq, Hb.
Qed.

Lemma string_loop_raw s :
  forall n out, all_chars unescaped s = true -> (String.length s < n)%nat ->
    (forall rest, string_loop n out (s ++ String DQ rest) = Ok (out ++ s, rest)) /\
    string_loop n out s = Ok (out ++ s, "").
Proof.
  induction s as [|c r IH]; intros n out Hs Hn.
  - destruct n as [|n]; [simpl in Hn; lia|].
    rewrite append_nil_r. split; [intro rest|]; reflexivity.
  - cbn [all_chars] in Hs. apply andb_true_iff in Hs as [Hc Hr].
    destruct n as [|n]; [simpl in Hn; lia|].
    cbn [String.append].
    destruct (IH n (out ++ chr c) Hr ltac:(simpl in Hn; lia)) as [H1 H2].
    split; [intro rest|]; rewrite string_loop_unescaped by exact Hc;
      [rewrite H1|rewrite H2]; now rewrite append_assoc.
Qed.

(** A string literal whose body holds neither a quote nor a backslash is
    read as its body, whatever its bytes: control bytes, newlines and bytes
    above 0x7F are taken as they are.  The closing quote is not required:
    the same body up to the end of the input gives the same String. *)
Theorem raw_string_accepted (s : string) (H : all_chars unescaped s = true) :
  parse (quoted_raw s) = Ok (Str s) /\ parse (String DQ s) = Ok (Str s).
Proof.
  unfold parse, quoted_raw. cbn [chr String.append String.length].
  rewrite !parse_value_quote.
  destruct (string_loop_raw s (S (String.length s)) "" H ltac:(lia)) as [H1 H2].
  split.
  - destruct (string_loop_raw s (S (String.length (s ++ chr DQ))) "" H) as [H3 _].
    { rewrite length_append. lia. }
    unfold chr. rewrite H3. reflexivity.
  - rewrite H2. reflexivity.
Qed.

Lemma raw_string_accepted_witness :
  parse (quoted_raw (String LF (String "001" "a"))) = Ok (Str (String LF (String "001" "a"))) /\
  parse (String DQ (String LF (String "001" "a"))) = Ok (Str (String LF (String "001" "a"))).
Proof. apply (raw_string_accepted (String LF (String "001" "a"))). reflexivity. Defined.

(** After a backslash and [u] the four next bytes are taken as they are,
    a quote or a backslash among them included; when the input ends before
    the fourth, the NUL bytes that [get] gives at the end of the input are
    stored in their place. *)
Theorem truncated_unicode_escape (hs : string) (H : (String.length hs <= 4)%nat) :
  parse (String DQ (String BSL (String "u" hs))) =
  Ok (Str (String BSL (String "u" (hs ++ nuls (4 - String.length hs))))).
Proof.
  destruct hs as [|h1 [|h2 [|h3 [|h4 [|h5 hs]]]]]; try reflexivity.
  cbn [String.length] in H. lia.
Qed.

Lemma truncated_unicode_escape_witness :
  parse (String DQ (String BSL (String "u" (String "1" (chr DQ))))) =
  Ok (Str (String BSL (String "u" (String "1" (chr DQ) ++ nuls (4 - 2))))).
Proof. apply (truncated_unicode_escape (String "1" (chr DQ))). simpl. lia. Defined.

(** ** The texts of the literals and of the numbers *)

Lemma drop_ws_split s : exists ws, s = ws ++ drop_ws s /\ blank ws.
Proof.
  induction s as [|c r IH].
  - exists "". split; reflexivity.
  - cbn [drop_ws]. destruct (isspace c) eqn:Hc.
    + destruct IH as (ws & E & Hw). exists (String c ws). split.
      * cbn [String.append]. now rewrite <- E.
      * unfold blank. cbn [all_chars]. now rewrite Hc.
    + exists "". split; reflexivity.
Qed.

Lemma drop_ws_nil s : drop_ws s = "" -> blank s.
Proof.
  intro H. destruct (drop_ws_split s) as (ws & E & Hw).
  rewrite H, append_nil_r in E. now subst.
Qed.

Lemma blank_drop_ws ws : blank ws -> drop_ws ws = "".
Proof.
  intro H. rewrite <- (append_nil_r ws). now rewrite drop_ws_blank.
Qed.

Lemma blank_continues ws : blank ws -> starts_with continues ws = false.
Proof.
  destruct ws as [|c r]; [reflexivity|]. unfold blank. cbn [all_chars starts_with].
  rewrite andb_true_iff. intros [H _]. now apply isspace_not_continues.
Qed.

(** Whitespace around a text is ignored. *)
Lemma reads_between txt j ws ws' :
  reads txt j -> blank ws -> blank ws' -> parse (ws ++ txt ++ ws') = Ok j.
Proof.
  intros Hr Hw Hw'. unfold parse.
  rewrite parse_value_skips by exact Hw.
  rewrite (Hr _ ws').
  - cbn iota. rewrite (blank_drop_ws ws' Hw'). reflexivity.
  - rewrite !length_append. lia.
  - now apply blank_continues.
Qed.

(** What [parse] did when it returned: the value was read from the first
    byte that is no whitespace, and only whitespace was left. *)
Lemma parse_ok_inv s j :
  parse s = Ok j ->
  exists ws c r ws',
    s = ws ++ String c r /\ blank ws /\ isspace c = false /\ blank ws' /\
    parse_value (S (String.length s)) (String c r) = Ok (j, ws').
Proof.
  unfold parse.
  destruct (parse_value _ s) as [[v st]|e] eqn:E; [|discriminate].
  destruct (drop_ws st) as [|x y] eqn:Est; cbn [eof]; [|discriminate].
  intro H. inversion H; subst v. clear H.
  destruct (drop_ws_split s) as (ws & Es & Hw).
  destruct (drop_ws s) as [|c r] eqn:Ed.
  - exfalso. rewrite append_nil_r in Es. subst ws.
    rewrite parse_value_blank in E by exact Hw. discriminate.
  - exists ws, c, r, st. repeat split; try assumption.
    + pose proof (f_equal drop_ws Ed) as Hd. 
      assert (Hi : drop_ws (drop_ws s) = drop_ws s).
      { clear. induction s as [|a s IH]; [reflexivity|].
        cbn [drop_ws]. destruct (isspace a) eqn:Ha; [exact IH|].
        cbn [drop_ws]. now rewrite Ha. }
      rewrite Hi, Ed in Hd. cbn [drop_ws] in Hd.
      destruct (isspace c); [|reflexivity].
      exfalso. apply (f_equal String.length) in Hd.
      pose proof (drop_ws_length r). cbn [String.length] in Hd. lia.
    + now apply drop_ws_nil.
    + rewrite Es in E at 2. rewrite parse_value_skips in E by exact Hw. exact E.
Qed.

Lemma expect_inv c st u st' : expect c st = Ok (u, st') -> c = NUL \/ st = String c st'.
Proof.
  unfold expect, bind. destruct st as [|g r]; cbn [get].
  - destruct (Ascii.eqb_spec NUL c) as [<-|_]; cbn [negb]; [auto|discriminate].
  - destruct (Ascii.eqb_spec g c) as [->|_]; cbn [negb]; [|discriminate].
    intro H. inversion H. auto.
Qed.

Ltac expect_next H :=
  let u := fresh "u" in let s := fresh "s" in let E := fresh "E" in
  apply bind_ok in H as (u & s & E & H);
  apply expect_inv in E as [E|E]; [discriminate E|subst].

Lemma parse_null_inv st j st' : parse_null st = Ok (j, st') -> st = "null" ++ st'.
Proof.
  unfold parse_null. intro H. do 4 expect_next H. now inversion H.
Qed.

Lemma parse_bool_inv st j st' :
  parse_bool st = Ok (j, st') ->
  (j = Bool true /\ st = "true" ++ st') \/ (j = Bool false /\ st = "false" ++ st').
Proof.
  unfold parse_bool. intro H. apply bind_ok in H as (c & s & Ep & H).
  assert (s = st) by (destruct st; inversion Ep; reflexivity). subst s. clear Ep.
  destruct (Ascii.eqb c "t").
  - left. do 4 expect_next H. now inversion H.
  - right. do 5 expect_next H. now inversion H.
Qed.

(** The scan of [parse_number], inverted: what it consumed is the text of a
    well-formed token. *)
Lemma drop_digits_split st :
  exists ds, st = ds ++ drop_digits st /\ all_chars isdigit ds = true.
Proof.
  induction st as [|c r IH].
  - exists "". split; reflexivity.
  - cbn [drop_digits]. destruct (isdigit c) eqn:Hc.
    + destruct IH as (ds & E & Hd). exists (String c ds). split.
      * cbn [String.append]. now rewrite <- E.
      * cbn [all_chars]. now rewrite Hc.
    + exists "". split; reflexivity.
Qed.

Lemma digits1_inv st u st' :
  digits1 st = Ok (u, st') ->
  exists c ds, isdigit c = true /\ all_chars isdigit ds = true /\
               st = String c ds ++ st'.
Proof.
  unfold digits1, bind. destruct st as [|c r]; cbn [peek].
  - change (isdigit NUL) with false. discriminate.
  - destruct (isdigit c) eqn:Hc; cbn [negb]; [|discriminate].
    unfold skip_digits. cbn [drop_digits]. rewrite Hc. intro H. inversion H.
    destruct (drop_digits_split r) as (ds & E & Hd).
    exists c, ds. repeat split; try assumption.
    cbn [String.append]. now rewrite <- E.
Qed.

Lemma scan_number_inv st u st' :
  scan_number st = Ok (u, st') ->
  exists t, well_formed t = true /\ st = text t ++ st'.
Proof.
  unfold scan_number. intro H.
  apply bind_ok in H as ([] & s1 & E1 & H).
  apply bind_ok in H as ([] & s2 & E2 & H).
  apply bind_ok in H as ([] & s3 & E3 & E4).
  assert (H1 : exists neg, st = sign_text neg ++ s1).
  { unfold scan_sign, bind in E1. destruct st as [|c r]; cbn [peek] in E1.
    - inversion E1. now exists false.
    - destruct (Ascii.eqb_spec c "-") as [->|_].
      + cbn [advance] in E1. inversion E1. now exists true.
      + inversion E1. now exists false. }
  assert (H2 : exists ip, int_part ip = true /\ s1 = ip ++ s2).
  { unfold scan_int, bind in E2. destruct s1 as [|c r]; cbn [peek] in E2.
    - apply digits1_inv in E2 as (? & ? & _ & _ & E). discriminate E.
    - destruct (Ascii.eqb_spec c "0") as [->|Hn].
      + cbn [advance] in E2. inversion E2. exists "0". split; reflexivity.
      + apply digits1_inv in E2 as (c' & ds & Hc & Hd & E).
        cbn [String.append] in E. inversion E; subst c' r.
        exists (String c ds). split; [|reflexivity].
        cbn [int_part]. rewrite Hc, Hd.
        destruct (Ascii.eqb_spec c "0"); [contradiction|reflexivity]. }
  assert (H3 : exists fp, match fp with Some f => digit_run f | None => true end = true /\
                          s2 = frac_text fp ++ s3).
  { unfold scan_frac, bind in E3. destruct s2 as [|c r]; cbn [peek] in E3.
    - inversion E3. exists None. split; reflexivity.
    - destruct (Ascii.eqb_spec c ".") as [->|_].
      + cbn [advance] in E3. apply digits1_inv in E3 as (c' & ds & Hc & Hd & E).
        exists (Some (String c' ds)). split.
        * cbn [digit_run all_chars]. now rewrite Hc, Hd.
        * cbn [frac_text String.append] in *. now rewrite E.
      + inversion E3. exists None. split; reflexivity. }
  assert (H4 : exists ep, match ep with Some (_, _, ds) => digit_run ds | None => true end = true /\
                          s3 = exp_text ep ++ st').
  { unfold scan_exp in E4. apply bind_ok in E4 as (c & s & Ep & E4).
    destruct s3 as [|c0 r]; cbn [peek] in Ep; inversion Ep; subst c s; clear Ep.
    - change (Ascii.eqb NUL "e" || Ascii.eqb NUL "E") with false in E4.
      inversion E4. exists None. split; reflexivity.
    - destruct (Ascii.eqb c0 "e" || Ascii.eqb c0 "E") eqn:He.
      + apply bind_ok in E4 as ([] & s & Ea & E4). cbn [advance] in Ea.
        inversion Ea; subst s; clear Ea.
        apply bind_ok in E4 as (c2 & s & Ep & E4).
        apply bind_ok in E4 as ([] & s4 & Es & E4).
        apply digits1_inv in E4 as (c' & ds & Hc & Hd & E).
        assert (Hup : exists up : bool, c0 = if up then "E"%char else "e"%char).
        { apply orb_true_iff in He as [He|He]; apply Ascii.eqb_eq in He; subst c0;
            [now exists false|now exists true]. }
        destruct Hup as [up ->].
        assert (Hsg : exists sg, r = match sg with
                                     | Some true => "-" | Some false => "+" | None => ""
                                     end ++ s4).
        { destruct r as [|x y]; cbn [peek] in Ep; inversion Ep; subst c2 s; clear Ep.
          - change (Ascii.eqb NUL "+" || Ascii.eqb NUL "-") with false in Es.
            inversion Es. now exists None.
          - destruct (Ascii.eqb_spec x "+") as [->|_].
            + cbn [orb advance] in Es. inversion Es. now exists (Some false).
            + destruct (Ascii.eqb_spec x "-") as [->|_].
              * cbn [orb advance] in Es. inversion Es. now exists (Some true).
              * cbn [orb] in Es. inversion Es. now exists None. }
        destruct Hsg as [sg ->].
        exists (Some (up, sg, String c' ds)). split.
        * cbn [digit_run all_chars]. now rewrite Hc, Hd.
        * cbn [exp_text]. rewrite E. cbn [String.append].
          now rewrite append_assoc.
      + inversion E4. exists None. split; reflexivity. }
  destruct H1 as [neg ->]. destruct H2 as (ip & Hi & ->).
  destruct H3 as (fp & Hf & ->). destruct H4 as (ep & He & ->).
  exists (Token neg ip fp ep). split.
  - unfold well_formed. cbn [t_int t_frac t_exp]. now rewrite Hi, Hf, He.
  - unfold text. cbn [t_neg t_int t_frac t_exp]. now rewrite !append_assoc.
Qed.

Lemma parse_number_inv st d st' :
  parse_number st = Ok (Num d, st') ->
  exists t, well_formed t = true /\ st = text t ++ st' /\ token_stod t = Ok d.
Proof.
  unfold parse_number.
  destruct (scan_number st) as [[u s1]|e] eqn:E; [|discriminate].
  destruct (scan_number_inv _ _ _ E) as (t & Hw & Et).
  rewrite Et at 1 2. rewrite length_append.
  replace (String.length (text t) + String.length s1 - String.length s1)%nat
    with (String.length (text t)) by lia.
  rewrite substring_prefix, (stod_text t Hw).
  destruct (token_stod t) as [x|e] eqn:Ed; [|discriminate].
  intro H. inversion H; subst. exists t.
  split; [exact Hw|split; [reflexivity|exact Ed]].
Qed.

(** [parse] returns Null on the text [null] between whitespace and on no
    other text, and likewise the booleans on [true] and [false]. *)
Theorem literal_grammar (s : string) :
  (parse s = Ok Null <->
   exists ws ws', blank ws /\ blank ws' /\ s = ws ++ "null" ++ ws') /\
  (parse s = Ok (Bool true) <->
   exists ws ws', blank ws /\ blank ws' /\ s = ws ++ "true" ++ ws') /\
  (parse s = Ok (Bool false) <->
   exists ws ws', blank ws /\ blank ws' /\ s = ws ++ "false" ++ ws').
Proof.
  assert (Hback : forall txt j, reads txt j ->
            (exists ws ws', blank ws /\ blank ws' /\ s = ws ++ txt ++ ws') ->
            parse s = Ok j).
  { intros txt j Hr (ws & ws' & Hw & Hw' & ->). now apply reads_between. }
  assert (Hdisp : forall j, parse s = Ok j ->
            exists ws c r ws',
              s = ws ++ String c r /\ blank ws /\ blank ws' /\
              (if Ascii.eqb c "n" then parse_null (String c r) = Ok (j, ws')
               else if Ascii.eqb c "t" || Ascii.eqb c "f"
                    then parse_bool (String c r) = Ok (j, ws')
                    else exists st, parse_value (S (String.length s)) st = Ok (j, ws') /\
                                    is_null j = false /\ is_bool j = false)).
  { intros j H. destruct (parse_ok_inv s j H) as (ws & c & r & ws' & E & Hw & Hc & Hw' & Hv).
    exists ws, c, r, ws'. repeat split; try assumption.
    pose proof Hv as Hv0.
    rewrite <- (append_nil_r (String c r)) in Hv at 1.
    change (String c r ++ "") with ("" ++ String c (r ++ "")) in Hv.
    rewrite parse_value_at in Hv by (reflexivity || assumption).
    rewrite append_nil_r in Hv.
    destruct (Ascii.eqb c "n"); [exact Hv|].
    destruct (Ascii.eqb c "t" || Ascii.eqb c "f"); [exact Hv|].
    exists (String c r). split; [exact Hv0|].
    destruct (Ascii.eqb c DQ).
    { apply parse_string_value in Hv as [x ->]. split; reflexivity. }
    destruct (Ascii.eqb c "-" || isdigit c).
    { apply parse_number_value in Hv as (tok & d & _ & ->). split; reflexivity. }
    destruct (Ascii.eqb c "{").
    { apply parse_object_object in Hv. destruct j; try discriminate Hv. split; reflexivity. }
    destruct (Ascii.eqb c "[").
    { apply parse_array_array in Hv. destruct j; try discriminate Hv. split; reflexivity. }
    discriminate Hv. }
  repeat split.
  - intro H. destruct (Hdisp _ H) as (ws & c & r & ws' & E & Hw & Hw' & Hd).
    exists ws, ws'. repeat split; try assumption.
    destruct (Ascii.eqb c "n").
    + apply parse_null_inv in Hd. now rewrite E, Hd.
    + destruct (Ascii.eqb c "t" || Ascii.eqb c "f").
      * apply parse_bool_inv in Hd as [[Hd _]|[Hd _]]; discriminate Hd.
      * destruct Hd as (? & _ & Hd & _). discriminate Hd.
  - apply Hback. exact reads_null.
  - intro H. destruct (Hdisp _ H) as (ws & c & r & ws' & E & Hw & Hw' & Hd).
    exists ws, ws'. repeat split; try assumption.
    destruct (Ascii.eqb c "n").
    + apply parse_null_value in Hd. discriminate Hd.
    + destruct (Ascii.eqb c "t" || Ascii.eqb c "f").
      * apply parse_bool_inv in Hd as [[_ Hd]|[Hd _]]; [|discriminate Hd].
        now rewrite E, Hd.
      * destruct Hd as (? & _ & _ & Hd). discriminate Hd.
  - apply Hback. exact reads_true.
  - intro H. destruct (Hdisp _ H) as (ws & c & r & ws' & E & Hw & Hw' & Hd).
    exists ws, ws'. repeat split; try assumption.
    destruct (Ascii.eqb c "n").
    + apply parse_null_value in Hd. discriminate Hd.
    + destruct (Ascii.eqb c "t" || Ascii.eqb c "f").
      * apply parse_bool_inv in Hd as [[Hd _]|[_ Hd]]; [discriminate Hd|].
        now rewrite E, Hd.
      * destruct Hd as (? & _ & _ & Hd). discriminate Hd.
  - apply Hback. exact reads_false.
Qed.

(** [parse] returns a Number on the texts of the JSON number grammar
    between whitespace, when [std::stod] does not throw, and on no other
    text: an optional minus sign, an integer part without leading zero, an
    optional fraction and an optional exponent, each with at least one
    digit. *)
Theorem number_grammar (s : string) (d : double) :
  parse s = Ok (Num d) <->
  exists ws t ws',
    blank ws /\ blank ws' /\ well_formed t = true /\ token_stod t = Ok d /\
    s = ws ++ text t ++ ws'.
Proof.
  split.
  - intro H. destruct (parse_ok_inv s _ H) as (ws & c & r & ws' & E & Hw & Hc & Hw' & Hv).
    rewrite <- (append_nil_r (String c r)) in Hv at 1.
    change (String c r ++ "") with ("" ++ String c (r ++ "")) in Hv.
    rewrite parse_value_at in Hv by (reflexivity || assumption).
    rewrite append_nil_r in Hv.
    destruct (Ascii.eqb c "n").
    { apply parse_null_value in Hv. discriminate Hv. }
    destruct (Ascii.eqb c "t" || Ascii.eqb c "f").
    { apply parse_bool_value in Hv as [b Hv]. discriminate Hv. }
    destruct (Ascii.eqb c DQ).
    { apply parse_string_value in Hv as [x Hv]. discriminate Hv. }
    destruct (Ascii.eqb c "-" || isdigit c).
    { apply parse_number_inv in Hv as (t & Hwf & Et & Hd).
      exists ws, t, ws'. repeat split; try assumption. now rewrite E, Et. }
    destruct (Ascii.eqb c "{").
    { apply parse_object_object in Hv. discriminate Hv. }
    destruct (Ascii.eqb c "[").
    { apply parse_array_array in Hv. discriminate Hv. }
    discriminate Hv.
  - intros (ws & t & ws' & Hw & Hw' & Hwf & Hd & ->).
    apply reads_between; try assumption. now apply reads_number.
Qed.

(** ** Integers *)

(** An integer below [10^15] in magnitude, which every [int] is, is dumped
    as its decimal numeral, without fraction or exponent, and the numeral
    parses to the same Number: integers round-trip exactly. *)
Theorem integer_roundtrip (indent i : Z) (H : Z.abs i < 10 ^ 15) :
  dump indent (of_int i) = decimal i /\
  parse (decimal i) = Ok (of_int i) /\
  parse (dump indent (of_int i)) = Ok (of_int i).
Proof.
  split; [|split].
  - now apply dump_of_int.
  - now apply parse_decimal.
  - rewrite dump_of_int by exact H. now apply parse_decimal.
Qed.

Lemma integer_roundtrip_witness :
  dump 2 (of_int (-2147483648)) = decimal (-2147483648) /\
  parse (decimal (-2147483648)) = Ok (of_int (-2147483648)) /\
  parse (dump 2 (of_int (-2147483648))) = Ok (of_int (-2147483648)).
Proof. apply (integer_roundtrip 2 (-2147483648)). reflexivity. Defined.

Lemma every_impl (P Q : Json -> Prop) :
  (forall j, P j -> Q j) -> forall j, every P j -> every Q j.
Proof.
  intro HPQ.
  induction j as [| b | d | s | a IHa | o IHo] using Json_nested_ind; intro H;
    try (split; [apply HPQ; exact (every_here _ _ H)|exact I]).
  - apply every_of_arr; [apply HPQ; exact (every_here _ _ H)|].
    apply every_arr in H. rewrite Forall_forall in *. auto.
  - apply every_of_obj; [apply HPQ; exact (every_here _ _ H)|].
    apply every_obj in H. rewrite Forall_forall in *. auto.
Qed.

(** A document whose Numbers are integers below [10^15] in magnitude,
    whose Strings and keys hold no control byte without a short escape and
    whose Objects have ascending keys is given back by [parse] from its dump,
    in every mode. *)
Theorem integer_document_roundtrip (indent : Z) (j : Json)
    (H : every (fun x => integral x /\ well_kept x) j) :
  parse (dump indent j) = Ok j.
Proof.
  rewrite parse_dump_reparse, <- (parse_dump_reparse compact).
  apply reads_parse, document_reads.
  revert H. apply every_impl. intros [| b | d | s | a | o] [Hi Hk];
    try exact Hk; try exact I.
  destruct Hi as (i & Hb & ->). now apply stod_decimal.
Qed.

Lemma integer_document_roundtrip_witness :
  parse (dump 4 (Obj [("id", of_int 42); ("tags", Arr [Str "a"; of_int (-7)])])) =
  Ok (Obj [("id", of_int 42); ("tags", Arr [Str "a"; of_int (-7)])]).
Proof.
  apply (integer_document_roundtrip 4
           (Obj [("id", of_int 42); ("tags", Arr [Str "a"; of_int (-7)])])).
  simpl. repeat split; try reflexivity; try (repeat constructor);
    first [exists 42; split; reflexivity | exists (-7); split; reflexivity].
Defined.

(** ** The short escapes *)

Lemma string_loop_prefix pre :
  forall n out r, all_chars unescaped pre = true ->
    string_loop (String.length pre + n) out (pre ++ r) = string_loop n (out ++ pre) r.
Proof.
  induction pre as [|c pre IH]; intros n out r H.
  - now rewrite append_nil_r.
  - cbn [all_chars] in H. apply andb_true_iff in H as [Hc Hp].
    cbn [String.length String.append Nat.add].
    rewrite string_loop_unescaped by exact Hc.
    rewrite IH by exact Hp. now rewrite append_assoc.
Qed.

Lemma string_loop_short e n out r :
  Ascii.eqb e "u" = false ->
  string_loop (S n) out (String BSL (String e r)) =
  match short_escape e with
  | Some c => string_loop n (out ++ chr c) r
  | None => Err (SyntaxError "JSON: bad escape")
  end.
Proof.
  intro Hu. cbn [string_loop]. unfold bind at 1. cbn [eof].
  unfold bind at 1. cbn [get].
  change (Ascii.eqb BSL DQ) with false. change (Ascii.eqb BSL BSL) with true.
  cbv iota. unfold bind at 1. cbn [get]. unfold short_escape.
  repeat (match goal with
          | |- context [if Ascii.eqb e ?x then _ else _] =>
              destruct (Ascii.eqb e x) eqn:?; [reflexivity|]
          end).
  rewrite Hu. reflexivity.
Qed.

(** Inside a string literal, a backslash followed by one of the bytes of
    the [switch] of [parse_string] stands for one byte (a quote, a backslash,
    a slash, or the control byte of [b], [f], [n], [r], [t]); followed by any
    other byte than [u] it makes [parse] throw. *)
Theorem escape_decoding (pre post : string) (e : ascii)
    (Hpre : all_chars unescaped pre = true)
    (Hpost : all_chars unescaped post = true)
    (He : Ascii.eqb e "u" = false) :
  parse (quoted_raw (pre ++ String BSL (String e post))) =
  match short_escape e with
  | Some c => Ok (Str (pre ++ String c post))
  | None => Err (SyntaxError "JSON: bad escape")
  end.
Proof.
  unfold parse, quoted_raw. cbn [chr String.append String.length].
  rewrite parse_value_quote. rewrite !append_assoc. cbn [String.append].
  match goal with
  | |- context [string_loop ?k] =>
      replace k with (String.length pre + S (S (S (String.length post + 1))))%nat
        by (unfold chr; rewrite ?length_append; cbn [String.length]; rewrite ?length_append;
            cbn [String.length]; lia)
  end.
  rewrite string_loop_prefix by exact Hpre.
  rewrite string_loop_short by exact He.
  destruct (short_escape e) as [c|]; [|reflexivity].
  destruct (string_loop_raw post (S (S (String.length post + 1))) (("" ++ pre) ++ chr c)
              Hpost ltac:(lia)) as [H _].
  change (post ++ chr DQ) with (post ++ String DQ "").
  rewrite H. cbn [String.append]. rewrite !append_assoc. reflexivity.
Qed.

Lemma escape_decoding_witness :
  parse (quoted_raw ("a" ++ String BSL (String "/" "b"))) =
  match short_escape "/" with
  | Some c => Ok (Str ("a" ++ String c "b"))
  | None => Err (SyntaxError "JSON: bad escape")
  end.
Proof. apply (escape_decoding "a" "b" "/"); reflexivity. Defined.

(** ** The layout of an Array and the accessors *)

Lemma dump_elements_lines indent depth l :
  l <> [] ->
  dump_elements (dump_impl indent (depth + 1)) indent depth l =
  String.concat ("," ++ pretty indent (chr LF)) (map (element_line indent depth) l) ++
  pretty indent (chr LF).
Proof.
  induction l as [|x l IH]; [congruence|]. intros _.
  destruct l as [|y l].
  - cbn [dump_elements map String.concat]. unfold element_line.
    rewrite !append_assoc. cbn [String.append]. now rewrite append_nil_r.
  - rewrite (map_cons _ x). cbn [String.concat]. 
    change (dump_elements (dump_impl indent (depth + 1)) indent depth (x :: y :: l))
      with (ind indent (depth + 1) ++ dump_impl indent (depth + 1) x ++ "," ++
            pretty indent (chr LF) ++
            dump_elements (dump_impl indent (depth + 1)) indent depth (y :: l)).
    rewrite IH by discriminate. unfold element_line.
    cbn [map]. rewrite !append_assoc. reflexivity.
Qed.

(** An Array is dumped as its elements, each on its line and indented one
    level more than the brackets in pretty mode, joined by commas; an empty
    Array or Object is dumped as [[]] or [{}], with no newline inside, in
    every mode. *)
Theorem dump_array_layout (indent depth : Z) (a : list Json) :
  dump_impl indent depth (Arr a) =
  match a with
  | [] => "[]"
  | _ =>
      "[" ++ pretty indent (chr LF) ++
      String.concat ("," ++ pretty indent (chr LF))
        (map (element_line indent depth) a) ++
      pretty indent (chr LF) ++ ind indent depth ++ "]"
  end /\
  dump_impl indent depth (Obj []) = "{}".
Proof.
  split; [|reflexivity].
  destruct a as [|x a]; [reflexivity|].
  cbn [dump_impl]. rewrite dump_elements_lines by discriminate.
  now rewrite !append_assoc.
Qed.

(** Each typed accessor returns exactly on its own variant and throws on
    the others; [at] returns exactly when [contains] answers true, throws
    the exception of [std::get] on a receiver that is no Object and the one of
    [std::map::at] on an Object without the key; [contains] never throws. *)
Theorem accessor_contract (key : string) (j : Json) :
  (returns (as_bool j) <-> is_bool j = true) /\
  (returns (as_num j) <-> is_num j = true) /\
  (returns (as_str j) <-> is_str j = true) /\
  (returns (as_array j) <-> is_array j = true) /\
  (returns (as_object j) <-> is_object j = true) /\
  (returns (at_ key j) <-> contains key j = true) /\
  (is_object j = false -> at_ key j = Err TypeMismatch) /\
  (is_object j = true -> contains key j = false -> at_ key j = Err KeyNotFound).
Proof.
  unfold returns.
  destruct j as [| b | d | s | a | o]; cbn [as_bool as_num as_str as_array as_object
    is_bool is_num is_str is_array is_object at_ contains negb];
    repeat split; try discriminate; try (intros [? H]; discriminate H);
    try (intros _; eexists; reflexivity); try reflexivity;
    unfold StdMap.at_, StdMap.count; destruct (StdMap.find key o);
    try discriminate; try reflexivity; try (intros [? H]; discriminate H);
    try (intros _; eexists; reflexivity).
Qed.

(** ** Containers written with whitespace *)

Lemma reads_reads_with n txt v : reads txt v -> reads_with (parse_value n) n txt v.
Proof.
  intros H ws rest Hl Hw Hr. rewrite parse_value_skips by exact Hw.
  apply H; [lia|exact Hr].
Qed.

Lemma reads_with_here pv bound txt v rest :
  reads_with pv bound txt v ->
  (String.length txt + String.length rest < bound)%nat ->
  starts_with continues rest = false ->
  pv (txt ++ rest) = Ok (v, rest).
Proof. intros H Hl Hr. exact (H "" rest Hl eq_refl Hr). Qed.

Lemma elements_spaced_stop es r :
  Forall element_wf es -> es <> [] ->
  starts_with isspace (elements_spaced es ++ r) = false.
Proof.
  intros H Hne. destruct es as [|e es]; [congruence|].
  inversion H as [|? ? (_ & _ & _ & Hd) _]; subst.
  cbn [elements_spaced]. rewrite !append_assoc.
  destruct (e_text e) as [|c t]; [discriminate|].
  cbn [String.append starts_with]. now apply starts_dispatch_not_space.
Qed.

Ltac lengths :=
  repeat (progress (rewrite ?length_append in *; cbn [String.length] in * )).

Section SpacedLoops.

Variable pv : Parser Json.
Variable bound : nat.

Lemma array_loop_spaced :
  forall es, Forall element_wf es ->
    Forall (fun e => reads_with pv bound (e_text e) (e_value e)) es -> es <> [] ->
    forall k arr rest,
      (String.length (elements_spaced es ++ String "]" rest) < k)%nat ->
      (String.length (elements_spaced es ++ String "]" rest) < bound)%nat ->
      array_loop pv k arr (elements_spaced es ++ String "]" rest) =
      Ok (Arr (arr ++ map e_value es), rest).
Proof.
  induction es as [|e es IH]; intros Hwf Hrd Hne k arr rest Hk Hb; [congruence|].
  destruct k as [|k]; [lia|].
  inversion Hwf as [|? ? (Hpre & Hpost & _ & Hd) Hwf']; subst.
  inversion Hrd as [|? ? He Hrd']; subst.
  assert (Hte : (1 <= String.length (e_text e))%nat)
    by (destruct (e_text e); [discriminate|simpl; lia]).
  cbn [elements_spaced map] in *. rewrite !append_assoc in *.
  rewrite !length_append in Hk, Hb.
  cbn [array_loop]. unfold bind at 1.
  destruct es as [|e2 es].
  - cbn [String.append] in *.
    rewrite (reads_with_here _ _ _ _ _ He); cycle 1.
    { rewrite !length_append. cbn [String.length] in *. lia. }
    { apply blank_then; [exact Hpost|reflexivity]. }
    unfold bind at 1, skip_ws at 1.
    rewrite drop_ws_to by (exact Hpost || reflexivity).
    reflexivity.
  - set (tail := elements_spaced (e2 :: es) ++ String "]" rest) in *.
    assert (Ht : String.length tail =
                 (String.length (elements_spaced (e2 :: es)) + S (String.length rest))%nat)
      by (unfold tail; rewrite length_append; reflexivity).
    rewrite !append_assoc in *. cbn [String.append] in *. fold tail.
    rewrite ?length_append in Hk, Hb. cbn [String.length] in Hk, Hb.
    rewrite (reads_with_here _ _ _ _ _ He); cycle 1.
    { lengths. lia. }
    { apply blank_then; [exact Hpost|reflexivity]. }
    unfold bind at 1, skip_ws at 1.
    rewrite drop_ws_to by (exact Hpost || reflexivity).
    unfold bind at 1. cbn [get].
    change (Ascii.eqb "," "]") with false. change (negb (Ascii.eqb "," ",")) with false.
    cbv iota. unfold bind at 1, skip_ws at 1.
    inversion Hwf' as [|? ? (Hpre2 & _) _]; subst.
    rewrite drop_ws_to; cycle 1.
    { exact Hpre2. }
    { unfold tail. apply elements_spaced_stop; [exact Hwf'|discriminate]. }
    unfold tail. rewrite IH; auto.
    + rewrite <- app_assoc. reflexivity.
    + discriminate.
    + fold tail. lengths. lia.
    + fold tail. lengths. lia.
Qed.

Lemma members_spaced_head ms r :
  ms <> [] -> exists t, members_spaced ms ++ r = String DQ t.
Proof.
  destruct ms as [|m ms]; [congruence|]. intros _.
  cbn [members_spaced]. unfold quoted. rewrite !append_assoc.
  eexists. reflexivity.
Qed.

Lemma object_loop_spaced :
  forall ms, Forall member_wf ms ->
    Forall (fun m => reads_with pv bound (m_text m) (m_value m)) ms -> ms <> [] ->
    forall k obj rest,
      (String.length (members_spaced ms ++ String "}" rest) < k)%nat ->
      (String.length (members_spaced ms ++ String "}" rest) < bound)%nat ->
      object_loop pv k obj (members_spaced ms ++ String "}" rest) =
      Ok (Obj (emplace_all (map (fun m => (m_key m, m_value m)) ms) obj), rest).
Proof.
  induction ms as [|m ms IH]; intros Hwf Hrd Hne k obj rest Hk Hb; [congruence|].
  destruct k as [|k]; [lia|].
  inversion Hwf as [|? ? (Hpre & Hcol & Hvp & Hpost & Hkey & _) Hwf']; subst.
  inversion Hrd as [|? ? Hm Hrd']; subst.
  cbn [members_spaced map emplace_all fold_left fst snd] in *.
  change (fold_left _ ?l ?o) with (emplace_all l o).
  rewrite !append_assoc in *. rewrite !length_append in Hk, Hb.
  set (after := match ms with
                | [] => ""
                | m' :: _ => "," ++ m_pre m' ++ members_spaced ms
                end ++ String "}" rest) in *.
  cbn [object_loop].
  assert (Eq0 : exists t, quoted (m_key m) ++ m_colon m ++ ":" ++ m_value_pre m ++
                          m_text m ++ m_post m ++ after = String DQ t).
  { unfold quoted. rewrite !append_assoc. eexists. reflexivity. }
  destruct Eq0 as [t Et].
  rewrite (bind_eq _ _ _ tt (quoted (m_key m) ++ m_colon m ++ ":" ++ m_value_pre m ++
                             m_text m ++ m_post m ++ after))
    by (rewrite Et; reflexivity).
  rewrite (bind_eq _ _ _ DQ (quoted (m_key m) ++ m_colon m ++ ":" ++ m_value_pre m ++
                             m_text m ++ m_post m ++ after))
    by (rewrite Et; reflexivity).
  change (negb (Ascii.eqb DQ DQ)) with false. cbv iota.
  rewrite (bind_eq _ _ _ _ _ (parse_string_raw_quoted (m_key m) _ Hkey)).
  unfold bind at 1, skip_ws at 1.
  cbn [String.append].
  rewrite drop_ws_to by (exact Hcol || reflexivity).
  rewrite (bind_eq _ _ _ tt (m_value_pre m ++ m_text m ++ m_post m ++ after)) by reflexivity.
  unfold bind at 1.
  assert (Hafter : starts_with continues (m_post m ++ after) = false).
  { unfold after. destruct ms as [|m2 ms]; cbn [String.append];
      (apply blank_then; [exact Hpost|reflexivity]). }
  rewrite (Hm (m_value_pre m) (m_post m ++ after)); cycle 1.
  { unfold after in *. destruct ms; lengths; lia. }
  { exact Hvp. }
  { exact Hafter. }
  unfold bind at 1, skip_ws at 1.
  destruct ms as [|m2 ms].
  - unfold after. cbn [String.append].
    rewrite drop_ws_to by (exact Hpost || reflexivity). reflexivity.
  - unfold after in *. cbn [String.append] in *.
    rewrite drop_ws_to by (exact Hpost || reflexivity).
    unfold bind at 1. cbn [get].
    change (Ascii.eqb "," "}") with false. change (negb (Ascii.eqb "," ",")) with false.
    cbv iota. unfold bind at 1, skip_ws at 1.
    inversion Hwf' as [|? ? (Hpre2 & _) _]; subst.
    destruct (members_spaced_head (m2 :: ms) (String "}" rest)) as [t2 Et2];
      [discriminate|].
    rewrite append_assoc.
    rewrite drop_ws_to; [|exact Hpre2|rewrite Et2; reflexivity].
    rewrite IH; auto.
    + discriminate.
    + lengths. lia.
    + lengths. lia.
Qed.

End SpacedLoops.

Lemma parse_value_here n c r :
  isspace c = false ->
  parse_value (S n) (String c r) =
  (if Ascii.eqb c "n" then parse_null
   else if Ascii.eqb c "t" || Ascii.eqb c "f" then parse_bool
   else if Ascii.eqb c DQ then parse_string
   else if Ascii.eqb c "-" || isdigit c then parse_number
   else if Ascii.eqb c "{" then parse_object (parse_value n)
   else if Ascii.eqb c "[" then parse_array (parse_value n)
   else throw "JSON: unexpected token") (String c r).
Proof. exact (parse_value_at n "" c r eq_refl). Qed.

Lemma reads_array_spaced w es :
  blank w -> Forall element_wf es ->
  reads (array_spaced w es) (Arr (map e_value es)).
Proof.
  intros Hw Hes [|n] rest Hn Hr; [lia|].
  unfold array_spaced in *. rewrite !append_assoc in *.
  cbn [String.append] in *.
  rewrite parse_value_here by reflexivity.
  change (Ascii.eqb "[" "n") with false.
  change (Ascii.eqb "[" "t" || Ascii.eqb "[" "f") with false.
  change (Ascii.eqb "[" DQ) with false.
  change (Ascii.eqb "[" "-" || isdigit "[") with false.
  change (Ascii.eqb "[" "{") with false.
  change (Ascii.eqb "[" "[") with true. cbv iota.
  unfold parse_array.
  match goal with
  | |- bind (expect "[") _ (String "[" ?x) = _ =>
      rewrite (bind_eq _ _ _ tt x) by reflexivity
  end.
  unfold bind at 1, skip_ws at 1.
  destruct es as [|e es].
  - rewrite drop_ws_to by (exact Hw || reflexivity). reflexivity.
  - inversion Hes as [|? ? (Hpre & _) _]; subst.
    rewrite append_assoc.
    set (st := elements_spaced (e :: es) ++ String "]" rest).
    rewrite drop_ws_to; [|exact Hpre|apply elements_spaced_stop; [exact Hes|discriminate]].
    assert (Hc : exists c r, st = String c r /\ dispatches c = true).
    { inversion Hes as [|? ? (_ & _ & _ & Hd) _]; subst. unfold st.
      cbn [elements_spaced]. destruct (e_text e) as [|c r]; [discriminate|].
      rewrite !append_assoc. cbn [String.append]. eauto. }
    destruct Hc as (c & r & Ec & Hc).
    rewrite Ec at 1. unfold bind at 1. cbn [peek].
    rewrite (starts_dispatch_not_close c Hc). rewrite <- Ec.
    assert (Hlen : (String.length st < n)%nat).
    { unfold st. lengths. lia. }
    apply (array_loop_spaced (parse_value n) n (e :: es) Hes) with (arr := []);
      [|discriminate|unfold st; lia|exact Hlen].
    eapply Forall_impl; [|exact Hes]. intros a (_ & _ & Ha & _).
    now apply reads_reads_with.
Qed.

Lemma reads_object_spaced w ms :
  blank w -> Forall member_wf ms ->
  reads (object_spaced w ms)
        (Obj (emplace_all (map (fun m => (m_key m, m_value m)) ms) [])).
Proof.
  intros Hw Hms [|n] rest Hn Hr; [lia|].
  unfold object_spaced in *. rewrite !append_assoc in *.
  cbn [String.append] in *.
  rewrite parse_value_here by reflexivity.
  change (Ascii.eqb "{" "n") with false.
  change (Ascii.eqb "{" "t" || Ascii.eqb "{" "f") with false.
  change (Ascii.eqb "{" DQ) with false.
  change (Ascii.eqb "{" "-" || isdigit "{") with false.
  change (Ascii.eqb "{" "{") with true. cbv iota.
  unfold parse_object.
  match goal with
  | |- bind (expect "{") _ (String "{" ?x) = _ =>
      rewrite (bind_eq _ _ _ tt x) by reflexivity
  end.
  unfold bind at 1, skip_ws at 1.
  destruct ms as [|m ms].
  - rewrite drop_ws_to by (exact Hw || reflexivity). reflexivity.
  - inversion Hms as [|? ? (Hpre & _) _]; subst.
    rewrite append_assoc.
    set (st := members_spaced (m :: ms) ++ String "}" rest).
    destruct (members_spaced_head (m :: ms) (String "}" rest)) as [t Et];
      [discriminate|]. fold st in Et.
    rewrite drop_ws_to; [|exact Hpre|rewrite Et; reflexivity].
    rewrite Et at 1. unfold bind at 1. cbn [peek].
    change (Ascii.eqb DQ "}") with false. cbv iota. rewrite <- Et.
    assert (Hlen : (String.length st < n)%nat).
    { unfold st. lengths. lia. }
    apply (object_loop_spaced (parse_value n) n (m :: ms) Hms);
      [|discriminate|unfold st; lia|exact Hlen].
    eapply Forall_impl; [|exact Hms]. intros a (_ & _ & _ & _ & _ & Ha).
    now apply reads_reads_with.
Qed.

(** Whitespace may stand around every element of an array text, and in an
    empty array: the text denotes the Array of its elements in the order
    written, and itself stands as an element or a member of another text. *)
Theorem array_with_whitespace (ws w ws' : string) (es : list element)
    (Hws : blank ws) (Hw : blank w) (Hws' : blank ws')
    (H : Forall element_wf es) :
  parse (ws ++ array_spaced w es ++ ws') = Ok (Arr (map e_value es)) /\
  reads (array_spaced w es) (Arr (map e_value es)).
Proof.
  split; [apply reads_between; try assumption|]; now apply reads_array_spaced.
Qed.

Lemma array_with_whitespace_witness :
  parse (" " ++ array_spaced "" [Element " " "true" " " (Bool true);
                                 Element (chr LF) "null" "" Null] ++ chr LF) =
  Ok (Arr (map e_value [Element " " "true" " " (Bool true);
                        Element (chr LF) "null" "" Null])) /\
  reads (array_spaced "" [Element " " "true" " " (Bool true);
                          Element (chr LF) "null" "" Null])
        (Arr (map e_value [Element " " "true" " " (Bool true);
                           Element (chr LF) "null" "" Null])).
Proof.
  apply (array_with_whitespace " " "" (chr LF)
           [Element " " "true" " " (Bool true); Element (chr LF) "null" "" Null]);
    try reflexivity.
  repeat constructor; first [exact reads_true | exact reads_null].
Defined.

(** Whitespace may stand before and after every key, colon and value of an
    object text, and in an empty object: the text denotes the Object that
    holds, for each key, the value of its first member. *)
Theorem object_with_whitespace (ws w ws' : string) (ms : list member)
    (Hws : blank ws) (Hw : blank w) (Hws' : blank ws')
    (H : Forall member_wf ms) :
  let kvs := map (fun m => (m_key m, m_value m)) ms in
  parse (ws ++ object_spaced w ms ++ ws') = Ok (Obj (emplace_all kvs [])) /\
  reads (object_spaced w ms) (Obj (emplace_all kvs [])) /\
  (forall k, StdMap.find k (emplace_all kvs []) = first_member k kvs).
Proof.
  cbv zeta. split; [|split].
  - apply reads_between; try assumption. now apply reads_object_spaced.
  - now apply reads_object_spaced.
  - intro k. rewrite find_emplace_all by constructor. reflexivity.
Qed.

Lemma object_with_whitespace_witness :
  let ms := [Member " " "b" " " " " "true" " " (Bool true);
             Member (chr LF) "a" "" "" "null" "" Null;
             Member "" "b" "" "" "false" "" (Bool false)] in
  let kvs := map (fun m => (m_key m, m_value m)) ms in
  parse (" " ++ object_spaced "" ms ++ chr LF) = Ok (Obj (emplace_all kvs [])) /\
  reads (object_spaced "" ms) (Obj (emplace_all kvs [])) /\
  (forall k, StdMap.find k (emplace_all kvs []) = first_member k kvs).
Proof.
  apply (object_with_whitespace " " "" (chr LF)
           [Member " " "b" " " " " "true" " " (Bool true);
            Member (chr LF) "a" "" "" "null" "" Null;
            Member "" "b" "" "" "false" "" (Bool false)]);
    try reflexivity.
  repeat constructor; first [exact reads_true | exact reads_null | exact reads_false].
Defined.

(** ** One byte of lookahead *)

Section Lookahead.

Lemma append_cancel_r (a b y : string) : a ++ y = b ++ y -> a = b.
Proof.
  revert b. induction a as [|c a IH]; intros b E.
  - destruct b as [|d b]; [reflexivity|exfalso].
    apply (f_equal String.length) in E. cbn in E. rewrite length_append in E. lia.
  - destruct b as [|d b].
    + exfalso. apply (f_equal String.length) in E. cbn in E.
      rewrite length_append in E. lia.
    + cbn in E. inversion E; subst. f_equal. now apply IH.
Qed.

Lemma append_same_length (a y : string) : a ++ y = y -> a = "".
Proof. intro E. apply (append_cancel_r a "" y). exact E. Qed.

Lemma local_ret {A} (a : A) : local (ret a).
Proof.
  intros u y x st E _. inversion E; subst. exists "", u. repeat split.
Qed.

Lemma local_throw {A} w : local (@throw A w).
Proof. intros u y x st E. discriminate. Qed.

Lemma local_eof : local eof.
Proof.
  intros [|c u] y a st E Hl.
  - cbn [String.append] in E. destruct y; inversion E; subst; lia.
  - cbn in E. inversion E; subst a st. exists "", (String c u). repeat split.
Qed.

Lemma local_peek : local peek.
Proof.
  intros [|c u] y a st E Hl.
  - cbn [String.append] in E. destruct y; inversion E; subst; lia.
  - cbn in E. inversion E; subst a st. exists "", (String c u). repeat split.
Qed.

Lemma local_get : local get.
Proof.
  intros [|c u] y a st E Hl.
  - cbn [String.append] in E. destruct y; inversion E; subst; cbn in Hl; lia.
  - cbn in E. inversion E; subst a st. exists (String c ""), u. repeat split.
Qed.

Lemma local_advance : local advance.
Proof.
  intros [|c u] y a st E Hl.
  - cbn [String.append] in E. destruct y; inversion E; subst; cbn in Hl; lia.
  - cbn in E. inversion E; subst a st. exists (String c ""), u. repeat split.
Qed.

Lemma drop_local (f : ascii -> bool) (drop : string -> string) :
  (forall c r, drop (String c r) = if f c then drop r else String c r) ->
  drop "" = "" ->
  (forall s, (String.length (drop s) <= String.length s)%nat) ->
  forall u y, (String.length y < String.length (drop (u ++ y)))%nat ->
    exists pre u', u = pre ++ u' /\ drop (u ++ y) = u' ++ y /\
      forall y', drop (u ++ y') = u' ++ y'.
Proof.
  intros Hd H0 Hlen. induction u as [|c u IH]; intros y Hl.
  - cbn [String.append] in Hl. specialize (Hlen y). lia.
  - cbn [String.append] in *. rewrite Hd in *. destruct (f c) eqn:Ec.
    + destruct (IH y Hl) as (pre & u' & -> & E & F).
      exists (String c pre), u'. split; [reflexivity|]. split; [exact E|].
      intro y'. rewrite Hd, Ec. apply F.
    + exists "", (String c u). split; [reflexivity|]. split; [reflexivity|].
      intro y'. rewrite Hd, Ec. reflexivity.
Qed.

Lemma local_skip_ws : local skip_ws.
Proof.
  intros u y [] st E Hl. unfold skip_ws in *. inversion E; subst st.
  destruct (drop_local isspace drop_ws (fun c r => eq_refl) eq_refl drop_ws_length u y Hl)
    as (pre & u' & -> & E' & F).
  exists pre, u'. split; [reflexivity|]. split; [exact E'|].
  intro y'. now rewrite F.
Qed.

Lemma local_skip_digits : local skip_digits.
Proof.
  intros u y [] st E Hl. unfold skip_digits in *. inversion E; subst st.
  destruct (drop_local isdigit drop_digits (fun c r => eq_refl) eq_refl
              drop_digits_length u y Hl) as (pre & u' & -> & E' & F).
  exists pre, u'. split; [reflexivity|]. split; [exact E'|].
  intro y'. now rewrite F.
Qed.

Lemma local_bind {A B} (p : Parser A) (k : A -> Parser B) :
  local p -> (forall b, nonincr (k b)) -> (forall b, local (k b)) ->
  local (bind p k).
Proof.
  intros Hp Hn Hk u y a st E Hl.
  apply bind_ok in E as (b & st1 & E1 & E2).
  pose proof (Hn b _ _ _ E2) as L.
  destruct (Hp u y b st1 E1 ltac:(lia)) as (pre1 & u1 & -> & -> & F1).
  destruct (Hk b u1 y a st E2 Hl) as (pre2 & u' & -> & -> & F2).
  exists (pre1 ++ pre2), u'. split; [now rewrite append_assoc|].
  split; [reflexivity|]. intro y'. unfold bind. rewrite F1. apply F2.
Qed.

(** What a parser leaves unread is a suffix of its input. *)
Lemma local_suffix {A} (p : Parser A) st a st' :
  local p -> p st = Ok (a, st') -> exists pre, st = pre ++ st'.
Proof.
  intros Hp E. destruct st' as [|c r] eqn:Es.
  - exists st. now rewrite append_nil_r.
  - rewrite <- (append_nil_r st) in E.
    destruct (Hp st "" a _ E ltac:(cbn; lia)) as (pre & u' & -> & E' & _).
    rewrite append_nil_r in E'. exists pre. now rewrite E'.
Qed.

End Lookahead.

Create HintDb locality discriminated.
#[export] Hint Resolve local_ret local_throw local_eof local_peek local_get
  local_advance local_skip_ws local_skip_digits : locality.

Ltac local_step :=
  match goal with
  | |- local (bind _ _) => apply local_bind; [|intro; parser_auto|intro]
  | |- local (if ?b then _ else _) => destruct b
  | |- _ => solve [auto with locality parser]
  end.
Ltac local_auto := repeat local_step.

Section LookaheadParsers.

Lemma nonincr_expect' c : nonincr (expect c).
Proof. unfold expect. parser_auto. Qed.

Lemma nonincr_digits1' : nonincr digits1.
Proof. unfold digits1. parser_auto. Qed.

Hint Resolve nonincr_expect' nonincr_digits1' nonincr_scan_sign nonincr_scan_int
  nonincr_scan_frac nonincr_scan_exp nonincr_scan_number : parser.

Lemma local_expect c : local (expect c).
Proof. unfold expect. local_auto. Qed.

Hint Resolve local_expect : locality.

Lemma local_parse_null : local parse_null.
Proof. unfold parse_null. local_auto. Qed.

Lemma local_parse_bool : local parse_bool.
Proof. unfold parse_bool. local_auto. Qed.

Lemma local_digits1 : local digits1.
Proof. unfold digits1. local_auto. Qed.

Hint Resolve local_digits1 : locality.

Lemma local_scan_number : local scan_number.
Proof.
  unfold scan_number, scan_sign, scan_int, scan_frac, scan_exp. local_auto.
Qed.

Lemma token_prefix pre u y :
  substring 0 (String.length ((pre ++ u) ++ y) - String.length (u ++ y))
    ((pre ++ u) ++ y) = pre.
Proof.
  rewrite !append_assoc.
  replace (String.length (pre ++ u ++ y) - String.length (u ++ y))%nat
    with (String.length pre) by (rewrite (length_append pre); lia).
  apply substring_prefix.
Qed.

Lemma local_parse_number : local parse_number.
Proof.
  intros u y a st E Hl. unfold parse_number in E.
  destruct (scan_number (u ++ y)) as [[[] st1]|e] eqn:Es; [|discriminate].
  destruct (Stod.stod _) as [d|e] eqn:Et; [|discriminate].
  inversion E; subst a st; clear E.
  destruct (local_scan_number u y tt st1 Es Hl) as (pre & u' & -> & -> & F).
  exists pre, u'. split; [reflexivity|]. split; [reflexivity|].
  intro y'. unfold parse_number. rewrite F.
  rewrite token_prefix in *. now rewrite Et.
Qed.

End LookaheadParsers.

(** ** Values that end with their last byte *)

Section Closing.

Lemma append_suffix_eq (u : string) : forall pre y st,
  u ++ y = pre ++ st -> String.length st = String.length y -> st = y.
Proof.
  induction u as [|c u IH]; intros pre y st E Hl.
  - cbn [String.append] in E. destruct pre as [|d pre]; [now symmetry|exfalso].
    apply (f_equal String.length) in E. cbn in E. rewrite length_append in E. lia.
  - destruct pre as [|d pre].
    + exfalso. apply (f_equal String.length) in E. cbn in E.
      rewrite length_append in E. lia.
    + cbn [String.append] in E. inversion E. eapply IH; eauto.
Qed.

Lemma closing_bind {A B} (Q : B -> Prop) (p : Parser A) (k : A -> Parser B) :
  local p -> (forall b, nonincr (k b)) -> (forall b, closing Q (k b)) ->
  (forall b, closing (eq b) p \/ settles (k b)) ->
  closing Q (bind p k).
Proof.
  intros Hp Hn Hk Hb u y a Qa Hy E y'.
  apply bind_ok in E as (b & st1 & E1 & E2).
  pose proof (Hn b _ _ _ E2) as Hl.
  destruct (Nat.eq_dec (String.length st1) (String.length y)) as [Heq|Hne].
  - destruct (local_suffix _ _ _ _ Hp E1) as [pre Epre].
    pose proof (append_suffix_eq _ _ _ _ Epre Heq) as ->.
    destruct (Hb b) as [Hc|Hs].
    + unfold bind. rewrite (Hc u y b eq_refl Hy E1 y').
      exact (Hk b "" y a Qa Hy E2 y').
    + pose proof (Hs _ _ _ E2 Hy). lia.
  - destruct (Hp u y b st1 E1 ltac:(lia)) as (pre & u1 & -> & -> & F).
    unfold bind. rewrite F. exact (Hk b u1 y a Qa Hy E2 y').
Qed.

Lemma closing_ret {A} (Q : A -> Prop) (a : A) : closing Q (ret a).
Proof.
  intros u y x _ _ E y'. inversion E as [[Ea Eu]]. subst x.
  apply append_same_length in Eu. subst u. reflexivity.
Qed.

Lemma closing_throw {A} (Q : A -> Prop) w : closing Q (@throw A w).
Proof. intros u y x _ _ E. discriminate. Qed.

Lemma closing_get (Q : ascii -> Prop) : closing Q get.
Proof.
  intros [|c u] y a _ Hy E y'.
  - exfalso. cbn [String.append] in E. destruct y as [|d y]; [contradiction|].
    cbn in E. inversion E as [[Ea Ey]].
    apply (f_equal String.length) in Ey. cbn in Ey. lia.
  - cbn in E. inversion E as [[Ea Eu]]. apply append_same_length in Eu. subst u.
    reflexivity.
Qed.

Lemma closing_eof_true : closing (eq true) eof.
Proof.
  intros u y a <- Hy E. exfalso. destruct u; cbn [String.append] in E.
  - destruct y; [contradiction|discriminate].
  - discriminate.
Qed.

Lemma settles_progress {A} (p : Parser A) : progress p -> settles p.
Proof. intros H st a st' E _. exact (H _ _ _ E). Qed.

Lemma settles_throw {A} w : settles (@throw A w).
Proof. intros st a st' E. discriminate. Qed.

Lemma settles_get : settles get.
Proof.
  intros [|c r] a st' E Hne; cbn in E; inversion E; subst; [contradiction|cbn; lia].
Qed.

Lemma settles_bind_l {A B} (p : Parser A) (k : A -> Parser B) :
  settles p -> (forall b, nonincr (k b)) -> settles (bind p k).
Proof.
  intros Hp Hk st a st' E Hne. apply bind_ok in E as (b & st1 & E1 & E2).
  pose proof (Hk b _ _ _ E2) as Hl.
  destruct st1 as [|c r].
  - destruct st'; [contradiction|cbn in Hl; lia].
  - pose proof (Hp _ _ _ E1 ltac:(discriminate)). lia.
Qed.

Lemma settles_bind_r {A B} (p : Parser A) (k : A -> Parser B) :
  nonincr p -> (forall b, settles (k b)) -> settles (bind p k).
Proof.
  intros Hp Hk st a st' E Hne. apply bind_ok in E as (b & st1 & E1 & E2).
  pose proof (Hp _ _ _ E1). pose proof (Hk b _ _ _ E2 Hne). lia.
Qed.

End Closing.

Create HintDb settling discriminated.
#[export] Hint Resolve settles_throw settles_get : settling.

Ltac settle_step :=
  match goal with
  | |- settles (bind _ _) =>
      first [ apply settles_bind_l; [solve [auto with settling]|intro; parser_auto]
            | apply settles_bind_r; [solve [parser_auto]|intro] ]
  | |- settles (if ?b then _ else _) => destruct b
  | |- _ => solve [auto with settling]
  end.
Ltac settle_auto := repeat settle_step.

Create HintDb closingdb discriminated.
#[export] Hint Resolve closing_ret closing_throw closing_get closing_eof_true : closingdb.

Ltac closing_side :=
  first [left; solve [auto with closingdb]|right; solve [settle_auto]].
Ltac closing_step :=
  match goal with
  | |- closing _ (bind _ _) =>
      apply closing_bind;
      [solve [local_auto]|intro; parser_auto|intro|
       let b := fresh "b" in
       intro b; first [closing_side|destruct b; closing_side]]
  | |- closing _ (if ?b then _ else _) => destruct b
  | |- _ => solve [auto with closingdb]
  end.
Ltac closing_auto := repeat closing_step.


Section LookaheadLoops.

Hint Resolve nonincr_expect' nonincr_digits1' nonincr_scan_sign nonincr_scan_int
  nonincr_scan_frac nonincr_scan_exp nonincr_scan_number : parser.
Hint Resolve local_expect local_digits1 : locality.

(** *** The string loop *)

Lemma nonincr_string_loop n : forall out, nonincr (string_loop n out).
Proof.
  induction n as [|n IH]; intro out; [intros st a st' E; discriminate|].
  cbn [string_loop]. parser_auto.
Qed.

Hint Resolve nonincr_string_loop : parser.

Lemma local_string_loop n : forall out, local (string_loop n out).
Proof.
  induction n as [|n IH]; intro out; [intros u y a st E; discriminate|].
  cbn [string_loop]. local_auto.
Qed.

Hint Resolve local_string_loop : locality.

(** A loop that ends with some fuel ends the same way with enough fuel. *)
Lemma string_loop_enough n : forall out st r m,
  string_loop n out st = Ok r -> (String.length st < m)%nat ->
  string_loop m out st = Ok r.
Proof.
  induction n as [|n IH]; intros out st r m E Hm; [discriminate|].
  destruct m as [|m]; [lia|].
  destruct st as [|c r0]; [exact E|].
  cbn [String.length] in Hm.
  cbn [string_loop] in *. unfold bind at 1 in E. unfold bind at 1.
  cbn [eof] in *. unfold bind at 1 in E. unfold bind at 1. cbn [get] in *.
  destruct (Ascii.eqb c DQ); [exact E|].
  destruct (Ascii.eqb c BSL); [|apply (IH _ _ _ _ E); lia].
  unfold bind at 1 in E. unfold bind at 1.
  destruct r0 as [|e r1]; cbn [get] in *.
  { repeat match type of E with
      | context [if Ascii.eqb NUL ?x then _ else _] =>
          change (Ascii.eqb NUL x) with false in E; cbv iota in E
      end.
    discriminate E. }
  cbn [String.length] in Hm.
  repeat match goal with
    | |- context [if Ascii.eqb e ?x then _ else _] =>
        destruct (Ascii.eqb e x); [first [apply (IH _ _ _ _ E); lia | idtac]|]
    end.
  2: exact E.
  unfold bind in *.
  destruct r1 as [|h1 r2]; cbn [get] in *; [apply (IH _ _ _ _ E); cbn; lia|].
  destruct r2 as [|h2 r3]; cbn [get] in *; [apply (IH _ _ _ _ E); cbn; lia|].
  destruct r3 as [|h3 r4]; cbn [get] in *; [apply (IH _ _ _ _ E); cbn; lia|].
  destruct r4 as [|h4 r5]; cbn [get] in *; apply (IH _ _ _ _ E); cbn in *; lia.
Qed.

Lemma nonincr_string_body :
  nonincr (fun st => string_loop (S (String.length st)) "" st).
Proof. intros st a st' E. now apply nonincr_string_loop in E. Qed.

Lemma local_string_body :
  local (fun st => string_loop (S (String.length st)) "" st).
Proof.
  intros u y a st E Hl.
  destruct (local_string_loop _ "" u y a st E Hl) as (pre & u' & -> & -> & F).
  exists pre, u'. split; [reflexivity|]. split; [reflexivity|].
  intro y'. apply (string_loop_enough _ _ _ _ _ (F y')). lia.
Qed.

Lemma nonincr_parse_string_raw : nonincr parse_string_raw.
Proof. apply progress_nonincr, progress_parse_string_raw. Qed.

Lemma local_parse_string_raw : local parse_string_raw.
Proof.
  unfold parse_string_raw. apply local_bind; [apply local_expect| |].
  - intros _. apply nonincr_string_body.
  - intros _. apply local_string_body.
Qed.

Hint Resolve nonincr_parse_string_raw : parser.
Hint Resolve local_parse_string_raw : locality.

Lemma local_parse_string : local parse_string.
Proof. unfold parse_string. local_auto. Qed.

Lemma bind_enough {A B} (p : Parser A) (f f' : A -> Parser B) st r :
  bind p f st = Ok r ->
  (forall a st1, p st = Ok (a, st1) -> f a st1 = Ok r -> f' a st1 = Ok r) ->
  bind p f' st = Ok r.
Proof.
  unfold bind. destruct (p st) as [[a st1]|e]; [|discriminate]. intros E H.
  now apply H.
Qed.


Lemma closing_expect (Q : unit -> Prop) c : closing Q (expect c).
Proof. unfold expect. closing_auto. Qed.

Lemma settles_expect c : settles (expect c).
Proof. unfold expect. settle_auto. Qed.

Hint Resolve closing_expect : closingdb.
Hint Resolve settles_expect : settling.

Lemma closing_parse_null Q : closing Q parse_null.
Proof. unfold parse_null. closing_auto. Qed.

Lemma closing_parse_bool Q : closing Q parse_bool.
Proof. unfold parse_bool. closing_auto. Qed.

Lemma settles_string_loop n : forall out, settles (string_loop n out).
Proof.
  destruct n as [|n]; intro out; [intros st a st' E; discriminate|].
  cbn [string_loop]. intros st a st' E Hne.
  destruct st as [|c r].
  - change (Ok (out, "") = Ok (a, st')) in E. inversion E; subst. contradiction.
  - unfold bind at 1 in E. cbn [eof] in E. unfold bind at 1 in E. cbn [get] in E.
    assert (Hk : nonincr
              (if Ascii.eqb c DQ then ret out
               else if Ascii.eqb c BSL then
                 e <- get ;;
                 if Ascii.eqb e DQ then string_loop n (out ++ chr DQ)
                 else if Ascii.eqb e BSL then string_loop n (out ++ chr BSL)
                 else if Ascii.eqb e "/" then string_loop n (out ++ "/")
                 else if Ascii.eqb e "b" then string_loop n (out ++ chr BS)
                 else if Ascii.eqb e "f" then string_loop n (out ++ chr FF)
                 else if Ascii.eqb e "n" then string_loop n (out ++ chr LF)
                 else if Ascii.eqb e "r" then string_loop n (out ++ chr CR)
                 else if Ascii.eqb e "t" then string_loop n (out ++ chr TAB)
                 else if Ascii.eqb e "u" then
                   h1 <- get ;; h2 <- get ;; h3 <- get ;; h4 <- get ;;
                   string_loop n
                     (out ++ String BSL "u" ++ chr h1 ++ chr h2 ++ chr h3 ++ chr h4)
                 else throw "JSON: bad escape"
               else string_loop n (out ++ chr c))).
    { parser_auto. }
    apply Hk in E. cbn. lia.
Qed.

Lemma closing_string_loop Q n : forall out, closing Q (string_loop n out).
Proof.
  induction n as [|n IH]; intro out; [intros u y a _ _ E; discriminate|].
  cbn [string_loop]. closing_auto.
Qed.

Lemma closing_string_body Q :
  closing Q (fun st => string_loop (S (String.length st)) "" st).
Proof.
  intros u y a Qa Hy E y'.
  apply (string_loop_enough (S (String.length (u ++ y)))); [|lia].
  exact (closing_string_loop Q _ "" u y a Qa Hy E y').
Qed.

Lemma settles_string_body :
  settles (fun st => string_loop (S (String.length st)) "" st).
Proof. intros st a st' E. exact (settles_string_loop _ _ _ _ _ E). Qed.

Hint Resolve closing_string_body : closingdb.
Hint Resolve settles_string_body : settling.

Lemma closing_parse_string_raw Q : closing Q parse_string_raw.
Proof.
  unfold parse_string_raw.
  apply closing_bind; [apply local_expect| | |].
  - intros _. apply nonincr_string_body.
  - intros _. apply closing_string_body.
  - intros []. left. apply closing_expect.
Qed.

Hint Resolve closing_parse_string_raw : closingdb.

Lemma closing_parse_string Q : closing Q parse_string.
Proof. unfold parse_string. closing_auto. Qed.


(** *** The loops of the containers *)

Section Loops.

Variable pv : Parser Json.
Hypothesis pv_local : local pv.
Hypothesis pv_progress : progress pv.

Lemma pv_nonincr : nonincr pv.
Proof. apply progress_nonincr, pv_progress. Qed.

Hint Resolve pv_nonincr : parser.
Hint Resolve pv_local : locality.

Lemma nonincr_array_loop n : forall arr, nonincr (array_loop pv n arr).
Proof.
  induction n as [|n IH]; intro arr; [intros st a st' E; discriminate|].
  cbn [array_loop]. parser_auto.
Qed.

Lemma nonincr_object_loop n : forall obj, nonincr (object_loop pv n obj).
Proof.
  induction n as [|n IH]; intro obj; [intros st a st' E; discriminate|].
  cbn [object_loop]. parser_auto.
Qed.

Hint Resolve nonincr_array_loop nonincr_object_loop : parser.

Lemma local_array_loop n : forall arr, local (array_loop pv n arr).
Proof.
  induction n as [|n IH]; intro arr; [intros u y a st E; discriminate|].
  cbn [array_loop]. local_auto.
Qed.

Lemma local_object_loop n : forall obj, local (object_loop pv n obj).
Proof.
  induction n as [|n IH]; intro obj; [intros u y a st E; discriminate|].
  cbn [object_loop]. local_auto.
Qed.

Hint Resolve local_array_loop local_object_loop : locality.

Lemma array_loop_enough n : forall arr st r m,
  array_loop pv n arr st = Ok r -> (String.length st < m)%nat ->
  array_loop pv m arr st = Ok r.
Proof.
  induction n as [|n IH]; intros arr st r m E Hm; [discriminate|].
  destruct m as [|m]; [lia|]. cbn [array_loop] in *.
  eapply bind_enough; [exact E|]. intros v s1 E1 E2. cbv beta in E2 |- *. apply pv_progress in E1.
  eapply bind_enough; [exact E2|]. intros [] s2 E3 E4. cbv beta in E4 |- *. apply nonincr_skip_ws in E3.
  eapply bind_enough; [exact E4|]. intros c s3 E5 E6. cbv beta in E6 |- *. apply nonincr_get in E5.
  destruct (Ascii.eqb c "]"); [exact E6|].
  destruct (negb (Ascii.eqb c ",")); [exact E6|].
  eapply bind_enough; [exact E6|]. intros [] s4 E7 E8. cbv beta in E8 |- *. apply nonincr_skip_ws in E7.
  apply (IH _ _ _ _ E8). lia.
Qed.

Lemma object_loop_enough n : forall obj st r m,
  object_loop pv n obj st = Ok r -> (String.length st < m)%nat ->
  object_loop pv m obj st = Ok r.
Proof.
  induction n as [|n IH]; intros obj st r m E Hm; [discriminate|].
  destruct m as [|m]; [lia|]. cbn [object_loop] in *.
  eapply bind_enough; [exact E|]. intros [] s1 E1 E2. cbv beta in E2 |- *. apply nonincr_skip_ws in E1.
  eapply bind_enough; [exact E2|]. intros c s2 E3 E4. cbv beta in E4 |- *. apply nonincr_peek in E3.
  destruct (negb (Ascii.eqb c DQ)); [exact E4|].
  eapply bind_enough; [exact E4|]. intros key s3 E5 E6. cbv beta in E6 |- *.
  apply nonincr_parse_string_raw in E5.
  eapply bind_enough; [exact E6|]. intros [] s4 E7 E8. cbv beta in E8 |- *. apply nonincr_skip_ws in E7.
  eapply bind_enough; [exact E8|]. intros [] s5 E9 E10. cbv beta in E10 |- *. apply nonincr_expect' in E9.
  eapply bind_enough; [exact E10|]. intros v s6 E11 E12. cbv beta in E12 |- *. apply pv_progress in E11.
  eapply bind_enough; [exact E12|]. intros [] s7 E13 E14. cbv beta in E14 |- *. apply nonincr_skip_ws in E13.
  eapply bind_enough; [exact E14|]. intros c' s8 E15 E16. cbv beta in E16 |- *. apply nonincr_get in E15.
  destruct (Ascii.eqb c' "}"); [exact E16|].
  destruct (negb (Ascii.eqb c' ",")); [exact E16|].
  eapply bind_enough; [exact E16|]. intros [] s9 E17 E18. cbv beta in E18 |- *. apply nonincr_skip_ws in E17.
  apply (IH _ _ _ _ E18). lia.
Qed.

Lemma nonincr_array_body :
  nonincr (fun st => array_loop pv (S (String.length st)) [] st).
Proof. intros st a st' E. now apply nonincr_array_loop in E. Qed.

Lemma nonincr_object_body :
  nonincr (fun st => object_loop pv (S (String.length st)) [] st).
Proof. intros st a st' E. now apply nonincr_object_loop in E. Qed.

Lemma local_array_body :
  local (fun st => array_loop pv (S (String.length st)) [] st).
Proof.
  intros u y a st E Hl.
  destruct (local_array_loop _ [] u y a st E Hl) as (pre & u' & -> & -> & F).
  exists pre, u'. split; [reflexivity|]. split; [reflexivity|].
  intro y'. apply (array_loop_enough _ _ _ _ _ (F y')). lia.
Qed.

Lemma local_object_body :
  local (fun st => object_loop pv (S (String.length st)) [] st).
Proof.
  intros u y a st E Hl.
  destruct (local_object_loop _ [] u y a st E Hl) as (pre & u' & -> & -> & F).
  exists pre, u'. split; [reflexivity|]. split; [reflexivity|].
  intro y'. apply (object_loop_enough _ _ _ _ _ (F y')). lia.
Qed.

Hint Resolve nonincr_array_body nonincr_object_body : parser.
Hint Resolve local_array_body local_object_body : locality.

Lemma nonincr_parse_array : nonincr (parse_array pv).
Proof. unfold parse_array. parser_auto. Qed.

Lemma nonincr_parse_object : nonincr (parse_object pv).
Proof. unfold parse_object. parser_auto. Qed.

Lemma progress_parse_array : progress (parse_array pv).
Proof.
  unfold parse_array. apply progress_bind_l.
  - apply progress_expect. discriminate.
  - intro. parser_auto.
Qed.

Lemma progress_parse_object : progress (parse_object pv).
Proof.
  unfold parse_object. apply progress_bind_l.
  - apply progress_expect. discriminate.
  - intro. parser_auto.
Qed.

Lemma local_parse_array : local (parse_array pv).
Proof. unfold parse_array. local_auto. Qed.

Lemma local_parse_object : local (parse_object pv).
Proof. unfold parse_object. local_auto. Qed.


Variable Q : Json -> Prop.

Lemma pv_settles : settles pv.
Proof. apply settles_progress, pv_progress. Qed.

Lemma settles_parse_string_raw : settles parse_string_raw.
Proof. apply settles_progress, progress_parse_string_raw. Qed.

Hint Resolve pv_settles settles_parse_string_raw : settling.

Lemma settles_array_loop n arr : settles (array_loop pv n arr).
Proof.
  destruct n as [|n]; [intros st a st' E; discriminate|].
  cbn [array_loop]. settle_auto.
Qed.

Lemma settles_object_loop n obj : settles (object_loop pv n obj).
Proof.
  destruct n as [|n]; [intros st a st' E; discriminate|].
  cbn [object_loop]. settle_auto.
Qed.

Hint Resolve settles_array_loop settles_object_loop : settling.

Lemma closing_array_loop n : forall arr, closing Q (array_loop pv n arr).
Proof.
  induction n as [|n IH]; intro arr; [intros u y a _ _ E; discriminate|].
  cbn [array_loop]. closing_auto.
Qed.

Lemma closing_object_loop n : forall obj, closing Q (object_loop pv n obj).
Proof.
  induction n as [|n IH]; intro obj; [intros u y a _ _ E; discriminate|].
  cbn [object_loop]. closing_auto.
Qed.

Lemma closing_array_body :
  closing Q (fun st => array_loop pv (S (String.length st)) [] st).
Proof.
  intros u y a Qa Hy E y'.
  apply (array_loop_enough (S (String.length (u ++ y)))); [|lia].
  exact (closing_array_loop _ [] u y a Qa Hy E y').
Qed.

Lemma closing_object_body :
  closing Q (fun st => object_loop pv (S (String.length st)) [] st).
Proof.
  intros u y a Qa Hy E y'.
  apply (object_loop_enough (S (String.length (u ++ y)))); [|lia].
  exact (closing_object_loop _ [] u y a Qa Hy E y').
Qed.

Lemma settles_array_body :
  settles (fun st => array_loop pv (S (String.length st)) [] st).
Proof. intros st a st' E. exact (settles_array_loop _ _ _ _ _ E). Qed.

Lemma settles_object_body :
  settles (fun st => object_loop pv (S (String.length st)) [] st).
Proof. intros st a st' E. exact (settles_object_loop _ _ _ _ _ E). Qed.

Hint Resolve closing_array_body closing_object_body : closingdb.
Hint Resolve settles_array_body settles_object_body : settling.

Lemma closing_parse_array : closing Q (parse_array pv).
Proof. unfold parse_array. closing_auto. Qed.

Lemma closing_parse_object : closing Q (parse_object pv).
Proof. unfold parse_object. closing_auto. Qed.


End Loops.

(** *** [parse_value] *)

Lemma progress_parse_number : progress parse_number.
Proof.
  intros st j st' E. unfold parse_number in E.
  destruct (scan_number st) as [[[] st1]|e] eqn:Es; [|discriminate].
  pose proof (nonincr_scan_number _ _ _ Es) as Hl.
  destruct (Stod.stod _) as [d|e] eqn:Et; [|discriminate].
  inversion E; subst j st'; clear E.
  destruct (Nat.eq_dec (String.length st1) (String.length st)) as [Heq|]; [|lia].
  rewrite Heq, Nat.sub_diag in Et.
  destruct st; discriminate Et.
Qed.

Lemma progress_parse_value n : progress (parse_value n).
Proof.
  induction n as [|n IH]; [intros st j st' E; discriminate|].
  cbn [parse_value].
  apply progress_bind_r; [parser_auto|intros _].
  apply progress_bind_r; [parser_auto|intro c].
  destruct (Ascii.eqb c "n"); [apply progress_parse_null|].
  destruct (Ascii.eqb c "t" || Ascii.eqb c "f"); [apply progress_parse_bool|].
  destruct (Ascii.eqb c DQ); [apply progress_parse_string|].
  destruct (Ascii.eqb c "-" || isdigit c); [apply progress_parse_number|].
  destruct (Ascii.eqb c "{"); [now apply progress_parse_object|].
  destruct (Ascii.eqb c "["); [now apply progress_parse_array|].
  apply progress_throw.
Qed.

(** [parse_value] looks at most one byte beyond the value it returns. *)
Lemma local_parse_value n : local (parse_value n).
Proof.
  induction n as [|n IH]; [intros u y a st E; discriminate|].
  pose proof (progress_parse_value n) as Hp.
  cbn [parse_value].
  apply local_bind; [apply local_skip_ws| |].
  - intros _. apply nonincr_bind; [apply nonincr_peek|]. intro c.
    apply progress_nonincr.
    destruct (Ascii.eqb c "n"); [apply progress_parse_null|].
    destruct (Ascii.eqb c "t" || Ascii.eqb c "f"); [apply progress_parse_bool|].
    destruct (Ascii.eqb c DQ); [apply progress_parse_string|].
    destruct (Ascii.eqb c "-" || isdigit c); [apply progress_parse_number|].
    destruct (Ascii.eqb c "{"); [now apply progress_parse_object|].
    destruct (Ascii.eqb c "["); [now apply progress_parse_array|].
    apply progress_throw.
  - intros _. apply local_bind; [apply local_peek| |].
    + intro c. apply progress_nonincr.
      destruct (Ascii.eqb c "n"); [apply progress_parse_null|].
      destruct (Ascii.eqb c "t" || Ascii.eqb c "f"); [apply progress_parse_bool|].
      destruct (Ascii.eqb c DQ); [apply progress_parse_string|].
      destruct (Ascii.eqb c "-" || isdigit c); [apply progress_parse_number|].
      destruct (Ascii.eqb c "{"); [now apply progress_parse_object|].
      destruct (Ascii.eqb c "["); [now apply progress_parse_array|].
      apply progress_throw.
    + intro c.
      destruct (Ascii.eqb c "n"); [apply local_parse_null|].
      destruct (Ascii.eqb c "t" || Ascii.eqb c "f"); [apply local_parse_bool|].
      destruct (Ascii.eqb c DQ); [apply local_parse_string|].
      destruct (Ascii.eqb c "-" || isdigit c); [apply local_parse_number|].
      destruct (Ascii.eqb c "{"); [now apply local_parse_object|].
      destruct (Ascii.eqb c "["); [now apply local_parse_array|].
      apply local_throw.
Qed.



Lemma closing_parse_number : closing (fun j => is_num j = false) parse_number.
Proof.
  intros u y a Qa _ E. apply parse_number_value in E as (tok & d & _ & ->).
  discriminate.
Qed.

(** A value that is no Number is read without a look at what follows
    it. *)
Lemma closing_parse_value n : closing (fun j => is_num j = false) (parse_value n).
Proof.
  destruct n as [|n]; [intros u y a _ _ E; discriminate|].
  pose proof (progress_parse_value n) as Hp.
  pose proof (local_parse_value n) as Hl.
  assert (Hd : forall c, progress
            (if Ascii.eqb c "n" then parse_null
             else if Ascii.eqb c "t" || Ascii.eqb c "f" then parse_bool
             else if Ascii.eqb c DQ then parse_string
             else if Ascii.eqb c "-" || isdigit c then parse_number
             else if Ascii.eqb c "{" then parse_object (parse_value n)
             else if Ascii.eqb c "[" then parse_array (parse_value n)
             else throw "JSON: unexpected token")).
  { intro c.
    destruct (Ascii.eqb c "n"); [apply progress_parse_null|].
    destruct (Ascii.eqb c "t" || Ascii.eqb c "f"); [apply progress_parse_bool|].
    destruct (Ascii.eqb c DQ); [apply progress_parse_string|].
    destruct (Ascii.eqb c "-" || isdigit c); [apply progress_parse_number|].
    destruct (Ascii.eqb c "{"); [now apply progress_parse_object|].
    destruct (Ascii.eqb c "["); [now apply progress_parse_array|].
    apply progress_throw. }
  cbn [parse_value].
  apply closing_bind; [apply local_skip_ws| | |].
  - intros _. apply nonincr_bind; [apply nonincr_peek|].
    intro c. apply progress_nonincr, Hd.
  - intros _. apply closing_bind; [apply local_peek| | |].
    + intro c. apply progress_nonincr, Hd.
    + intro c.
      destruct (Ascii.eqb c "n"); [apply closing_parse_null|].
      destruct (Ascii.eqb c "t" || Ascii.eqb c "f"); [apply closing_parse_bool|].
      destruct (Ascii.eqb c DQ); [apply closing_parse_string|].
      destruct (Ascii.eqb c "-" || isdigit c); [apply closing_parse_number|].
      destruct (Ascii.eqb c "{"); [now apply closing_parse_object|].
      destruct (Ascii.eqb c "["); [now apply closing_parse_array|].
      apply closing_throw.
    + intro c. right. apply settles_progress, Hd.
  - intros []. right. apply settles_bind_r; [apply nonincr_peek|].
    intro c. apply settles_progress, Hd.
Qed.

(** The text of a value that is no Number is read the same before every
    text. *)
Lemma reads_closed txt j :
  reads txt j -> is_num j = false ->
  forall n rest,
    (String.length txt + String.length rest < n)%nat ->
    parse_value n (txt ++ rest) = Ok (j, rest).
Proof.
  intros H Hj n rest Hn.
  destruct rest as [|c r].
  - apply H; [exact Hn|reflexivity].
  - apply (closing_parse_value n txt "," j Hj ltac:(discriminate)).
    apply H; [cbn in *; lia|reflexivity].
Qed.


End LookaheadLoops.

(** ** The depth of the recursion *)

Section Depth.

Lemma opens_app a b : opens (a ++ b) = (opens a + opens b)%nat.
Proof.
  induction a as [|c a IH]; [reflexivity|].
  cbn [String.append opens]. rewrite IH. lia.
Qed.

Lemma opens_length s : (opens s <= String.length s)%nat.
Proof.
  induction s as [|c s IH]; [cbn; lia|].
  cbn [opens String.length]. destruct (Ascii.eqb c "[" || Ascii.eqb c "{"); lia.
Qed.

Lemma opens_suffix {A} (p : Parser A) st a st' :
  local p -> p st = Ok (a, st') -> (opens st' <= opens st)%nat.
Proof.
  intros Hp E. destruct (local_suffix p st a st' Hp E) as [pre ->].
  rewrite opens_app. lia.
Qed.

Section SameDepth.

Variables pv pv' : Parser Json.
Variable b : nat.
Hypothesis pv_same : forall st, (opens st < b)%nat -> pv st = pv' st.
Hypothesis pv_local : local pv.

Lemma array_loop_depth n :
  forall arr st, (opens st < b)%nat ->
    array_loop pv n arr st = array_loop pv' n arr st.
Proof.
  induction n as [|n IH]; intros arr st Hb; [reflexivity|].
  cbn [array_loop].
  apply bind_same; [now apply pv_same|]. intros v s1 E1.
  apply (opens_suffix _ _ _ _ pv_local) in E1.
  apply bind_same; [reflexivity|]. intros [] s2 E2.
  apply (opens_suffix _ _ _ _ local_skip_ws) in E2.
  apply bind_same; [reflexivity|]. intros c s3 E3.
  apply (opens_suffix _ _ _ _ local_get) in E3.
  destruct (Ascii.eqb c "]"); [reflexivity|].
  destruct (negb (Ascii.eqb c ",")); [reflexivity|].
  apply bind_same; [reflexivity|]. intros [] s4 E4.
  apply (opens_suffix _ _ _ _ local_skip_ws) in E4.
  apply IH. lia.
Qed.

Lemma object_loop_depth n :
  forall obj st, (opens st < b)%nat ->
    object_loop pv n obj st = object_loop pv' n obj st.
Proof.
  induction n as [|n IH]; intros obj st Hb; [reflexivity|].
  cbn [object_loop].
  apply bind_same; [reflexivity|]. intros [] s1 E1.
  apply (opens_suffix _ _ _ _ local_skip_ws) in E1.
  apply bind_same; [reflexivity|]. intros c s2 E2.
  apply (opens_suffix _ _ _ _ local_peek) in E2.
  destruct (negb (Ascii.eqb c DQ)); [reflexivity|].
  apply bind_same; [reflexivity|]. intros key s3 E3.
  apply (opens_suffix _ _ _ _ local_parse_string_raw) in E3.
  apply bind_same; [reflexivity|]. intros [] s4 E4.
  apply (opens_suffix _ _ _ _ local_skip_ws) in E4.
  apply bind_same; [reflexivity|]. intros [] s5 E5.
  apply (opens_suffix _ _ _ _ (local_expect ":")) in E5.
  assert (Hb5 : (opens s5 < b)%nat) by lia.
  apply bind_same; [now apply pv_same|]. intros v s6 E6.
  apply (opens_suffix _ _ _ _ pv_local) in E6.
  apply bind_same; [reflexivity|]. intros [] s7 E7.
  apply (opens_suffix _ _ _ _ local_skip_ws) in E7.
  apply bind_same; [reflexivity|]. intros c' s8 E8.
  apply (opens_suffix _ _ _ _ local_get) in E8.
  destruct (Ascii.eqb c' "}"); [reflexivity|].
  destruct (negb (Ascii.eqb c' ",")); [reflexivity|].
  apply bind_same; [reflexivity|]. intros [] s9 E9.
  apply (opens_suffix _ _ _ _ local_skip_ws) in E9.
  apply IH. lia.
Qed.

Lemma expect_opens c st u st' :
  Ascii.eqb c "[" || Ascii.eqb c "{" = true ->
  expect c st = Ok (u, st') -> (S (opens st') = opens st)%nat.
Proof.
  intros Hc E. destruct st as [|g r]; unfold expect, bind in E; cbn [get] in E.
  - destruct (Ascii.eqb_spec NUL c) as [<-|]; [discriminate Hc|discriminate E].
  - destruct (Ascii.eqb_spec g c) as [->|]; cbn [negb] in E; [|discriminate E].
    inversion E; subst. cbn [opens]. rewrite Hc. lia.
Qed.

Lemma parse_array_depth st :
  (opens st < S b)%nat -> parse_array pv st = parse_array pv' st.
Proof.
  intro Hb. unfold parse_array.
  apply bind_same; [reflexivity|]. intros [] s1 E1.
  apply (expect_opens "[") in E1; [|reflexivity].
  apply bind_same; [reflexivity|]. intros [] s2 E2.
  apply (opens_suffix _ _ _ _ local_skip_ws) in E2.
  apply bind_same; [reflexivity|]. intros c s3 E3.
  apply (opens_suffix _ _ _ _ local_peek) in E3.
  destruct (Ascii.eqb c "]"); [reflexivity|].
  apply array_loop_depth. lia.
Qed.

Lemma parse_object_depth st :
  (opens st < S b)%nat -> parse_object pv st = parse_object pv' st.
Proof.
  intro Hb. unfold parse_object.
  apply bind_same; [reflexivity|]. intros [] s1 E1.
  apply (expect_opens "{") in E1; [|reflexivity].
  apply bind_same; [reflexivity|]. intros [] s2 E2.
  apply (opens_suffix _ _ _ _ local_skip_ws) in E2.
  apply bind_same; [reflexivity|]. intros c s3 E3.
  apply (opens_suffix _ _ _ _ local_peek) in E3.
  destruct (Ascii.eqb c "}"); [reflexivity|].
  apply object_loop_depth. lia.
Qed.

End SameDepth.

(** With room for one more level than the text has opening brackets, the
    depth allowed to [parse_value] plays no part in its result. *)
Lemma parse_value_depth n :
  forall m st, (opens st < n)%nat -> (opens st < m)%nat ->
    parse_value n st = parse_value m st.
Proof.
  induction n as [|n IH]; intros m st Hn Hm; [lia|].
  destruct m as [|m]; [lia|].
  cbn [parse_value].
  apply bind_same; [reflexivity|]. intros [] s1 E1.
  apply (opens_suffix _ _ _ _ local_skip_ws) in E1.
  apply bind_same; [reflexivity|]. intros c s2 E2.
  apply (opens_suffix _ _ _ _ local_peek) in E2.
  destruct (Ascii.eqb c "n"); [reflexivity|].
  destruct (Ascii.eqb c "t" || Ascii.eqb c "f"); [reflexivity|].
  destruct (Ascii.eqb c DQ); [reflexivity|].
  destruct (Ascii.eqb c "-" || isdigit c); [reflexivity|].
  destruct (Ascii.eqb c "{").
  { apply (parse_object_depth _ _ (Nat.min n m)).
    - intros s Hs. apply IH; lia.
    - apply local_parse_value.
    - lia. }
  destruct (Ascii.eqb c "[").
  { apply (parse_array_depth _ _ (Nat.min n m)).
    - intros s Hs. apply IH; lia.
    - apply local_parse_value.
    - lia. }
  reflexivity.
Qed.

End Depth.

(** ** What may follow a value *)

(** After the text of a value, a rest that holds a byte other than
    whitespace makes [parse] throw: nothing but whitespace may follow the
    document.  The one exception is a Number whose rest begins with a byte
    that continues the number, which the scan takes into the token. *)
Theorem trailing_characters_rejected (ws txt rest : string) (j : Json)
    (Hws : blank ws) (H : reads txt j)
    (Hc : is_num j = true -> starts_with continues rest = false)
    (Hrest : drop_ws rest <> "") :
  parse (ws ++ txt ++ rest) = Err (SyntaxError "JSON: trailing characters").
Proof.
  unfold parse. rewrite parse_value_skips by exact Hws.
  assert (E : parse_value (S (String.length (ws ++ txt ++ rest))) (txt ++ rest)
              = Ok (j, rest)).
  { destruct (is_num j) eqn:Hn.
    - apply H; [rewrite !length_append; lia|now apply Hc].
    - apply reads_closed; [exact H|exact Hn|rewrite !length_append; lia]. }
  rewrite E. cbv iota. destruct (drop_ws rest); [contradiction|reflexivity].
Qed.

Lemma trailing_characters_rejected_witness :
  parse (" " ++ "true" ++ "1") = Err (SyntaxError "JSON: trailing characters").
Proof.
  apply (trailing_characters_rejected " " "true" "1" (Bool true));
    [reflexivity|exact reads_true|discriminate|discriminate].
Defined.

(** [parse_value] never calls itself deeper than one level more than the
    text has bytes ['['] and ['{']: allowed that depth, it gives the result
    it gives in [parse], a value or an exception of the code. *)
Theorem nesting_depth (s : string) (n : nat) (H : (opens s < n)%nat) :
  parse_value n s = parse_value (S (String.length s)) s /\
  parse_value n s <> Err OutOfFuel.
Proof.
  assert (E : parse_value n s = parse_value (S (String.length s)) s).
  { apply parse_value_depth; [exact H|]. pose proof (opens_length s). lia. }
  split; [exact E|]. rewrite E. intro F.
  pose proof (parse_value_advances (S (String.length s)) s ltac:(lia)) as P.
  rewrite F in P. exact P.
Qed.

Lemma nesting_depth_witness :
  parse_value 4 "[[1, 2], {}]" = parse_value 13 "[[1, 2], {}]" /\
  parse_value 4 "[[1, 2], {}]" <> Err OutOfFuel.
Proof.
  apply (nesting_depth "[[1, 2], {}]" 4). vm_compute. lia.
Defined.

(** What [parse_value] makes of a value depends on the text of the value
    and on the one byte after it: when it stops before a byte, it returns
    the same value and stops before the same byte whatever follows. *)
Theorem one_byte_lookahead (n : nat) (txt rest rest' : string) (c : ascii)
    (j : Json)
    (H : parse_value n (txt ++ String c rest) = Ok (j, String c rest)) :
  parse_value n (txt ++ String c rest') = Ok (j, String c rest').
Proof.
  pose proof (local_parse_value n (txt ++ String c "") rest j (String c rest))
    as L.
  rewrite append_assoc in L. cbn [String.append] in L.
  destruct (L H) as (pre & u' & E & Eu & K); [cbn [String.length]; lia|].
  change (String c rest) with (String c "" ++ rest) in Eu.
  apply append_cancel_r in Eu. subst u'.
  specialize (K rest'). rewrite append_assoc in K. exact K.
Qed.

Lemma one_byte_lookahead_witness :
  parse_value 2 ("12" ++ String "," "") = Ok (of_int 12, String "," "").
Proof.
  apply (one_byte_lookahead 2 "12" "3]" "" "," (of_int 12)). reflexivity.
Defined.
